(** * Feature Workflow extension: the orchestration engine, embedded in Rocq

    A shallow embedding of the TypeScript sources of the extension
    (featureModel.ts, workflowStatus.ts, planParser.ts, gitUtils.ts,
    codeReview.ts, claudeReview.ts, reviewLoop.ts, buildLoop.ts,
    workflowCommands.ts) followed by the properties of the workflow
    specification that are settled against it.

    Layout: the embedding comes first (one module per source file), the
    theorems afterwards (module [Properties]). *)

From Stdlib Require Import NArith Lia Bool Sorting.Sorted Sorting.Permutation.
From stdpp Require Import base option list strings gmap.

Local Open Scope string_scope.
Local Open Scope list_scope.
Local Open Scope N_scope.

(* ===================================================================== *)
(** * featureModel.ts *)
(* ===================================================================== *)

Module FeatureModel.

(** [type FeatureStatus = "requested" | "draft" | ... | "implemented"] *)
Inductive FeatureStatus : Type :=
| requested
| draft
| spec_reviewed
| plan_created
| plan_reviewed
| ready_for_build
| building
| code_review
| testing
| implemented.

#[global] Instance FeatureStatus_eq_dec : EqDecision FeatureStatus.
Proof. solve_decision. Defined.

(** All ten members of the union type, in declaration order. *)
Definition all_statuses : list FeatureStatus :=
  [requested; draft; spec_reviewed; plan_created; plan_reviewed;
   ready_for_build; building; code_review; testing; implemented].

(** The string literal each member stands for (what is written to and read
    from the [status:] line of a status file). *)
Definition status_name (s : FeatureStatus) : string :=
  match s with
  | requested => "requested"
  | draft => "draft"
  | spec_reviewed => "spec-reviewed"
  | plan_created => "plan-created"
  | plan_reviewed => "plan-reviewed"
  | ready_for_build => "ready-for-build"
  | building => "building"
  | code_review => "code-review"
  | testing => "testing"
  | implemented => "implemented"
  end.

(** [export const allowedTransitions: Record<FeatureStatus, FeatureStatus[]>] *)
Definition allowedTransitions (from : FeatureStatus) : list FeatureStatus :=
  match from with
  | requested => [draft]
  | draft => [spec_reviewed]
  | spec_reviewed => [plan_created]
  | plan_created => [plan_reviewed]
  | plan_reviewed => [ready_for_build]
  | ready_for_build => [building]
  | building => [code_review]
  | code_review => [testing; building]
  | testing => [implemented; building]
  | implemented => []
  end.

(** [Array.prototype.includes] on an array of status literals. *)
Fixpoint includes (l : list FeatureStatus) (x : FeatureStatus) : bool :=
  match l with
  | [] => false
  | y :: l' => if decide (y = x) then true else includes l' x
  end.

(** [return allowedTransitions[from]?.includes(to) ?? false;]
    On a typed [from] the record lookup is always defined, so the
    [?.]/[??] fallback is never taken. *)
Definition canTransition (from to : FeatureStatus) : bool :=
  includes (allowedTransitions from) to.

(** [export interface FeatureMeta] ([owner] plays no part in the engine) *)
Record FeatureMeta : Type := mkFeatureMeta {
  id : string;
  name : string;
  status : FeatureStatus
}.

(** [export interface Feature]; an optional path is [None] when undefined. *)
Record Feature : Type := mkFeature {
  meta : FeatureMeta;
  statusPath : string;
  specPath : string;
  specReviewPath : option string;
  planPath : option string;
  planReviewPath : option string;
  requestPath : option string;
  codeReviewPath : option string
}.

(** JavaScript truthiness of a string and of an optional string: [""] and
    [undefined] are falsy. *)
Definition truthy (s : string) : bool :=
  match s with EmptyString => false | String _ _ => true end.

Definition truthy_opt (o : option string) : bool :=
  match o with Some s => truthy s | None => false end.

End FeatureModel.

(* ===================================================================== *)
(** * JavaScript strings and the regular expressions the sources use *)
(* ===================================================================== *)

Module Js.

(** A JavaScript string is a sequence of UTF-16 code units.  The patterns of
    the sources mention code units above 127 (the en and em dash of the phase
    header, the Unicode members of [\s]), so text is kept as [list N] rather
    than as a byte string. *)
Definition char : Type := N.

(** An ASCII literal of the sources, as code units. *)
Definition js (s : string) : list N :=
  map Ascii.N_of_ascii (String.list_ascii_of_string s).

Definition mem (c : N) (l : list N) : bool := existsb (N.eqb c) l.

(** [\s]: WhiteSpace and LineTerminator of ECMAScript; also the set that
    [String.prototype.trim] strips. *)
Definition is_space (c : N) : bool :=
  mem c [9; 10; 11; 12; 13; 32; 160; 5760; 8232; 8233; 8239; 8287; 12288; 65279]
  || ((8192 <=? c) && (c <=? 8202)).

(** [\d] *)
Definition is_digit (c : N) : bool := (48 <=? c) && (c <=? 57).

(** [.] without the [s] flag: anything but a line terminator. *)
Definition is_dot (c : N) : bool := negb (mem c [10; 13; 8232; 8233]).

(** ASCII upper-casing of one code unit. *)
Definition upper_ascii (c : N) : N :=
  if (97 <=? c) && (c <=? 122) then c - 32 else c.

(** Comparison of a pattern character [a] with an input code unit [x] under
    the [i] flag.  ECMAScript compares [Canonicalize a] with [Canonicalize x];
    without the [u] flag, Canonicalize upper-cases a code unit but never maps
    a code unit >= 128 to one < 128.  Every pattern character of the sources
    is ASCII, or is U+2013 / U+2014, which have no case mapping; for those
    pattern characters the comparison is the one below. *)
Definition ci_eq (a x : N) : bool := upper_ascii a =? upper_ascii x.

(** [String.prototype.toUpperCase], on the ASCII range (it is only applied to
    a capture of [NONE|MINOR|MAJOR] or [YES|NO] matched under [i]). *)
Definition toUpperCase (s : list N) : list N := map upper_ascii s.

(** [String.prototype.trimStart], [trimEnd], [trim] *)
Fixpoint trimStart (s : list N) : list N :=
  match s with
  | c :: s' => if is_space c then trimStart s' else s
  | [] => []
  end.

Definition trimEnd (s : list N) : list N := rev (trimStart (rev s)).

Definition trim (s : list N) : list N := trimEnd (trimStart s).

(** [s.split("\n")]: always at least one piece. *)
Fixpoint split_nl (s : list N) : list (list N) :=
  match s with
  | [] => [[]]
  | c :: s' =>
      if c =? 10 then [] :: split_nl s'
      else match split_nl s' with
           | l :: ls => (c :: l) :: ls
           | [] => [[c]]
           end
  end.

(** [lines.join("\n")] *)
Fixpoint join_nl (ls : list (list N)) : list N :=
  match ls with
  | [] => []
  | [l] => l
  | l :: ls' => l ++ 10 :: join_nl ls'
  end.

(** [parseInt(digits, 10)] on a run of decimal digits.  The JavaScript result
    is a double; it is this integer exactly for values below 2^53. *)
Definition parseInt (ds : list N) : N :=
  fold_left (fun acc d => 10 * acc + (d - 48)) ds 0.

(** ** Regular expressions

    The fragment used by the sources: anchors, pattern characters (all the
    regexes carry the [i] flag), character classes, greedy [*] and [+] on a
    class, sequence, ordered alternation and numbered capture groups. *)
Inductive regex : Type :=
| Eps
| Bol
| Eol
| Chr (a : N)
| Cls (p : N -> bool)
| Star (p : N -> bool)
| Plus (p : N -> bool)
| Seq (r1 r2 : regex)
| Alt (r1 r2 : regex)
| Grp (i : nat) (r : regex).

(** The pattern spelled by a run of literal characters. *)
Fixpoint lit_chars (l : list N) : regex :=
  match l with
  | [] => Eps
  | a :: l' => Seq (Chr a) (lit_chars l')
  end.

Definition lit (s : string) : regex := lit_chars (js s).

(** Captures, newest first. *)
Definition captures : Type := list (nat * list N).

Fixpoint capture (i : nat) (c : captures) : option (list N) :=
  match c with
  | [] => None
  | (j, s) :: c' => if Nat.eqb i j then Some s else capture i c'
  end.

(** Backtracking matcher in continuation-passing style, with the priorities
    of ECMAScript: a greedy quantifier first tries to take one more
    character and gives it back when the rest fails; an alternation tries
    its left branch first. *)
Fixpoint star {R : Type} (p : N -> bool) (s : list N)
    (k : list N -> option R) : option R :=
  match s with
  | x :: s' =>
      if p x then
        match star p s' k with
        | Some r => Some r
        | None => k s
        end
      else k s
  | [] => k []
  end.

(** [run n r s c k]: match [r] at the front of [s], the remaining input of a
    subject of length [n], then continue with [k]. *)
Fixpoint run {R : Type} (n : nat) (r : regex) (s : list N) (c : captures)
    (k : list N -> captures -> option R) : option R :=
  match r with
  | Eps => k s c
  | Bol => if Nat.eqb (length s) n then k s c else None
  | Eol => match s with [] => k s c | _ :: _ => None end
  | Chr a =>
      match s with
      | x :: s' => if ci_eq a x then k s' c else None
      | [] => None
      end
  | Cls p =>
      match s with
      | x :: s' => if p x then k s' c else None
      | [] => None
      end
  | Star p => star p s (fun s' => k s' c)
  | Plus p =>
      match s with
      | x :: s' => if p x then star p s' (fun s'' => k s'' c) else None
      | [] => None
      end
  | Seq r1 r2 => run n r1 s c (fun s1 c1 => run n r2 s1 c1 k)
  | Alt r1 r2 =>
      match run n r1 s c k with
      | Some res => Some res
      | None => run n r2 s c k
      end
  | Grp i r1 =>
      run n r1 s c
        (fun s1 c1 => k s1 ((i, take (length s - length s1)%nat s) :: c1))
  end.

(** Leftmost match: try every start position from the left. *)
Fixpoint search (n : nat) (r : regex) (s : list N) : option captures :=
  match run n r s [] (fun _ c => Some c) with
  | Some c => Some c
  | None =>
      match s with
      | [] => None
      | _ :: s' => search n r s'
      end
  end.

(** [regex.exec(input)] (equally [input.match(regex)] without the [g] flag):
    the captures of the leftmost match, or [None] for [null]. *)
Definition exec (r : regex) (input : list N) : option captures :=
  search (length input) r input.

(** [regex.test(input)] *)
Definition test (r : regex) (input : list N) : bool :=
  match exec r input with Some _ => true | None => false end.

End Js.

(* ===================================================================== *)
(** * The verdict parsers of claudeReview.ts and buildLoop.ts *)
(* ===================================================================== *)

Module Verdict.
Import Js.

(** The return type of both parsers:
    [{ hasMajorIssues: boolean; hasMinorIssues: boolean }]. *)
Record verdict : Type := mkVerdict {
  hasMajorIssues : bool;
  hasMinorIssues : bool
}.

(** The three-valued classification of the specification. *)
Inductive classification : Type := NONE | MINOR | MAJOR.

Definition classify (v : verdict) : classification :=
  if hasMajorIssues v then MAJOR
  else if hasMinorIssues v then MINOR
  else NONE.

(** [/\*\*Action Required\*\*:\s*(NONE|MINOR|MAJOR)/i] *)
Definition re_action : regex :=
  Seq (lit "**Action Required**:")
   (Seq (Star is_space)
        (Grp 1 (Alt (lit "NONE") (Alt (lit "MINOR") (lit "MAJOR"))))).

(** [/\*\*Builder Must Fix\*\*:\s*(YES|NO)/i] *)
Definition re_builder : regex :=
  Seq (lit "**Builder Must Fix**:")
   (Seq (Star is_space) (Grp 1 (Alt (lit "YES") (lit "NO")))).

(** [/\*\*Status:\s*Major Issues Found\*\*/i] *)
Definition re_status_major : regex :=
  Seq (lit "**Status:") (Seq (Star is_space) (lit "Major Issues Found**")).

(** [/\*\*Status:\s*No Major Issues\*\*/i] *)
Definition re_status_no_major : regex :=
  Seq (lit "**Status:") (Seq (Star is_space) (lit "No Major Issues**")).

(** [/\*\*Status:\s*Minor Issues Only\*\*/i] *)
Definition re_status_minor : regex :=
  Seq (lit "**Status:") (Seq (Star is_space) (lit "Minor Issues Only**")).

(** [actionMatch[1].toUpperCase() === word] *)
Definition group1_is (c : captures) (word : string) : bool :=
  match capture 1 c with
  | Some s => bool_decide (toUpperCase s = js word)
  | None => false
  end.

(** claudeReview.ts, [parseVerdictBlock] *)
Definition parseVerdictBlock (reviewText : list N) : verdict :=
  match exec re_action reviewText with
  | Some actionMatch =>
      {| hasMajorIssues := group1_is actionMatch "MAJOR";
         hasMinorIssues := group1_is actionMatch "MINOR" |}
  | None =>
      let builderMustFixMatch := exec re_builder reviewText in
      if match builderMustFixMatch with
         | Some m => group1_is m "NO"
         | None => false
         end
      then {| hasMajorIssues := false; hasMinorIssues := false |}
      else if test re_status_major reviewText
      then {| hasMajorIssues := true; hasMinorIssues := false |}
      else if test re_status_no_major reviewText
      then {| hasMajorIssues := false;
              hasMinorIssues := test re_status_minor reviewText |}
      else {| hasMajorIssues := false; hasMinorIssues := false |}
  end.

(** buildLoop.ts, [parseReviewerVerdict] *)
Definition parseReviewerVerdict (reviewText : list N) : verdict :=
  match exec re_action reviewText with
  | Some actionMatch =>
      {| hasMajorIssues := group1_is actionMatch "MAJOR";
         hasMinorIssues := group1_is actionMatch "MINOR" |}
  | None =>
      let builderMustFixMatch := exec re_builder reviewText in
      if match builderMustFixMatch with
         | Some m => group1_is m "NO"
         | None => false
         end
      then {| hasMajorIssues := false; hasMinorIssues := false |}
      else if test re_status_no_major reviewText
      then {| hasMajorIssues := false;
              hasMinorIssues := test re_status_minor reviewText |}
      else {| hasMajorIssues := false; hasMinorIssues := false |}
  end.

End Verdict.

(* ===================================================================== *)
(** * planParser.ts *)
(* ===================================================================== *)

Module PlanParser.
Import Js.

(** [export interface Phase] *)
Record Phase : Type := mkPhase {
  number : N;
  description : list N;
  content : list N
}.

(** The separator class [[:.\-–—]]: colon, full stop, hyphen, en dash
    (U+2013), em dash (U+2014). *)
Definition is_sep (c : N) : bool := mem c [58; 46; 45; 8211; 8212].

(** [/^##\s*Phase\s+(\d+)\s*[:.\-–—]\s*(.+)$/i], applied to one line (no [m]
    flag: [^] and [$] are the ends of the line). *)
Definition re_phase : regex :=
  Seq Bol
   (Seq (lit "##")
   (Seq (Star is_space)
   (Seq (lit "Phase")
   (Seq (Plus is_space)
   (Seq (Grp 1 (Plus is_digit))
   (Seq (Star is_space)
   (Seq (Cls is_sep)
   (Seq (Star is_space)
   (Seq (Grp 2 (Plus is_dot))
        Eol))))))))).

(** [line.match(...)] together with the construction of the new phase:
    [{ number: parseInt(match[1], 10), description: match[2].trim(),
       content: "" }] *)
Definition header (line : list N) : option Phase :=
  match exec re_phase line with
  | Some m =>
      match capture 1 m, capture 2 m with
      | Some g1, Some g2 =>
          Some {| number := parseInt g1; description := trim g2; content := [] |}
      | _, _ => None
      end
  | None => None
  end.

(** The local variables of the loop over the lines. *)
Record scan_state : Type := mkScan {
  phases : list Phase;
  currentPhase : option Phase;
  currentContent : list (list N)
}.

(** [currentPhase.content = currentContent.join("\n").trim();
     phases.push(currentPhase);] when a phase is open. *)
Definition close_phase (st : scan_state) : list Phase :=
  match currentPhase st with
  | Some p =>
      phases st ++
      [{| number := number p; description := description p;
          content := trim (join_nl (currentContent st)) |}]
  | None => phases st
  end.

(** One iteration of [for (const line of lines)]. *)
Definition scan_line (st : scan_state) (line : list N) : scan_state :=
  match header line with
  | Some p =>
      {| phases := close_phase st;
         currentPhase := Some p;
         currentContent := [line] |}
  | None =>
      match currentPhase st with
      | Some _ =>
          {| phases := phases st;
             currentPhase := currentPhase st;
             currentContent := currentContent st ++ [line] |}
      | None => st
      end
  end.

(** [phases.sort((a, b) => a.number - b.number)]: [Array.prototype.sort] is
    stable; modelled as a stable insertion sort on the phase number. *)
Fixpoint insert_phase (p : Phase) (l : list Phase) : list Phase :=
  match l with
  | [] => [p]
  | q :: l' =>
      if number q <=? number p then q :: insert_phase p l' else p :: l
  end.

Definition sort_phases (l : list Phase) : list Phase :=
  fold_left (fun acc p => insert_phase p acc) l [].

(** [export function parsePlanPhasesFromContent(content: string): Phase[]] *)
Definition parsePlanPhasesFromContent (text : list N) : list Phase :=
  let lines := split_nl text in
  let st :=
    fold_left scan_line lines
      {| phases := []; currentPhase := None; currentContent := [] |} in
  sort_phases (close_phase st).

End PlanParser.

(* ===================================================================== *)
(** * The world the engine runs in *)
(* ===================================================================== *)

Module World.
Import FeatureModel.

(** The [source] tag of a history line:
    ["system"], ["user"], ["claude"], ["openai"], ["claude-reviewer"]. *)
Inductive Source : Type :=
| system | user | claude | openai | claude_reviewer.

(** A message built by a template literal: its fragments in order.
    [Err e] is [${e}] for an optional error string, [ErrOr e d] is
    [${e || d}]. *)
Inductive Frag : Type :=
| T (s : string)
| Num (n : N)
| Txt (t : list N)
| Err (e : option string)
| ErrOr (e : option string) (d : string).

Definition Message : Type := list Frag.

(** [export interface ClaudeCodeResult] (claudeCode.ts).  [finalText] is the
    text block of the last assistant record of [output] that has a non-empty
    one: what the JSON-lines scans of [extractIntentSummary] and
    [parseClaudeReviewOutput] find.  The JSON decoding itself is not
    modelled. *)
Record ClaudeCodeResult : Type := mkClaudeCodeResult {
  cc_success : bool;
  cc_output : list N;
  cc_finalText : option (list N);
  cc_error : option string
}.

(** [export interface ReviewResult] (openaiReview.ts, claudeReview.ts) *)
Record ReviewResult : Type := mkReviewResult {
  rr_success : bool;
  rr_hasMajorIssues : bool;
  rr_reviewContent : list N;
  rr_error : option string
}.

(** [export interface CodeReviewResult] (codeReview.ts, claudeReview.ts) *)
Record CodeReviewResult : Type := mkCodeReviewResult {
  cr_success : bool;
  cr_hasMajorIssues : bool;
  cr_hasMinorIssues : bool;
  cr_reviewContent : list N;
  cr_error : option string
}.

(** [export interface GitDiffResult] (gitUtils.ts) *)
Record GitDiffResult : Type := mkGitDiffResult {
  diff : list N;
  filesChanged : list (list N);
  hasChanges : bool
}.

(** [export type ReviewerProvider = "openai" | "claude"] (config.ts) *)
Inductive ReviewerProvider : Type := provider_openai | provider_claude.

(** [buildReviewMode: "openai-only" | "architect-only" | "both"] *)
Inductive BuildReviewMode : Type := openai_only | architect_only | both.

Inductive Artifact : Type := art_spec | art_plan.

(** The prompt handed to the Claude Code CLI, by the template it is built
    from (config.ts) and the values substituted into it. *)
Inductive Prompt : Type :=
| SpecGenerationUser
| PlanGenerationUser
| ReviewIncorporation (a : Artifact) (reviewContent : list N)
| BuildPhaseUser (phaseNumber : N)
| BuildReviewIncorporation (phaseNumber : N) (reviewContent : list N)
| ClaudeBuilderReviewUser (phaseNumber : N) (diffSummary : list N)
| ClaudeSpecReviewUser
| ClaudePlanReviewUser
| ClaudeCodeReviewUser (phaseNumber : N) (gitDiff intentSummary : list N).

(** The commands [getStagedDiff] runs. *)
Inductive GitCommand : Type :=
| git_add_all            (* git add -A *)
| git_diff_staged        (* git diff --staged *)
| git_diff_staged_names. (* git diff --staged --name-only *)

Inductive NotifyLevel : Type := info | warning | error.

(** What the loop made of the reviews of one build iteration (the values of
    [hasMajor] and [hasOnlyMinor] of buildLoop.ts). *)
Inductive Severity : Type := sev_none | sev_minor | sev_major.

(** The calls the engine makes to its collaborators, with what came back. *)
Inductive Event : Type :=
| EvSession (p : Prompt) (sessionId : nat) (isResume : bool)
    (r : ClaudeCodeResult)                 (* runClaudeCodeWithProgress *)
| EvSpecReview (r : ReviewResult)          (* reviewSpec returned r *)
| EvPlanReview (r : ReviewResult)          (* reviewPlan returned r *)
| EvCodeReview (r : CodeReviewResult)      (* reviewCode returned r *)
| EvDiff (r : GitDiffResult)               (* getStagedDiff returned r *)
| EvSeverity (iteration : N) (s : Severity)
| EvLog (src : Source) (m : Message)       (* logToFeatureHistory *)
| EvStatus (st : FeatureStatus) (src : Source) (m : Message)
                                           (* updateFeatureStatus *)
| EvNotify (lvl : NotifyLevel) (m : Message). (* vscode.window.show...Message *)

(** One history line of a status file, [<timestamp>  [<source>]  <message>];
    the timestamp comes from the wall clock and is left out. *)
Record HistoryLine : Type := mkHistoryLine {
  hl_source : Source;
  hl_message : Message
}.

(** A status file as [parseFrontmatter] sees it: the key/value block and the
    body, the body being the history lines, newest first. *)
Record StatusFile : Type := mkStatusFile {
  frontmatter : gmap string string;
  history : list HistoryLine
}.

(** The state the engine acts on: the status file of the feature ([None]
    when [fs.readFile] on it throws), the number of session identities
    handed out so far, and the calls made so far, in the order they were
    made. *)
Record world : Type := mkWorld {
  statusFile : option StatusFile;
  sessionsCreated : nat;
  trace : list Event
}.

(** The collaborators.  Each answer may depend on everything that happened
    before (the trace so far). *)
Record Env : Type := mkEnv {
  (* settings, read once per command *)
  reviewerProvider : ReviewerProvider;
  maxReviewIterations : nat;
  maxBuildIterations : nat;
  buildReviewMode : BuildReviewMode;
  (* [claude --version] exits with 0 *)
  claudeVersionOk : list Event -> bool;
  (* getOpenAIApiKey() is non-empty *)
  openaiApiKey : list Event -> bool;
  (* vscode.workspace.workspaceFolders?.[0] exists *)
  workspaceFolder : list Event -> bool;
  (* [git rev-parse --git-dir] succeeds *)
  gitRevParseOk : list Event -> bool;
  (* stdout of a git command, [None] when execAsync rejects *)
  gitExec : list Event -> GitCommand -> option (list N);
  (* what one run of the Claude Code CLI comes back with *)
  claudeCli : list Event -> Prompt -> nat -> bool -> ClaudeCodeResult;
  (* one request to the review API, rendered: [None] when the request or
     the decoding of its answer throws or the answer is empty, else
     (hasMajorIssues, minorIssues.length > 0, markdown) *)
  openaiApi : list Event -> option (bool * bool * list N);
  (* fs.readFile of a path, [None] when it throws *)
  readFile : list Event -> string -> option (list N);
  (* fs.writeFile of a review file succeeds *)
  writeFileOk : list Event -> bool
}.

(** State passing. *)
Definition M (A : Type) : Type := world -> A * world.

Definition ret {A : Type} (a : A) : M A := fun w => (a, w).

Definition bind {A B : Type} (m : M A) (k : A -> M B) : M B :=
  fun w => let (a, w') := m w in k a w'.

Definition emit (e : Event) : M unit :=
  fun w => (tt, {| statusFile := statusFile w;
                   sessionsCreated := sessionsCreated w;
                   trace := trace w ++ [e] |}).

(** Ask a collaborator, showing it the trace so far. *)
Definition ask {A : Type} (q : list Event -> A) : M A :=
  fun w => (q (trace w), w).

End World.

Notation "x <- m ;; k" := (World.bind m (fun x => k))
  (at level 100, m at next level, right associativity).
Notation "m ;;; k" := (World.bind m (fun _ => k))
  (at level 100, right associativity).

(* ===================================================================== *)
(** * claudeCode.ts *)
(* ===================================================================== *)

Module ClaudeCode.
Import World.

(** [crypto.randomUUID()]: an identity that was never handed out before;
    the identities are numbered in the order of their creation. *)
Definition generateSessionId : M nat :=
  fun w => (sessionsCreated w,
            {| statusFile := statusFile w;
               sessionsCreated := S (sessionsCreated w);
               trace := trace w |}).

(** [isClaudeCodeInstalled] followed by the error message of
    [ensureClaudeCodeInstalled]. *)
Definition ensureClaudeCodeInstalled (env : Env) : M bool :=
  installed <- ask (claudeVersionOk env) ;;
  if installed then ret true
  else
    emit (EvNotify error
            [T "Claude Code CLI is not installed or not in PATH. Please install it to use generation features."]) ;;;
    ret false.

(** [runClaudeCodeWithProgress(prompt, workspaceRoot, title, sessionId,
    isResume)]: one process per call, [--resume sessionId] when [isResume],
    [--session-id sessionId] otherwise.  The result is the one the function
    resolves to (after the cancellation check); the working directory and
    the progress title are left out. *)
Definition runClaudeCodeWithProgress (env : Env) (prompt : Prompt)
    (sessionId : nat) (isResume : bool) : M ClaudeCodeResult :=
  r <- ask (fun tr => claudeCli env tr prompt sessionId isResume) ;;
  emit (EvSession prompt sessionId isResume r) ;;;
  ret r.

End ClaudeCode.

(* ===================================================================== *)
(** * workflowStatus.ts *)
(* ===================================================================== *)

Module WorkflowStatus.
Import FeatureModel World.

Definition set_statusFile (f : StatusFile) (w : world) : world :=
  {| statusFile := Some f;
     sessionsCreated := sessionsCreated w;
     trace := trace w |}.

(** [export async function logToFeatureHistory(statusFilePath, source,
    message)]: the frontmatter is written back unchanged and the new line is
    put in front of the body; a failure is caught and shown. *)
Definition logToFeatureHistory (source : Source) (message : Message) : M unit :=
  emit (EvLog source message) ;;;
  fun w =>
    match statusFile w with
    | Some f =>
        (tt, set_statusFile
               {| frontmatter := frontmatter f;
                  history := {| hl_source := source; hl_message := message |}
                             :: history f |} w)
    | None =>
        emit (EvNotify error [T "Failed to log to feature history: "]) w
    end.

(** [export async function updateFeatureStatus(statusFilePath, newStatus,
    source, message)]: [frontmatter["status"] = newStatus], a new history
    line in front of the body, the file written back, the updated
    frontmatter returned; [null] when reading or writing throws. *)
Definition updateFeatureStatus (newStatus : FeatureStatus) (source : Source)
    (message : Message) : M (option (gmap string string)) :=
  emit (EvStatus newStatus source message) ;;;
  fun w =>
    match statusFile w with
    | Some f =>
        let fm := <["status" := status_name newStatus]> (frontmatter f) in
        (Some fm,
         set_statusFile
           {| frontmatter := fm;
              history := {| hl_source := source; hl_message := message |}
                         :: history f |} w)
    | None =>
        (emit (EvNotify error [T "Failed to update status for feature: "]) ;;;
         ret None) w
    end.

End WorkflowStatus.

(* ===================================================================== *)
(** * gitUtils.ts *)
(* ===================================================================== *)

Module GitUtils.
Import Js World.

Definition no_changes : GitDiffResult :=
  {| diff := []; filesChanged := []; hasChanges := false |}.

(** The body of [getStagedDiff], given what each [execAsync] call does:
    its stdout, or [None] when it rejects (spawn error or nonzero exit).
    The first rejection jumps to the [catch] block. *)
Definition stagedDiff (exec : GitCommand -> option (list N)) : GitDiffResult :=
  match exec git_add_all with
  | None => no_changes
  | Some _ =>
      match exec git_diff_staged with
      | None => no_changes
      | Some stdout =>
          match exec git_diff_staged_names with
          | None => no_changes
          | Some filesOutput =>
              {| diff := trim stdout;
                 filesChanged :=
                   filter (fun l => l <> []) (split_nl (trim filesOutput));
                 hasChanges := negb (Nat.eqb (length (trim stdout)) 0) |}
          end
      end
  end.

(** [export async function getStagedDiff(workspaceRoot)] *)
Definition getStagedDiff (env : Env) : M GitDiffResult :=
  r <- ask (fun tr => stagedDiff (gitExec env tr)) ;;
  emit (EvDiff r) ;;;
  ret r.

(** [export async function isGitAvailable(workspaceRoot)] *)
Definition isGitAvailable (env : Env) : M bool := ask (gitRevParseOk env).

End GitUtils.

(* ===================================================================== *)
(** * openaiReview.ts *)
(* ===================================================================== *)

Module OpenaiReview.
Import FeatureModel World.

Definition failed (e : string) : ReviewResult :=
  {| rr_success := false; rr_hasMajorIssues := true;
     rr_reviewContent := []; rr_error := Some e |}.

(** [export function isOpenAIConfigured()] and [ensureOpenAIConfigured()] *)
Definition ensureOpenAIConfigured (env : Env) : M bool :=
  configured <- ask (openaiApiKey env) ;;
  if configured then ret true
  else
    emit (EvNotify error
            [T "OpenAI API key not configured. Set OPENAI_API_KEY environment variable or featureWorkflow.openaiApiKey in settings."]) ;;;
    ret false.

(** [reviewSpec(specPath, reviewOutputPath)] and [reviewPlan(planPath,
    reviewOutputPath)] have the same shape: key check, read the artifact,
    one API request, render, write the review file.  Whatever is thrown
    inside the [try] becomes a failed result (its text is not modelled). *)
Definition review (env : Env) (artifactPath : string) : M ReviewResult :=
  apiKey <- ask (openaiApiKey env) ;;
  if negb apiKey then ret (failed "OpenAI API key not configured.")
  else
    artifact <- ask (fun tr => readFile env tr artifactPath) ;;
    match artifact with
    | None => ret (failed "exception")
    | Some _ =>
        response <- ask (openaiApi env) ;;
        match response with
        | None => ret (failed "No response from OpenAI")
        | Some (hasMajor, _, markdown) =>
            written <- ask (writeFileOk env) ;;
            if written then
              ret {| rr_success := true; rr_hasMajorIssues := hasMajor;
                     rr_reviewContent := markdown; rr_error := None |}
            else ret (failed "exception")
        end
    end.

Definition reviewSpec (env : Env) (specPath : string) : M ReviewResult :=
  review env specPath.

Definition reviewPlan (env : Env) (planPath : string) : M ReviewResult :=
  review env planPath.

End OpenaiReview.

(* ===================================================================== *)
(** * claudeReview.ts *)
(* ===================================================================== *)

Module ClaudeReview.
Import FeatureModel World ClaudeCode Verdict.

(** [parseClaudeReviewOutput(output)]: the last assistant text, or the raw
    output when there is none, then [parseVerdictBlock]. *)
Definition review_text (r : ClaudeCodeResult) : list N :=
  match cc_finalText r with
  | Some (c :: t) => c :: t
  | _ => cc_output r
  end.

Definition parseClaudeReviewOutput (r : ClaudeCodeResult)
    : bool * bool * list N :=
  let v := parseVerdictBlock (review_text r) in
  (hasMajorIssues v, hasMinorIssues v, review_text r).

Definition failed (e : string) : ReviewResult :=
  {| rr_success := false; rr_hasMajorIssues := true;
     rr_reviewContent := []; rr_error := Some e |}.

Definition code_failed (e : string) : CodeReviewResult :=
  {| cr_success := false; cr_hasMajorIssues := true;
     cr_hasMinorIssues := false; cr_reviewContent := [];
     cr_error := Some e |}.

Definition or_default (e : option string) (d : string) : string :=
  match e with
  | Some s => if truthy s then s else d
  | None => d
  end.

(** [reviewSpecWithClaude] and [reviewPlanWithClaude] differ only in the
    prompt: a session identity generated inside the call, one CLI run with
    [isResume = false], the verdict parsed from its output, the review file
    written. *)
Definition reviewWithClaude (env : Env) (prompt : Prompt) : M ReviewResult :=
  installed <- ensureClaudeCodeInstalled env ;;
  if negb installed then ret (failed "Claude Code CLI is not installed")
  else
    workspaceRoot <- ask (workspaceFolder env) ;;
    if negb workspaceRoot then ret (failed "No workspace folder open")
    else
      reviewerSessionId <- generateSessionId ;;
      result <- runClaudeCodeWithProgress env prompt reviewerSessionId false ;;
      if negb (cc_success result)
      then ret (failed (or_default (cc_error result) "Claude Code review failed"))
      else
        let '(hasMajor, _, content) := parseClaudeReviewOutput result in
        written <- ask (writeFileOk env) ;;
        if written then
          ret {| rr_success := true; rr_hasMajorIssues := hasMajor;
                 rr_reviewContent := content; rr_error := None |}
        else ret (failed "exception").

Definition reviewSpecWithClaude (env : Env) : M ReviewResult :=
  reviewWithClaude env ClaudeSpecReviewUser.

Definition reviewPlanWithClaude (env : Env) : M ReviewResult :=
  reviewWithClaude env ClaudePlanReviewUser.

(** [reviewCodeWithClaude(specPath, planPath, gitDiff, phaseNumber,
    intentSummary, reviewOutputPath)] *)
Definition reviewCodeWithClaude (env : Env) (specPath planPath : string)
    (gitDiff : list N) (phaseNumber : N) (intentSummary : list N)
    : M CodeReviewResult :=
  installed <- ensureClaudeCodeInstalled env ;;
  if negb installed then ret (code_failed "Claude Code CLI is not installed")
  else
    workspaceRoot <- ask (workspaceFolder env) ;;
    if negb workspaceRoot then ret (code_failed "No workspace folder open")
    else if Nat.eqb (length (Js.trim gitDiff)) 0
    then ret (code_failed "No code changes to review")
    else
      specContent <- ask (fun tr => readFile env tr specPath) ;;
      planContent <- ask (fun tr => readFile env tr planPath) ;;
      match specContent, planContent with
      | Some _, Some _ =>
          reviewerSessionId <- generateSessionId ;;
          result <- runClaudeCodeWithProgress env
                      (ClaudeCodeReviewUser phaseNumber gitDiff intentSummary)
                      reviewerSessionId false ;;
          if negb (cc_success result)
          then ret (code_failed
                      (or_default (cc_error result) "Claude Code review failed"))
          else
            let '(hasMajor, hasMinor, content) :=
              parseClaudeReviewOutput result in
            written <- ask (writeFileOk env) ;;
            if written then
              ret {| cr_success := true; cr_hasMajorIssues := hasMajor;
                     cr_hasMinorIssues := hasMinor;
                     cr_reviewContent := content; cr_error := None |}
            else ret (code_failed "exception")
      | _, _ => ret (code_failed "exception")
      end.

(** [ensureClaudeReviewerConfigured()] *)
Definition ensureClaudeReviewerConfigured (env : Env) : M bool :=
  ensureClaudeCodeInstalled env.

End ClaudeReview.

(* ===================================================================== *)
(** * codeReview.ts *)
(* ===================================================================== *)

Module CodeReview.
Import FeatureModel World.

(** [reviewCodeWithOpenAI(...)] *)
Definition reviewCodeWithOpenAI (env : Env) (specPath planPath : string)
    (gitDiff : list N) : M CodeReviewResult :=
  apiKey <- ask (openaiApiKey env) ;;
  if negb apiKey
  then ret (ClaudeReview.code_failed "OpenAI API key not configured.")
  else if Nat.eqb (length (Js.trim gitDiff)) 0
  then ret (ClaudeReview.code_failed "No code changes to review")
  else
    specContent <- ask (fun tr => readFile env tr specPath) ;;
    planContent <- ask (fun tr => readFile env tr planPath) ;;
    match specContent, planContent with
    | Some _, Some _ =>
        response <- ask (openaiApi env) ;;
        match response with
        | None => ret (ClaudeReview.code_failed "No response from OpenAI")
        | Some (hasMajor, hasMinor, markdown) =>
            written <- ask (writeFileOk env) ;;
            if written then
              ret {| cr_success := true; cr_hasMajorIssues := hasMajor;
                     cr_hasMinorIssues := hasMinor;
                     cr_reviewContent := markdown; cr_error := None |}
            else ret (ClaudeReview.code_failed "exception")
        end
    | _, _ => ret (ClaudeReview.code_failed "exception")
    end.

(** [export async function reviewCode(..., provider)] *)
Definition reviewCode (env : Env) (specPath planPath : string)
    (gitDiff : list N) (phaseNumber : N) (intentSummary : list N)
    (provider : ReviewerProvider) : M CodeReviewResult :=
  r <- match provider with
       | provider_claude =>
           ClaudeReview.reviewCodeWithClaude env specPath planPath gitDiff
             phaseNumber intentSummary
       | provider_openai =>
           reviewCodeWithOpenAI env specPath planPath gitDiff
       end ;;
  emit (EvCodeReview r) ;;;
  ret r.

(** [export function mergeReviewFeedback(primaryReview, architectReview?)] *)
Definition mergeReviewFeedback (primaryReview : CodeReviewResult)
    (architectReview : option CodeReviewResult) : list N :=
  let parts1 :=
    if cr_success primaryReview
    then [Js.js "## Reviewer Feedback" ++ [10]; cr_reviewContent primaryReview]
    else [] in
  let parts2 :=
    match architectReview with
    | Some a =>
        if cr_success a
        then [10 :: Js.js "## ARCHITECT Review" ++ [10]; cr_reviewContent a]
        else []
    | None => []
    end in
  Js.join_nl (parts1 ++ parts2).

(** [export function hasAnyMajorIssues(primaryReview, architectReview?)] *)
Definition hasAnyMajorIssues (primaryReview : CodeReviewResult)
    (architectReview : option CodeReviewResult) : bool :=
  cr_hasMajorIssues primaryReview
  || match architectReview with
     | Some a => cr_hasMajorIssues a
     | None => false
     end.

(** [export function hasOnlyMinorIssues(primaryReview, architectReview?)] *)
Definition hasOnlyMinorIssues (primaryReview : CodeReviewResult)
    (architectReview : option CodeReviewResult) : bool :=
  if hasAnyMajorIssues primaryReview architectReview then false
  else
    cr_hasMinorIssues primaryReview
    || match architectReview with
       | Some a => cr_hasMinorIssues a
       | None => false
       end.

End CodeReview.

(* ===================================================================== *)
(** * reviewLoop.ts *)
(* ===================================================================== *)

Module ReviewLoop.
Import FeatureModel World ClaudeCode WorkflowStatus.

(** [reviewSpec(specPath, reviewPath, provider)] and
    [reviewPlan(planPath, reviewPath, provider)] *)
Definition reviewSpec (env : Env) (specPath : string)
    (provider : ReviewerProvider) : M ReviewResult :=
  r <- match provider with
       | provider_claude => ClaudeReview.reviewSpecWithClaude env
       | provider_openai => OpenaiReview.reviewSpec env specPath
       end ;;
  emit (EvSpecReview r) ;;;
  ret r.

Definition reviewPlan (env : Env) (planPath : string)
    (provider : ReviewerProvider) : M ReviewResult :=
  r <- match provider with
       | provider_claude => ClaudeReview.reviewPlanWithClaude env
       | provider_openai => OpenaiReview.reviewPlan env planPath
       end ;;
  emit (EvPlanReview r) ;;;
  ret r.

(** [ensureReviewerConfigured(provider)] *)
Definition ensureReviewerConfigured (env : Env) (provider : ReviewerProvider)
    : M bool :=
  match provider with
  | provider_claude => ClaudeReview.ensureClaudeReviewerConfigured env
  | provider_openai => OpenaiReview.ensureOpenAIConfigured env
  end.

(** [getReviewerLogSource(provider)] *)
Definition getReviewerLogSource (provider : ReviewerProvider) : Source :=
  match provider with
  | provider_claude => claude_reviewer
  | provider_openai => openai
  end.

(** [generateSpecWithReviewLoop] and [generatePlanWithReviewLoop] are the
    same text up to the artifact they name; the words that differ: *)
Definition lower (a : Artifact) : string :=
  match a with art_spec => "spec" | art_plan => "plan" end.

Definition upper (a : Artifact) : string :=
  match a with art_spec => "Spec" | art_plan => "Plan" end.

Definition generationPrompt (a : Artifact) : Prompt :=
  match a with
  | art_spec => SpecGenerationUser
  | art_plan => PlanGenerationUser
  end.

Definition progressTitle (a : Artifact) : string :=
  match a with
  | art_spec => "Generating spec from request..."
  | art_plan => "Generating implementation plan..."
  end.

Definition finalStatus (a : Artifact) : FeatureStatus :=
  match a with art_spec => draft | art_plan => plan_created end.

(** The artifact that is reviewed: [specPath], respectively [planPath]
    (known to be defined when the loop runs). *)
Definition reviewArtifact (env : Env) (a : Artifact) (path : string)
    (provider : ReviewerProvider) : M ReviewResult :=
  match a with
  | art_spec => reviewSpec env path provider
  | art_plan => reviewPlan env path provider
  end.

(** The [for (let iteration = 1; iteration <= config.maxIterations;
    iteration++)] loop; [remaining] counts the iterations still allowed by
    the loop condition.  Every [break] returns. *)
Fixpoint reviewIterations (env : Env) (a : Artifact) (path : string)
    (provider : ReviewerProvider) (sessionId : nat)
    (remaining : nat) (iteration : N) : M unit :=
  match remaining with
  | O => ret tt
  | S remaining' =>
      reviewResult <- reviewArtifact env a path provider ;;
      if negb (rr_success reviewResult) then
        emit (EvNotify warning
                [T "Review failed: "; Err (rr_error reviewResult);
                 T ". Continuing without review."]) ;;;
        logToFeatureHistory system
          [T "Review failed: "; Err (rr_error reviewResult)]
      else
        logToFeatureHistory (getReviewerLogSource provider)
          [T (upper a); T " review (iteration "; Num iteration; T "): ";
           T (if rr_hasMajorIssues reviewResult
              then "has major issues" else "no major issues")] ;;;
        if negb (rr_hasMajorIssues reviewResult) then
          logToFeatureHistory system
            [T (upper a); T " review passed - no major issues"]
        else if N.of_nat (maxReviewIterations env) <=? iteration then
          emit (EvNotify warning
                  [T "Max review iterations (";
                   Num (N.of_nat (maxReviewIterations env));
                   T ") reached. Please review the "; T (lower a);
                   T " manually."]) ;;;
          logToFeatureHistory system
            [T "Max iterations reached with issues remaining"]
        else
          match rr_reviewContent reviewResult with
          | [] =>
              emit (EvNotify warning
                      [T "No review content available. Continuing without feedback."])
          | _ :: _ =>
              result <- runClaudeCodeWithProgress env
                          (ReviewIncorporation a (rr_reviewContent reviewResult))
                          sessionId true ;;
              if negb (cc_success result) then
                emit (EvNotify error
                        [T "Failed to incorporate review: ";
                         ErrOr (cc_error result) "Unknown error"]) ;;;
                logToFeatureHistory system
                  [T "Failed to incorporate review: ";
                   ErrOr (cc_error result) "Unknown error"]
              else
                logToFeatureHistory claude
                  [T "Addressed review feedback (iteration ";
                   Num (iteration + 1); T ")"] ;;;
                reviewIterations env a path provider sessionId
                  remaining' (iteration + 1)
          end
  end.

(** The paths a run needs: for the spec, [requestPath] then [specPath] and
    [specReviewPath]; for the plan, [specPath] then [planPath] and
    [planReviewPath].  The result is the path of the artifact under review,
    or the error message shown. *)
Definition checkPaths (a : Artifact) (feature : Feature) : string + string :=
  match a with
  | art_spec =>
      if negb (truthy_opt (requestPath feature))
      then inr "No request file found for this feature"
      else if negb (truthy (specPath feature))
                || negb (truthy_opt (specReviewPath feature))
      then inr "Spec paths not configured for this feature"
      else inl (specPath feature)
  | art_plan =>
      if negb (truthy (specPath feature))
      then inr "No spec file found for this feature"
      else
        match planPath feature with
        | Some p =>
            if negb (truthy p) || negb (truthy_opt (planReviewPath feature))
            then inr "Plan paths not configured for this feature"
            else inl p
        | None => inr "Plan paths not configured for this feature"
        end
  end.

Definition generateWithReviewLoop (env : Env) (a : Artifact)
    (feature : Feature) : M bool :=
  installed <- ensureClaudeCodeInstalled env ;;
  if negb installed then ret false
  else
    let reviewerProvider := reviewerProvider env in
    configured <- ensureReviewerConfigured env reviewerProvider ;;
    if negb configured then ret false
    else
      match checkPaths a feature with
      | inr msg => emit (EvNotify error [T msg]) ;;; ret false
      | inl path =>
          logToFeatureHistory system
            [T "Starting "; T (lower a); T " generation"] ;;;
          sessionId <- generateSessionId ;;
          result <- runClaudeCodeWithProgress env (generationPrompt a)
                      sessionId false ;;
          if negb (cc_success result) then
            emit (EvNotify error
                    [T "Failed to generate "; T (lower a); T ": ";
                     ErrOr (cc_error result) "Unknown error"]) ;;;
            logToFeatureHistory system
              [T (upper a); T " generation failed: ";
               ErrOr (cc_error result) "Unknown error"] ;;;
            ret false
          else
            logToFeatureHistory claude
              [T "Generated initial "; T (lower a); T " (iteration 1)"] ;;;
            reviewIterations env a path reviewerProvider sessionId
              (maxReviewIterations env) 1 ;;;
            updateFeatureStatus (finalStatus a) system
              [T (upper a); T " generation complete"] ;;;
            emit (EvNotify info
                    [T (upper a); T " generated for ";
                     T (name (meta feature))]) ;;;
            ret true
      end.

(** [export async function generateSpecWithReviewLoop(feature,
    workspaceRoot)] *)
Definition generateSpecWithReviewLoop (env : Env) (feature : Feature)
    : M bool :=
  generateWithReviewLoop env art_spec feature.

(** [export async function generatePlanWithReviewLoop(feature,
    workspaceRoot)] *)
Definition generatePlanWithReviewLoop (env : Env) (feature : Feature)
    : M bool :=
  generateWithReviewLoop env art_plan feature.

End ReviewLoop.

(* ===================================================================== *)
(** * buildLoop.ts *)
(* ===================================================================== *)

Module BuildLoop.
Import FeatureModel World ClaudeCode WorkflowStatus PlanParser.

(** [ensureReviewerConfigured(provider)] and [getReviewerLogSource(provider)]
    are repeated in buildLoop.ts with the text they have in reviewLoop.ts. *)
Definition ensureReviewerConfigured := ReviewLoop.ensureReviewerConfigured.
Definition getReviewerLogSource := ReviewLoop.getReviewerLogSource.

(** [extractIntentSummary(claudeOutput)] *)
Definition extractIntentSummary (r : ClaudeCodeResult) : list N :=
  match cc_finalText r with
  | Some (c :: t) => c :: t
  | _ => Js.js "(No summary extracted from BUILDER output)"
  end.

(** [runCodeReview(planPath, phaseNumber, diffSummary, workspaceRoot,
    reviewerSessionId, isFirstReview)]: the session identity is the caller's,
    and the run resumes it unless this is the first review. *)
Definition runCodeReview (env : Env) (phaseNumber : N) (diffSummary : list N)
    (reviewerSessionId : nat) (isFirstReview : bool) : M CodeReviewResult :=
  result <- runClaudeCodeWithProgress env
              (ClaudeBuilderReviewUser phaseNumber diffSummary)
              reviewerSessionId (negb isFirstReview) ;;
  if negb (cc_success result) then
    ret {| cr_success := false; cr_hasMajorIssues := true;
           cr_hasMinorIssues := false; cr_reviewContent := [];
           cr_error := cc_error result |}
  else
    let reviewText := extractIntentSummary result in
    let v := Verdict.parseReviewerVerdict reviewText in
    ret {| cr_success := true;
           cr_hasMajorIssues := Verdict.hasMajorIssues v;
           cr_hasMinorIssues := Verdict.hasMinorIssues v;
           cr_reviewContent := reviewText; cr_error := None |}.

(** The wording of a review result in the history. *)
Definition reviewStatus (r : CodeReviewResult) : string :=
  if cr_hasMajorIssues r then "major issues found"
  else if cr_hasMinorIssues r then "minor issues only"
  else "approved".

Definition logReview (src : Source) (iteration : N) (r : CodeReviewResult)
    : M unit :=
  if cr_success r then
    logToFeatureHistory src
      [T "Code review (iteration "; Num iteration; T "): "; T (reviewStatus r)]
  else
    logToFeatureHistory src [T "Code review failed: "; Err (cr_error r)].

Definition severity (hasMajor hasOnlyMinor : bool) : Severity :=
  if hasMajor then sev_major
  else if hasOnlyMinor then sev_minor
  else sev_none.

(** How the review loop of one phase was left: by one of its [break]s or by
    its loop condition (the build goes on with the next phase), or by
    [return false] after a failed incorporation. *)
Inductive LoopExit : Type :=
| NoChanges            (* break: no changes detected, review skipped *)
| Approved             (* break: no major and no minor issues *)
| ApprovedMinorLogged  (* break: minor issues again after the one remediation *)
| MaxIterations        (* break: iteration >= maxBuildIterations *)
| ConditionFalse       (* the loop condition ended the loop *)
| ReturnFalse.         (* return false: incorporation failed *)

(** The variables that outlive one iteration: [buildResult],
    [minorIssuesIteration], and [isFirstReviewerCheck], which is declared
    outside the loop over the phases. *)
Record loop_vars : Type := mkLoopVars {
  buildResult : ClaudeCodeResult;
  minorIssuesIteration : bool;
  isFirstReviewerCheck : bool
}.

(** The two reviews of one iteration (the statements between the
    computation of [reviewPath] and that of [hasMajor]): the primary review
    unless the mode is ["architect-only"], then the Claude REVIEWER unless
    the mode is ["openai-only"].  The result is [primaryReview],
    [claudeReview] and the new value of [isFirstReviewerCheck]. *)
Definition reviewsOfIteration (env : Env) (feature : Feature) (plan : string)
    (phase : Phase) (reviewerSessionId : nat) (iteration : N) (v : loop_vars)
    (diffResult : GitDiffResult)
    : M (CodeReviewResult * option CodeReviewResult * bool) :=
  let intentSummary := extractIntentSummary (buildResult v) in
  primaryReview <-
    (if match buildReviewMode env with
        | architect_only => false
        | _ => true
        end
     then
       r <- CodeReview.reviewCode env (specPath feature) plan
              (diff diffResult) (number phase) intentSummary
              (reviewerProvider env) ;;
       logReview (getReviewerLogSource (reviewerProvider env)) iteration r ;;;
       ret r
     else
       ret {| cr_success := false; cr_hasMajorIssues := false;
              cr_hasMinorIssues := false; cr_reviewContent := [];
              cr_error := None |}) ;;
  if match buildReviewMode env with
     | openai_only => false
     | _ => true
     end
  then
    r <- runCodeReview env (number phase) (diff diffResult)
           reviewerSessionId (isFirstReviewerCheck v) ;;
    logReview claude_reviewer iteration r ;;;
    ret (primaryReview, Some r, false)
  else ret (primaryReview, None, isFirstReviewerCheck v).

(** [for (let iteration = 1; iteration <= config.maxBuildIterations;
    iteration++)] of one phase. *)
Fixpoint phaseReviewLoop (env : Env) (feature : Feature) (plan : string)
    (phase : Phase) (builderSessionId reviewerSessionId : nat)
    (remaining : nat) (iteration : N) (v : loop_vars)
    : M (LoopExit * bool) :=
  match remaining with
  | O => ret (ConditionFalse, isFirstReviewerCheck v)
  | S remaining' =>
      diffResult <- GitUtils.getStagedDiff env ;;
      if negb (hasChanges diffResult) then
        logToFeatureHistory system
          [T "No changes detected for Phase "; Num (number phase);
           T ", skipping review"] ;;;
        ret (NoChanges, isFirstReviewerCheck v)
      else
        reviewed <- reviewsOfIteration env feature plan phase
                      reviewerSessionId iteration v diffResult ;;
        let '(primaryReview, claudeReview, isFirst) := reviewed in
        let hasMajor :=
          CodeReview.hasAnyMajorIssues primaryReview claudeReview in
        let hasOnlyMinor :=
          CodeReview.hasOnlyMinorIssues primaryReview claudeReview in
        emit (EvSeverity iteration (severity hasMajor hasOnlyMinor)) ;;;
        if negb hasMajor && negb hasOnlyMinor then
          logToFeatureHistory system
            [T "Phase "; Num (number phase); T " approved after ";
             Num iteration; T " iteration(s)"] ;;;
          ret (Approved, isFirst)
        else if negb hasMajor && hasOnlyMinor && minorIssuesIteration v then
          logToFeatureHistory system
            [T "Phase "; Num (number phase); T " approved after ";
             Num iteration;
             T " iteration(s) (minor issues logged for human review)"] ;;;
          ret (ApprovedMinorLogged, isFirst)
        else
          minorFlag <-
            (if negb hasMajor && hasOnlyMinor then
               logToFeatureHistory system
                 [T "Minor issues only - one iteration to address (iteration ";
                  Num iteration; T ")"] ;;;
               ret true
             else ret (minorIssuesIteration v)) ;;
          if N.of_nat (maxBuildIterations env) <=? iteration then
            logToFeatureHistory system
              [T "Max iterations (";
               Num (N.of_nat (maxBuildIterations env));
               T ") reached for Phase "; Num (number phase);
               T " with issues remaining"] ;;;
            emit (EvNotify warning
                    [T "Phase "; Num (number phase);
                     T " has unresolved issues after ";
                     Num (N.of_nat (maxBuildIterations env));
                     T " iterations. Please review manually."]) ;;;
            ret (MaxIterations, isFirst)
          else
            let combinedFeedback :=
              CodeReview.mergeReviewFeedback primaryReview claudeReview in
            result <- runClaudeCodeWithProgress env
                        (BuildReviewIncorporation (number phase) combinedFeedback)
                        builderSessionId true ;;
            if negb (cc_success result) then
              logToFeatureHistory claude
                [T "Failed to incorporate feedback: "; Err (cc_error result)] ;;;
              emit (EvNotify error
                      [T "Failed to incorporate feedback for Phase ";
                       Num (number phase); T ": "; Err (cc_error result)]) ;;;
              ret (ReturnFalse, isFirst)
            else
              logToFeatureHistory claude
                [T "BUILDER addressed feedback (iteration ";
                 Num (iteration + 1); T ")"] ;;;
              phaseReviewLoop env feature plan phase builderSessionId
                reviewerSessionId remaining' (iteration + 1)
                {| buildResult := result;
                   minorIssuesIteration := minorFlag;
                   isFirstReviewerCheck := isFirst |}
  end.

(** The body of [for (const phase of phases)] and the loop itself; the
    result is [false] when the function returned [false] inside. *)
Fixpoint buildPhases (env : Env) (feature : Feature) (plan : string)
    (builderSessionId reviewerSessionId : nat) (phases : list Phase)
    (isFirstReviewerCheck : bool) : M bool :=
  match phases with
  | [] => ret true
  | phase :: rest =>
      logToFeatureHistory system
        [T "Starting Phase "; Num (number phase); T ": ";
         Txt (description phase)] ;;;
      buildResult <- runClaudeCodeWithProgress env
                       (BuildPhaseUser (number phase)) builderSessionId
                       (1 <? number phase) ;;
      if negb (cc_success buildResult) then
        logToFeatureHistory claude
          [T "Build failed for Phase "; Num (number phase); T ": ";
           Err (cc_error buildResult)] ;;;
        emit (EvNotify error
                [T "Build failed for Phase "; Num (number phase); T ": ";
                 Err (cc_error buildResult)]) ;;;
        ret false
      else
        logToFeatureHistory claude
          [T "BUILDER completed Phase "; Num (number phase);
           T " initial implementation"] ;;;
        out <- phaseReviewLoop env feature plan phase builderSessionId
                 reviewerSessionId (maxBuildIterations env) 1
                 {| buildResult := buildResult;
                    minorIssuesIteration := false;
                    isFirstReviewerCheck := isFirstReviewerCheck |} ;;
        match fst out with
        | ReturnFalse => ret false
        | _ =>
            buildPhases env feature plan builderSessionId reviewerSessionId
              rest (snd out)
        end
  end.

(** [parsePlanPhases(planPath)]: read the plan and extract its phases;
    [None] when reading throws. *)
Definition parsePlanPhases (env : Env) (planPath : string)
    : M (option (list Phase)) :=
  text <- ask (fun tr => readFile env tr planPath) ;;
  ret (option_map parsePlanPhasesFromContent text).

(** [export async function executeBuildPhase(feature, workspaceRoot)] *)
Definition executeBuildPhase (env : Env) (feature : Feature) : M bool :=
  installed <- ensureClaudeCodeInstalled env ;;
  if negb installed then ret false
  else
    configured <-
      (match buildReviewMode env with
       | architect_only => ret true
       | _ => ensureReviewerConfigured env (reviewerProvider env)
       end) ;;
    if negb configured then ret false
    else
      git <- GitUtils.isGitAvailable env ;;
      if negb git then
        emit (EvNotify error
                [T "Git is not available in this workspace. Git is required for code review diff capture."]) ;;;
        ret false
      else
        match planPath feature with
        | Some plan =>
            if negb (truthy plan) then
              emit (EvNotify error [T "No plan found for this feature"]) ;;;
              ret false
            else
              parsed <- parsePlanPhases env plan ;;
              match parsed with
              | None =>
                  emit (EvNotify error [T "Failed to parse plan: "]) ;;;
                  ret false
              | Some [] =>
                  emit (EvNotify warning
                          [T "No phases found in plan. Please ensure the plan has '## Phase N: Description' headers."]) ;;;
                  ret false
              | Some phases =>
                  updateFeatureStatus building system
                    [T "Starting build with ";
                     Num (N.of_nat (length phases)); T " phase(s)"] ;;;
                  builderSessionId <- generateSessionId ;;
                  reviewerSessionId <- generateSessionId ;;
                  completed <- buildPhases env feature plan builderSessionId
                                 reviewerSessionId phases true ;;
                  if negb completed then ret false
                  else
                    updateFeatureStatus code_review system
                      [T "Build complete: ";
                       Num (N.of_nat (length phases));
                       T " phase(s) implemented"] ;;;
                    emit (EvNotify info
                            [T "Build complete for "; T (name (meta feature));
                             T "! "; Num (N.of_nat (length phases));
                             T " phase(s) implemented. Ready for final review and testing."]) ;;;
                    ret true
              end
        | None =>
            emit (EvNotify error [T "No plan found for this feature"]) ;;;
            ret false
        end.

End BuildLoop.

(* ===================================================================== *)
(** * workflowCommands.ts *)
(* ===================================================================== *)

Module WorkflowCommands.
Import FeatureModel World WorkflowStatus.

(** The commands that only write a status. *)
Definition markSpecApproved (feature : Feature) : M unit :=
  updateFeatureStatus spec_reviewed user [T "Marked spec as approved"] ;;;
  emit (EvNotify info [T "Spec approved for "; T (name (meta feature))]).

Definition markPlanApproved (feature : Feature) : M unit :=
  updateFeatureStatus plan_reviewed user [T "Marked plan as approved"] ;;;
  emit (EvNotify info [T "Plan approved for "; T (name (meta feature))]).

Definition markReadyForBuild (feature : Feature) : M unit :=
  updateFeatureStatus ready_for_build user [T "Marked ready for build"] ;;;
  emit (EvNotify info [T (name (meta feature)); T " is ready for build"]).

Definition markBuilding (feature : Feature) : M unit :=
  updateFeatureStatus building user [T "Started building"] ;;;
  emit (EvNotify info [T (name (meta feature)); T " is now building"]).


(** [startBuild(feature)]: the workspace check, then [executeBuildPhase]. *)
Definition startBuild (env : Env) (feature : Feature) : M unit :=
  root <- ask (workspaceFolder env) ;;
  if negb root then emit (EvNotify error [T "No workspace folder open"])
  else BuildLoop.executeBuildPhase env feature ;;; ret tt.

(** [generateSpec(feature)] *)
Definition generateSpec (env : Env) (feature : Feature) : M unit :=
  root <- ask (workspaceFolder env) ;;
  if negb root then emit (EvNotify error [T "No workspace folder open"])
  else ReviewLoop.generateSpecWithReviewLoop env feature ;;; ret tt.

End WorkflowCommands.

(* ===================================================================== *)
(** * planParser.ts: the queries on a plan file *)
(* ===================================================================== *)

Module PlanQueries.
Import Js PlanParser.

(** [parsePlanPhases(planPath)]: [fs.readFile] then
    [parsePlanPhasesFromContent].  [file] is the text of the file, [None]
    when reading it fails; the rejected promise is [None]. *)
Definition parsePlanPhases (file : option (list N)) : option (list Phase) :=
  match file with
  | Some content => Some (parsePlanPhasesFromContent content)
  | None => None
  end.


(** [phases.length] *)
Definition getPhaseCount (file : option (list N)) : option nat :=
  match parsePlanPhases file with
  | Some phases => Some (length phases)
  | None => None
  end.

End PlanQueries.

(* ===================================================================== *)
(** * More of the JavaScript strings *)
(* ===================================================================== *)

Module JsText.
Import Js.

(** [s.startsWith(pat)] *)
Fixpoint startsWith (s pat : list N) : bool :=
  match pat, s with
  | [], _ => true
  | p :: pat', c :: s' => (c =? p) && startsWith s' pat'
  | _ :: _, [] => false
  end.

(** The first position at or after [i] where [pat] begins, [s] being the
    text from position [i] on. *)
Fixpoint index_from (pat s : list N) (i : nat) : option nat :=
  if startsWith s pat then Some i
  else match s with
       | [] => None
       | _ :: s' => index_from pat s' (S i)
       end.

(** [s.indexOf(pat, from)]; [None] is [-1]. *)
Definition indexOf (s pat : list N) (from : nat) : option nat :=
  index_from pat (drop from s) from.

(** [s.slice(a, b)] for [0 <= a <= b]. *)
Definition slice (s : list N) (a b : nat) : list N := take (b - a) (drop a s).

(** [s.endsWith("\n")] *)
Definition endsWith_nl (s : list N) : bool :=
  match last s with
  | Some c => c =? 10
  | None => false
  end.

(** [s.split(sep)] for a separator of one character: always at least one
    piece. *)
Fixpoint split_on (sep : N) (s : list N) : list (list N) :=
  match s with
  | [] => [[]]
  | c :: s' =>
      if c =? sep then [] :: split_on sep s'
      else match split_on sep s' with
           | l :: ls => (c :: l) :: ls
           | [] => [[c]]
           end
  end.

(** [pieces.join(sep)] *)
Fixpoint join_on (sep : N) (ls : list (list N)) : list N :=
  match ls with
  | [] => []
  | [l] => l
  | l :: ls' => l ++ sep :: join_on sep ls'
  end.

(** [s.split(/\r?\n/)]: a line ends at a line feed, and a carriage return
    right before the line feed belongs to the separator. *)
Fixpoint split_lines (s : list N) : list (list N) :=
  match s with
  | [] => [[]]
  | c :: s' =>
      let keep (rest : list (list N)) :=
        match rest with
        | l :: ls => (c :: l) :: ls
        | [] => [[c]]
        end in
      if c =? 10 then [] :: split_lines s'
      else
        match s' with
        | d :: s'' =>
            if (c =? 13) && (d =? 10) then [] :: split_lines s''
            else keep (split_lines s')
        | [] => keep (split_lines s')
        end
  end.

(** A non-negative integer in a template literal: its decimal digits
    (exact below 10^21, where JavaScript switches to the exponent form). *)
Fixpoint decimal_from (fuel : nat) (n : N) (acc : list N) : list N :=
  match fuel with
  | O => acc
  | S fuel' =>
      let acc' := (48 + n mod 10) :: acc in
      if n / 10 =? 0 then acc' else decimal_from fuel' (n / 10) acc'
  end.

Definition decimal (n : N) : list N :=
  decimal_from (S (N.to_nat (N.log2 n))) n [].

End JsText.

(* ===================================================================== *)
(** * gitUtils.ts: the other diffs and the summary *)
(* ===================================================================== *)

Module GitDiffs.
Import Js JsText World GitUtils.

(** The commands of [getUnstagedDiff] and [getAllChanges]. *)
Inductive GitQuery : Type :=
| git_diff              (* git diff *)
| git_diff_names        (* git diff --name-only *)
| git_diff_head         (* git diff HEAD *)
| git_diff_head_names.  (* git diff HEAD --name-only *)

(** The object both functions build from the two outputs. *)
Definition diffResult (stdout filesOutput : list N) : GitDiffResult :=
  {| diff := trim stdout;
     filesChanged := filter (fun l => l <> []) (split_nl (trim filesOutput));
     hasChanges := negb (Nat.eqb (length (trim stdout)) 0) |}.

(** [export async function getUnstagedDiff(workspaceRoot)], given what each
    [execAsync] call does: its stdout, or [None] when it rejects. *)
Definition getUnstagedDiff (exec : GitQuery -> option (list N))
    : GitDiffResult :=
  match exec git_diff with
  | None => no_changes
  | Some stdout =>
      match exec git_diff_names with
      | None => no_changes
      | Some filesOutput => diffResult stdout filesOutput
      end
  end.

(** [export async function getAllChanges(workspaceRoot)] *)
Definition getAllChanges (exec : GitQuery -> option (list N))
    : GitDiffResult :=
  match exec git_diff_head with
  | None => no_changes
  | Some stdout =>
      match exec git_diff_head_names with
      | None => no_changes
      | Some filesOutput => diffResult stdout filesOutput
      end
  end.

(** [export function summarizeDiff(diff, maxLines = 100)], for a
    [maxLines] that is a non-negative integer. *)
Definition summarizeDiff (diff : list N) (maxLines : nat) : list N :=
  let lines := split_nl diff in
  if (length lines <=? maxLines)%nat then diff
  else
    let truncatedLines := take maxLines lines in
    join_nl
      (truncatedLines ++
       [[10] ++ js "... (" ++ decimal (N.of_nat (length lines - maxLines))
        ++ js " more lines truncated)"]).

End GitDiffs.

(* ===================================================================== *)
(** * utils/yaml.ts *)
(* ===================================================================== *)

Module Yaml.
Import Js JsText.

(** [interface Frontmatter { [key: string]: any }], as the parser fills it:
    a plain object whose values are strings.  The list holds the own
    properties in the order in which [Object.entries] lists them: the keys
    that are array indices first, ascending, then the other keys in the
    order in which they were created. *)
Definition Frontmatter : Type := list (list N * list N).

(** A key is an array index when it is the decimal notation of an integer
    below 2^32 - 1. *)
Definition array_index (k : list N) : option N :=
  if forallb is_digit k && negb (bool_decide (k = [])) then
    let i := parseInt k in
    if (i <? 4294967295) && bool_decide (decimal i = k) then Some i else None
  else None.

(** [frontmatter[k]] for a key that [Object.prototype] does not have
    ([undefined] is [None]). *)
Fixpoint get (o : Frontmatter) (k : list N) : option (list N) :=
  match o with
  | [] => None
  | (k', v) :: o' => if bool_decide (k' = k) then Some v else get o' k
  end.

Definition has_key (o : Frontmatter) (k : list N) : bool :=
  match get o k with Some _ => true | None => false end.

(** Assignment to a property that exists: the value changes, the place
    does not. *)
Fixpoint replace (k v : list N) (o : Frontmatter) : Frontmatter :=
  match o with
  | [] => []
  | (k', v') :: o' =>
      if bool_decide (k' = k) then (k, v) :: o'
      else (k', v') :: replace k v o'
  end.

(** A new array index goes in front of the first key that is a larger
    array index or no array index at all. *)
Fixpoint insert_index (i : N) (k v : list N) (o : Frontmatter) : Frontmatter :=
  match o with
  | [] => [(k, v)]
  | (k', v') :: o' =>
      match array_index k' with
      | Some j =>
          if j <? i then (k', v') :: insert_index i k v o'
          else (k, v) :: o
      | None => (k, v) :: o
      end
  end.

(** [frontmatter[k] = v] for a string [v].  On a plain object the key
    [__proto__] is the accessor of [Object.prototype], whose setter ignores
    a value that is neither an object nor [null]: no property is created. *)
Definition set (k v : list N) (o : Frontmatter) : Frontmatter :=
  if bool_decide (k = js "__proto__") then o
  else if has_key o k then replace k v o
  else match array_index k with
       | Some i => insert_index i k v o
       | None => o ++ [(k, v)]
       end.

(** The body of the loop over the lines:
    [const [k, ...rest] = line.split(":");
     if (!k || rest.length === 0) continue;
     frontmatter[k.trim()] = rest.join(":").trim();] *)
Definition parse_line (frontmatter : Frontmatter) (line : list N)
    : Frontmatter :=
  match split_on 58 line with
  | k :: rest =>
      if bool_decide (k = []) || bool_decide (rest = []) then frontmatter
      else set (trim k) (trim (join_on 58 rest)) frontmatter
  | [] => frontmatter
  end.

(** [export function parseFrontmatter(content)] *)
Definition parseFrontmatter (content : list N) : Frontmatter * list N :=
  if negb (startsWith content (js "---")) then ([], content)
  else
    match indexOf content (10 :: js "---") 3 with
    | None => ([], content)
    | Some end_ =>
        let raw := trim (slice content 3 end_) in
        let body := drop (end_ + 4) content in
        (fold_left parse_line (split_lines raw) [], body)
    end.

(** Creating a property of a fresh object during a spread: as an
    assignment, but [__proto__] is a key like any other. *)
Definition define (k v : list N) (o : Frontmatter) : Frontmatter :=
  if has_key o k then replace k v o
  else match array_index k with
       | Some i => insert_index i k v o
       | None => o ++ [(k, v)]
       end.

(** [{ ...frontmatter, ...updates }] *)
Definition merge (frontmatter updates : Frontmatter) : Frontmatter :=
  fold_left (fun o e => define (fst e) (snd e) o) updates
    (fold_left (fun o e => define (fst e) (snd e) o) frontmatter []).

(** [export function updateFrontmatter(content, updates)], for updates
    whose values are strings ([String(v)] is [v]). *)
Definition updateFrontmatter (content : list N) (updates : Frontmatter)
    : list N :=
  let '(frontmatter, body) := parseFrontmatter content in
  let merged := merge frontmatter updates in
  let lines := map (fun e => fst e ++ js ": " ++ snd e) merged in
  js "---" ++ [10] ++ join_nl lines ++ [10] ++ js "---" ++ [10]
  ++ trimStart body ++ [10].

End Yaml.

(* ===================================================================== *)
(** * workflowStatus.ts: the text that is written *)
(* ===================================================================== *)

Module StatusText.
Import Js JsText Yaml.

(** [Object.entries(frontmatter).map(([key, value]) => `${key}: ${value}`)
      .join("\n")] between the two fences. *)
Definition updatedYaml (frontmatter : Frontmatter) : list N :=
  js "---" ++ [10]
  ++ join_nl (map (fun e => fst e ++ js ": " ++ snd e) frontmatter)
  ++ [10] ++ js "---" ++ [10].

(** [`${now}  [${source}]  ${message}\n`] *)
Definition historyLine (now source message : list N) : list N :=
  now ++ js "  [" ++ source ++ js "]  " ++ message ++ [10].

(** [historyLine + (trimmedBody ? trimmedBody +
      (trimmedBody.endsWith("\n") ? "" : "\n") : "")] *)
Definition updatedBody (line body : list N) : list N :=
  let trimmedBody := trimStart body in
  line ++
  (if bool_decide (trimmedBody = []) then []
   else trimmedBody ++ (if endsWith_nl trimmedBody then [] else [10])).

(** What [logToFeatureHistory] writes to a status file that holds
    [content], at the time [now]. *)
Definition logToFeatureHistory (content now source message : list N)
    : list N :=
  let '(frontmatter, body) := parseFrontmatter content in
  updatedYaml frontmatter ++ [10]
  ++ updatedBody (historyLine now source message) body.

(** What [updateFeatureStatus] writes to a status file that holds
    [content], and the frontmatter it returns. *)
Definition updateFeatureStatus (content newStatus now source message : list N)
    : list N * Frontmatter :=
  let '(frontmatter, body) := parseFrontmatter content in
  let frontmatter := set (js "status") newStatus frontmatter in
  (updatedYaml frontmatter ++ [10]
   ++ updatedBody (historyLine now source message) body,
   frontmatter).

End StatusText.

(* ===================================================================== *)
(** * featureModel.ts and workflowCommands.ts: features as files *)
(* ===================================================================== *)

Module FeatureFiles.
Import Js JsText Yaml StatusText.

(** [(frontmatter[key] as string) || fallback]: the fallback is taken for
    [undefined] and for the empty string. *)
Definition or_else (v : option (list N)) (fallback : list N) : list N :=
  match v with
  | Some (c :: s) => c :: s
  | _ => fallback
  end.

(** [s.replace(pat, "")] for a string [pat]: the first occurrence goes. *)
Fixpoint remove_first (pat s : list N) : list N :=
  if startsWith s pat then drop (length pat) s
  else match s with
       | [] => []
       | c :: s' => c :: remove_first pat s'
       end.

(** [\w] *)
Definition is_word (c : N) : bool :=
  ((48 <=? c) && (c <=? 57)) || ((65 <=? c) && (c <=? 90))
  || ((97 <=? c) && (c <=? 122)) || (c =? 95).

(** [s.replace(/\b\w/g, (m) => m.toUpperCase())]: a word character is put
    in upper case when the text begins with it or the character before it
    is no word character.  [after_word] tells whether the character before
    is one. *)
Fixpoint capitalize (after_word : bool) (s : list N) : list N :=
  match s with
  | [] => []
  | c :: s' =>
      (if is_word c && negb after_word then upper_ascii c else c)
      :: capitalize (is_word c) s'
  end.

(** [id.replace(/[-_]/g, " ").replace(/\b\w/g, (m) => m.toUpperCase())] *)
Definition nameFromId (id : list N) : list N :=
  capitalize false
    (map (fun c => if (c =? 45) || (c =? 95) then 32 else c) id).

(** The [meta] of a loaded feature; [status] is whatever the file says,
    cast to [FeatureStatus] without a check. *)
Record LoadedMeta : Type := mkLoadedMeta {
  id : list N;
  name : list N;
  status : list N;
  owner : option (list N)
}.

(** The body of the loop of [loadFeatures] for one status file:
    [baseName] is [path.basename(uri.fsPath)], [file] what
    [readFileIfExists] returns ([None] for [null]).  [None] is
    [continue]. *)
Definition loadFeature (baseName : list N) (file : option (list N))
    : option LoadedMeta :=
  match file with
  | None | Some [] => None
  | Some content =>
      let frontmatter := fst (parseFrontmatter content) in
      let id :=
        or_else (get frontmatter (js "id"))
          (remove_first (js ".status.md") baseName) in
      let name := or_else (get frontmatter (js "name")) (nameFromId id) in
      let status := or_else (get frontmatter (js "status")) (js "draft") in
      Some {| id := id; name := name; status := status;
              owner := get frontmatter (js "owner") |}
  end.

(** [validateInput] of the input box for the feature ID: [None] is
    [null], the value is accepted.  [/^[a-z0-9-]+$/] holds of a text that
    is not empty and made of these characters only. *)
Definition is_id_char (c : N) : bool :=
  ((97 <=? c) && (c <=? 122)) || ((48 <=? c) && (c <=? 57)) || (c =? 45).

Definition validateInput (value : list N) : option string :=
  match value with
  | [] => Some "Feature ID is required"
  | _ :: _ =>
      if negb (forallb is_id_char value)
      then Some "ID must be lowercase letters, numbers, and hyphens only"
      else None
  end.

(** The default of the input box for the display name:
    [id.replace(/-/g, " ").replace(/\b\w/g, (c) => c.toUpperCase())] *)
Definition defaultName (id : list N) : list N :=
  capitalize false (map (fun c => if c =? 45 then 32 else c) id).

(** [statusContent] of [createNewFeature], [now] being
    [new Date().toISOString()]. *)
Definition statusContent (id name now : list N) : list N :=
  js "---" ++ [10]
  ++ js "id: " ++ id ++ [10]
  ++ js "name: " ++ name ++ [10]
  ++ js "status: requested" ++ [10]
  ++ js "created_at: " ++ now ++ [10]
  ++ js "---" ++ [10]
  ++ [10]
  ++ now ++ js "  [system]  Created feature" ++ [10].

(** The [meta] of the feature that [createNewFeature] returns. *)
Definition createdMeta (id name : list N) : LoadedMeta :=
  {| id := id; name := name; status := js "requested"; owner := None |}.

End FeatureFiles.

(* ===================================================================== *)
(** * config.ts: templates *)
(* ===================================================================== *)

Module Config.
Import Js JsText.

(** The replacement text of [String.prototype.replace] for a pattern
    without capture groups: [$$] stands for a dollar sign, [$&] for the
    matched text, [$`] for the text before the match, [$'] for the text
    after it; every other character, a dollar sign before anything else
    included, stands for itself. *)
Fixpoint getSubstitution (matched before after replacement : list N)
    : list N :=
  match replacement with
  | [] => []
  | c :: r =>
      if c =? 36 then
        match r with
        | d :: r' =>
            if d =? 36 then 36 :: getSubstitution matched before after r'
            else if d =? 38
            then matched ++ getSubstitution matched before after r'
            else if d =? 96
            then before ++ getSubstitution matched before after r'
            else if d =? 39
            then after ++ getSubstitution matched before after r'
            else c :: getSubstitution matched before after r
        | [] => [c]
        end
      else c :: getSubstitution matched before after r
  end.

(** [s.replace(new RegExp(pat, "g"), value)] for a pattern that spells the
    text [pat], not empty: the matches are found from left to right and do
    not overlap.  [s] is what is left of the subject, [before_rev] what
    came before it, reversed, and [skip] how many characters of [s] belong
    to the match just replaced. *)
Fixpoint replace_from (pat value : list N) (skip : nat)
    (before_rev s : list N) : list N :=
  match s with
  | [] => []
  | c :: s' =>
      match skip with
      | S k => replace_from pat value k (c :: before_rev) s'
      | O =>
          if startsWith s pat then
            getSubstitution pat (rev before_rev) (drop (length pat) s) value
            ++ replace_from pat value (length pat - 1) (c :: before_rev) s'
          else c :: replace_from pat value 0 (c :: before_rev) s'
      end
  end.

Definition replaceAll (pat value s : list N) : list N :=
  replace_from pat value 0 [] s.

(** [export function applyTemplate(prompt, substitutions)];
    [substitutions] are the entries of the object in the order of
    [Object.entries].  For a key made of letters, digits and underscores,
    as every caller passes, [new RegExp(`\\{${key}\\}`, "g")] spells the
    text of the key between braces. *)
Definition applyTemplate (prompt : list N)
    (substitutions : list (list N * list N)) : list N :=
  fold_left
    (fun result e => replaceAll ([123] ++ fst e ++ [125]) (snd e) result)
    substitutions prompt.

End Config.

(* ===================================================================== *)
(** * Vocabulary of the properties *)
(* ===================================================================== *)

Module Spec.
Import FeatureModel Js World.

(** ** Status machine *)

(** The adjacency table as the specification lists it: requested -> draft;
    draft -> spec-reviewed; spec-reviewed -> plan-created; plan-created ->
    plan-reviewed; plan-reviewed -> ready-for-build; ready-for-build ->
    building; building -> code-review; code-review -> {testing, building};
    testing -> {implemented, building}; implemented -> nothing. *)
Definition spec_edges : list (FeatureStatus * FeatureStatus) :=
  [(requested, draft);
   (draft, spec_reviewed);
   (spec_reviewed, plan_created);
   (plan_created, plan_reviewed);
   (plan_reviewed, ready_for_build);
   (ready_for_build, building);
   (building, code_review);
   (code_review, testing); (code_review, building);
   (testing, implemented); (testing, building)].

(** The status a status file records. *)
Definition recorded_status (f : StatusFile) : option string :=
  frontmatter f !! "status".

(** ** Regular languages *)

(** The strings a pattern denotes (anchors denote the empty string; where
    they may stand is the matcher's business). *)
Inductive matches : regex -> list N -> Prop :=
| m_eps : matches Eps []
| m_bol : matches Bol []
| m_eol : matches Eol []
| m_chr a x : ci_eq a x = true -> matches (Chr a) [x]
| m_cls (p : N -> bool) x : p x = true -> matches (Cls p) [x]
| m_star (p : N -> bool) s : Forall (fun x => p x = true) s -> matches (Star p) s
| m_plus (p : N -> bool) x s :
    p x = true -> Forall (fun x => p x = true) s -> matches (Plus p) (x :: s)
| m_seq r1 r2 s1 s2 :
    matches r1 s1 -> matches r2 s2 -> matches (Seq r1 r2) (s1 ++ s2)
| m_alt_l r1 r2 s : matches r1 s -> matches (Alt r1 r2) s
| m_alt_r r1 r2 s : matches r2 s -> matches (Alt r1 r2) s
| m_grp i r s : matches r s -> matches (Grp i r) s.

(** Patterns without [^] and [$]. *)
Fixpoint anchor_free (r : regex) : bool :=
  match r with
  | Bol | Eol => false
  | Seq r1 r2 | Alt r1 r2 => anchor_free r1 && anchor_free r2
  | Grp _ r1 => anchor_free r1
  | _ => true
  end.

(** [text] contains a piece that the pattern denotes. *)
Definition occurs (r : regex) (text : list N) : Prop :=
  exists pre mid post, text = pre ++ mid ++ post /\ matches r mid.

(** ** Plans *)

(** A line that is not a phase header. *)
Definition no_header (line : list N) : Prop := PlanParser.header line = None.

(** A header line with the lines that follow it up to the next header. *)
Definition segment : Type := list N * list (list N).

Definition seg_lines (sg : segment) : list (list N) := fst sg :: snd sg.

Definition well_formed (sg : segment) : Prop :=
  is_Some (PlanParser.header (fst sg)) /\ Forall no_header (snd sg).

(** The lines of a plan: what precedes the first header, then the segments
    in textual order. *)
Definition layout (pre : list (list N)) (segs : list segment)
    : list (list N) :=
  pre ++ concat (map seg_lines segs).

(** The phase a segment stands for: number and description from its header
    line, content the lines of the segment, header line included, joined by
    newlines and trimmed. *)
Definition phase_for (sg : segment) (p : PlanParser.Phase) : Prop :=
  exists h,
    PlanParser.header (fst sg) = Some h
    /\ p = {| PlanParser.number := PlanParser.number h;
              PlanParser.description := PlanParser.description h;
              PlanParser.content := trim (join_nl (seg_lines sg)) |}.


(** ** Runs *)

(** What a run added to the log of calls. *)
Definition new_events (w w' : world) : list Event :=
  drop (length (trace w)) (trace w').

(** The prompts of the reviewer that gets a session of its own per call. *)
Definition is_reviewer_prompt (p : Prompt) : bool :=
  match p with
  | ClaudeSpecReviewUser | ClaudePlanReviewUser
  | ClaudeCodeReviewUser _ _ _ => true
  | _ => false
  end.

(** Events that accompany a call without being one of the steps of a loop:
    an error message, or the CLI run inside a primary Claude review. *)
Definition quiet (e : Event) : bool :=
  match e with
  | EvNotify error _ => true
  | EvSession p _ false _ => is_reviewer_prompt p
  | _ => false
  end.

Definition is_error (e : Event) : bool :=
  match e with EvNotify error _ => true | _ => false end.

Definition is_notify (e : Event) : Prop :=
  match e with EvNotify _ _ => True | _ => False end.

(** A review of code: the primary reviewer returning, or a run of the Claude
    REVIEWER of the build loop or of the Claude primary reviewer. *)
Definition is_code_review (e : Event) : bool :=
  match e with
  | EvCodeReview _ => true
  | EvSession (ClaudeBuilderReviewUser _ _) _ _ _ => true
  | EvSession (ClaudeCodeReviewUser _ _ _) _ _ _ => true
  | _ => false
  end.

Definition not_code_review (e : Event) : bool := negb (is_code_review e).

(** The steps of the loops, read off a log of calls, in order. *)
Definition build_incorporations (evs : list Event) : list ClaudeCodeResult :=
  omap (fun e => match e with
                 | EvSession (BuildReviewIncorporation _ _) _ _ r => Some r
                 | _ => None
                 end) evs.

Definition severities (evs : list Event) : list (N * Severity) :=
  omap (fun e => match e with
                 | EvSeverity i s => Some (i, s)
                 | _ => None
                 end) evs.

Definition logs (evs : list Event) : list (Source * Message) :=
  omap (fun e => match e with
                 | EvLog src m => Some (src, m)
                 | _ => None
                 end) evs.

(** ** Sessions *)

(** The session identities used by the CLI runs of a log, in order. *)
Definition session_ids (evs : list Event) : list nat :=
  omap (fun e => match e with
                 | EvSession _ sid _ _ => Some sid
                 | _ => None
                 end) evs.

(** The runs of the Claude REVIEWER of the build loop ([runCodeReview]):
    session identity and whether the run resumed it. *)
Definition builder_review_runs (evs : list Event) : list (nat * bool) :=
  omap (fun e => match e with
                 | EvSession (ClaudeBuilderReviewUser _ _) sid resume _ =>
                     Some (sid, resume)
                 | _ => None
                 end) evs.

Definition is_session (e : Event) : bool :=
  match e with EvSession _ _ _ _ => true | _ => false end.

Definition is_builder_review (p : Prompt) : bool :=
  match p with ClaudeBuilderReviewUser _ _ => true | _ => false end.

(** Every run, among the events [new] that follow the log [old], of a
    reviewer of a spec, of a plan, or of the primary Claude reviewer of
    code, starts a session (it does not resume one) under an identity that
    no earlier run of the log has used. *)
Definition fresh_after (old new : list Event) : Prop :=
  forall pre p sid resume r post,
    new = pre ++ EvSession p sid resume r :: post ->
    is_reviewer_prompt p = true ->
    resume = false /\ sid ∉ session_ids (old ++ pre).

(** Runs that all belong to the one session [rid]: none yet, or a first run
    that starts the session followed by runs that resume it. *)
Definition one_session (rid : nat) (started : bool) (runs : list (nat * bool))
    : Prop :=
  if started
  then exists k, runs = (rid, false) :: replicate k (rid, true)
  else runs = [].

(** The invariant of a run that began with the log [old]: the identities in
    the log and the identities [live] held by the run were all handed out;
    the one-call reviewers ran in fresh sessions; the Claude REVIEWER of the
    build loop ran in the one session [rid], started iff
    [isFirstReviewerCheck] is no longer true. *)
Definition session_inv (old : list Event) (rid : nat) (live : list nat)
    (isFirst : bool) (w : world) : Prop :=
  Forall (fun sid => (sid < sessionsCreated w)%nat) (session_ids (trace w))
  /\ Forall (fun sid => (sid < sessionsCreated w)%nat) live
  /\ exists new,
       trace w = old ++ new
       /\ fresh_after old new
       /\ one_session rid (negb isFirst) (builder_review_runs new).

(** [{P} m {Q}]: from a world where [P] holds, [m] returns a value and a
    world related by [Q]. *)
Definition hoare {A : Type} (P : world -> Prop) (m : M A)
    (Q : A -> world -> Prop) : Prop :=
  forall w, P w -> Q (fst (m w)) (snd (m w)).

(** The steps of a spec or plan generation run: the initial generation, the
    reviews, the incorporations (runs that resume the generating session
    with the review), the warnings shown, the status writes.  History
    entries, error and information messages and the CLI run inside a
    Claude review are not steps. *)
Inductive Step : Type :=
| SGen (r : ClaudeCodeResult)
| SReview (r : ReviewResult)
| SInc (r : ClaudeCodeResult)
| SWarn (m : Message)
| SStatus (st : FeatureStatus) (src : Source) (m : Message).

Definition step_of (e : Event) : option Step :=
  match e with
  | EvSession SpecGenerationUser _ _ r
  | EvSession PlanGenerationUser _ _ r => Some (SGen r)
  | EvSession (ReviewIncorporation _ _) _ _ r => Some (SInc r)
  | EvSpecReview r | EvPlanReview r => Some (SReview r)
  | EvNotify warning m => Some (SWarn m)
  | EvStatus st src m => Some (SStatus st src m)
  | _ => None
  end.

Definition skeleton (evs : list Event) : list Step := omap step_of evs.

Definition reviews (evs : list Event) : list ReviewResult :=
  omap (fun s => match s with SReview r => Some r | _ => None end)
    (skeleton evs).

Definition incorporations (evs : list Event) : list ClaudeCodeResult :=
  omap (fun s => match s with SInc r => Some r | _ => None end)
    (skeleton evs).

Definition generations (evs : list Event) : list ClaudeCodeResult :=
  omap (fun s => match s with SGen r => Some r | _ => None end)
    (skeleton evs).

Definition warnings (evs : list Event) : list Message :=
  omap (fun s => match s with SWarn m => Some m | _ => None end)
    (skeleton evs).

Definition status_writes (evs : list Event)
    : list (FeatureStatus * Source * Message) :=
  omap (fun s => match s with
                 | SStatus st src m => Some (st, src, m)
                 | _ => None
                 end) (skeleton evs).

(** Reviews alternating with the incorporations that follow them. *)
Fixpoint interleave (rs : list ReviewResult) (cs : list ClaudeCodeResult)
    : list Step :=
  match rs with
  | [] => []
  | r :: rs' =>
      SReview r ::
      match cs with
      | [] => []
      | c :: cs' => SInc c :: interleave rs' cs'
      end
  end.

(** A review that succeeded, found major issues and has a text to hand
    back. *)
Definition major_review (r : ReviewResult) : Prop :=
  rr_success r = true /\ rr_hasMajorIssues r = true
  /\ rr_reviewContent r <> [].

(** The event that records the return of [reviewSpec] or [reviewPlan]. *)
Definition review_event (a : Artifact) (r : ReviewResult) : Event :=
  match a with
  | art_spec => EvSpecReview r
  | art_plan => EvPlanReview r
  end.

(** The warnings of the review loop. *)
Definition max_iterations_warning (env : Env) (a : Artifact) : Message :=
  [T "Max review iterations ("; Num (N.of_nat (maxReviewIterations env));
   T ") reached. Please review the "; T (ReviewLoop.lower a); T " manually."].

Definition review_failed_warning (r : ReviewResult) : Message :=
  [T "Review failed: "; Err (rr_error r); T ". Continuing without review."].

Definition no_content_warning : Message :=
  [T "No review content available. Continuing without feedback."].

(** What the two reviews of a build iteration may add to the log of calls:
    the reviews themselves, their history entries, error messages. *)
Definition review_noise (e : Event) : bool :=
  match e with
  | EvCodeReview _ | EvLog _ _ | EvNotify error _ => true
  | EvSession (ClaudeCodeReviewUser _ _ _) _ _ _
  | EvSession (ClaudeBuilderReviewUser _ _) _ _ _ => true
  | _ => false
  end.

(** The history entries that close the review loop of a phase with
    success. *)
Definition approved_msg (phaseNumber iteration : N) : Message :=
  [T "Phase "; Num phaseNumber; T " approved after "; Num iteration;
   T " iteration(s)"].

Definition minor_logged_msg (phaseNumber iteration : N) : Message :=
  [T "Phase "; Num phaseNumber; T " approved after "; Num iteration;
   T " iteration(s) (minor issues logged for human review)"].

(** The severities after which the loop goes on to the iteration limit and
    the incorporation: major issues, or minor issues with the one
    remediation still unused. *)
Definition remediates (minorIssuesIteration : bool) (s : Severity) : Prop :=
  s = sev_major \/ (s = sev_minor /\ minorIssuesIteration = false).

Definition is_minor (s : Severity) : bool :=
  match s with sev_minor => true | _ => false end.

(** The error message shown when the status file cannot be read. *)
Definition unreadable (m : Message) (sf : option StatusFile) : list Event :=
  match sf with
  | Some _ => []
  | None => [EvNotify error m]
  end.

(** A status file with one more history line in front. *)
Definition with_line (src : Source) (m : Message) (f : StatusFile)
    : StatusFile :=
  {| frontmatter := frontmatter f;
     history := {| hl_source := src; hl_message := m |} :: history f |}.

End Spec.


(* ===================================================================== *)
(** * Concrete features, files and collaborators used as examples *)
(* ===================================================================== *)

Module Scenario.
Import FeatureModel Js World.

(** A status file of a feature that was just requested. *)
Definition requested_file : StatusFile :=
  {| frontmatter :=
       <["id" := "demo"]> (<["name" := "Demo"]>
         (<["status" := "requested"]> ∅));
     history := [{| hl_source := system; hl_message := [T "Created feature"] |}] |}.

Definition requested_world : world :=
  {| statusFile := Some requested_file; sessionsCreated := 0; trace := [] |}.

Definition demo_feature : Feature :=
  {| meta := {| id := "demo"; name := "Demo"; status := requested |};
     statusPath := "docs/features/demo.status.md";
     specPath := "docs/features/demo.spec.md";
     specReviewPath := Some "docs/features/demo.spec.review.md";
     planPath := Some "docs/features/demo.plan.md";
     planReviewPath := Some "docs/features/demo.plan.review.md";
     requestPath := Some "docs/features/demo.request.md";
     codeReviewPath := None |}.

(** Collaborators: everything is installed and configured, the reviewer is
    the review API, and what varies is given as arguments. *)
Definition done : ClaudeCodeResult :=
  {| cc_success := true; cc_output := [];
     cc_finalText := Some (js "Implemented as planned.");
     cc_error := None |}.

Definition crashed : ClaudeCodeResult :=
  {| cc_success := false; cc_output := []; cc_finalText := None;
     cc_error := Some "Process exited with code 1" |}.

Definition make_env (maxReview maxBuild : nat) (mode : BuildReviewMode)
    (git : list Event -> GitCommand -> option (list N))
    (cli : list Event -> Prompt -> nat -> bool -> ClaudeCodeResult)
    (api : list Event -> option (bool * bool * list N))
    (plan : list N) : Env :=
  {| reviewerProvider := provider_openai;
     maxReviewIterations := maxReview;
     maxBuildIterations := maxBuild;
     buildReviewMode := mode;
     claudeVersionOk := fun _ => true;
     openaiApiKey := fun _ => true;
     workspaceFolder := fun _ => true;
     gitRevParseOk := fun _ => true;
     gitExec := git;
     claudeCli := cli;
     openaiApi := api;
     readFile := fun _ _ => Some plan;
     writeFileOk := fun _ => true |}.

(** A repository where [git diff --staged] fails. *)
Definition git_broken (tr : list Event) (cmd : GitCommand)
    : option (list N) :=
  match cmd with
  | git_add_all => Some []
  | _ => None
  end.

(** A repository with staged changes. *)
Definition git_dirty (tr : list Event) (cmd : GitCommand)
    : option (list N) :=
  match cmd with
  | git_add_all => Some []
  | git_diff_staged => Some (js "diff --git a/model.ts b/model.ts")
  | git_diff_staged_names => Some (js "model.ts")
  end.

(** A review API that finds minor issues until it has answered once, and
    nothing afterwards; one that finds minor issues every time; one that
    finds major issues every time. *)
Definition reviewed_before (tr : list Event) : bool :=
  existsb (fun e => match e with EvCodeReview _ => true | _ => false end) tr.

Definition api_minor_then_none (tr : list Event)
    : option (bool * bool * list N) :=
  if reviewed_before tr
  then Some (false, false, js "**Status: No Major Issues**")
  else Some (false, true, js "**Status: No Major Issues** (minor issues)").

Definition api_always_minor (tr : list Event)
    : option (bool * bool * list N) :=
  Some (false, true, js "**Status: No Major Issues** (minor issues)").

Definition api_always_major (tr : list Event)
    : option (bool * bool * list N) :=
  Some (true, false, js "**Status: Major Issues Found**").

Definition fresh_vars : BuildLoop.loop_vars :=
  {| BuildLoop.buildResult := done;
     BuildLoop.minorIssuesIteration := false;
     BuildLoop.isFirstReviewerCheck := true |}.

Definition spent_vars : BuildLoop.loop_vars :=
  {| BuildLoop.buildResult := done;
     BuildLoop.minorIssuesIteration := true;
     BuildLoop.isFirstReviewerCheck := false |}.

Definition one_phase_plan : list N := js "## Phase 1: Add model".

Definition env_minor_then_none : Env :=
  make_env 3 5 openai_only git_dirty (fun _ _ _ _ => done)
    api_minor_then_none one_phase_plan.

(** The CLI runs that generate succeed, those that incorporate a review
    fail. *)
Definition cli_incorporation_fails (tr : list Event) (p : Prompt) (sid : nat)
    (resume : bool) : ClaudeCodeResult :=
  match p with
  | ReviewIncorporation _ _ => crashed
  | _ => done
  end.

Definition env_all_major : Env :=
  make_env 3 5 both git_dirty (fun _ _ _ _ => done) api_always_major
    one_phase_plan.

Definition env_incorporation_fails : Env :=
  make_env 3 5 both git_dirty cli_incorporation_fails api_always_major
    one_phase_plan.

(** The Claude REVIEWER of the build loop asks for changes every time; the
    BUILDER succeeds. *)
Definition cli_reviewer_wants_changes (tr : list Event) (p : Prompt)
    (sid : nat) (resume : bool) : ClaudeCodeResult :=
  match p with
  | ClaudeBuilderReviewUser _ _ =>
      {| cc_success := true; cc_output := [];
         cc_finalText := Some (js "**Action Required**: MAJOR");
         cc_error := None |}
  | _ => done
  end.

Definition env_architect_only : Env :=
  make_env 3 2 architect_only git_dirty cli_reviewer_wants_changes
    api_always_major one_phase_plan.

Definition env_no_headers : Env :=
  make_env 3 5 both git_dirty (fun _ _ _ _ => done) api_always_major
    (js "# Plan" ++ [10] ++ js "Phase one: do things" ++ [10] ++ js "## Steps").

Definition env_git_broken : Env :=
  make_env 3 5 both git_broken (fun _ _ _ _ => done) api_always_major
    one_phase_plan.

Definition demo_plan_path : string := "docs/features/demo.plan.md".

Definition env_always_minor : Env :=
  make_env 3 5 openai_only git_dirty (fun _ _ _ _ => done)
    api_always_minor one_phase_plan.

Definition phase_one : PlanParser.Phase :=
  {| PlanParser.number := 1;
     PlanParser.description := js "Add model";
     PlanParser.content := js "## Phase 1: Add model" |}.

(** Review texts. *)
Definition legacy_major_text : list N := js "**Status: Major Issues Found**".

Definition prose_text : list N :=
  js "Looks fine to me. The word approved carries no structure.".

(** A plan whose headers come in the order 2, 1, 3, after an introduction. *)
Definition plan_2_1_3 : list N :=
  js "# Plan" ++ [10] ++
  js "intro" ++ [10] ++
  js "## Phase 2: Second" ++ [10] ++
  js "second body" ++ [10] ++
  js "" ++ [10] ++
  js "## Phase 1: First" ++ [10] ++
  js "## Phase 3: Third" ++ [10] ++
  js "third body".



(** A plan without phase headers. *)
Definition plan_no_headers : list N :=
  js "# Plan" ++ [10] ++ js "Phase one: do things" ++ [10] ++ js "## Steps".

End Scenario.

(* ===================================================================== *)
(** * Further vocabulary: what a run shows of one kind of call *)
(* ===================================================================== *)

Module Observations.
Import FeatureModel Js World.

(** The log of a run that began with the log [old], seen through [f]: the
    events added since are mapped to [xs] (events that [f] sends to [None]
    do not show). *)
Definition projected {X : Type} (f : Event -> option X) (old : list Event)
    (xs : list X) (w : world) : Prop :=
  exists new, trace w = old ++ new /\ omap f new = xs.

(** The same, for a run that has created no session identity beyond the
    first [n]. *)
Definition projected_at {X : Type} (f : Event -> option X)
    (old : list Event) (n : nat) (xs : list X) (w : world) : Prop :=
  projected f old xs w /\ sessionsCreated w = n.

(** The session counter stands at [n]. *)
Definition counter_is (n : nat) (w : world) : Prop := sessionsCreated w = n.

(** The CLI runs of the ARCHITECT (the generation of a spec or a plan and
    the incorporations of a review): session identity, and whether the run
    resumed it. *)
Definition architect_run (e : Event) : option (nat * bool) :=
  match e with
  | EvSession SpecGenerationUser sid resume _
  | EvSession PlanGenerationUser sid resume _
  | EvSession (ReviewIncorporation _ _) sid resume _ => Some (sid, resume)
  | _ => None
  end.

(** The status writes of a run. *)
Definition status_write (e : Event)
    : option (FeatureStatus * Source * Message) :=
  match e with
  | EvStatus st src m => Some (st, src, m)
  | _ => None
  end.

(** Whether each CLI run of the BUILDER succeeded (the build of a phase and
    the incorporations of review feedback), in order. *)
Definition builder_result (e : Event) : option bool :=
  match e with
  | EvSession (BuildPhaseUser _) _ _ r
  | EvSession (BuildReviewIncorporation _ _) _ _ r => Some (cc_success r)
  | _ => None
  end.

(** The CLI runs of the BUILDER: phase number, whether the run is the
    build of the phase (rather than an incorporation), session identity,
    and whether the run resumed the session. *)
Definition builder_run (e : Event) : option (N * bool * nat * bool) :=
  match e with
  | EvSession (BuildPhaseUser n) sid resume _ => Some (n, true, sid, resume)
  | EvSession (BuildReviewIncorporation n _) sid resume _ =>
      Some (n, false, sid, resume)
  | _ => None
  end.

(** What the code asks of a BUILDER run in the session [b]: the build of
    phase [n] resumes the session exactly when [n > 1]; an incorporation
    always resumes it. *)
Definition builder_protocol (b : nat) (x : N * bool * nat * bool) : Prop :=
  let '(n, initial, sid, resume) := x in
  sid = b /\ resume = (if initial then 1 <? n else true).

(** The BUILDER runs of a build over [phases], in session [b]: phase by
    phase in the order of the list, the build of the phase, resuming the
    session exactly when the phase number is greater than 1, then the
    incorporations for that phase, each resuming the session; the runs may
    stop after those of any phase. *)
Fixpoint builder_runs_of (b : nat) (phases : list PlanParser.Phase)
    (ys : list (N * bool * nat * bool)) : Prop :=
  match phases with
  | [] => ys = []
  | p :: ps =>
      exists k rest,
        ys = (PlanParser.number p, true, b, 1 <? PlanParser.number p)
             :: replicate k (PlanParser.number p, false, b, true) ++ rest
        /\ (rest = [] \/ builder_runs_of b ps rest)
  end.

(** The reviews of code of a build: the primary reviewer ([true]) and the
    Claude REVIEWER of the build loop ([false]), in order. *)
Definition code_reviewer (e : Event) : option bool :=
  match e with
  | EvCodeReview _ => Some true
  | EvSession (ClaudeBuilderReviewUser _ _) _ _ _ => Some false
  | _ => None
  end.

(** The reviewers of one reviewed iteration, by review mode. *)
Definition reviewers_of (mode : BuildReviewMode) : list bool :=
  match mode with
  | openai_only => [true]
  | architect_only => [false]
  | both => [true; false]
  end.









(** The steps a review loop with [rem] iterations left, about to start
    iteration [it], can go through: the reviews that were made with what
    followed each of them. *)
Inductive loop_steps (env : Env) (a : Artifact)
    : nat -> N -> list Spec.Step -> Prop :=
| ls_exhausted (it : N) :
    loop_steps env a 0 it []
| ls_review_failed (rem : nat) (it : N) (r : ReviewResult) :
    rr_success r = false ->
    loop_steps env a (S rem) it
      [Spec.SReview r; Spec.SWarn (Spec.review_failed_warning r)]
| ls_passed (rem : nat) (it : N) (r : ReviewResult) :
    rr_success r = true -> rr_hasMajorIssues r = false ->
    loop_steps env a (S rem) it [Spec.SReview r]
| ls_max (rem : nat) (it : N) (r : ReviewResult) :
    rr_success r = true -> rr_hasMajorIssues r = true ->
    N.of_nat (maxReviewIterations env) <= it ->
    loop_steps env a (S rem) it
      [Spec.SReview r; Spec.SWarn (Spec.max_iterations_warning env a)]
| ls_no_content (rem : nat) (it : N) (r : ReviewResult) :
    rr_success r = true -> rr_hasMajorIssues r = true ->
    it < N.of_nat (maxReviewIterations env) ->
    rr_reviewContent r = [] ->
    loop_steps env a (S rem) it
      [Spec.SReview r; Spec.SWarn Spec.no_content_warning]
| ls_incorporation_failed (rem : nat) (it : N) (r : ReviewResult)
    (c : ClaudeCodeResult) :
    rr_success r = true -> rr_hasMajorIssues r = true ->
    it < N.of_nat (maxReviewIterations env) ->
    rr_reviewContent r <> [] ->
    cc_success c = false ->
    loop_steps env a (S rem) it [Spec.SReview r; Spec.SInc c]
| ls_again (rem : nat) (it : N) (r : ReviewResult) (c : ClaudeCodeResult)
    (rest : list Spec.Step) :
    rr_success r = true -> rr_hasMajorIssues r = true ->
    it < N.of_nat (maxReviewIterations env) ->
    rr_reviewContent r <> [] ->
    cc_success c = true ->
    loop_steps env a rem (it + 1) rest ->
    loop_steps env a (S rem) it (Spec.SReview r :: Spec.SInc c :: rest).

(** The steps of a whole generation command that returns [ok]. *)
Inductive command_steps (env : Env) (a : Artifact)
    : bool -> list Spec.Step -> Prop :=
| cs_preflight : command_steps env a false []
| cs_generation_failed (g : ClaudeCodeResult) :
    cc_success g = false ->
    command_steps env a false [Spec.SGen g]
| cs_generated (g : ClaudeCodeResult) (ys : list Spec.Step) :
    cc_success g = true ->
    loop_steps env a (maxReviewIterations env) 1 ys ->
    command_steps env a true
      (Spec.SGen g :: ys
       ++ [Spec.SStatus (ReviewLoop.finalStatus a) system
             [T (ReviewLoop.upper a); T " generation complete"]]).

End Observations.

(* ===================================================================== *)
(** * Vocabulary for the errors of code reviews *)
(* ===================================================================== *)

Module ReviewErrors.
Import FeatureModel Js World.




End ReviewErrors.

(* ===================================================================== *)
(** * Vocabulary for the verdict fields *)
(* ===================================================================== *)

Module VerdictWords.
Import Js Verdict.

(** The word that stands for a classification in an
    [**Action Required**] field. *)
Definition word_of (c : classification) : string :=
  match c with NONE => "NONE" | MINOR => "MINOR" | MAJOR => "MAJOR" end.

(** The label of the field, as the pattern spells it. *)
Definition action_label : string := "**Action Required**:".

(** The label occurs neither inside [pre] nor across its end: a field
    that follows [pre] is the first one of the text. *)
Definition no_label_before (pre : list N) : Prop :=
  ~ Spec.occurs (lit action_label) (pre ++ js "**Action Required**").

(** A review that carries contradicting marks: a [**Builder Must Fix**]
    field and the legacy major marker first, then an
    [**Action Required**] field in lower case after a line break. *)
Definition mixed_review_pre : list N :=
  js "**Builder Must Fix**: YES" ++ [10]
  ++ js "**Status: Major Issues Found**" ++ [10].

Definition mixed_review : list N :=
  mixed_review_pre ++ js action_label ++ [32; 10; 9] ++ js "minor"
  ++ js " (see notes)".

End VerdictWords.

(* ===================================================================== *)
(** * Vocabulary for the queries on a plan *)
(* ===================================================================== *)

Module PlanWords.
Import Js PlanParser.

(** The headers of a plan in the order of its lines: number and
    description of every line that is a phase header. *)
Definition headers (text : list N) : list Phase :=
  omap header (split_nl text).

(** What a header line fixes of a phase. *)
Definition title (p : Phase) : N * list N := (number p, description p).

End PlanWords.

(* ===================================================================== *)
(** * Vocabulary for the status graph *)
(* ===================================================================== *)

Module StatusGraph.
Import FeatureModel.

(** One allowed move. *)
Definition move (from to : FeatureStatus) : Prop :=
  canTransition from to = true.

(** A sequence of allowed moves, possibly empty. *)
Definition leads_to : FeatureStatus -> FeatureStatus -> Prop := rtc move.

(** The place of a status in the declaration of the type. *)
Definition rank (s : FeatureStatus) : nat :=
  match s with
  | requested => 0 | draft => 1 | spec_reviewed => 2 | plan_created => 3
  | plan_reviewed => 4 | ready_for_build => 5 | building => 6
  | code_review => 7 | testing => 8 | implemented => 9
  end.

End StatusGraph.

(* ===================================================================== *)
(** * Vocabulary for texts and diffs *)
(* ===================================================================== *)

Module TextWords.
Import Js World.

(** White space at neither end. *)
Definition trimmed (s : list N) : Prop := trim s = s.

(** No line feed inside. *)
Definition one_line (s : list N) : Prop := 10 ∉ s.

(** What every caller of the diff functions may rely on: the flag says
    whether the diff text is non-empty, the diff text carries no white
    space at its ends, and every file name is a non-empty single line. *)
Definition consistent (r : GitDiffResult) : Prop :=
  (hasChanges r = true <-> diff r <> [])
  /\ trimmed (diff r)
  /\ Forall (fun f => f <> [] /\ one_line f) (filesChanged r).

(** A diff of three lines. *)
Definition three_line_diff : list N := js "a" ++ [10] ++ js "b" ++ [10] ++ js "c".

End TextWords.

(* ===================================================================== *)
(** * Vocabulary for the text of a status file *)
(* ===================================================================== *)

Module YamlWords.
Import Js JsText Yaml StatusText TextWords.

(** Empty, or beginning with a character that is not white space. *)
Definition head_ok (s : list N) : Prop :=
  match s with
  | [] => True
  | c :: _ => is_space c = false
  end.

(** Beginning with a character that is not white space, as a time stamp
    does. *)
Definition starts_visible (s : list N) : Prop :=
  exists c t, s = c :: t /\ is_space c = false.

(** A key that survives being written and read again: not empty, and not
    beginning with the fence [---]. *)
Definition key_ok (k : list N) : Prop :=
  k <> [] /\ startsWith k (js "---") = false.

(** What the parser guarantees of every entry: key and value carry no
    white space at their ends and no line feed, and the key no colon. *)
Definition clean_entry (e : list N * list N) : Prop :=
  trimmed (fst e) /\ one_line (fst e) /\ (58 ∉ fst e)
  /\ trimmed (snd e) /\ one_line (snd e).

(** The order of two keys that are array indices. *)
Definition key_lt (k1 k2 : list N) : Prop :=
  exists i j, array_index k1 = Some i /\ array_index k2 = Some j /\ i < j.

(** The keys of an object as [Object.entries] lists them: no key twice,
    never [__proto__], the array indices first and ascending. *)
Definition canonical_keys (ks : list (list N)) : Prop :=
  NoDup ks
  /\ (js "__proto__" ∉ ks)
  /\ exists idx strs,
       ks = idx ++ strs
       /\ Forall (fun k => is_Some (array_index k)) idx
       /\ StronglySorted key_lt idx
       /\ Forall (fun k => array_index k = None) strs.

Definition canonical (o : Frontmatter) : Prop := canonical_keys (map fst o).

(** The line of an entry between the fences. *)
Definition entry_line (e : list N * list N) : list N :=
  fst e ++ js ": " ++ snd e.

(** What is kept of the old body under a new history line: the body
    without the white space in front, closed by a line feed. *)
Definition kept_body (body : list N) : list N :=
  let t := trimStart body in
  if bool_decide (t = []) then []
  else t ++ (if endsWith_nl t then [] else [10]).

(** A status file with a carriage return at a line end, a colon inside a
    value, keys that are array indices and an old history line. *)
Definition sample_status_file : list N :=
  js "---" ++ [10] ++ js "id: demo" ++ [13; 10]
  ++ js "name: Demo: the feature " ++ [10]
  ++ js "status: draft" ++ [10]
  ++ js "2: x" ++ [10] ++ js "10: y" ++ [10] ++ js "1:" ++ [10]
  ++ js "---" ++ [10; 10]
  ++ js "2024-01-01T00:00:00.000Z  [system]  Created feature".

(** Updates for [updateFrontmatter]: a key that exists and a new one. *)
Definition sample_updates : Frontmatter :=
  [(js "status", js "testing"); (js "owner", js "me")].

(** What [updateFrontmatter] asks of an update so that it can be read
    back: key and value are trimmed single lines, the key holds no colon,
    is not empty, does not begin with the fence and is not [__proto__]. *)
Definition update_ok (e : list N * list N) : Prop :=
  clean_entry e /\ key_ok (fst e) /\ fst e <> js "__proto__".

Definition stamp_1 : list N := js "2024-01-02T00:00:00.000Z".
Definition stamp_2 : list N := js "2024-01-03T00:00:00.000Z".

End YamlWords.

(* ===================================================================== *)
(** * Vocabulary for features as files *)
(* ===================================================================== *)

Module FeatureWords.
Import Js JsText Yaml FeatureFiles TextWords.

(** A value that fits on the line of its key as it is: no white space at
    its ends, no line feed. *)
Definition plain (v : list N) : Prop := trimmed v /\ one_line v.

(** The same feature with another status. *)
Definition with_status (m : LoadedMeta) (s : list N) : LoadedMeta :=
  {| id := id m; name := name m; status := s; owner := owner m |}.

(** The entries of the status file of a new feature. *)
Definition created_entries (id name now : list N) : Frontmatter :=
  [(js "id", id); (js "name", name); (js "status", js "requested");
   (js "created_at", now)].

End FeatureWords.

(* ===================================================================== *)
(** * Vocabulary for templates *)
(* ===================================================================== *)

Module TemplateWords.
Import Js JsText Config FeatureFiles.

(** A template as its author sees it: literal text and placeholders. *)
Inductive piece : Type :=
| Text (s : list N)
| Slot (key : list N).

(** The text of a template: a placeholder is its key between braces. *)
Definition piece_text (p : piece) : list N :=
  match p with
  | Text s => s
  | Slot key => [123] ++ key ++ [125]
  end.

Definition render (ps : list piece) : list N := concat (map piece_text ps).

(** The value given for a key, if any: the first entry with that key. *)
Fixpoint lookup (key : list N) (substitutions : list (list N * list N))
    : option (list N) :=
  match substitutions with
  | [] => None
  | (k, v) :: rest => if bool_decide (k = key) then Some v else lookup key rest
  end.

(** The template with every placeholder that has a value replaced by it;
    a placeholder without a value stays. *)
Definition filled (substitutions : list (list N * list N)) (p : piece)
    : list N :=
  match p with
  | Text s => s
  | Slot key =>
      match lookup key substitutions with
      | Some v => v
      | None => [123] ++ key ++ [125]
      end
  end.

Definition fill (substitutions : list (list N * list N)) (ps : list piece)
    : list N :=
  concat (map (filled substitutions) ps).

(** A key made of letters, digits and underscores. *)
Definition identifier (key : list N) : Prop := forallb is_word key = true.

(** Text without an opening brace. *)
Definition brace_free (s : list N) : Prop := 123 ∉ s.

(** A value that is inserted as it is: no opening brace, no dollar sign. *)
Definition verbatim (v : list N) : Prop := (123 ∉ v) /\ (36 ∉ v).

Definition well_formed_piece (p : piece) : Prop :=
  match p with
  | Text s => brace_free s
  | Slot key => identifier key
  end.

(** A prompt with two placeholders, one of them twice. *)
Definition sample_template : list piece :=
  [Text (js "Review "); Slot (js "specPath"); Text (js " for feature ");
   Slot (js "featureId"); Text (js ". Write to "); Slot (js "specPath");
   Text (js "; keep "); Slot (js "other"); Text (js ".")].

Definition sample_substitutions : list (list N * list N) :=
  [(js "featureId", js "dark-mode"); (js "specPath", js "docs/a.spec.md")].

End TemplateWords.

(* ===================================================================== *)
(** * Further examples *)
(* ===================================================================== *)

Module Cases.
Import FeatureModel Js World Scenario.

(** The review API does not answer. *)
Definition api_down (tr : list Event) : option (bool * bool * list N) := None.

Definition env_api_down : Env :=
  make_env 3 3 openai_only git_dirty (fun _ _ _ _ => done) api_down
    one_phase_plan.

(** The Claude Code CLI is not installed. *)
Definition env_no_cli : Env :=
  {| reviewerProvider := provider_openai;
     maxReviewIterations := 3;
     maxBuildIterations := 5;
     buildReviewMode := both;
     claudeVersionOk := fun _ => false;
     openaiApiKey := fun _ => true;
     workspaceFolder := fun _ => true;
     gitRevParseOk := fun _ => true;
     gitExec := git_dirty;
     claudeCli := fun _ _ _ _ => done;
     openaiApi := api_always_major;
     readFile := fun _ _ => Some one_phase_plan;
     writeFileOk := fun _ => true |}.

Definition staged_changes : GitDiffResult :=
  {| diff := js "diff --git a/model.ts b/model.ts";
     filesChanged := [js "model.ts"];
     hasChanges := true |}.

End Cases.
(* ===================================================================== *)
(** * Properties *)
(* ===================================================================== *)

Module StatusMachine.
Import FeatureModel World WorkflowStatus WorkflowCommands Spec Scenario.

Lemma canTransition_decide (from to : FeatureStatus) :
  canTransition from to = bool_decide ((from, to) ∈ spec_edges).
Proof. destruct from, to; vm_compute; reflexivity. Qed.

(** C2.  For all pairs of the ten statuses, [canTransition from to] is true
    exactly when [(from, to)] is one of the eleven edges of the adjacency
    table, and [implemented] has no outgoing edge. *)
Theorem canTransition_matches_table (from to : FeatureStatus) :
  (canTransition from to = true <-> (from, to) ∈ spec_edges)
  /\ canTransition implemented to = false.
Proof.
  split.
  - rewrite canTransition_decide. apply bool_decide_eq_true.
  - destruct to; reflexivity.
Qed.





End StatusMachine.

(* --------------------------------------------------------------------- *)
(** ** The matcher against the languages of the patterns *)
(* --------------------------------------------------------------------- *)

Module RegexFacts.
Import Js Spec.

Section Soundness.
Context {R : Type}.

Lemma star_sound (p : N -> bool) (s : list N) (k : list N -> option R)
    (res : R) :
  star p s k = Some res ->
  exists s1 s2,
    s = s1 ++ s2 /\ Forall (fun x => p x = true) s1 /\ k s2 = Some res.
Proof.
  induction s as [| x s IH]; simpl; intros H.
  - exists [], []. auto.
  - destruct (p x) eqn:Hp.
    + destruct (star p s k) as [r' |] eqn:Hs.
      * inversion H; subst r'.
        destruct (IH eq_refl) as (s1 & s2 & -> & Hall & Hk).
        exists (x :: s1), s2. repeat split; auto.
      * exists [], (x :: s). auto.
    + exists [], (x :: s). auto.
Qed.

Lemma run_sound (r : regex) :
  forall (n : nat) (s : list N) (c : captures)
         (k : list N -> captures -> option R) (res : R),
    run n r s c k = Some res ->
    exists s1 s2 c',
      s = s1 ++ s2 /\ matches r s1 /\ k s2 c' = Some res.
Proof.
  induction r as [| | | a | p | p | p | r1 IH1 r2 IH2 | r1 IH1 r2 IH2 | i r IH];
    intros n s c k res H; simpl in H.
  - exists [], s, c. split; [reflexivity |]. split; [constructor | exact H].
  - destruct (Nat.eqb (length s) n); [| discriminate].
    exists [], s, c. split; [reflexivity |]. split; [constructor | exact H].
  - destruct s; [| discriminate].
    exists [], [], c. split; [reflexivity |]. split; [constructor | exact H].
  - destruct s as [| x s]; [discriminate |].
    destruct (ci_eq a x) eqn:Hx; [| discriminate].
    exists [x], s, c. split; [reflexivity |]. split; [constructor; exact Hx | exact H].
  - destruct s as [| x s]; [discriminate |].
    destruct (p x) eqn:Hx; [| discriminate].
    exists [x], s, c. split; [reflexivity |]. split; [constructor; exact Hx | exact H].
  - apply star_sound in H. destruct H as (s1 & s2 & -> & Hall & Hk).
    exists s1, s2, c. split; [reflexivity |]. split; [constructor; exact Hall | exact Hk].
  - destruct s as [| x s]; [discriminate |].
    destruct (p x) eqn:Hx; [| discriminate].
    apply star_sound in H. destruct H as (s1 & s2 & -> & Hall & Hk).
    exists (x :: s1), s2, c. split; [reflexivity |].
    split; [constructor; assumption | exact Hk].
  - apply IH1 in H. destruct H as (s1 & s2 & c1 & -> & Hm1 & H).
    apply IH2 in H. destruct H as (s3 & s4 & c2 & -> & Hm2 & H).
    exists (s1 ++ s3), s4, c2. split; [apply app_assoc |].
    split; [constructor; assumption | exact H].
  - destruct (run n r1 s c k) as [res1 |] eqn:H1.
    + inversion H; subst res1. apply IH1 in H1.
      destruct H1 as (s1 & s2 & c1 & -> & Hm & Hk).
      exists s1, s2, c1. split; [reflexivity |].
      split; [apply m_alt_l; exact Hm | exact Hk].
    + apply IH2 in H. destruct H as (s1 & s2 & c1 & -> & Hm & Hk).
      exists s1, s2, c1. split; [reflexivity |].
      split; [apply m_alt_r; exact Hm | exact Hk].
  - apply IH in H. destruct H as (s1 & s2 & c1 & -> & Hm & Hk).
    eexists s1, s2, _. split; [reflexivity |].
    split; [constructor; exact Hm | exact Hk].
Qed.

End Soundness.

Lemma search_sound (n : nat) (r : regex) (s : list N) (c : captures) :
  search n r s = Some c -> occurs r s.
Proof.
  induction s as [| x s IH]; simpl; intros H.
  - destruct (run n r [] [] (fun _ c0 => Some c0)) as [c1 |] eqn:Hr;
      [| discriminate].
    apply run_sound in Hr. destruct Hr as (s1 & s2 & c' & Hs & Hm & _).
    exists [], s1, s2. auto.
  - destruct (run n r (x :: s) [] (fun _ c0 => Some c0)) as [c1 |] eqn:Hr.
    + apply run_sound in Hr. destruct Hr as (s1 & s2 & c' & Hs & Hm & _).
      exists [], s1, s2. auto.
    + destruct (IH H) as (pre & mid & post & -> & Hm).
      exists (x :: pre), mid, post. auto.
Qed.

(** No occurrence, no match. *)
Lemma exec_none (r : regex) (text : list N) :
  ~ occurs r text -> exec r text = None.
Proof.
  intros Hno. unfold exec.
  destruct (search (length text) r text) as [c |] eqn:Hs; [| reflexivity].
  exfalso. apply Hno. eapply search_sound. exact Hs.
Qed.

Lemma test_false (r : regex) (text : list N) :
  ~ occurs r text -> test r text = false.
Proof. intros Hno. unfold test. rewrite exec_none; auto. Qed.

Section Completeness.
Context {R : Type}.

Lemma star_some (p : N -> bool) (s : list N) (k : list N -> option R) :
  is_Some (k s) -> is_Some (star p s k).
Proof.
  intros Hk. destruct s as [| x s]; simpl; [exact Hk |].
  destruct (p x); [| exact Hk].
  destruct (star p s k); [eauto | exact Hk].
Qed.

Lemma star_complete (p : N -> bool) (s1 s2 : list N)
    (k : list N -> option R) :
  Forall (fun x => p x = true) s1 ->
  is_Some (k s2) -> is_Some (star p (s1 ++ s2) k).
Proof.
  intros Hall Hk. induction Hall as [| x s1 Hx _ IH]; simpl.
  - apply star_some. exact Hk.
  - rewrite Hx. destruct IH as [res ->]. eauto.
Qed.

Lemma run_complete (r : regex) (s1 : list N) :
  matches r s1 ->
  anchor_free r = true ->
  forall (n : nat) (s2 : list N) (c : captures)
         (k : list N -> captures -> option R),
    (forall c', is_Some (k s2 c')) ->
    is_Some (run n r (s1 ++ s2) c k).
Proof.
  induction 1 as [| | | a x Hx | p x Hx | p s Hall | p x s Hx Hall
                  | r1 r2 s1 s2 _ IH1 _ IH2 | r1 r2 s _ IH | r1 r2 s _ IH
                  | i r s _ IH];
    simpl; intros Haf n s' c k Hk; try discriminate.
  - apply Hk.
  - rewrite Hx. apply Hk.
  - rewrite Hx. apply Hk.
  - apply star_complete; [exact Hall | apply Hk].
  - rewrite Hx. apply star_complete; [exact Hall | apply Hk].
  - apply andb_prop in Haf. destruct Haf as [Ha1 Ha2].
    rewrite <- app_assoc. apply IH1; [exact Ha1 |].
    intros c'. apply IH2; [exact Ha2 | exact Hk].
  - apply andb_prop in Haf. destruct Haf as [Ha1 _].
    destruct (IH Ha1 n s' c k Hk) as [res ->]. eauto.
  - apply andb_prop in Haf. destruct Haf as [_ Ha2].
    destruct (run n r1 (s ++ s') c k); [eauto |].
    apply IH; assumption.
  - apply IH; [exact Haf |]. intros c'. apply Hk.
Qed.

End Completeness.

Lemma search_complete (n : nat) (r : regex) (text : list N) :
  anchor_free r = true -> occurs r text -> is_Some (search n r text).
Proof.
  intros Haf (pre & mid & post & -> & Hm).
  induction pre as [| x pre IH].
  - simpl.
    assert (Hr : is_Some (run n r (mid ++ post) [] (fun _ c0 => Some c0))).
    { apply run_complete; [exact Hm | exact Haf |]. intros c'. eauto. }
    destruct Hr as [c1 Hr].
    destruct (mid ++ post); simpl; rewrite Hr; eauto.
  - simpl.
    destruct (run n r (x :: pre ++ mid ++ post) [] (fun _ c0 => Some c0));
      [eauto | exact IH].
Qed.

(** An occurrence is found. *)
Lemma test_true (r : regex) (text : list N) :
  anchor_free r = true -> occurs r text -> test r text = true.
Proof.
  intros Haf Ho. unfold test, exec.
  destruct (search_complete (length text) r text Haf Ho) as [c ->].
  reflexivity.
Qed.

(** Absence of an occurrence, decided by running the matcher. *)
Lemma not_occurs_by_test (r : regex) (text : list N) :
  anchor_free r = true -> test r text = false -> ~ occurs r text.
Proof.
  intros Haf Ht Ho. rewrite (test_true r text Haf Ho) in Ht. discriminate.
Qed.

(** A literal denotes itself. *)
Lemma matches_lit_chars (l : list N) : matches (lit_chars l) l.
Proof.
  induction l as [| a l IH]; simpl.
  - constructor.
  - change (a :: l) with ([a] ++ l). constructor; [| exact IH].
    constructor. unfold ci_eq. apply N.eqb_refl.
Qed.

End RegexFacts.

(* --------------------------------------------------------------------- *)
(** ** Verdict classifier *)
(* --------------------------------------------------------------------- *)

Module VerdictFacts.
Import Js Verdict Spec Scenario RegexFacts.

(** [parseVerdictBlock] honours the legacy major marker: a text with an
    occurrence of [**Status: Major Issues Found**] (any case, any white space
    after the colon) and with neither verdict field is classified MAJOR. *)
Lemma parseVerdictBlock_legacy_major (text : list N) :
  ~ occurs re_action text ->
  ~ occurs re_builder text ->
  occurs re_status_major text ->
  parseVerdictBlock text = {| hasMajorIssues := true; hasMinorIssues := false |}.
Proof.
  intros Ha Hb Hm. unfold parseVerdictBlock.
  rewrite (exec_none _ _ Ha), (exec_none _ _ Hb).
  rewrite (test_true re_status_major text eq_refl Hm). reflexivity.
Qed.

(** [parseReviewerVerdict] has no branch for that marker: without the two
    verdict fields and without [**Status: No Major Issues**] it answers "no
    issues", whatever else the text holds. *)
Lemma parseReviewerVerdict_ignores_major_marker (text : list N) :
  ~ occurs re_action text ->
  ~ occurs re_builder text ->
  ~ occurs re_status_no_major text ->
  parseReviewerVerdict text
    = {| hasMajorIssues := false; hasMinorIssues := false |}.
Proof.
  intros Ha Hb Hn. unfold parseReviewerVerdict.
  rewrite (exec_none _ _ Ha), (exec_none _ _ Hb), (test_false _ _ Hn).
  reflexivity.
Qed.

(** C3, at the failing input.  The review text
    [**Status: Major Issues Found**] carries the legacy major marker and
    neither verdict field; claudeReview.ts classifies it MAJOR, buildLoop.ts
    classifies it NONE. *)
Theorem legacy_major_marker_divergence :
  occurs re_status_major legacy_major_text
  /\ ~ occurs re_action legacy_major_text
  /\ ~ occurs re_builder legacy_major_text
  /\ classify (parseVerdictBlock legacy_major_text) = MAJOR
  /\ classify (parseReviewerVerdict legacy_major_text) = NONE.
Proof.
  split.
  - exists [], legacy_major_text, []. split; [reflexivity |].
    change legacy_major_text
      with (js "**Status:" ++ [32] ++ js "Major Issues Found**").
    unfold re_status_major. constructor; [apply matches_lit_chars |].
    constructor; [| apply matches_lit_chars].
    constructor. repeat constructor.
  - split; [apply not_occurs_by_test; reflexivity |].
    split; [apply not_occurs_by_test; reflexivity |].
    split; reflexivity.
Qed.

(** C9.  A review text with no [**Action Required**] field, no
    [**Builder Must Fix**] field and none of the legacy [**Status: ...**]
    markers is classified NONE by both parsers. *)
Theorem unstructured_text_is_none (text : list N) :
  ~ occurs re_action text ->
  ~ occurs re_builder text ->
  ~ (occurs re_status_major text \/ occurs re_status_no_major text
     \/ occurs re_status_minor text) ->
  classify (parseReviewerVerdict text) = NONE
  /\ classify (parseVerdictBlock text) = NONE.
Proof.
  intros Ha Hb Hs. split.
  - rewrite parseReviewerVerdict_ignores_major_marker; auto.
  - unfold parseVerdictBlock.
    rewrite (exec_none _ _ Ha), (exec_none _ _ Hb).
    rewrite (test_false re_status_major), (test_false re_status_no_major);
      auto.
Qed.

Lemma unstructured_text_is_none_witness :
  classify (parseReviewerVerdict prose_text) = NONE
  /\ classify (parseVerdictBlock prose_text) = NONE.
Proof.
  apply (unstructured_text_is_none prose_text).
  - apply not_occurs_by_test; reflexivity.
  - apply not_occurs_by_test; reflexivity.
  - intros [H | [H | H]]; revert H; apply not_occurs_by_test; reflexivity.
Defined.

End VerdictFacts.

(* --------------------------------------------------------------------- *)
(** ** Phase extractor *)
(* --------------------------------------------------------------------- *)

Module PlanFacts.
Import Js PlanParser Spec Scenario.

(** *** The sort *)

Lemma insert_phase_perm (p : Phase) (l : list Phase) :
  Permutation (p :: l) (insert_phase p l).
Proof.
  induction l as [| q l IH]; simpl; [reflexivity |].
  destruct (number q <=? number p); [| reflexivity].
  rewrite <- IH. apply perm_swap.
Qed.


Lemma sort_from_perm (l acc : list Phase) :
  Permutation (l ++ acc)
    (fold_left (fun acc p => insert_phase p acc) l acc).
Proof.
  revert acc. induction l as [| p l IH]; intros acc; simpl; [reflexivity |].
  rewrite <- IH. rewrite <- insert_phase_perm.
  apply Permutation_middle.
Qed.


Lemma sort_phases_perm (l : list Phase) : Permutation l (sort_phases l).
Proof.
  unfold sort_phases. rewrite <- sort_from_perm. rewrite app_nil_r.
  reflexivity.
Qed.


(** *** The scan *)

Lemma scan_no_header_closed (pre : list (list N)) (st : scan_state) :
  Forall no_header pre ->
  currentPhase st = None ->
  fold_left scan_line pre st = st.
Proof.
  intros Hpre. revert st. induction Hpre as [| l pre Hl _ IH]; intros st Hc;
    simpl; [reflexivity |].
  unfold scan_line at 2. rewrite Hl, Hc. apply IH. exact Hc.
Qed.

Lemma scan_no_header_open (body : list (list N)) (ps : list Phase)
    (p : Phase) (acc : list (list N)) :
  Forall no_header body ->
  fold_left scan_line body
    {| phases := ps; currentPhase := Some p; currentContent := acc |}
  = {| phases := ps; currentPhase := Some p; currentContent := acc ++ body |}.
Proof.
  intros Hb. revert acc. induction Hb as [| l body Hl _ IH]; intros acc; simpl.
  - rewrite app_nil_r. reflexivity.
  - unfold scan_line at 2. rewrite Hl. simpl. rewrite IH.
    rewrite <- app_assoc. reflexivity.
Qed.

Lemma scan_segments (segs : list segment) :
  Forall well_formed segs ->
  forall st : scan_state,
  exists ps,
    Forall2 phase_for segs ps
    /\ close_phase (fold_left scan_line (concat (map seg_lines segs)) st)
       = close_phase st ++ ps.
Proof.
  induction 1 as [| sg segs [[h Hh] Hbody] _ IH]; intros st.
  - exists []. split; [constructor |]. simpl. rewrite app_nil_r. reflexivity.
  - destruct sg as [line body]. simpl in Hh, Hbody.
    simpl. rewrite fold_left_app.
    unfold scan_line at 3. rewrite Hh.
    rewrite scan_no_header_open by exact Hbody.
    destruct (IH {| phases := close_phase st; currentPhase := Some h;
                    currentContent := [line] ++ body |}) as (ps & Hps & Heq).
    exists ({| number := number h; description := description h;
               content := trim (join_nl (line :: body)) |} :: ps).
    split.
    + constructor; [| exact Hps]. exists h. split; [exact Hh | reflexivity].
    + rewrite Heq. unfold close_phase at 1. simpl.
      rewrite <- app_assoc. reflexivity.
Qed.

(** The phases of a plan, before sorting. *)
Lemma scan_layout (pre : list (list N)) (segs : list segment) :
  Forall no_header pre ->
  Forall well_formed segs ->
  exists ps,
    Forall2 phase_for segs ps
    /\ close_phase
         (fold_left scan_line (layout pre segs)
            {| phases := []; currentPhase := None; currentContent := [] |})
       = ps.
Proof.
  intros Hpre Hsegs. unfold layout. rewrite fold_left_app.
  rewrite (scan_no_header_closed pre); [| exact Hpre | reflexivity].
  destruct (scan_segments segs Hsegs
              {| phases := []; currentPhase := None; currentContent := [] |})
    as (ps & Hps & Heq).
  exists ps. split; [exact Hps |]. rewrite Heq. reflexivity.
Qed.

(** Every list of lines is laid out in exactly this way. *)
Lemma layout_exists (lines : list (list N)) :
  exists pre segs,
    lines = layout pre segs
    /\ Forall no_header pre /\ Forall well_formed segs.
Proof.
  induction lines as [| l lines (pre & segs & -> & Hpre & Hsegs)].
  - exists [], []. repeat split; constructor.
  - destruct (header l) as [h |] eqn:Hl.
    + exists [], ((l, pre) :: segs). split.
      * reflexivity.
      * split; [constructor |]. constructor; [| exact Hsegs].
        split; simpl; [rewrite Hl; eauto | exact Hpre].
    + exists (l :: pre), segs. split; [reflexivity |].
      split; [constructor; assumption | exact Hsegs].
Qed.



(** The example of the specification in full: numbers, descriptions and
    contents of the three phases, in the order returned. *)
Example plan_2_1_3_phases :
  parsePlanPhasesFromContent plan_2_1_3
  = [ {| number := 1; description := js "First";
         content := js "## Phase 1: First" |};
      {| number := 2; description := js "Second";
         content := js "## Phase 2: Second" ++ [10] ++ js "second body" |};
      {| number := 3; description := js "Third";
         content := js "## Phase 3: Third" ++ [10] ++ js "third body" |} ].
Proof. reflexivity. Qed.

(** A plan without headers has no phases. *)
Lemma no_headers_no_phases (text : list N) :
  Forall no_header (split_nl text) -> parsePlanPhasesFromContent text = [].
Proof.
  intros Hno. unfold parsePlanPhasesFromContent.
  rewrite scan_no_header_closed; [reflexivity | exact Hno | reflexivity].
Qed.

End PlanFacts.

(* --------------------------------------------------------------------- *)
(** ** The primitive steps *)
(* --------------------------------------------------------------------- *)

Module RunFacts.
Import FeatureModel Js World ClaudeCode WorkflowStatus GitUtils Spec.

Lemma new_events_app (w w' : world) (evs : list Event) :
  trace w' = trace w ++ evs -> new_events w w' = evs.
Proof. intros H. unfold new_events. rewrite H. apply drop_app_length. Qed.

Lemma emit_eq (e : Event) (w : world) :
  emit e w = (tt, {| statusFile := statusFile w;
                     sessionsCreated := sessionsCreated w;
                     trace := trace w ++ [e] |}).
Proof. reflexivity. Qed.

Lemma logToFeatureHistory_eq (src : Source) (m : Message) (w : world) :
  logToFeatureHistory src m w
  = (tt, {| statusFile := with_line src m <$> statusFile w;
            sessionsCreated := sessionsCreated w;
            trace := trace w ++ EvLog src m
                     :: unreadable [T "Failed to log to feature history: "]
                          (statusFile w) |}).
Proof.
  unfold logToFeatureHistory, bind, emit. simpl.
  destruct (statusFile w) as [f |]; simpl.
  - reflexivity.
  - rewrite <- app_assoc. reflexivity.
Qed.

Lemma updateFeatureStatus_eq (st : FeatureStatus) (src : Source) (m : Message)
    (w : world) :
  exists r,
    updateFeatureStatus st src m w
    = (r, {| statusFile :=
               (fun f =>
                  {| frontmatter := <["status" := status_name st]> (frontmatter f);
                     history := {| hl_source := src; hl_message := m |}
                                :: history f |}) <$> statusFile w;
             sessionsCreated := sessionsCreated w;
             trace := trace w ++ EvStatus st src m
                      :: unreadable [T "Failed to update status for feature: "]
                           (statusFile w) |}).
Proof.
  unfold updateFeatureStatus, bind, emit, ret. simpl.
  destruct (statusFile w) as [f |]; simpl; eexists.
  - reflexivity.
  - rewrite <- app_assoc. reflexivity.
Qed.

Lemma severities_app (a b : list Event) :
  severities (a ++ b) = severities a ++ severities b.
Proof. apply omap_app. Qed.

Lemma build_incorporations_app (a b : list Event) :
  build_incorporations (a ++ b)
  = build_incorporations a ++ build_incorporations b.
Proof. apply omap_app. Qed.

Lemma logs_app (a b : list Event) : logs (a ++ b) = logs a ++ logs b.
Proof. apply omap_app. Qed.

Lemma unreadable_projections (m : Message) (sf : option StatusFile) :
  severities (unreadable m sf) = []
  /\ build_incorporations (unreadable m sf) = []
  /\ logs (unreadable m sf) = [].
Proof. destruct sf; auto. Qed.

Lemma unreadable_quiet (m : Message) (sf : option StatusFile) :
  forallb quiet (unreadable m sf) = true.
Proof. destruct sf; reflexivity. Qed.

Lemma runClaudeCodeWithProgress_eq (env : Env) (p : Prompt) (sid : nat)
    (resume : bool) (w : world) :
  runClaudeCodeWithProgress env p sid resume w
  = (claudeCli env (trace w) p sid resume,
     {| statusFile := statusFile w;
        sessionsCreated := sessionsCreated w;
        trace := trace w
                 ++ [EvSession p sid resume
                       (claudeCli env (trace w) p sid resume)] |}).
Proof. reflexivity. Qed.

Lemma getStagedDiff_eq (env : Env) (w : world) :
  getStagedDiff env w
  = (stagedDiff (gitExec env (trace w)),
     {| statusFile := statusFile w;
        sessionsCreated := sessionsCreated w;
        trace := trace w ++ [EvDiff (stagedDiff (gitExec env (trace w)))] |}).
Proof. reflexivity. Qed.

(** A failing git command empties the result. *)
Lemma stagedDiff_failure (exec : GitCommand -> option (list N)) :
  (exists cmd, exec cmd = None) -> stagedDiff exec = no_changes.
Proof.
  intros [cmd Hcmd]. unfold stagedDiff.
  destruct (exec git_add_all) eqn:H1; [| reflexivity].
  destruct (exec git_diff_staged) eqn:H2; [| reflexivity].
  destruct (exec git_diff_staged_names) eqn:H3; [| reflexivity].
  destruct cmd; congruence.
Qed.

(** The pre-flight checks only show error messages. *)
Lemma errors_quiet (q : list Event) :
  forallb is_error q = true -> forallb quiet q = true.
Proof.
  induction q as [| e q IH]; [reflexivity |]. simpl. intros H.
  apply andb_prop in H. destruct H as [He Hq]. rewrite (IH Hq).
  destruct e as [| | | | | | | | lvl ?]; try discriminate.
  destruct lvl; try discriminate. reflexivity.
Qed.

Lemma errors_no_session (q : list Event) :
  forallb is_error q = true ->
  forallb (fun e => negb (is_session e)) q = true.
Proof.
  induction q as [| e q IH]; [reflexivity |]. simpl. intros H.
  apply andb_prop in H. destruct H as [He Hq]. rewrite (IH Hq).
  destruct e; try discriminate. reflexivity.
Qed.

Lemma ensureClaudeCodeInstalled_shape (env : Env) (w : world) :
  exists q,
    ensureClaudeCodeInstalled env w
    = (claudeVersionOk env (trace w),
       {| statusFile := statusFile w;
          sessionsCreated := sessionsCreated w;
          trace := trace w ++ q |})
    /\ forallb is_error q = true.
Proof.
  unfold ensureClaudeCodeInstalled, bind, ask, emit, ret.
  destruct (claudeVersionOk env (trace w)).
  - exists []. rewrite app_nil_r. destruct w; auto.
  - eexists [_]. simpl. auto.
Qed.

Lemma ensureReviewerConfigured_shape (env : Env) (provider : ReviewerProvider)
    (w : world) :
  exists ok q,
    ReviewLoop.ensureReviewerConfigured env provider w
    = (ok, {| statusFile := statusFile w;
              sessionsCreated := sessionsCreated w;
              trace := trace w ++ q |})
    /\ forallb is_error q = true.
Proof.
  destruct provider; simpl.
  - unfold OpenaiReview.ensureOpenAIConfigured, bind, ask, emit, ret.
    destruct (openaiApiKey env (trace w)).
    + exists true, []. rewrite app_nil_r. destruct w; auto.
    + eexists false, [_]. simpl. auto.
  - unfold ClaudeReview.ensureClaudeReviewerConfigured.
    destruct (ensureClaudeCodeInstalled_shape env w) as (q & E & Hq).
    eauto.
Qed.

End RunFacts.

(* --------------------------------------------------------------------- *)
(** ** Starting a build *)
(* --------------------------------------------------------------------- *)

Module BuildStart.
Import FeatureModel Js PlanParser World ClaudeCode WorkflowStatus GitUtils.
Import BuildLoop Spec Scenario.

(** C8.  A plan text without phase headers yields the empty list, and a
    build started on a feature whose plan file holds such a text returns
    [false] having only shown messages: the status file (status and
    history) is what it was, no status write and no history entry was
    attempted, no session identity was created and no CLI run was made. *)
Theorem no_phases_aborts_build (text : list N) :
  Forall no_header (split_nl text) ->
  parsePlanPhasesFromContent text = []
  /\ forall (env : Env) (feature : Feature) (plan : string) (w : world),
       planPath feature = Some plan ->
       (forall tr, readFile env tr plan = Some text) ->
       exists evs,
         executeBuildPhase env feature w
         = (false, {| statusFile := statusFile w;
                      sessionsCreated := sessionsCreated w;
                      trace := trace w ++ evs |})
         /\ Forall is_notify evs.
Proof.
  intros Hno.
  pose proof (PlanFacts.no_headers_no_phases text Hno) as Hparse.
  split; [exact Hparse |].
  intros env feature plan w Hplan Hread.
  unfold executeBuildPhase, ensureClaudeCodeInstalled, ensureReviewerConfigured,
    ReviewLoop.ensureReviewerConfigured,
    ClaudeReview.ensureClaudeReviewerConfigured,
    OpenaiReview.ensureOpenAIConfigured, ensureClaudeCodeInstalled,
    isGitAvailable, parsePlanPhases, bind, ret, emit, ask.
  rewrite Hplan. simpl.
  repeat first
    [ rewrite Hread
    | rewrite Hparse
    | progress simpl
    | match goal with
      | |- context [claudeVersionOk ?e ?t] => destruct (claudeVersionOk e t)
      | |- context [openaiApiKey ?e ?t] => destruct (openaiApiKey e t)
      | |- context [gitRevParseOk ?e ?t] => destruct (gitRevParseOk e t)
      | |- context [match buildReviewMode ?e with _ => _ end] =>
          destruct (buildReviewMode e)
      | |- context [match reviewerProvider ?e with _ => _ end] =>
          destruct (reviewerProvider e)
      | |- context [truthy ?p] => destruct (truthy p)
      end ];
  try (rewrite <- ?app_assoc; simpl; eexists; split;
       [reflexivity | repeat constructor]).
  all: try (exists []; rewrite app_nil_r; destruct w; split;
            [reflexivity | constructor]).
Qed.

Lemma no_phases_aborts_build_witness :
  parsePlanPhasesFromContent plan_no_headers = []
  /\ exists evs,
       executeBuildPhase env_no_headers demo_feature requested_world
       = (false, {| statusFile := Some requested_file;
                    sessionsCreated := 0;
                    trace := evs |})
       /\ Forall is_notify evs.
Proof.
  destruct (no_phases_aborts_build plan_no_headers) as [Hparse Hbuild].
  - repeat constructor.
  - split; [exact Hparse |].
    apply (Hbuild env_no_headers demo_feature demo_plan_path requested_world).
    + reflexivity.
    + intros tr. reflexivity.
Defined.

End BuildStart.

(* --------------------------------------------------------------------- *)
(** ** Git failures during a build *)
(* --------------------------------------------------------------------- *)

Module GitFailure.
Import FeatureModel Js PlanParser World ClaudeCode WorkflowStatus GitUtils.
Import BuildLoop Spec Scenario RunFacts.

Lemma phaseReviewLoop_git_failure (env : Env) (feature : Feature)
    (plan : string) (phase : Phase) (builderSessionId reviewerSessionId : nat)
    (remaining : nat) (iteration : N) (v : loop_vars) (w : world) :
  (exists cmd, gitExec env (trace w) cmd = None) ->
  phaseReviewLoop env feature plan phase builderSessionId reviewerSessionId
    (S remaining) iteration v w
  = ((NoChanges, isFirstReviewerCheck v),
     {| statusFile :=
          with_line system
            [T "No changes detected for Phase "; Num (number phase);
             T ", skipping review"] <$> statusFile w;
        sessionsCreated := sessionsCreated w;
        trace :=
          trace w
          ++ EvDiff no_changes
             :: EvLog system
                  [T "No changes detected for Phase "; Num (number phase);
                   T ", skipping review"]
             :: unreadable [T "Failed to log to feature history: "]
                  (statusFile w) |}).
Proof.
  intros Hfail.
  cbn [phaseReviewLoop]. unfold bind at 1. rewrite getStagedDiff_eq.
  rewrite (stagedDiff_failure _ Hfail). cbn [hasChanges no_changes negb].
  unfold bind at 1. rewrite logToFeatureHistory_eq. unfold ret.
  cbn [statusFile sessionsCreated trace]. rewrite <- app_assoc. reflexivity.
Qed.

Lemma forallb_app_true {A : Type} (f : A -> bool) (l1 l2 : list A) :
  forallb f l1 = true -> forallb f l2 = true -> forallb f (l1 ++ l2) = true.
Proof. intros H1 H2. rewrite forallb_app, H1, H2. reflexivity. Qed.

Lemma unreadable_no_review (m : Message) (sf : option StatusFile) :
  forallb not_code_review (unreadable m sf) = true.
Proof. destruct sf; reflexivity. Qed.

(** With git failing throughout and the BUILDER succeeding, every phase is
    passed as complete and no review of code is ever made. *)
Lemma buildPhases_git_failure (env : Env) (feature : Feature) (plan : string)
    (b r : nat) :
  (forall tr, exists cmd, gitExec env tr cmd = None) ->
  (forall tr p sid resume, cc_success (claudeCli env tr p sid resume) = true) ->
  forall (phases : list Phase) (isFirst : bool) (w : world),
  exists w' evs,
    buildPhases env feature plan b r phases isFirst w = (true, w')
    /\ trace w' = trace w ++ evs
    /\ forallb not_code_review evs = true.
Proof.
  intros Hgit Hcli phases.
  induction phases as [| phase rest IH]; intros isFirst w.
  - exists w, []. rewrite app_nil_r. auto.
  - cbn [buildPhases]. unfold bind at 1. rewrite logToFeatureHistory_eq.
    unfold bind at 1. rewrite runClaudeCodeWithProgress_eq.
    rewrite Hcli. cbn [negb].
    unfold bind at 1. rewrite logToFeatureHistory_eq.
    cbn [statusFile sessionsCreated trace].
    unfold bind at 1.
    destruct (maxBuildIterations env) as [| n].
    + cbn [phaseReviewLoop]. unfold ret at 1. cbn [fst snd].
      match goal with
      | |- context [buildPhases _ _ _ _ _ rest ?f ?w1] =>
          destruct (IH f w1) as (w' & evs & Hrun & Htr & Hno)
      end.
      exists w'. eexists. split; [exact Hrun |]. split.
      * rewrite Htr. cbn [trace]. rewrite <- !app_assoc. reflexivity.
      * repeat (progress (rewrite ?forallb_app; cbn [forallb app])).
        rewrite ?unreadable_no_review, Hno. reflexivity.
    + rewrite phaseReviewLoop_git_failure by apply Hgit. cbn [fst snd].
      match goal with
      | |- context [buildPhases _ _ _ _ _ rest ?f ?w1] =>
          destruct (IH f w1) as (w' & evs & Hrun & Htr & Hno)
      end.
      exists w'. eexists. split; [exact Hrun |]. split.
      * rewrite Htr. cbn [trace]. rewrite <- !app_assoc. reflexivity.
      * repeat (progress (rewrite ?forallb_app; cbn [forallb app])).
        rewrite ?unreadable_no_review, Hno. reflexivity.
Qed.

(** C10.  When one of its git commands fails, [getStagedDiff] answers
    [{ diff: "", filesChanged: [], hasChanges: false }]; an iteration of the
    review loop of a phase that meets such a failure logs "No changes
    detected ..., skipping review" and leaves the loop, having reviewed
    nothing; and the build goes on: with git failing throughout (and the
    BUILDER succeeding) all the phases are passed as complete without a
    single review of code. *)
Theorem git_failure_skips_review :
  (forall exec : GitCommand -> option (list N),
     (exists cmd, exec cmd = None) ->
     stagedDiff exec = {| diff := []; filesChanged := []; hasChanges := false |})
  /\ (forall (env : Env) (feature : Feature) (plan : string) (phase : Phase)
             (b r rem : nat) (it : N) (v : loop_vars) (w : world),
        (exists cmd, gitExec env (trace w) cmd = None) ->
        let run :=
          phaseReviewLoop env feature plan phase b r (S rem) it v w in
        fst (fst run) = NoChanges
        /\ new_events w (snd run)
           = EvDiff {| diff := []; filesChanged := []; hasChanges := false |}
             :: EvLog system
                  [T "No changes detected for Phase "; Num (number phase);
                   T ", skipping review"]
             :: unreadable [T "Failed to log to feature history: "]
                  (statusFile w))
  /\ (forall (env : Env) (feature : Feature) (plan : string) (b r : nat)
             (phases : list Phase) (isFirst : bool) (w : world),
        (forall tr, exists cmd, gitExec env tr cmd = None) ->
        (forall tr p sid resume,
           cc_success (claudeCli env tr p sid resume) = true) ->
        let run := buildPhases env feature plan b r phases isFirst w in
        fst run = true
        /\ forallb not_code_review
             (new_events w (snd run)) = true).
Proof.
  split; [exact stagedDiff_failure |]. split.
  - intros env feature plan phase b r rem it v w Hfail run. subst run.
    rewrite phaseReviewLoop_git_failure by exact Hfail. cbn [fst snd].
    split; [reflexivity |]. apply new_events_app. reflexivity.
  - intros env feature plan b r phases isFirst w Hgit Hcli run. subst run.
    destruct (buildPhases_git_failure env feature plan b r Hgit Hcli phases
                isFirst w) as (w' & evs & Hrun & Htr & Hno).
    rewrite Hrun. cbn [fst snd]. split; [reflexivity |].
    rewrite (new_events_app _ _ _ Htr). exact Hno.
Qed.

Lemma git_failure_skips_review_witness :
  stagedDiff (git_broken [])
  = {| diff := []; filesChanged := []; hasChanges := false |}
  /\ fst (fst (phaseReviewLoop env_git_broken demo_feature demo_plan_path
                 phase_one 0 1 5 1 fresh_vars requested_world)) = NoChanges
  /\ fst (buildPhases env_git_broken demo_feature demo_plan_path 0 1
            [phase_one] true requested_world) = true.
Proof.
  destruct git_failure_skips_review as (H1 & H2 & H3).
  split; [| split].
  - apply H1. exists git_diff_staged. reflexivity.
  - apply (H2 env_git_broken demo_feature demo_plan_path phase_one 0%nat
             1%nat 4%nat 1 fresh_vars requested_world).
    exists git_diff_staged. reflexivity.
  - apply (H3 env_git_broken demo_feature demo_plan_path 0%nat 1%nat
             [phase_one] true requested_world).
    + intros tr. exists git_diff_staged. reflexivity.
    + intros tr p sid resume. reflexivity.
Defined.

End GitFailure.

(* --------------------------------------------------------------------- *)
(** ** The review loop of a build phase *)
(* --------------------------------------------------------------------- *)

Module BuildLoopFacts.
Import FeatureModel Js PlanParser World ClaudeCode WorkflowStatus GitUtils.
Import CodeReview BuildLoop Spec Scenario RunFacts.

Lemma review_noise_projections (evs : list Event) :
  forallb review_noise evs = true ->
  severities evs = [] /\ build_incorporations evs = [].
Proof.
  induction evs as [| e evs IH]; [auto |].
  simpl. intros H. apply andb_prop in H. destruct H as [He Hevs].
  destruct (IH Hevs) as [IH1 IH2]. unfold severities, build_incorporations.
  simpl. fold (severities evs). fold (build_incorporations evs).
  rewrite IH1, IH2.
  destruct e as [p ? ? ? | | | | | | | |]; try discriminate; auto.
  destruct p; try discriminate; auto.
Qed.

Lemma reviewsOfIteration_shape (env : Env) (feature : Feature) (plan : string)
    (phase : Phase) (reviewerSessionId : nat) (iteration : N) (v : loop_vars)
    (d : GitDiffResult) (w : world) :
  exists evs,
    trace (snd (reviewsOfIteration env feature plan phase reviewerSessionId
                  iteration v d w))
    = trace w ++ evs
    /\ forallb review_noise evs = true.
Proof.
  unfold reviewsOfIteration, reviewCode, reviewCodeWithOpenAI,
    ClaudeReview.reviewCodeWithClaude, runCodeReview, logReview,
    ensureClaudeCodeInstalled, generateSessionId, runClaudeCodeWithProgress,
    logToFeatureHistory, bind, ret, emit, ask.
  destruct (statusFile w) eqn:Hsf;
  destruct (buildReviewMode env), (reviewerProvider env); simpl;
  repeat first
    [ rewrite Hsf
    | progress simpl
    | match goal with
      | |- context [if ?b then _ else _] => destruct b eqn:?
      | |- context [match ?o with Some _ => _ | None => _ end] =>
          destruct o eqn:?
      | |- context [let '(_, _) := ?x in _] => is_var x; destruct x
      end ];
  rewrite <- ?app_assoc; simpl;
  (eexists; split; [reflexivity | reflexivity]).
Qed.

Ltac project :=
  rewrite ?severities_app, ?build_incorporations_app, ?logs_app;
  repeat match goal with
  | |- context [severities (unreadable ?m ?sf)] =>
      rewrite (proj1 (unreadable_projections m sf))
  | |- context [build_incorporations (unreadable ?m ?sf)] =>
      rewrite (proj1 (proj2 (unreadable_projections m sf)))
  | |- context [logs (unreadable ?m ?sf)] =>
      rewrite (proj2 (proj2 (unreadable_projections m sf)))
  end.

(** One iteration of the review loop of a phase: how it ends, or from where
    it goes on. *)
Lemma phaseReviewLoop_step (env : Env) (feature : Feature) (plan : string)
    (phase : Phase) (b r : nat) (rem : nat) (it : N) (v : loop_vars)
    (w : world) (out : LoopExit * bool) (w' : world) :
  phaseReviewLoop env feature plan phase b r (S rem) it v w = (out, w') ->
  (fst out = NoChanges
   /\ exists evs,
        trace w' = trace w ++ evs
        /\ severities evs = [] /\ build_incorporations evs = [])
  \/ (fst out = Approved
      /\ exists evs,
           trace w' = trace w ++ evs
           /\ severities evs = [(it, sev_none)]
           /\ build_incorporations evs = []
           /\ last (logs evs) = Some (system, approved_msg (number phase) it))
  \/ (fst out = ApprovedMinorLogged
      /\ minorIssuesIteration v = true
      /\ exists evs,
           trace w' = trace w ++ evs
           /\ severities evs = [(it, sev_minor)]
           /\ build_incorporations evs = []
           /\ last (logs evs)
              = Some (system, minor_logged_msg (number phase) it))
  \/ (fst out = MaxIterations
      /\ N.of_nat (maxBuildIterations env) <= it
      /\ exists evs s,
           trace w' = trace w ++ evs
           /\ severities evs = [(it, s)]
           /\ build_incorporations evs = []
           /\ remediates (minorIssuesIteration v) s)
  \/ (fst out = ReturnFalse
      /\ exists evs s res,
           trace w' = trace w ++ evs
           /\ severities evs = [(it, s)]
           /\ build_incorporations evs = [res]
           /\ cc_success res = false
           /\ remediates (minorIssuesIteration v) s)
  \/ (exists evs s res v2 w2,
        trace w2 = trace w ++ evs
        /\ severities evs = [(it, s)]
        /\ build_incorporations evs = [res]
        /\ cc_success res = true
        /\ remediates (minorIssuesIteration v) s
        /\ it < N.of_nat (maxBuildIterations env)
        /\ minorIssuesIteration v2 = minorIssuesIteration v || is_minor s
        /\ phaseReviewLoop env feature plan phase b r rem (it + 1) v2 w2
           = (out, w')).
Proof.
  cbn [phaseReviewLoop]. unfold bind at 1. rewrite getStagedDiff_eq.
  set (d := stagedDiff (gitExec env (trace w))).
  destruct (hasChanges d); cbn [negb].
  2:{ unfold bind at 1. rewrite logToFeatureHistory_eq. unfold ret.
      cbn [statusFile sessionsCreated trace].
      intros H. inversion H; subst out w'; clear H. left.
      split; [reflexivity |]. eexists. split.
      - cbn [trace]. rewrite <- app_assoc. reflexivity.
      - simpl. project. auto. }
  unfold bind at 1.
  match goal with
  | |- context [reviewsOfIteration ?e ?f ?pl ?ph ?rs ?i ?vv ?dd ?ww] =>
      destruct (reviewsOfIteration_shape e f pl ph rs i vv dd ww)
        as (evs0 & Htr & Hnoise);
      destruct (reviewsOfIteration e f pl ph rs i vv dd ww)
        as [[[primary claudeR] isFirst] w1]
  end.
  cbn [snd trace] in Htr.
  destruct (review_noise_projections evs0 Hnoise) as [Hsev0 Hinc0].
  unfold bind at 1. rewrite emit_eq. cbn [statusFile sessionsCreated trace].
  unfold hasOnlyMinorIssues.
  destruct (hasAnyMajorIssues primary claudeR) eqn:HM; cbn [negb andb severity].
  - (* major issues *)
    unfold bind at 1, ret at 1.
    destruct (N.of_nat (maxBuildIterations env) <=? it) eqn:Hmax.
    + apply N.leb_le in Hmax.
      unfold bind at 1. rewrite logToFeatureHistory_eq.
      unfold bind at 1. rewrite emit_eq. unfold ret.
      cbn [statusFile sessionsCreated trace].
      intros H. inversion H; subst out w'; clear H.
      do 3 right. left. split; [reflexivity |]. split; [exact Hmax |].
      eexists _, sev_major. split.
      * cbn [trace]. rewrite Htr. rewrite <- !app_assoc. reflexivity.
      * simpl. project. rewrite Hsev0, Hinc0. simpl. project.
        repeat split; auto. left. reflexivity.
    + apply N.leb_gt in Hmax.
      unfold bind at 1. rewrite runClaudeCodeWithProgress_eq.
      cbn [statusFile sessionsCreated trace].
      match goal with
      | |- context [claudeCli ?e ?t ?p ?s ?x] => set (res := claudeCli e t p s x)
      end.
      destruct (cc_success res) eqn:Hres; cbn [negb].
      * unfold bind at 1. rewrite logToFeatureHistory_eq.
        cbn [statusFile sessionsCreated trace].
        intros H. do 5 right.
        eexists _, sev_major, res, _, _. split; [| split; [| split; [| split;
          [exact Hres | split; [left; reflexivity | split; [exact Hmax |
           split; [| exact H]]]]]]].
        -- cbn [trace]. rewrite Htr. rewrite <- !app_assoc. reflexivity.
        -- simpl. project. rewrite Hsev0. simpl. project. reflexivity.
        -- simpl. project. rewrite Hinc0. simpl. project. reflexivity.
        -- cbn [minorIssuesIteration is_minor]. rewrite orb_false_r.
           reflexivity.
      * unfold bind at 1. rewrite logToFeatureHistory_eq.
        unfold bind at 1. rewrite emit_eq. unfold ret.
        cbn [statusFile sessionsCreated trace].
        intros H. inversion H; subst out w'; clear H.
        do 4 right. left. split; [reflexivity |].
        eexists _, sev_major, res. split.
        -- cbn [trace]. rewrite Htr. rewrite <- !app_assoc. reflexivity.
        -- simpl. project. rewrite Hsev0, Hinc0. simpl. project.
           repeat split; auto. left. reflexivity.
  - destruct (cr_hasMinorIssues primary
              || match claudeR with
                 | Some a => cr_hasMinorIssues a
                 | None => false
                 end) eqn:Hm; cbn [negb andb severity].
    + (* minor issues only *)
      destruct (minorIssuesIteration v) eqn:Hflag.
      * unfold bind at 1. rewrite logToFeatureHistory_eq. unfold ret.
        cbn [statusFile sessionsCreated trace].
        intros H. inversion H; subst out w'; clear H.
        do 2 right. left. split; [reflexivity |]. split; [reflexivity |].
        eexists. split.
        -- cbn [trace]. rewrite Htr. rewrite <- !app_assoc. reflexivity.
        -- simpl. project. rewrite Hsev0, Hinc0. simpl. project.
           repeat split; auto. apply last_snoc.
      * unfold bind at 1. unfold bind at 1. rewrite logToFeatureHistory_eq.
        unfold ret at 1. cbn [statusFile sessionsCreated trace].
        destruct (N.of_nat (maxBuildIterations env) <=? it) eqn:Hmax.
        -- apply N.leb_le in Hmax.
           unfold bind at 1. rewrite logToFeatureHistory_eq.
           unfold bind at 1. rewrite emit_eq. unfold ret.
           cbn [statusFile sessionsCreated trace].
           intros H. inversion H; subst out w'; clear H.
           do 3 right. left. split; [reflexivity |]. split; [exact Hmax |].
           eexists _, sev_minor. split.
           ++ cbn [trace]. rewrite Htr. rewrite <- !app_assoc. reflexivity.
           ++ simpl. project. rewrite Hsev0, Hinc0. simpl. project. simpl.
              project. repeat split; auto. right. auto.
        -- apply N.leb_gt in Hmax.
           unfold bind at 1. rewrite runClaudeCodeWithProgress_eq.
           cbn [statusFile sessionsCreated trace].
           match goal with
           | |- context [claudeCli ?e ?t ?p ?s ?x] =>
               set (res := claudeCli e t p s x)
           end.
           destruct (cc_success res) eqn:Hres; cbn [negb].
           ++ unfold bind at 1. rewrite logToFeatureHistory_eq.
              cbn [statusFile sessionsCreated trace].
              intros H. do 5 right.
              eexists _, sev_minor, res, _, _.
              split; [| split; [| split; [| split;
                [exact Hres | split; [right; auto | split; [exact Hmax |
                 split; [| exact H]]]]]]].
              ** cbn [trace]. rewrite Htr. rewrite <- !app_assoc. reflexivity.
              ** simpl. project. rewrite Hsev0. simpl. project. simpl.
                 project. reflexivity.
              ** simpl. project. rewrite Hinc0. simpl. project. simpl.
                 project. reflexivity.
              ** reflexivity.
           ++ unfold bind at 1. rewrite logToFeatureHistory_eq.
              unfold bind at 1. rewrite emit_eq. unfold ret.
              cbn [statusFile sessionsCreated trace].
              intros H. inversion H; subst out w'; clear H.
              do 4 right. left. split; [reflexivity |].
              eexists _, sev_minor, res. split.
              ** cbn [trace]. rewrite Htr. rewrite <- !app_assoc. reflexivity.
              ** simpl. project. rewrite Hsev0, Hinc0. simpl. project. simpl.
                 project. repeat split; auto. right. auto.
    + (* approved *)
      unfold bind at 1. rewrite logToFeatureHistory_eq. unfold ret.
      cbn [statusFile sessionsCreated trace].
      intros H. inversion H; subst out w'; clear H.
      right. left. split; [reflexivity |].
      eexists. split.
      * cbn [trace]. rewrite Htr. rewrite <- !app_assoc. reflexivity.
      * simpl. project. rewrite Hsev0, Hinc0. simpl. project.
        repeat split; auto. apply last_snoc.
Qed.

Lemma phaseReviewLoop_extends (env : Env) (feature : Feature) (plan : string)
    (phase : Phase) (b r : nat) (rem : nat) :
  forall (it : N) (v : loop_vars) (w : world) (out : LoopExit * bool)
         (w' : world),
    phaseReviewLoop env feature plan phase b r rem it v w = (out, w') ->
    exists evs, trace w' = trace w ++ evs.
Proof.
  induction rem as [| rem IH]; intros it v w out w' H.
  - inversion H; subst. exists []. rewrite app_nil_r. reflexivity.
  - apply phaseReviewLoop_step in H.
    destruct H as [(_ & evs & Ht & _) | [(_ & evs & Ht & _)
      | [(_ & _ & evs & Ht & _) | [(_ & _ & evs & s & Ht & _)
      | [(_ & evs & s & res & Ht & _)
      | (evs & s & res & v2 & w2 & Ht & _ & _ & _ & _ & _ & _ & Hrec)]]]]];
      eauto.
    apply IH in Hrec. destruct Hrec as [evs2 Ht2].
    exists (evs ++ evs2). rewrite Ht2, Ht, app_assoc. reflexivity.
Qed.

Lemma remediates_not_none (flag : bool) : ~ remediates flag sev_none.
Proof. intros [H | [H _]]; discriminate. Qed.

Lemma remediates_spent_not_minor : ~ remediates true sev_minor.
Proof. intros [H | [_ H]]; discriminate. Qed.

(** Once the one remediation is used, a minor-only review ends the loop. *)
Lemma phaseReviewLoop_budget_consumed (env : Env) (feature : Feature)
    (plan : string) (phase : Phase) (b r : nat) (rem : nat) (it : N)
    (v : loop_vars) (w : world) (out : LoopExit * bool) (w' : world)
    (rest : list (N * Severity)) :
  minorIssuesIteration v = true ->
  phaseReviewLoop env feature plan phase b r rem it v w = (out, w') ->
  severities (new_events w w') = (it, sev_minor) :: rest ->
  fst out = ApprovedMinorLogged
  /\ rest = []
  /\ build_incorporations (new_events w w') = []
  /\ last (logs (new_events w w'))
     = Some (system, minor_logged_msg (number phase) it).
Proof.
  intros Hflag H Hsev. destruct rem as [| rem].
  - inversion H; subst. unfold new_events in Hsev.
    rewrite drop_all in Hsev. discriminate.
  - pose proof (phaseReviewLoop_extends _ _ _ _ _ _ _ _ _ _ _ _ H) as [all Hall].
    rewrite (new_events_app _ _ _ Hall) in *.
    apply phaseReviewLoop_step in H. rewrite Hflag in H.
    destruct H as [(_ & evs & Ht & Hs & _) | [(_ & evs & Ht & Hs & _)
      | [(Hout & _ & evs & Ht & Hs & Hi & Hl) | [(_ & _ & evs & s & Ht & Hs & _ & Hr)
      | [(_ & evs & s & res & Ht & Hs & _ & _ & Hr)
      | (evs & s & res & v2 & w2 & Ht & Hs & _ & _ & Hr & _ & _ & Hrec)]]]]].
    + rewrite Hall in Ht. apply app_inv_head in Ht. subst all. congruence.
    + rewrite Hall in Ht. apply app_inv_head in Ht. subst all. congruence.
    + rewrite Hall in Ht. apply app_inv_head in Ht. subst all.
      rewrite Hs in Hsev. inversion Hsev. auto.
    + rewrite Hall in Ht. apply app_inv_head in Ht. subst all.
      rewrite Hs in Hsev. inversion Hsev; subst s.
      destruct (remediates_spent_not_minor Hr).
    + rewrite Hall in Ht. apply app_inv_head in Ht. subst all.
      rewrite Hs in Hsev. inversion Hsev; subst s.
      destruct (remediates_spent_not_minor Hr).
    + apply phaseReviewLoop_extends in Hrec. destruct Hrec as [evs2 Ht2].
      rewrite Ht2, Ht, <- app_assoc in Hall. apply app_inv_head in Hall.
      subst all. rewrite severities_app, Hs in Hsev.
      inversion Hsev; subst s. destruct (remediates_spent_not_minor Hr).
Qed.

(** A review without issues ends the loop with an approval. *)
Lemma phaseReviewLoop_none_approves (env : Env) (feature : Feature)
    (plan : string) (phase : Phase) (b r : nat) (rem : nat) (it : N)
    (v : loop_vars) (w : world) (out : LoopExit * bool) (w' : world)
    (rest : list (N * Severity)) :
  phaseReviewLoop env feature plan phase b r rem it v w = (out, w') ->
  severities (new_events w w') = (it, sev_none) :: rest ->
  fst out = Approved
  /\ rest = []
  /\ build_incorporations (new_events w w') = []
  /\ last (logs (new_events w w'))
     = Some (system, approved_msg (number phase) it).
Proof.
  intros H Hsev. destruct rem as [| rem].
  - inversion H; subst. unfold new_events in Hsev.
    rewrite drop_all in Hsev. discriminate.
  - pose proof (phaseReviewLoop_extends _ _ _ _ _ _ _ _ _ _ _ _ H) as [all Hall].
    rewrite (new_events_app _ _ _ Hall) in *.
    apply phaseReviewLoop_step in H.
    destruct H as [(_ & evs & Ht & Hs & _) | [(Hout & evs & Ht & Hs & Hi & Hl)
      | [(_ & _ & evs & Ht & Hs & _) | [(_ & _ & evs & s & Ht & Hs & _ & Hr)
      | [(_ & evs & s & res & Ht & Hs & _ & _ & Hr)
      | (evs & s & res & v2 & w2 & Ht & Hs & _ & _ & Hr & _ & _ & Hrec)]]]]].
    + rewrite Hall in Ht. apply app_inv_head in Ht. subst all. congruence.
    + rewrite Hall in Ht. apply app_inv_head in Ht. subst all.
      rewrite Hs in Hsev. inversion Hsev. auto.
    + rewrite Hall in Ht. apply app_inv_head in Ht. subst all. congruence.
    + rewrite Hall in Ht. apply app_inv_head in Ht. subst all.
      rewrite Hs in Hsev. inversion Hsev; subst s.
      destruct (remediates_not_none _ Hr).
    + rewrite Hall in Ht. apply app_inv_head in Ht. subst all.
      rewrite Hs in Hsev. inversion Hsev; subst s.
      destruct (remediates_not_none _ Hr).
    + apply phaseReviewLoop_extends in Hrec. destruct Hrec as [evs2 Ht2].
      rewrite Ht2, Ht, <- app_assoc in Hall. apply app_inv_head in Hall.
      subst all. rewrite severities_app, Hs in Hsev.
      inversion Hsev; subst s. destruct (remediates_not_none _ Hr).
Qed.

(** A first minor-only review that is not the last review of the loop was
    followed by exactly one incorporation, which succeeded, and by a next
    iteration that runs with the remediation used up. *)
Lemma phaseReviewLoop_minor_continues (env : Env) (feature : Feature)
    (plan : string) (phase : Phase) (b r : nat) (rem : nat) (it : N)
    (v : loop_vars) (w : world) (out : LoopExit * bool) (w' : world)
    (x : N * Severity) (rest : list (N * Severity)) :
  phaseReviewLoop env feature plan phase b r rem it v w = (out, w') ->
  severities (new_events w w') = (it, sev_minor) :: x :: rest ->
  exists rem' evs res v2 w2,
    rem = S rem'
    /\ build_incorporations evs = [res]
    /\ minorIssuesIteration v2 = true
    /\ phaseReviewLoop env feature plan phase b r rem' (it + 1) v2 w2
       = (out, w')
    /\ new_events w w' = evs ++ new_events w2 w'
    /\ severities (new_events w2 w') = x :: rest.
Proof.
  intros H Hsev. destruct rem as [| rem].
  - inversion H; subst. unfold new_events in Hsev.
    rewrite drop_all in Hsev. discriminate.
  - exists rem.
    pose proof (phaseReviewLoop_extends _ _ _ _ _ _ _ _ _ _ _ _ H) as [all Hall].
    rewrite (new_events_app _ _ _ Hall) in *.
    apply phaseReviewLoop_step in H.
    destruct H as [(_ & evs & Ht & Hs & _) | [(Hout & evs & Ht & Hs & Hi & Hl)
      | [(_ & _ & evs & Ht & Hs & _) | [(_ & _ & evs & s & Ht & Hs & _ & Hr)
      | [(_ & evs & s & res & Ht & Hs & _ & _ & Hr)
      | (evs & s & res & v2 & w2 & Ht & Hs & Hi & _ & Hr & _ & Hflag & Hrec)]]]]];
      try (rewrite Hall in Ht; apply app_inv_head in Ht; subst all;
           rewrite Hs in Hsev; discriminate).
    pose proof (phaseReviewLoop_extends _ _ _ _ _ _ _ _ _ _ _ _ Hrec)
      as [evs2 Ht2].
    rewrite Ht2, Ht, <- app_assoc in Hall. apply app_inv_head in Hall.
    subst all. rewrite severities_app, Hs in Hsev.
    inversion Hsev; subst s.
    exists evs, res, v2, w2. rewrite (new_events_app _ _ _ Ht2).
    rewrite Hflag. simpl. rewrite orb_true_r.
    repeat split; auto.
Qed.

(** C6.  In the review loop of a build phase, started with the remediation
    for minor issues unused:
    - when the merged review is MINOR at iteration 1 and NONE at iteration
      2 (and these are all the reviews of the loop), exactly one
      incorporation call was made and the loop ends approved, with the
      history entry "Phase N approved after 2 iteration(s)";
    - when the merged review is MINOR at iteration 1 and MINOR again at
      iteration 2, the second one is the last review of the loop: still
      exactly one incorporation call, and the loop ends approved with the
      entry "... (minor issues logged for human review)";
    and in any state of the loop where the remediation is used up, a
    MINOR merged review ends the loop in that way at once, without another
    incorporation. *)
Theorem minor_only_gets_one_remediation (env : Env) (feature : Feature)
    (plan : string) (phase : Phase) (b r : nat) :
  (forall (v : loop_vars) (w : world),
     minorIssuesIteration v = false ->
     let run :=
       phaseReviewLoop env feature plan phase b r (maxBuildIterations env) 1
         v w in
     let evs := new_events w (snd run) in
     (severities evs = [(1, sev_minor); (2, sev_none)] ->
      fst (fst run) = Approved
      /\ length (build_incorporations evs) = 1%nat
      /\ last (logs evs) = Some (system, approved_msg (number phase) 2))
     /\ (forall rest,
          severities evs = (1, sev_minor) :: (2, sev_minor) :: rest ->
          rest = []
          /\ fst (fst run) = ApprovedMinorLogged
          /\ length (build_incorporations evs) = 1%nat
          /\ last (logs evs)
             = Some (system, minor_logged_msg (number phase) 2)))
  /\ (forall (rem : nat) (it : N) (v : loop_vars) (w : world) rest,
        minorIssuesIteration v = true ->
        let run := phaseReviewLoop env feature plan phase b r rem it v w in
        let evs := new_events w (snd run) in
        severities evs = (it, sev_minor) :: rest ->
        rest = []
        /\ fst (fst run) = ApprovedMinorLogged
        /\ build_incorporations evs = []
        /\ last (logs evs)
           = Some (system, minor_logged_msg (number phase) it)).
Proof.
  split.
  - intros v w Hflag run evs. subst evs.
    destruct run as [out w'] eqn:Hrun. subst run. cbn [fst snd].
    split.
    + intros Hsev.
      destruct (phaseReviewLoop_minor_continues _ _ _ _ _ _ _ _ _ _ _ _ _ _
                  Hrun Hsev)
        as (rem' & evs & res & v2 & w2 & _ & Hi & _ & Hrec & Hnew & Hsev2).
      destruct (phaseReviewLoop_none_approves _ _ _ _ _ _ _ _ _ _ _ _ _
                  Hrec Hsev2) as (Hout & _ & Hi2 & Hl2).
      rewrite Hnew, build_incorporations_app, logs_app, Hi, Hi2.
      split; [exact Hout |]. split; [reflexivity |].
      rewrite last_app, Hl2. reflexivity.
    + intros rest Hsev.
      destruct (phaseReviewLoop_minor_continues _ _ _ _ _ _ _ _ _ _ _ _ _ _
                  Hrun Hsev)
        as (rem' & evs & res & v2 & w2 & _ & Hi & Hflag2 & Hrec & Hnew & Hsev2).
      destruct (phaseReviewLoop_budget_consumed _ _ _ _ _ _ _ _ _ _ _ _ _
                  Hflag2 Hrec Hsev2) as (Hout & Hrest & Hi2 & Hl2).
      rewrite Hnew, build_incorporations_app, logs_app, Hi, Hi2.
      split; [exact Hrest |]. split; [exact Hout |]. split; [reflexivity |].
      rewrite last_app, Hl2. reflexivity.
  - intros rem it v w rest Hflag run evs Hsev. subst evs.
    destruct run as [out w'] eqn:Hrun. subst run. cbn [fst snd] in *.
    destruct (phaseReviewLoop_budget_consumed _ _ _ _ _ _ _ _ _ _ _ _ _
                Hflag Hrun Hsev) as (Hout & Hrest & Hi & Hl).
    auto.
Qed.

Lemma minor_only_gets_one_remediation_witness :
  let run1 :=
    phaseReviewLoop env_minor_then_none demo_feature demo_plan_path phase_one
      0 1 5 1 fresh_vars requested_world in
  let run2 :=
    phaseReviewLoop env_always_minor demo_feature demo_plan_path phase_one
      0 1 5 1 fresh_vars requested_world in
  let run3 :=
    phaseReviewLoop env_always_minor demo_feature demo_plan_path phase_one
      0 1 3 3 spent_vars requested_world in
  (fst (fst run1) = Approved
   /\ length (build_incorporations (new_events requested_world (snd run1)))
      = 1%nat)
  /\ (fst (fst run2) = ApprovedMinorLogged
      /\ length (build_incorporations (new_events requested_world (snd run2)))
         = 1%nat)
  /\ (fst (fst run3) = ApprovedMinorLogged
      /\ build_incorporations (new_events requested_world (snd run3)) = []).
Proof.
  intros run1 run2 run3.
  destruct (minor_only_gets_one_remediation env_minor_then_none demo_feature
              demo_plan_path phase_one 0 1) as [H1 _].
  destruct (minor_only_gets_one_remediation env_always_minor demo_feature
              demo_plan_path phase_one 0 1) as [H2 H3].
  split; [| split].
  - destruct (H1 fresh_vars requested_world eq_refl) as [Ha _].
    destruct Ha as (Hout & Hlen & _); [vm_compute; reflexivity |].
    split; [exact Hout | exact Hlen].
  - destruct (H2 fresh_vars requested_world eq_refl) as [_ Hb].
    destruct (Hb []) as (_ & Hout & Hlen & _); [vm_compute; reflexivity |].
    split; [exact Hout | exact Hlen].
  - destruct (H3 3%nat 3 spent_vars requested_world [] eq_refl)
      as (_ & Hout & Hinc & _); [vm_compute; reflexivity |].
    split; [exact Hout | exact Hinc].
Defined.

End BuildLoopFacts.

(* --------------------------------------------------------------------- *)
(** ** The review loop of spec and plan generation *)
(* --------------------------------------------------------------------- *)

Module ReviewLoopFacts.
Import FeatureModel Js World ClaudeCode WorkflowStatus.
Import ReviewLoop Spec Scenario RunFacts.

Lemma skeleton_app (a b : list Event) :
  skeleton (a ++ b) = skeleton a ++ skeleton b.
Proof. apply omap_app. Qed.

Lemma skeleton_quiet (q : list Event) :
  forallb quiet q = true -> skeleton q = [].
Proof.
  induction q as [| e q IH]; [reflexivity |].
  simpl. intros H. apply andb_prop in H. destruct H as [He Hq].
  unfold skeleton. simpl. fold (skeleton q). rewrite (IH Hq).
  destruct e as [p ? resume ? | | | | | | | | lvl ?]; try discriminate.
  - destruct resume; [discriminate |]. destruct p; try discriminate; reflexivity.
  - destruct lvl; try discriminate; reflexivity.
Qed.

Lemma skeleton_unreadable (m : Message) (sf : option StatusFile) :
  skeleton (unreadable m sf) = [].
Proof. destruct sf; reflexivity. Qed.

Lemma omap_step_unreadable (m : Message) (sf : option StatusFile) :
  omap step_of (unreadable m sf) = [].
Proof. destruct sf; reflexivity. Qed.

Ltac skel Hq Hr :=
  rewrite ?skeleton_app, ?Hq, ?Hr; simpl;
  rewrite ?omap_step_unreadable, ?skeleton_unreadable; simpl.

(** What a review adds to the log of calls: error messages and at most one
    CLI run of its own, then the event of its return. *)
Lemma reviewArtifact_shape (env : Env) (a : Artifact) (path : string)
    (provider : ReviewerProvider) (w : world) :
  exists q,
    trace (snd (reviewArtifact env a path provider w))
    = trace w ++ q
      ++ [review_event a (fst (reviewArtifact env a path provider w))]
    /\ forallb quiet q = true
    /\ statusFile (snd (reviewArtifact env a path provider w)) = statusFile w.
Proof.
  unfold reviewArtifact, reviewSpec, reviewPlan,
    ClaudeReview.reviewSpecWithClaude, ClaudeReview.reviewPlanWithClaude,
    ClaudeReview.reviewWithClaude, ClaudeReview.parseClaudeReviewOutput,
    OpenaiReview.reviewSpec, OpenaiReview.reviewPlan, OpenaiReview.review,
    ensureClaudeCodeInstalled, generateSessionId, runClaudeCodeWithProgress,
    bind, ret, emit, ask.
  destruct a, provider; simpl;
  repeat first
    [ progress simpl
    | match goal with
      | |- context [if ?b then _ else _] => destruct b eqn:?
      | |- context [match ?o with Some _ => _ | None => _ end] =>
          destruct o eqn:?
      | |- context [let '(_, _) := ?x in _] => is_var x; destruct x
      end ];
  rewrite <- ?app_assoc; simpl;
  first [ exists []; repeat split; reflexivity
        | eexists [_]; repeat split; reflexivity
        | eexists [_; _]; repeat split; reflexivity ].
Qed.

Lemma readable_with_line (src : Source) (m : Message)
    (sf : option StatusFile) :
  is_Some sf -> is_Some (with_line src m <$> sf).
Proof. intros [f ->]. simpl. eauto. Qed.

(** One iteration of the review loop: how it ends, or from where it goes
    on. *)
Lemma reviewIterations_step (env : Env) (a : Artifact) (path : string)
    (provider : ReviewerProvider) (sid : nat) (rem : nat) (it : N)
    (w w' : world) :
  reviewIterations env a path provider sid (S rem) it w = (tt, w') ->
  exists r evs,
    (rr_success r = false
     /\ trace w' = trace w ++ evs
     /\ skeleton evs = [SReview r; SWarn (review_failed_warning r)]
     /\ (is_Some (statusFile w) -> is_Some (statusFile w')))
    \/ (rr_success r = true /\ rr_hasMajorIssues r = false
        /\ trace w' = trace w ++ evs
        /\ skeleton evs = [SReview r]
        /\ (is_Some (statusFile w) -> is_Some (statusFile w')))
    \/ (N.of_nat (maxReviewIterations env) <= it
        /\ trace w' = trace w ++ evs
        /\ skeleton evs = [SReview r; SWarn (max_iterations_warning env a)]
        /\ (is_Some (statusFile w) -> is_Some (statusFile w')))
    \/ (rr_reviewContent r = []
        /\ trace w' = trace w ++ evs
        /\ skeleton evs = [SReview r; SWarn no_content_warning]
        /\ (is_Some (statusFile w) -> is_Some (statusFile w')))
    \/ (exists res,
          cc_success res = false
          /\ trace w' = trace w ++ evs
          /\ skeleton evs = [SReview r; SInc res]
          /\ (is_Some (statusFile w) -> is_Some (statusFile w')))
    \/ (exists res w2,
          cc_success res = true
          /\ it < N.of_nat (maxReviewIterations env)
          /\ trace w2 = trace w ++ evs
          /\ skeleton evs = [SReview r; SInc res]
          /\ (is_Some (statusFile w) -> is_Some (statusFile w2))
          /\ reviewIterations env a path provider sid rem (it + 1) w2
             = (tt, w')).
Proof.
  intros H. cbn [reviewIterations] in H. unfold bind at 1 in H.
  destruct (reviewArtifact_shape env a path provider w) as (q & Htr & Hq & Hsf).
  destruct (reviewArtifact env a path provider w) as [r w1].
  cbn [fst snd] in Htr, Hsf.
  pose proof (skeleton_quiet q Hq) as Hskq.
  assert (Hrev : skeleton [review_event a r] = [SReview r])
    by (destruct a; reflexivity).
  exists r.
  destruct (rr_success r) eqn:Hsucc; cbn [negb] in H.
  2:{ unfold bind at 1 in H. rewrite emit_eq in H.
      rewrite logToFeatureHistory_eq in H.
      cbn [statusFile sessionsCreated trace] in H.
      inversion H; subst w'; clear H.
      eexists. left. split; [reflexivity |]. split.
      - cbn [trace]. rewrite Htr. rewrite <- !app_assoc. reflexivity.
      - split.
        + skel Hskq Hrev. reflexivity.
        + cbn [statusFile]. rewrite Hsf. apply readable_with_line. }
  unfold bind at 1 in H. rewrite logToFeatureHistory_eq in H.
  cbn [statusFile sessionsCreated trace] in H.
  destruct (rr_hasMajorIssues r) eqn:Hmajor; cbn [negb] in H.
  2:{ rewrite logToFeatureHistory_eq in H.
      cbn [statusFile sessionsCreated trace] in H.
      inversion H; subst w'; clear H.
      eexists. right. left. split; [reflexivity |]. split; [reflexivity |].
      split.
      - cbn [trace]. rewrite Htr. rewrite <- !app_assoc. reflexivity.
      - split.
        + skel Hskq Hrev. reflexivity.
        + cbn [statusFile]. rewrite Hsf. intros Hr.
          do 2 apply readable_with_line. exact Hr. }
  destruct (N.of_nat (maxReviewIterations env) <=? it) eqn:Hmax.
  { apply N.leb_le in Hmax.
    unfold bind at 1 in H. rewrite emit_eq in H.
    rewrite logToFeatureHistory_eq in H.
    cbn [statusFile sessionsCreated trace] in H.
    inversion H; subst w'; clear H.
    eexists. do 2 right. left. split; [exact Hmax |]. split.
    - cbn [trace]. rewrite Htr. rewrite <- !app_assoc. reflexivity.
    - split.
      + skel Hskq Hrev. reflexivity.
      + cbn [statusFile]. rewrite Hsf. intros Hr.
        do 2 apply readable_with_line. exact Hr. }
  apply N.leb_gt in Hmax.
  destruct (rr_reviewContent r) as [| c content] eqn:Hcontent.
  { rewrite emit_eq in H. cbn [statusFile sessionsCreated trace] in H.
    inversion H; subst w'; clear H.
    eexists. do 3 right. left. split; [reflexivity |]. split.
    - cbn [trace]. rewrite Htr. rewrite <- !app_assoc. reflexivity.
    - split.
      + skel Hskq Hrev. reflexivity.
      + cbn [statusFile]. rewrite Hsf. apply readable_with_line. }
  unfold bind at 1 in H. rewrite runClaudeCodeWithProgress_eq in H.
  cbn [statusFile sessionsCreated trace] in H.
  match type of H with
  | context [claudeCli ?e ?t ?p ?s ?x] =>
      set (res := claudeCli e t p s x) in H
  end.
  destruct (cc_success res) eqn:Hres; cbn [negb] in H.
  - unfold bind at 1 in H. rewrite logToFeatureHistory_eq in H.
    cbn [statusFile sessionsCreated trace] in H.
    eexists. do 5 right. exists res. eexists.
    split; [exact Hres |]. split; [exact Hmax |].
    split; [| split; [| split; [| exact H]]].
    + cbn [trace]. rewrite Htr. rewrite <- !app_assoc. reflexivity.
    + skel Hskq Hrev. reflexivity.
    + cbn [statusFile]. rewrite Hsf. intros Hr.
      do 2 apply readable_with_line. exact Hr.
  - unfold bind at 1 in H. rewrite emit_eq in H.
    rewrite logToFeatureHistory_eq in H.
    cbn [statusFile sessionsCreated trace] in H.
    inversion H; subst w'; clear H.
    eexists. do 4 right. left. exists res. split; [exact Hres |]. split.
    + cbn [trace]. rewrite Htr. rewrite <- !app_assoc. reflexivity.
    + split.
      * skel Hskq Hrev. reflexivity.
      * cbn [statusFile]. rewrite Hsf. intros Hr.
        do 2 apply readable_with_line. exact Hr.
Qed.

Lemma reviewIterations_extends (env : Env) (a : Artifact) (path : string)
    (provider : ReviewerProvider) (sid : nat) (rem : nat) :
  forall (it : N) (w w' : world),
    reviewIterations env a path provider sid rem it w = (tt, w') ->
    exists evs,
      trace w' = trace w ++ evs
      /\ (is_Some (statusFile w) -> is_Some (statusFile w')).
Proof.
  induction rem as [| rem IH]; intros it w w' H.
  - inversion H; subst. exists []. rewrite app_nil_r. auto.
  - apply reviewIterations_step in H. destruct H as (r & evs & H).
    destruct H as [(_ & Ht & _ & Hr) | [(_ & _ & Ht & _ & Hr)
      | [(_ & Ht & _ & Hr) | [(_ & Ht & _ & Hr)
      | [(res & _ & Ht & _ & Hr)
      | (res & w2 & _ & _ & Ht & _ & Hr & Hrec)]]]]]; eauto.
    apply IH in Hrec. destruct Hrec as (evs2 & Ht2 & Hr2).
    exists (evs ++ evs2). rewrite Ht2, Ht, app_assoc. auto.
Qed.

Lemma reviews_app (a b : list Event) : reviews (a ++ b) = reviews a ++ reviews b.
Proof. unfold reviews. rewrite skeleton_app. apply omap_app. Qed.

Lemma incorporations_app (a b : list Event) :
  incorporations (a ++ b) = incorporations a ++ incorporations b.
Proof. unfold incorporations. rewrite skeleton_app. apply omap_app. Qed.

Lemma generations_app (a b : list Event) :
  generations (a ++ b) = generations a ++ generations b.
Proof. unfold generations. rewrite skeleton_app. apply omap_app. Qed.

(** The loop when every review finds major issues and every incorporation
    succeeds: a review per remaining iteration, an incorporation after each
    but the last, then the warning. *)
Lemma reviewIterations_all_major (env : Env) (a : Artifact) (path : string)
    (provider : ReviewerProvider) (sid : nat) (rem : nat) :
  forall (it : N) (w w' : world),
    reviewIterations env a path provider sid rem it w = (tt, w') ->
    (1 <= rem)%nat ->
    N.of_nat (maxReviewIterations env) + 1 = it + N.of_nat rem ->
    Forall major_review (reviews (new_events w w')) ->
    Forall (fun c => cc_success c = true) (incorporations (new_events w w')) ->
    exists rs cs,
      length rs = rem /\ S (length cs) = rem
      /\ skeleton (new_events w w')
         = interleave rs cs ++ [SWarn (max_iterations_warning env a)].
Proof.
  induction rem as [| rem IH]; intros it w w' H Hrem Hmax Hrev Hinc; [lia |].
  pose proof (reviewIterations_extends _ _ _ _ _ _ _ _ _ H) as (all & Hall & _).
  rewrite (new_events_app _ _ _ Hall) in *.
  apply reviewIterations_step in H. destruct H as (r & evs & H).
  destruct H as [(Hs & Ht & Hsk & _) | [(_ & Hm & Ht & Hsk & _)
    | [(Hle & Ht & Hsk & _) | [(Hc & Ht & Hsk & _)
    | [(res & Hres & Ht & Hsk & _)
    | (res & w2 & Hres & Hlt & Ht & Hsk & _ & Hrec)]]]]].
  - rewrite Hall in Ht. apply app_inv_head in Ht. subst all.
    unfold reviews in Hrev. rewrite Hsk in Hrev. simpl in Hrev.
    inversion Hrev as [| ? ? (Hgood & _) _]. congruence.
  - rewrite Hall in Ht. apply app_inv_head in Ht. subst all.
    unfold reviews in Hrev. rewrite Hsk in Hrev. simpl in Hrev.
    inversion Hrev as [| ? ? (_ & Hgood & _) _]. congruence.
  - rewrite Hall in Ht. apply app_inv_head in Ht. subst all.
    assert (rem = 0%nat) by lia. subst rem.
    exists [r], []. rewrite Hsk. auto.
  - rewrite Hall in Ht. apply app_inv_head in Ht. subst all.
    unfold reviews in Hrev. rewrite Hsk in Hrev. simpl in Hrev.
    inversion Hrev as [| ? ? (_ & _ & Hgood) _]. congruence.
  - rewrite Hall in Ht. apply app_inv_head in Ht. subst all.
    unfold incorporations in Hinc. rewrite Hsk in Hinc. simpl in Hinc.
    inversion Hinc as [| ? ? Hgood _]. congruence.
  - pose proof (reviewIterations_extends _ _ _ _ _ _ _ _ _ Hrec)
      as (evs2 & Ht2 & _).
    rewrite Ht2, Ht, <- app_assoc in Hall. apply app_inv_head in Hall.
    subst all.
    rewrite reviews_app in Hrev. rewrite incorporations_app in Hinc.
    apply Forall_app in Hrev. destruct Hrev as [_ Hrev].
    apply Forall_app in Hinc. destruct Hinc as [_ Hinc].
    rewrite <- (new_events_app _ _ _ Ht2) in Hrev, Hinc.
    destruct (IH (it + 1) w2 w' Hrec) as (rs & cs & Hlr & Hlc & Hsk2);
      [lia | lia | exact Hrev | exact Hinc |].
    rewrite (new_events_app _ _ _ Ht2) in Hsk2.
    exists (r :: rs), (res :: cs).
    rewrite skeleton_app, Hsk, Hsk2. simpl. rewrite Hlr, Hlc. auto.
Qed.

(** How a generation command goes: it gives up before or at the initial
    generation, or it generates, runs the review loop, writes the final
    status and reports success. *)
Lemma generateWithReviewLoop_cases (env : Env) (a : Artifact)
    (feature : Feature) (w : world) (ok : bool) (w' : world) :
  generateWithReviewLoop env a feature w = (ok, w') ->
  (ok = false
   /\ exists evs,
        trace w' = trace w ++ evs
        /\ (skeleton evs = []
            \/ exists g, skeleton evs = [SGen g] /\ cc_success g = false))
  \/ (exists g evs1 w1 w2 path sid evs3,
        cc_success g = true
        /\ trace w1 = trace w ++ evs1
        /\ skeleton evs1 = [SGen g]
        /\ (is_Some (statusFile w) -> is_Some (statusFile w1))
        /\ reviewIterations env a path (reviewerProvider env) sid
             (maxReviewIterations env) 1 w1 = (tt, w2)
        /\ ok = true
        /\ trace w' = trace w2 ++ evs3
        /\ skeleton evs3
           = [SStatus (finalStatus a) system
                [T (upper a); T " generation complete"]]
        /\ statusFile w'
           = (fun f =>
                {| frontmatter :=
                     <["status" := status_name (finalStatus a)]> (frontmatter f);
                   history :=
                     {| hl_source := system;
                        hl_message := [T (upper a); T " generation complete"] |}
                     :: history f |}) <$> statusFile w2).
Proof.
  intros H. unfold generateWithReviewLoop in H. unfold bind at 1 in H.
  destruct (ensureClaudeCodeInstalled_shape env w) as (q1 & E1 & Hq1).
  apply errors_quiet in Hq1.
  rewrite E1 in H. clear E1.
  destruct (claudeVersionOk env (trace w)); cbn [negb] in H.
  2:{ left. inversion H; subst ok w'; clear H. split; [reflexivity |].
      exists q1. split; [reflexivity |]. left. apply skeleton_quiet, Hq1. }
  unfold bind at 1 in H.
  match type of H with
  | context [ensureReviewerConfigured env ?p ?w0] =>
      destruct (ensureReviewerConfigured_shape env p w0)
        as (cfg & q2 & E2 & Hq2); rewrite E2 in H; clear E2
  end.
  apply errors_quiet in Hq2.
  cbn [statusFile sessionsCreated trace] in H.
  destruct cfg; cbn [negb] in H.
  2:{ left. inversion H; subst ok w'; clear H. split; [reflexivity |].
      exists (q1 ++ q2). cbn [trace]. rewrite app_assoc.
      split; [reflexivity |]. left.
      rewrite skeleton_app, !skeleton_quiet by assumption. reflexivity. }
  destruct (checkPaths a feature) as [path | msg].
  2:{ left. unfold bind at 1 in H. rewrite emit_eq in H.
      inversion H; subst ok w'; clear H. split; [reflexivity |].
      eexists. cbn [trace]. rewrite <- !app_assoc. split; [reflexivity |].
      left. rewrite !skeleton_app, !skeleton_quiet by assumption.
      reflexivity. }
  unfold bind at 1 in H. rewrite logToFeatureHistory_eq in H.
  cbn [statusFile sessionsCreated trace] in H.
  unfold bind at 1 in H. unfold generateSessionId at 1 in H.
  cbn [statusFile sessionsCreated trace] in H.
  unfold bind at 1 in H. rewrite runClaudeCodeWithProgress_eq in H.
  cbn [statusFile sessionsCreated trace] in H.
  match type of H with
  | context [claudeCli ?e ?t ?p ?s ?x] =>
      set (g := claudeCli e t p s x) in H
  end.
  assert (Hgen : forall sid, skeleton [EvSession (generationPrompt a) sid false g]
                             = [SGen g]) by (intros; destruct a; reflexivity).
  destruct (cc_success g) eqn:Hg; cbn [negb] in H.
  - right. unfold bind at 1 in H. rewrite logToFeatureHistory_eq in H.
    cbn [statusFile sessionsCreated trace] in H.
    unfold bind at 1 in H.
    match type of H with
    | context [reviewIterations ?e ?aa ?p ?pr ?s ?n ?i ?w0] =>
        destruct (reviewIterations e aa p pr s n i w0) as [[] w2] eqn:Hloop
    end.
    unfold bind at 1 in H.
    destruct (updateFeatureStatus_eq (finalStatus a) system
                [T (upper a); T " generation complete"] w2) as (r & E3).
    rewrite E3 in H. clear E3. unfold bind at 1 in H. rewrite emit_eq in H.
    unfold ret in H. cbn [fst snd statusFile sessionsCreated trace] in H.
    inversion H; subst ok w'; clear H.
    exists g. eexists. eexists. exists w2, path. eexists. eexists.
    split; [exact Hg |]. split; [| split; [| split; [| split;
      [exact Hloop | split; [reflexivity | split; [| split;
       [| reflexivity]]]]]]].
    + cbn [trace]. rewrite <- !app_assoc. reflexivity.
    + rewrite !skeleton_app, !skeleton_quiet by assumption. rewrite Hgen.
      simpl. rewrite !omap_step_unreadable. reflexivity.
    + cbn [statusFile]. intros Hr. do 2 apply readable_with_line. exact Hr.
    + cbn [trace]. rewrite <- !app_assoc. reflexivity.
    + simpl. rewrite skeleton_app. simpl.
      rewrite ?omap_step_unreadable, ?skeleton_unreadable. reflexivity.
  - left. unfold bind at 1 in H. rewrite emit_eq in H.
    unfold bind at 1 in H. rewrite logToFeatureHistory_eq in H. unfold ret in H.
    cbn [fst snd statusFile sessionsCreated trace] in H.
    inversion H; subst ok w'; clear H.
    split; [reflexivity |]. eexists. cbn [trace]. rewrite <- !app_assoc.
    split; [reflexivity |]. right. exists g. split; [| exact Hg].
    rewrite !skeleton_app, !skeleton_quiet by assumption. rewrite Hgen.
    simpl. rewrite !omap_step_unreadable. reflexivity.
Qed.

(** C5, with what the claim leaves unsaid.  In a run of
    [generateSpecWithReviewLoop] with [maxIterations = 3] in which the
    initial generation succeeds, every review succeeds, finds major issues
    and comes with a review text, and every incorporation succeeds: the steps
    of the run are the generation, three reviews with an incorporation after
    the first and after the second, the warning that the maximum number of
    iterations is reached, and the status write to [draft]; the function
    returns [true], and a readable status file ends with status [draft]. *)
Theorem all_major_three_reviews (env : Env) (feature : Feature) (w : world) :
  let run := generateSpecWithReviewLoop env feature w in
  let evs := new_events w (snd run) in
  maxReviewIterations env = 3%nat ->
  Exists (fun g => cc_success g = true) (generations evs) ->
  Forall major_review (reviews evs) ->
  Forall (fun c => cc_success c = true) (incorporations evs) ->
  (exists g r1 r2 r3 c1 c2,
     skeleton evs
     = [SGen g; SReview r1; SInc c1; SReview r2; SInc c2; SReview r3;
        SWarn (max_iterations_warning env art_spec);
        SStatus draft system [T "Spec"; T " generation complete"]])
  /\ length (reviews evs) = 3%nat
  /\ length (incorporations evs) = 2%nat
  /\ fst run = true
  /\ (forall f, statusFile w = Some f ->
      exists f',
        statusFile (snd run) = Some f'
        /\ recorded_status f' = Some (status_name draft)).
Proof.
  intros run evs Hmax Hgen Hrev Hinc. subst evs.
  unfold generateSpecWithReviewLoop in run.
  destruct run as [ok w'] eqn:Hrun. subst run. cbn [fst snd] in *.
  apply generateWithReviewLoop_cases in Hrun.
  destruct Hrun as [(_ & evs & Ht & Hsk)
    | (g & evs1 & w1 & w2 & path & sid & evs3 & Hg & Ht1 & Hsk1 & Hread & Hloop
       & Hok & Ht3 & Hsk3 & Hsf)].
  - exfalso. rewrite (new_events_app _ _ _ Ht) in Hgen. unfold generations in Hgen.
    destruct Hsk as [Hsk | (g & Hsk & Hg)]; rewrite Hsk in Hgen; simpl in Hgen.
    + inversion Hgen.
    + inversion Hgen as [? ? Hg' | ? ? Hg']; [congruence | inversion Hg'].
  - pose proof (reviewIterations_extends _ _ _ _ _ _ _ _ _ Hloop)
      as (evs2 & Ht2 & Hread2).
    assert (Hall : trace w' = trace w ++ evs1 ++ evs2 ++ evs3).
    { rewrite Ht3, Ht2, Ht1, <- !app_assoc. reflexivity. }
    rewrite (new_events_app _ _ _ Hall) in *.
    rewrite !reviews_app in Hrev. rewrite !incorporations_app in Hinc.
    apply Forall_app in Hrev. destruct Hrev as [_ Hrev].
    apply Forall_app in Hrev. destruct Hrev as [Hrev _].
    apply Forall_app in Hinc. destruct Hinc as [_ Hinc].
    apply Forall_app in Hinc. destruct Hinc as [Hinc _].
    rewrite <- (new_events_app _ _ _ Ht2) in Hrev, Hinc.
    destruct (reviewIterations_all_major _ _ _ _ _ _ _ _ _ Hloop)
      as (rs & cs & Hlr & Hlc & Hsk2);
      [lia | rewrite Hmax; reflexivity | exact Hrev | exact Hinc |].
    rewrite (new_events_app _ _ _ Ht2) in Hsk2.
    rewrite Hmax in Hlr, Hlc.
    destruct rs as [| r1 [| r2 [| r3 [| ? ?]]]]; try discriminate.
    destruct cs as [| c1 [| c2 [| ? ?]]]; try discriminate.
    assert (Hskel : skeleton (evs1 ++ evs2 ++ evs3)
                    = [SGen g; SReview r1; SInc c1; SReview r2; SInc c2;
                       SReview r3; SWarn (max_iterations_warning env art_spec);
                       SStatus draft system [T "Spec"; T " generation complete"]]).
    { rewrite !skeleton_app, Hsk1, Hsk2, Hsk3. reflexivity. }
    split; [exists g, r1, r2, r3, c1, c2; exact Hskel |].
    unfold reviews, incorporations. rewrite Hskel.
    split; [reflexivity |]. split; [reflexivity |]. split; [exact Hok |].
    intros f Hf. rewrite Hsf.
    destruct (Hread2 (Hread (ex_intro _ f Hf))) as [f2 Hf2]. rewrite Hf2.
    eexists. split; [reflexivity |]. apply lookup_insert_eq.
Qed.

Lemma all_major_three_reviews_witness :
  let run := generateSpecWithReviewLoop env_all_major demo_feature
               requested_world in
  length (reviews (new_events requested_world (snd run))) = 3%nat
  /\ length (incorporations (new_events requested_world (snd run))) = 2%nat
  /\ fst run = true.
Proof.
  intros run.
  destruct (all_major_three_reviews env_all_major demo_feature requested_world)
    as (_ & H3 & H2 & Hok & _).
  - reflexivity.
  - vm_compute. repeat constructor.
  - vm_compute. repeat constructor; discriminate.
  - vm_compute. repeat constructor.
  - auto.
Defined.

(** C5, as the claim states it, fails: the initial generation succeeds,
    [maxIterations] is 3 and every review succeeds and finds major issues,
    but the first incorporation fails; the loop is left after one review
    and one incorporation call, without the warning (the status is written
    and the function returns [true] all the same). *)
Lemma incorporation_failure_ends_loop :
  let run := generateSpecWithReviewLoop env_incorporation_fails demo_feature
               requested_world in
  let evs := new_events requested_world (snd run) in
  maxReviewIterations env_incorporation_fails = 3%nat
  /\ Exists (fun g => cc_success g = true) (generations evs)
  /\ Forall (fun r => rr_success r = true /\ rr_hasMajorIssues r = true)
       (reviews evs)
  /\ length (reviews evs) = 1%nat
  /\ length (incorporations evs) = 1%nat
  /\ warnings evs = []
  /\ fst run = true.
Proof.
  intros run evs.
  split; [reflexivity |].
  split; [vm_compute; repeat constructor |].
  split; [vm_compute; repeat constructor |].
  repeat split; reflexivity.
Qed.

End ReviewLoopFacts.

(* --------------------------------------------------------------------- *)
(** ** Sessions *)
(* --------------------------------------------------------------------- *)

Module SessionFacts.
Import FeatureModel Js PlanParser World ClaudeCode WorkflowStatus GitUtils.
Import CodeReview ReviewLoop BuildLoop Spec Scenario RunFacts.

Lemma session_ids_app (a b : list Event) :
  session_ids (a ++ b) = session_ids a ++ session_ids b.
Proof. apply omap_app. Qed.

Lemma builder_review_runs_app (a b : list Event) :
  builder_review_runs (a ++ b)
  = builder_review_runs a ++ builder_review_runs b.
Proof. apply omap_app. Qed.

Lemma no_session_projections (e : Event) :
  is_session e = false ->
  session_ids [e] = [] /\ builder_review_runs [e] = [].
Proof. destruct e; try discriminate; auto. Qed.

(** *** Appending one event to a log that is fresh *)

Lemma fresh_after_snoc (old new : list Event) (e : Event) :
  fresh_after old new ->
  (forall p sid resume r,
     e = EvSession p sid resume r ->
     is_reviewer_prompt p = true ->
     resume = false /\ sid ∉ session_ids (old ++ new)) ->
  fresh_after old (new ++ [e]).
Proof.
  intros Hfresh He pre p sid resume r post Heq Hp.
  destruct post as [| x post _] using rev_ind.
  - apply app_inj_tail in Heq. destruct Heq as [-> ->].
    apply (He p sid resume r eq_refl Hp).
  - rewrite app_comm_cons, app_assoc in Heq.
    apply app_inj_tail in Heq. destruct Heq as [Heq _].
    apply (Hfresh pre p sid resume r post Heq Hp).
Qed.

Lemma fresh_after_nil (old : list Event) : fresh_after old [].
Proof. intros pre p sid resume r post Heq. destruct pre; discriminate. Qed.

(** *** The invariant under each kind of step *)

Section Invariant.
Variables (old : list Event) (rid : nat).

Lemma inv_snoc_other (live : list nat) (b : bool) (w w' : world) (e : Event) :
  session_inv old rid live b w ->
  is_session e = false ->
  sessionsCreated w' = sessionsCreated w ->
  trace w' = trace w ++ [e] ->
  session_inv old rid live b w'.
Proof.
  intros (Hids & Hlive & new & Htr & Hfresh & Hone) He Hn Ht.
  destruct (no_session_projections e He) as [Hs Hb].
  unfold session_inv. rewrite Hn, Ht, session_ids_app, Hs, app_nil_r.
  split; [exact Hids |]. split; [exact Hlive |].
  exists (new ++ [e]). split; [rewrite Htr, app_assoc; reflexivity |]. split.
  - apply fresh_after_snoc; [exact Hfresh |].
    intros p sid resume r ->. discriminate.
  - rewrite builder_review_runs_app, Hb, app_nil_r. exact Hone.
Qed.

Lemma inv_others (evs : list Event) :
  forallb (fun e => negb (is_session e)) evs = true ->
  forall (live : list nat) (b : bool) (w w' : world),
    session_inv old rid live b w ->
    sessionsCreated w' = sessionsCreated w ->
    trace w' = trace w ++ evs ->
    session_inv old rid live b w'.
Proof.
  induction evs as [| e evs IH]; intros Hall live b w w' Hinv Hn Ht.
  - rewrite app_nil_r in Ht. unfold session_inv in *. rewrite Hn, Ht.
    exact Hinv.
  - simpl in Hall. apply andb_prop in Hall. destruct Hall as [He Hall].
    apply negb_true_iff in He.
    apply (IH Hall live b
             {| statusFile := statusFile w;
                sessionsCreated := sessionsCreated w;
                trace := trace w ++ [e] |} w').
    + eapply inv_snoc_other; [exact Hinv | exact He | reflexivity | reflexivity].
    + exact Hn.
    + cbn [trace]. rewrite <- app_assoc. exact Ht.
Qed.

(** A new identity is above every identity of the log. *)
Lemma inv_generate (live : list nat) (b : bool) (w w' : world) :
  session_inv old rid live b w ->
  sessionsCreated w' = S (sessionsCreated w) ->
  trace w' = trace w ->
  session_inv old rid (sessionsCreated w :: live) b w'
  /\ sessionsCreated w ∉ session_ids (trace w').
Proof.
  intros (Hids & Hlive & Hnew) Hn Ht. split.
  - unfold session_inv. rewrite Hn, Ht. split.
    + eapply Forall_impl; [exact Hids |]. simpl. lia.
    + split; [| exact Hnew]. constructor; [lia |].
      eapply Forall_impl; [exact Hlive |]. simpl. lia.
  - rewrite Ht. intros Hin. rewrite Forall_forall in Hids.
    specialize (Hids _ Hin). simpl in Hids. lia.
Qed.

Lemma inv_forget (x : nat) (live : list nat) (b : bool) (w : world) :
  session_inv old rid (x :: live) b w -> session_inv old rid live b w.
Proof.
  intros (Hids & Hlive & Hnew). inversion Hlive; subst.
  split; [exact Hids |]. split; [assumption | exact Hnew].
Qed.

(** A run that starts a session under an identity the log has not seen. *)
Lemma inv_run_fresh (live : list nat) (b : bool) (w w' : world) (p : Prompt)
    (sid : nat) (res : ClaudeCodeResult) :
  session_inv old rid live b w ->
  sid ∈ live ->
  sid ∉ session_ids (trace w) ->
  is_builder_review p = false ->
  sessionsCreated w' = sessionsCreated w ->
  trace w' = trace w ++ [EvSession p sid false res] ->
  session_inv old rid live b w'.
Proof.
  intros (Hids & Hlive & new & Htr & Hfresh & Hone) Hin Hnot Hp Hn Ht.
  unfold session_inv. rewrite Hn, Ht, session_ids_app.
  split.
  - apply Forall_app. split; [exact Hids |]. simpl. constructor; [| constructor].
    rewrite Forall_forall in Hlive. apply Hlive. exact Hin.
  - split; [exact Hlive |].
    exists (new ++ [EvSession p sid false res]).
    split; [rewrite Htr, app_assoc; reflexivity |]. split.
    + apply fresh_after_snoc; [exact Hfresh |].
      intros p' sid' resume' r' Heq _. inversion Heq; subst.
      split; [reflexivity |]. rewrite <- Htr. exact Hnot.
    + rewrite builder_review_runs_app.
      replace (builder_review_runs [EvSession p sid false res]) with
        (@nil (nat * bool)) by (destruct p; try discriminate; reflexivity).
      rewrite app_nil_r. exact Hone.
Qed.

(** A run of the generating persona under an identity the run holds. *)
Lemma inv_run_live (live : list nat) (b : bool) (w w' : world) (p : Prompt)
    (sid : nat) (resume : bool) (res : ClaudeCodeResult) :
  session_inv old rid live b w ->
  sid ∈ live ->
  is_reviewer_prompt p = false ->
  is_builder_review p = false ->
  sessionsCreated w' = sessionsCreated w ->
  trace w' = trace w ++ [EvSession p sid resume res] ->
  session_inv old rid live b w'.
Proof.
  intros (Hids & Hlive & new & Htr & Hfresh & Hone) Hin Hrev Hp Hn Ht.
  unfold session_inv. rewrite Hn, Ht, session_ids_app.
  split.
  - apply Forall_app. split; [exact Hids |]. simpl. constructor; [| constructor].
    rewrite Forall_forall in Hlive. apply Hlive. exact Hin.
  - split; [exact Hlive |].
    exists (new ++ [EvSession p sid resume res]).
    split; [rewrite Htr, app_assoc; reflexivity |]. split.
    + apply fresh_after_snoc; [exact Hfresh |].
      intros p' sid' resume' r' Heq Hp'. inversion Heq; subst. congruence.
    + rewrite builder_review_runs_app.
      replace (builder_review_runs [EvSession p sid resume res]) with
        (@nil (nat * bool)) by (destruct p; try discriminate; reflexivity).
      rewrite app_nil_r. exact Hone.
Qed.

(** A run of the Claude REVIEWER of the build loop: it starts the session
    [rid] when it is the first, and resumes it otherwise. *)
Lemma inv_run_builder_review (live : list nat) (b : bool) (w w' : world)
    (phaseNumber : N) (d : list N) (res : ClaudeCodeResult) :
  session_inv old rid live b w ->
  rid ∈ live ->
  sessionsCreated w' = sessionsCreated w ->
  trace w' = trace w
             ++ [EvSession (ClaudeBuilderReviewUser phaseNumber d) rid
                   (negb b) res] ->
  session_inv old rid live false w'.
Proof.
  intros (Hids & Hlive & new & Htr & Hfresh & Hone) Hin Hn Ht.
  unfold session_inv. rewrite Hn, Ht, session_ids_app.
  split.
  - apply Forall_app. split; [exact Hids |]. simpl. constructor; [| constructor].
    rewrite Forall_forall in Hlive. apply Hlive. exact Hin.
  - split; [exact Hlive |].
    eexists. split; [rewrite Htr, <- app_assoc; reflexivity |]. split.
    + apply fresh_after_snoc; [exact Hfresh |].
      intros p' sid' resume' r' Heq Hp'. inversion Heq; subst. discriminate.
    + rewrite builder_review_runs_app. simpl.
      destruct b; simpl in *.
      * rewrite Hone. exists 0%nat. reflexivity.
      * destruct Hone as [k ->]. exists (S k).
        simpl. f_equal. symmetry. apply replicate_cons_app.
Qed.

End Invariant.

(** *** Rules *)

Lemma hoare_ret {A : Type} (P : world -> Prop) (a : A)
    (Q : A -> world -> Prop) :
  (forall w, P w -> Q a w) -> hoare P (ret a) Q.
Proof. intros H w HP. apply H. exact HP. Qed.

Lemma hoare_bind {A B : Type} (P : world -> Prop) (m : M A) (k : A -> M B)
    (Q : A -> world -> Prop) (R : B -> world -> Prop) :
  hoare P m Q -> (forall a, hoare (Q a) (k a) R) -> hoare P (bind m k) R.
Proof.
  intros Hm Hk w HP. unfold bind. specialize (Hm w HP).
  destruct (m w) as [a w1]. apply Hk. exact Hm.
Qed.

Lemma hoare_post {A : Type} (P : world -> Prop) (m : M A)
    (Q Q' : A -> world -> Prop) :
  hoare P m Q -> (forall a w, Q a w -> Q' a w) -> hoare P m Q'.
Proof. intros Hm HQ w HP. apply HQ, Hm, HP. Qed.

Lemma hoare_pre {A : Type} (P P' : world -> Prop) (m : M A)
    (Q : A -> world -> Prop) :
  hoare P' m Q -> (forall w, P w -> P' w) -> hoare P m Q.
Proof. intros Hm HP w Hw. apply Hm, HP, Hw. Qed.

Lemma hoare_ask {A : Type} (P : world -> Prop) (q : list Event -> A) :
  hoare P (ask q) (fun _ => P).
Proof. intros w HP. exact HP. Qed.

Section Triples.
Variables (env : Env) (old : list Event) (rid : nat).

Lemma hoare_emit (live : list nat) (b : bool) (e : Event) :
  is_session e = false ->
  hoare (session_inv old rid live b) (emit e)
    (fun _ => session_inv old rid live b).
Proof.
  intros He w Hinv. rewrite emit_eq. cbn [fst snd].
  eapply inv_snoc_other; [exact Hinv | exact He | reflexivity | reflexivity].
Qed.

Lemma unreadable_no_session (m : Message) (sf : option StatusFile) :
  forallb (fun e => negb (is_session e)) (unreadable m sf) = true.
Proof. destruct sf; reflexivity. Qed.

Lemma hoare_log (live : list nat) (b : bool) (src : Source) (m : Message) :
  hoare (session_inv old rid live b) (logToFeatureHistory src m)
    (fun _ => session_inv old rid live b).
Proof.
  intros w Hinv. rewrite logToFeatureHistory_eq. cbn [fst snd].
  eapply (inv_others old rid (EvLog src m :: unreadable _ (statusFile w)));
    [| exact Hinv | reflexivity | reflexivity].
  simpl. apply unreadable_no_session.
Qed.

Lemma hoare_status (live : list nat) (b : bool) (st : FeatureStatus)
    (src : Source) (m : Message) :
  hoare (session_inv old rid live b) (updateFeatureStatus st src m)
    (fun _ => session_inv old rid live b).
Proof.
  intros w Hinv. destruct (updateFeatureStatus_eq st src m w) as [r ->].
  cbn [fst snd].
  eapply (inv_others old rid (EvStatus st src m :: unreadable _ (statusFile w)));
    [| exact Hinv | reflexivity | reflexivity].
  simpl. apply unreadable_no_session.
Qed.

Lemma hoare_diff (live : list nat) (b : bool) :
  hoare (session_inv old rid live b) (getStagedDiff env)
    (fun _ => session_inv old rid live b).
Proof.
  intros w Hinv. rewrite getStagedDiff_eq. cbn [fst snd].
  eapply inv_snoc_other; [exact Hinv | | reflexivity | reflexivity];
    reflexivity.
Qed.

Lemma hoare_ensure_installed (live : list nat) (b : bool) :
  hoare (session_inv old rid live b) (ensureClaudeCodeInstalled env)
    (fun _ => session_inv old rid live b).
Proof.
  intros w Hinv. unfold ensureClaudeCodeInstalled, bind, ask, emit, ret.
  destruct (claudeVersionOk env (trace w)); cbn [fst snd]; [exact Hinv |].
  eapply inv_snoc_other; [exact Hinv | | reflexivity | reflexivity];
    reflexivity.
Qed.

Lemma hoare_ensure_reviewer (live : list nat) (b : bool)
    (provider : ReviewerProvider) :
  hoare (session_inv old rid live b)
    (ReviewLoop.ensureReviewerConfigured env provider)
    (fun _ => session_inv old rid live b).
Proof.
  destruct provider; simpl.
  - intros w Hinv.
    unfold OpenaiReview.ensureOpenAIConfigured, bind, ask, emit, ret.
    destruct (openaiApiKey env (trace w)); cbn [fst snd]; [exact Hinv |].
    eapply inv_snoc_other; [exact Hinv | | reflexivity | reflexivity];
      reflexivity.
  - apply hoare_ensure_installed.
Qed.

Lemma hoare_generate (live : list nat) (b : bool) :
  hoare (session_inv old rid live b) generateSessionId
    (fun sid w =>
       session_inv old rid (sid :: live) b w
       /\ sid ∉ session_ids (trace w)).
Proof.
  intros w Hinv. unfold generateSessionId. cbn [fst snd].
  eapply inv_generate; [exact Hinv | reflexivity | reflexivity].
Qed.

Lemma hoare_run_fresh (live : list nat) (b : bool) (p : Prompt) (sid : nat) :
  is_builder_review p = false ->
  hoare (fun w => session_inv old rid (sid :: live) b w
                  /\ sid ∉ session_ids (trace w))
    (runClaudeCodeWithProgress env p sid false)
    (fun _ => session_inv old rid (sid :: live) b).
Proof.
  intros Hp w [Hinv Hnot]. rewrite runClaudeCodeWithProgress_eq. cbn [fst snd].
  eapply inv_run_fresh;
    [exact Hinv | left | exact Hnot | exact Hp | reflexivity | reflexivity].
Qed.

Lemma hoare_run_live (live : list nat) (b : bool) (p : Prompt) (sid : nat)
    (resume : bool) :
  sid ∈ live ->
  is_reviewer_prompt p = false ->
  is_builder_review p = false ->
  hoare (session_inv old rid live b)
    (runClaudeCodeWithProgress env p sid resume)
    (fun _ => session_inv old rid live b).
Proof.
  intros Hin Hr Hp w Hinv. rewrite runClaudeCodeWithProgress_eq.
  cbn [fst snd].
  eapply inv_run_live;
    [exact Hinv | exact Hin | exact Hr | exact Hp | reflexivity | reflexivity].
Qed.

Lemma hoare_run_builder_review (live : list nat) (b : bool) (n : N)
    (d : list N) :
  rid ∈ live ->
  hoare (session_inv old rid live b)
    (runClaudeCodeWithProgress env (ClaudeBuilderReviewUser n d) rid (negb b))
    (fun _ => session_inv old rid live false).
Proof.
  intros Hin w Hinv. rewrite runClaudeCodeWithProgress_eq. cbn [fst snd].
  eapply inv_run_builder_review;
    [exact Hinv | exact Hin | reflexivity | reflexivity].
Qed.

End Triples.

Lemma hoare_ret_same {A : Type} (P : world -> Prop) (a : A) :
  hoare P (ret a) (fun _ => P).
Proof. intros w HP. exact HP. Qed.

(** One step of a derivation: split a sequence, take a branch, or apply
    the rule of a primitive step. *)
Ltac hleaf :=
  first
    [ apply hoare_ret_same
    | apply hoare_ask
    | apply hoare_emit; reflexivity
    | apply hoare_log
    | apply hoare_status
    | apply hoare_diff
    | apply hoare_ensure_installed
    | apply hoare_ensure_reviewer
    | apply hoare_generate
    | apply hoare_run_fresh; reflexivity
    | apply hoare_run_live; [set_solver | reflexivity | reflexivity]
    | apply hoare_run_builder_review; set_solver ].

Ltac hclose :=
  intros;
  repeat match goal with
         | H : _ /\ _ |- _ => destruct H
         end;
  eauto using inv_forget.

Ltac hstep :=
  lazymatch goal with
  | |- hoare _ (bind _ _) _ => eapply hoare_bind; [| intros ?]
  | |- hoare _ (if ?c then _ else _) _ => destruct c eqn:?
  | |- hoare _ (match ?x with _ => _ end) _ => destruct x eqn:?
  | |- hoare _ (ret _) ?Q =>
      first [ is_evar Q; apply hoare_ret_same
            | apply hoare_ret; hclose ]
  | |- hoare _ _ ?Q =>
      first [ hleaf
            | eapply hoare_pre; [hleaf | hclose]
            | eapply hoare_post; [hleaf | hclose]
            | eapply hoare_pre;
                [eapply hoare_post; [hleaf | hclose] | hclose] ]
  end.

Section Derived.
Variables (env : Env) (old : list Event) (rid : nat).

Lemma hoare_reviewWithClaude (live : list nat) (b : bool) (p : Prompt) :
  is_builder_review p = false ->
  hoare (session_inv old rid live b) (ClaudeReview.reviewWithClaude env p)
    (fun _ => session_inv old rid live b).
Proof.
  intros Hp. unfold ClaudeReview.reviewWithClaude,
    ClaudeReview.parseClaudeReviewOutput.
  hstep; [hstep |]. hstep; [hstep |]. cbn [negb].
  hstep; [hstep |]. hstep; [hstep |]. cbn [negb].
  hstep; [hstep |].
  hstep; [apply hoare_run_fresh; exact Hp |].
  hstep; [hstep |]. cbn [negb].
  hstep; [hstep |]. hstep; hstep.
Qed.

Lemma hoare_openai_review (live : list nat) (b : bool) (path : string) :
  hoare (session_inv old rid live b) (OpenaiReview.review env path)
    (fun _ => session_inv old rid live b).
Proof. unfold OpenaiReview.review. repeat hstep. Qed.

Lemma hoare_reviewArtifact (live : list nat) (b : bool) (a : Artifact)
    (path : string) (provider : ReviewerProvider) :
  hoare (session_inv old rid live b) (reviewArtifact env a path provider)
    (fun _ => session_inv old rid live b).
Proof.
  unfold reviewArtifact, reviewSpec, reviewPlan,
    ClaudeReview.reviewSpecWithClaude, ClaudeReview.reviewPlanWithClaude,
    OpenaiReview.reviewSpec, OpenaiReview.reviewPlan.
  destruct a, provider;
    (hstep; [first [apply hoare_openai_review
                   | apply hoare_reviewWithClaude; reflexivity] |]);
    repeat hstep.
Qed.

Lemma hoare_reviewIterations (live : list nat) (b : bool) (a : Artifact)
    (path : string) (provider : ReviewerProvider) (sid : nat) (rem : nat) :
  sid ∈ live ->
  forall it : N,
    hoare (session_inv old rid live b)
      (reviewIterations env a path provider sid rem it)
      (fun _ => session_inv old rid live b).
Proof.
  intros Hin. induction rem as [| rem IH]; intros it; cbn [reviewIterations].
  - hstep.
  - repeat first
      [ apply IH
      | apply hoare_reviewArtifact
      | apply hoare_run_live; [exact Hin | reflexivity | reflexivity]
      | hstep ].
Qed.

Lemma hoare_generateWithReviewLoop (live : list nat) (a : Artifact)
    (feature : Feature) :
  hoare (session_inv old rid live true)
    (generateWithReviewLoop env a feature)
    (fun _ => session_inv old rid live true).
Proof.
  unfold generateWithReviewLoop.
  repeat first
    [ apply hoare_run_fresh; destruct a; reflexivity
    | eapply hoare_post;
        [apply hoare_reviewIterations; set_solver | hclose]
    | apply hoare_reviewIterations; set_solver
    | hstep ].
Qed.

Lemma hoare_reviewCode (live : list nat) (b : bool) (specPath plan : string)
    (gitDiff : list N) (n : N) (intent : list N)
    (provider : ReviewerProvider) :
  hoare (session_inv old rid live b)
    (reviewCode env specPath plan gitDiff n intent provider)
    (fun _ => session_inv old rid live b).
Proof.
  unfold reviewCode, reviewCodeWithOpenAI, ClaudeReview.reviewCodeWithClaude,
    ClaudeReview.parseClaudeReviewOutput.
  destruct provider; repeat hstep.
Qed.

Lemma hoare_logReview (live : list nat) (b : bool) (src : Source) (it : N)
    (r : CodeReviewResult) :
  hoare (session_inv old rid live b) (logReview src it r)
    (fun _ => session_inv old rid live b).
Proof. unfold logReview. repeat hstep. Qed.

Lemma hoare_reviewsOfIteration (live : list nat) (feature : Feature)
    (plan : string) (phase : Phase) (it : N) (v : loop_vars)
    (d : GitDiffResult) :
  rid ∈ live ->
  hoare (session_inv old rid live (isFirstReviewerCheck v))
    (reviewsOfIteration env feature plan phase rid it v d)
    (fun res => session_inv old rid live (snd res)).
Proof.
  intros Hin. unfold reviewsOfIteration, runCodeReview.
  hstep.
  - instantiate (1 := fun _ => session_inv old rid live (isFirstReviewerCheck v)).
    destruct (buildReviewMode env).
    + hstep; [apply hoare_reviewCode |].
      hstep; [apply hoare_logReview |]. hstep.
    + hstep.
    + hstep; [apply hoare_reviewCode |].
      hstep; [apply hoare_logReview |]. hstep.
  - destruct (buildReviewMode env).
    + hstep.
    + hstep.
      * hstep; [apply hoare_run_builder_review; exact Hin |].
        instantiate (1 := fun _ => session_inv old rid live false).
        destruct (negb (cc_success a0)); hstep.
      * hstep; [apply hoare_logReview |]. hstep.
    + hstep.
      * hstep; [apply hoare_run_builder_review; exact Hin |].
        instantiate (1 := fun _ => session_inv old rid live false).
        destruct (negb (cc_success a0)); hstep.
      * hstep; [apply hoare_logReview |]. hstep.
Qed.

Lemma hoare_phaseReviewLoop (live : list nat) (feature : Feature)
    (plan : string) (phase : Phase) (bsid : nat) (rem : nat) :
  bsid ∈ live -> rid ∈ live ->
  forall (it : N) (v : loop_vars),
    hoare (session_inv old rid live (isFirstReviewerCheck v))
      (phaseReviewLoop env feature plan phase bsid rid rem it v)
      (fun out => session_inv old rid live (snd out)).
Proof.
  intros Hb Hr. induction rem as [| rem IH]; intros it v;
    cbn [phaseReviewLoop].
  - hstep.
  - hstep; [hstep |]. hstep.
    + repeat hstep.
    + hstep; [apply hoare_reviewsOfIteration; exact Hr |].
      destruct a0 as [[primary claudeR] isFirst]. cbn [snd].
      repeat first
        [ apply (IH (it + 1)
                   {| buildResult := _; minorIssuesIteration := _;
                      isFirstReviewerCheck := isFirst |})
        | apply hoare_run_live; [exact Hb | reflexivity | reflexivity]
        | hstep ].
Qed.

Lemma hoare_buildPhases (live : list nat) (feature : Feature) (plan : string)
    (bsid : nat) (phases : list Phase) :
  bsid ∈ live -> rid ∈ live ->
  forall isFirst : bool,
    hoare (session_inv old rid live isFirst)
      (buildPhases env feature plan bsid rid phases isFirst)
      (fun _ w => exists b, session_inv old rid live b w).
Proof.
  intros Hb Hr. induction phases as [| phase rest IH]; intros isFirst;
    cbn [buildPhases].
  - apply hoare_ret. eauto.
  - hstep; [hstep |].
    hstep; [apply hoare_run_live; [exact Hb | reflexivity | reflexivity] |].
    hstep.
    + hstep; [hstep |]. hstep; [hstep |]. apply hoare_ret. eauto.
    + hstep; [hstep |].
      hstep; [apply (hoare_phaseReviewLoop live feature plan phase bsid
                       (maxBuildIterations env) Hb Hr 1
                       {| buildResult := a0; minorIssuesIteration := false;
                          isFirstReviewerCheck := isFirst |}) |].
      destruct a2 as [exit isFirst']. cbn [fst snd].
      destruct exit; try apply IH. apply hoare_ret. eauto.
Qed.

End Derived.

Lemma inv_start (rid : nat) (w : world) :
  Forall (fun sid => (sid < sessionsCreated w)%nat) (session_ids (trace w)) ->
  session_inv (trace w) rid [] true w.
Proof.
  intros Hids. split; [exact Hids |]. split; [constructor |].
  exists []. rewrite app_nil_r. split; [reflexivity |].
  split; [apply fresh_after_nil | reflexivity].
Qed.

Lemma inv_conclusion (rid : nat) (live : list nat) (b : bool) (w0 w : world) :
  session_inv (trace w0) rid live b w ->
  fresh_after (trace w0) (new_events w0 w)
  /\ one_session rid (negb b) (builder_review_runs (new_events w0 w)).
Proof.
  intros (_ & _ & new & Htr & Hfresh & Hone).
  rewrite (new_events_app _ _ _ Htr). auto.
Qed.

Lemma configured_shape (env : Env) (w : world) :
  exists ok q,
    match buildReviewMode env with
    | architect_only => ret true
    | _ => BuildLoop.ensureReviewerConfigured env (reviewerProvider env)
    end w
    = (ok, {| statusFile := statusFile w;
              sessionsCreated := sessionsCreated w;
              trace := trace w ++ q |})
    /\ forallb is_error q = true.
Proof.
  destruct (buildReviewMode env);
    try apply ensureReviewerConfigured_shape.
  exists true, []. rewrite app_nil_r. destruct w; auto.
Qed.

(** The sessions of a build. *)
Lemma executeBuildPhase_sessions (env : Env) (feature : Feature) (w : world) :
  Forall (fun sid => (sid < sessionsCreated w)%nat) (session_ids (trace w)) ->
  exists b,
    session_inv (trace w) (S (sessionsCreated w)) [] b
      (snd (executeBuildPhase env feature w)).
Proof.
  intros Hids.
  pose proof (inv_start (S (sessionsCreated w)) w Hids) as Hinv.
  set (rid := S (sessionsCreated w)) in *.
  destruct (executeBuildPhase env feature w) as [ok w'] eqn:H. cbn [snd].
  unfold executeBuildPhase in H. unfold bind at 1 in H.
  destruct (ensureClaudeCodeInstalled_shape env w) as (q1 & E1 & Hq1).
  rewrite E1 in H. clear E1. apply errors_no_session in Hq1.
  assert (Hinv1 : session_inv (trace w) rid [] true
                    {| statusFile := statusFile w;
                       sessionsCreated := sessionsCreated w;
                       trace := trace w ++ q1 |}).
  { eapply inv_others; [exact Hq1 | exact Hinv | reflexivity | reflexivity]. }
  destruct (claudeVersionOk env (trace w)); cbn [negb] in H.
  2:{ inversion H; subst. eauto. }
  unfold bind at 1 in H.
  match type of H with
  | context [match buildReviewMode env with _ => _ end ?w0] =>
      destruct (configured_shape env w0) as (cfg & q2 & E2 & Hq2);
      rewrite E2 in H; clear E2
  end.
  cbn [statusFile sessionsCreated trace] in H. apply errors_no_session in Hq2.
  match type of H with
  | context [(if negb cfg then _ else _) ?w0] =>
      assert (Hinv2 : session_inv (trace w) rid [] true w0)
        by (eapply inv_others;
            [exact Hq2 | exact Hinv1 | reflexivity | reflexivity]);
      set (w2 := w0) in *
  end.
  destruct cfg; cbn [negb] in H.
  2:{ inversion H; subst. eauto. }
  unfold bind at 1, GitUtils.isGitAvailable at 1, ask at 1 in H.
  destruct (gitRevParseOk env (trace w2)); cbn [negb] in H.
  2:{ unfold bind at 1 in H. rewrite emit_eq in H. inversion H; subst.
      exists true.
      eapply inv_snoc_other; [exact Hinv2 | | reflexivity | reflexivity];
        reflexivity. }
  assert (Habort : forall m,
            session_inv (trace w) rid [] true
              (snd ((emit (EvNotify error m) ;;; ret false) w2))).
  { intros m. unfold bind. rewrite emit_eq. cbn [snd].
    eapply inv_snoc_other; [exact Hinv2 | | reflexivity | reflexivity];
      reflexivity. }
  destruct (planPath feature) as [plan |].
  2:{ specialize (Habort [T "No plan found for this feature"]).
      rewrite H in Habort. eauto. }
  destruct (truthy plan); cbn [negb] in H.
  2:{ specialize (Habort [T "No plan found for this feature"]).
      rewrite H in Habort. eauto. }
  unfold bind at 1, parsePlanPhases at 1, bind at 1, ask at 1, ret at 1 in H.
  destruct (option_map parsePlanPhasesFromContent (readFile env (trace w2) plan))
    as [[| phase phases] |].
  3:{ specialize (Habort [T "Failed to parse plan: "]).
      rewrite H in Habort. eauto. }
  1:{ unfold bind at 1 in H. rewrite emit_eq in H. inversion H; subst.
      exists true.
      eapply inv_snoc_other; [exact Hinv2 | | reflexivity | reflexivity];
        reflexivity. }
  clear Habort.
  unfold bind at 1 in H.
  match type of H with
  | context [updateFeatureStatus ?st ?src ?m w2] =>
      assert (Hinv3 : session_inv (trace w) rid [] true
                        (snd (updateFeatureStatus st src m w2)))
        by (apply hoare_status; exact Hinv2);
      destruct (updateFeatureStatus_eq st src m w2) as (r1 & E3);
      rewrite E3 in H, Hinv3; clear E3; cbn [snd] in Hinv3
  end.
  match type of H with
  | context [bind generateSessionId _ ?w0] =>
      assert (Hn3 : sessionsCreated w0 = sessionsCreated w) by reflexivity;
      set (w3 := w0) in *
  end.
  unfold bind at 1, generateSessionId at 1 in H.
  unfold bind at 1, generateSessionId at 1 in H.
  cbn [statusFile sessionsCreated trace] in H.
  match type of H with
  | context [bind (buildPhases env feature plan ?b0 ?r0 ?ps true) _ ?w0] =>
      assert (Hinv4 : session_inv (trace w) rid [r0; b0] true w0);
      [| pose proof (hoare_buildPhases env (trace w) rid [r0; b0] feature plan
                       b0 ps) as Hbuild;
         set (w4 := w0) in * ]
  end.
  { destruct (inv_generate (trace w) rid [] true w3
                {| statusFile := statusFile w3;
                   sessionsCreated := S (sessionsCreated w3);
                   trace := trace w3 |} Hinv3 eq_refl eq_refl) as [Ha _].
    destruct (inv_generate (trace w) rid [sessionsCreated w3] true _
                {| statusFile := statusFile w3;
                   sessionsCreated := S (S (sessionsCreated w3));
                   trace := trace w3 |} Ha eq_refl eq_refl) as [Hb _].
    exact Hb. }
  assert (Hbuild' :
            exists b,
              session_inv (trace w) rid
                [S (sessionsCreated w3); sessionsCreated w3] b
                (snd (buildPhases env feature plan (sessionsCreated w3)
                        (S (sessionsCreated w3)) (phase :: phases) true w4))).
  { apply Hbuild; [set_solver | | exact Hinv4].
    unfold rid. rewrite <- Hn3. set_solver. }
  clear Hbuild. unfold bind at 1 in H.
  destruct (buildPhases env feature plan (sessionsCreated w3)
              (S (sessionsCreated w3)) (phase :: phases) true w4)
    as [completed w5].
  cbn [snd] in Hbuild'. destruct Hbuild' as [b Hinv5].
  apply inv_forget, inv_forget in Hinv5.
  destruct completed; cbn [negb] in H.
  2:{ inversion H; subst. eauto. }
  unfold bind at 1 in H.
  match type of H with
  | context [updateFeatureStatus ?st ?src ?m w5] =>
      assert (Hinv6 : session_inv (trace w) rid [] b
                        (snd (updateFeatureStatus st src m w5)))
        by (apply hoare_status; exact Hinv5);
      destruct (updateFeatureStatus_eq st src m w5) as (r2 & E4);
      rewrite E4 in H, Hinv6; clear E4; cbn [snd] in Hinv6
  end.
  unfold bind at 1 in H. rewrite emit_eq in H. inversion H; subst.
  exists b.
  eapply inv_snoc_other; [exact Hinv6 | | reflexivity | reflexivity];
    reflexivity.
Qed.

(** C4, as the code has it.  In a run started from a log whose session
    identities were all handed out by the generator:
    - in spec and plan generation, every reviewer run starts a session of
      its own, under an identity no earlier run has used, and never
      resumes one;
    - in a build, the same holds for the primary Claude reviewer of code,
      while the Claude REVIEWER of the build loop ([runCodeReview]) uses
      one session for the whole build, the second identity created by the
      build: its first run starts that session and each later run, in the
      same or a later iteration or phase, resumes it. *)
Theorem reviewer_sessions (env : Env) (feature : Feature) (w : world) :
  Forall (fun sid => (sid < sessionsCreated w)%nat) (session_ids (trace w)) ->
  (forall a : Artifact,
     let evs := new_events w (snd (generateWithReviewLoop env a feature w)) in
     fresh_after (trace w) evs /\ builder_review_runs evs = [])
  /\ (let evs := new_events w (snd (executeBuildPhase env feature w)) in
      fresh_after (trace w) evs
      /\ (builder_review_runs evs = []
          \/ exists k,
               builder_review_runs evs
               = (S (sessionsCreated w), false)
                 :: replicate k (S (sessionsCreated w), true))).
Proof.
  intros Hids. split.
  - intros a evs. subst evs.
    pose proof (hoare_generateWithReviewLoop env (trace w) 0%nat [] a feature
                  w (inv_start 0%nat w Hids)) as Hinv.
    apply inv_conclusion in Hinv. exact Hinv.
  - intros evs. subst evs.
    destruct (executeBuildPhase_sessions env feature w Hids) as [b Hinv].
    apply inv_conclusion in Hinv. destruct Hinv as [Hfresh Hone].
    split; [exact Hfresh |]. destruct b; simpl in Hone; auto.
Qed.

Lemma reviewer_sessions_witness :
  Forall (fun sid => (sid < sessionsCreated requested_world)%nat)
    (session_ids (trace requested_world))
  /\ (let evs :=
        new_events requested_world
          (snd (executeBuildPhase env_architect_only demo_feature
                  requested_world)) in
      fresh_after (trace requested_world) evs
      /\ (builder_review_runs evs = []
          \/ exists k,
               builder_review_runs evs
               = (S (sessionsCreated requested_world), false)
                 :: replicate k (S (sessionsCreated requested_world), true))).
Proof.
  split; [constructor |].
  apply (reviewer_sessions env_architect_only demo_feature requested_world).
  constructor.
Defined.

(** C4 as the specification words it does not hold.  In a build reviewed by
    the Claude REVIEWER alone, whose first review of the one phase asks for
    changes, the second review resumes the session the first one started:
    the reviewer runs twice under identity 1, first starting, then
    resuming. *)
Lemma build_reviewer_resumes_session :
  builder_review_runs
    (new_events requested_world
       (snd (executeBuildPhase env_architect_only demo_feature
               requested_world)))
  = [(1%nat, false); (1%nat, true)].
Proof. vm_compute. reflexivity. Qed.

End SessionFacts.
(* ===================================================================== *)
(** * Further properties of the engine *)
(* ===================================================================== *)

(** ** Rules for following one kind of call through a run *)

Module Frame.
Import FeatureModel Js PlanParser World ClaudeCode WorkflowStatus GitUtils.
Import CodeReview ReviewLoop BuildLoop Spec RunFacts SessionFacts Observations.

Lemma hoare_conj {A : Type} (P P' : world -> Prop) (m : M A)
    (Q Q' : A -> world -> Prop) :
  hoare P m Q -> hoare P' m Q' ->
  hoare (fun w => P w /\ P' w) m (fun a w => Q a w /\ Q' a w).
Proof. intros H H' w [HP HP']. split; [apply H | apply H']; assumption. Qed.

Lemma projected_start {X : Type} (f : Event -> option X) (w : world) :
  projected f (trace w) [] w.
Proof. exists []. rewrite app_nil_r. auto. Qed.

Lemma projected_end {X : Type} (f : Event -> option X) (xs : list X)
    (w0 w : world) :
  projected f (trace w0) xs w -> omap f (new_events w0 w) = xs.
Proof.
  intros (new & Htr & Hxs). rewrite (new_events_app _ _ _ Htr). exact Hxs.
Qed.

Lemma projected_snoc {X : Type} (f : Event -> option X) (old : list Event)
    (xs : list X) (w w' : world) (e : Event) :
  projected f old xs w ->
  trace w' = trace w ++ [e] ->
  projected f old (xs ++ from_option (fun x => [x]) [] (f e)) w'.
Proof.
  intros (new & Htr & Hxs) Ht. exists (new ++ [e]). split.
  - rewrite Ht, Htr, app_assoc. reflexivity.
  - rewrite omap_app, Hxs. simpl. destruct (f e); reflexivity.
Qed.

Lemma projected_same {X : Type} (f : Event -> option X) (old : list Event)
    (xs : list X) (w w' : world) :
  projected f old xs w -> trace w' = trace w -> projected f old xs w'.
Proof. intros (new & Htr & Hxs) Ht. exists new. rewrite Ht. auto. Qed.

Section Projection.
Context {X : Type}.
Variables (f : Event -> option X) (old : list Event) (env : Env).
Hypothesis f_log : forall src m, f (EvLog src m) = None.
Hypothesis f_error : forall m, f (EvNotify error m) = None.

Lemma projected_emit (xs : list X) (e : Event) (w : world) :
  projected f old xs w ->
  projected f old (xs ++ from_option (fun x => [x]) [] (f e))
    (snd (emit e w)).
Proof.
  intros Hw. rewrite emit_eq. cbn [snd].
  eapply projected_snoc; [exact Hw | reflexivity].
Qed.

Lemma p_emit (xs : list X) (e : Event) :
  hoare (projected f old xs) (emit e)
    (fun _ => projected f old (xs ++ from_option (fun x => [x]) [] (f e))).
Proof. intros w Hw. apply projected_emit, Hw. Qed.

Lemma p_emit_none (xs : list X) (e : Event) :
  f e = None ->
  hoare (projected f old xs) (emit e) (fun _ => projected f old xs).
Proof.
  intros He w Hw. pose proof (projected_emit xs e w Hw) as H.
  rewrite He in H. simpl in H. rewrite app_nil_r in H. exact H.
Qed.

Lemma p_emit_some (xs : list X) (e : Event) (x : X) :
  f e = Some x ->
  hoare (projected f old xs) (emit e) (fun _ => projected f old (xs ++ [x])).
Proof.
  intros He w Hw. pose proof (projected_emit xs e w Hw) as H.
  rewrite He in H. exact H.
Qed.

Lemma projected_unreadable (xs : list X) (m : Message) (w w' : world) :
  projected f old xs w ->
  trace w' = trace w ++ unreadable m (statusFile w) ->
  projected f old xs w'.
Proof.
  intros Hw Ht. destruct (statusFile w); simpl in Ht.
  - rewrite app_nil_r in Ht. eapply projected_same; eauto.
  - pose proof (projected_snoc f old xs w w' _ Hw Ht) as H.
    rewrite f_error in H. simpl in H. rewrite app_nil_r in H. exact H.
Qed.

Lemma p_log (xs : list X) (src : Source) (m : Message) :
  hoare (projected f old xs) (logToFeatureHistory src m)
    (fun _ => projected f old xs).
Proof.
  intros w Hw. rewrite logToFeatureHistory_eq. cbn [fst snd].
  eapply (projected_unreadable xs _
            {| statusFile := statusFile w; sessionsCreated := sessionsCreated w;
               trace := trace w ++ [EvLog src m] |}).
  - pose proof (projected_emit xs (EvLog src m) w Hw) as H.
    rewrite emit_eq in H. cbn [snd] in H.
    rewrite f_log in H. simpl in H. rewrite app_nil_r in H. exact H.
  - cbn [trace statusFile]. rewrite <- app_assoc. reflexivity.
Qed.

Lemma p_status (xs : list X) (st : FeatureStatus) (src : Source)
    (m : Message) :
  hoare (projected f old xs) (updateFeatureStatus st src m)
    (fun _ => projected f old
                (xs ++ from_option (fun x => [x]) [] (f (EvStatus st src m)))).
Proof.
  intros w Hw. destruct (updateFeatureStatus_eq st src m w) as [r ->].
  cbn [fst snd].
  eapply (projected_unreadable _ _
            {| statusFile := statusFile w; sessionsCreated := sessionsCreated w;
               trace := trace w ++ [EvStatus st src m] |}).
  - pose proof (projected_emit xs (EvStatus st src m) w Hw) as H.
    rewrite emit_eq in H. exact H.
  - cbn [trace statusFile]. rewrite <- app_assoc. reflexivity.
Qed.

Lemma p_status_none (xs : list X) (st : FeatureStatus) (src : Source)
    (m : Message) :
  f (EvStatus st src m) = None ->
  hoare (projected f old xs) (updateFeatureStatus st src m)
    (fun _ => projected f old xs).
Proof.
  intros He w Hw. pose proof (p_status xs st src m w Hw) as H.
  rewrite He in H. simpl in H. rewrite app_nil_r in H. exact H.
Qed.

Lemma p_status_some (xs : list X) (st : FeatureStatus) (src : Source)
    (m : Message) (x : X) :
  f (EvStatus st src m) = Some x ->
  hoare (projected f old xs) (updateFeatureStatus st src m)
    (fun _ => projected f old (xs ++ [x])).
Proof.
  intros He w Hw. pose proof (p_status xs st src m w Hw) as H.
  rewrite He in H. exact H.
Qed.

Lemma p_diff (xs : list X) :
  (forall r, f (EvDiff r) = None) ->
  hoare (projected f old xs) (getStagedDiff env)
    (fun _ => projected f old xs).
Proof.
  intros f_diff w Hw. rewrite getStagedDiff_eq. cbn [fst snd].
  pose proof (projected_emit xs (EvDiff (stagedDiff (gitExec env (trace w))))
                w Hw) as H.
  rewrite emit_eq in H. cbn [snd] in H.
  rewrite f_diff in H. simpl in H. rewrite app_nil_r in H. exact H.
Qed.

Lemma p_generate (xs : list X) :
  hoare (projected f old xs) generateSessionId
    (fun _ => projected f old xs).
Proof.
  intros w Hw. unfold generateSessionId. cbn [fst snd].
  eapply projected_same; [exact Hw | reflexivity].
Qed.

Lemma p_run (xs : list X) (p : Prompt) (sid : nat) (resume : bool) :
  hoare (projected f old xs) (runClaudeCodeWithProgress env p sid resume)
    (fun r => projected f old
                (xs ++ from_option (fun x => [x]) []
                         (f (EvSession p sid resume r)))).
Proof.
  intros w Hw. rewrite runClaudeCodeWithProgress_eq. cbn [fst snd].
  eapply projected_snoc; [exact Hw | reflexivity].
Qed.

Lemma p_run_none (xs : list X) (p : Prompt) (sid : nat) (resume : bool) :
  (forall r, f (EvSession p sid resume r) = None) ->
  hoare (projected f old xs) (runClaudeCodeWithProgress env p sid resume)
    (fun _ => projected f old xs).
Proof.
  intros He w Hw. pose proof (p_run xs p sid resume w Hw) as H.
  cbv beta in H. rewrite He in H. simpl in H. rewrite app_nil_r in H. exact H.
Qed.

Lemma p_run_some (xs : list X) (p : Prompt) (sid : nat) (resume : bool)
    (x : X) :
  (forall r, f (EvSession p sid resume r) = Some x) ->
  hoare (projected f old xs) (runClaudeCodeWithProgress env p sid resume)
    (fun _ => projected f old (xs ++ [x])).
Proof.
  intros He w Hw. pose proof (p_run xs p sid resume w Hw) as H.
  cbv beta in H. rewrite He in H. exact H.
Qed.

Lemma p_ensure_installed (xs : list X) :
  hoare (projected f old xs) (ensureClaudeCodeInstalled env)
    (fun _ => projected f old xs).
Proof.
  unfold ensureClaudeCodeInstalled.
  eapply hoare_bind; [apply hoare_ask | intros installed].
  destruct installed; [apply hoare_ret_same |].
  eapply hoare_bind; [apply p_emit_none, f_error | intros ?].
  apply hoare_ret_same.
Qed.

Lemma p_ensure_reviewer (xs : list X) (provider : ReviewerProvider) :
  hoare (projected f old xs)
    (ReviewLoop.ensureReviewerConfigured env provider)
    (fun _ => projected f old xs).
Proof.
  destruct provider; simpl.
  - unfold OpenaiReview.ensureOpenAIConfigured.
    eapply hoare_bind; [apply hoare_ask | intros configured].
    destruct configured; [apply hoare_ret_same |].
    eapply hoare_bind; [apply p_emit_none, f_error | intros ?].
    apply hoare_ret_same.
  - apply p_ensure_installed.
Qed.

End Projection.

(** The status file follows the calls. *)
Section File.
Variables (env : Env) (old : list Event) (f0 : StatusFile).









End File.






(** The session counter is only moved by [generateSessionId]. *)
Section Counter.
Variables (env : Env) (n : nat).

Lemma c_emit (e : Event) :
  hoare (counter_is n) (emit e) (fun _ => counter_is n).
Proof. intros w Hw. exact Hw. Qed.

Lemma c_log (src : Source) (m : Message) :
  hoare (counter_is n) (logToFeatureHistory src m) (fun _ => counter_is n).
Proof. intros w Hw. rewrite logToFeatureHistory_eq. exact Hw. Qed.

Lemma c_status (st : FeatureStatus) (src : Source) (m : Message) :
  hoare (counter_is n) (updateFeatureStatus st src m)
    (fun _ => counter_is n).
Proof.
  intros w Hw. destruct (updateFeatureStatus_eq st src m w) as [r ->].
  exact Hw.
Qed.

Lemma c_ensure_installed :
  hoare (counter_is n) (ensureClaudeCodeInstalled env)
    (fun _ => counter_is n).
Proof.
  intros w Hw. destruct (ensureClaudeCodeInstalled_shape env w) as (q & -> & _).
  exact Hw.
Qed.

Lemma c_ensure_reviewer (provider : ReviewerProvider) :
  hoare (counter_is n) (ReviewLoop.ensureReviewerConfigured env provider)
    (fun _ => counter_is n).
Proof.
  intros w Hw.
  destruct (ensureReviewerConfigured_shape env provider w)
    as (ok & q & -> & _).
  exact Hw.
Qed.

Lemma c_generate :
  hoare (counter_is n) generateSessionId (fun sid _ => sid = n).
Proof. intros w Hw. exact Hw. Qed.

End Counter.

Lemma hoare_pure {A : Type} (P : world -> Prop) (phi : Prop) (m : M A)
    (Q : A -> world -> Prop) :
  (phi -> hoare P m Q) -> hoare (fun w => P w /\ phi) m Q.
Proof. intros H w [HP Hphi]. apply (H Hphi w HP). Qed.

Lemma hoare_ex {A K : Type} (P : K -> world -> Prop) (m : M A)
    (Q : K -> A -> world -> Prop) :
  (forall k, hoare (P k) m (Q k)) ->
  hoare (fun w => exists k, P k w) m (fun a w => exists k, Q k a w).
Proof. intros H w [k Hk]. exists k. apply (H k w Hk). Qed.

Lemma hoare_ex' {A K : Type} (P : K -> world -> Prop) (m : M A)
    (Q : A -> world -> Prop) :
  (forall k, hoare (P k) m Q) -> hoare (fun w => exists k, P k w) m Q.
Proof. intros H w [k Hk]. apply (H k w Hk). Qed.

Lemma hoare_frame {A K : Type} (P : K -> world -> Prop) (phi : K -> Prop)
    (m : M A) (Q : K -> A -> world -> Prop) :
  (forall k, hoare (P k) m (Q k)) ->
  hoare (fun w => exists k, P k w /\ phi k) m
    (fun a w => exists k, Q k a w /\ phi k).
Proof.
  intros H w (k & Hk & Hphi). exists k. split; [apply (H k w Hk) | exact Hphi].
Qed.

(** One step of a derivation. *)
Ltac pside := first [ reflexivity | intros; reflexivity ].

Ltac pleaf :=
  cbv beta;
  lazymatch goal with
  | |- hoare (projected _ _ _) _ _ => idtac
  | |- hoare (fun w => projected ?f ?o ?xs w) ?m ?Q =>
      change (hoare (projected f o xs) m Q)
  end;
  first
    [ apply hoare_ret_same
    | apply hoare_ask
    | apply p_log; pside
    | apply p_diff; pside
    | apply p_generate
    | apply p_ensure_installed; pside
    | apply p_ensure_reviewer; pside
    | apply p_emit_none; pside
    | eapply p_emit_some; pside
    | apply p_status_none; pside
    | eapply p_status_some; pside
    | apply p_run_none; pside
    | eapply p_run_some; pside
    | apply p_run
    | apply p_emit ].


Ltac cleaf :=
  first
    [ apply hoare_ret_same
    | apply hoare_ask
    | apply c_emit
    | apply c_log
    | apply c_status
    | apply c_ensure_installed
    | apply c_ensure_reviewer ].

(** A step under an invariant that holds for some ghost value and comes
    with a pure fact. *)
Ltac pframe := cbv beta; eapply hoare_frame; intros ?; pleaf.

(** The conditions of the branches taken, as equations. *)
Ltac facts :=
  repeat match goal with
  | H : negb _ = true |- _ => apply negb_true_iff in H
  | H : negb _ = false |- _ => apply negb_false_iff in H
  | H : (_ <=? _) = true |- _ => apply N.leb_le in H
  | H : (_ <=? _) = false |- _ => apply N.leb_gt in H
  end.

Ltac pbranch :=
  lazymatch goal with
  | |- hoare _ (bind _ _) _ => eapply hoare_bind; [| intros ?]
  | |- hoare _ (if ?c then _ else _) _ => destruct c eqn:?
  | |- hoare _ (match ?x with _ => _ end) _ => destruct x eqn:?
  end.

End Frame.
(* --------------------------------------------------------------------- *)
(** ** The generation commands of reviewLoop.ts: sessions, bounds, outcome *)
(* --------------------------------------------------------------------- *)

Module ReviewLoopMore.
Import FeatureModel Js World ClaudeCode WorkflowStatus.
Import ReviewLoop Spec Scenario RunFacts ReviewLoopFacts SessionFacts.
Import Observations Cases Frame.

Section Architect.
Variables (env : Env) (old : list Event).

Ltac astep :=
  first
    [ pbranch
    | pleaf
    | eapply hoare_post;
        [pleaf | intros; exists 0%nat; simpl; rewrite ?app_nil_r; eassumption] ].

Lemma arch_reviewArtifact (xs : list (nat * bool)) (a : Artifact)
    (path : string) (provider : ReviewerProvider) :
  hoare (projected architect_run old xs) (reviewArtifact env a path provider)
    (fun _ => projected architect_run old xs).
Proof.
  unfold reviewArtifact, reviewSpec, reviewPlan,
    ClaudeReview.reviewSpecWithClaude, ClaudeReview.reviewPlanWithClaude,
    ClaudeReview.reviewWithClaude, ClaudeReview.parseClaudeReviewOutput,
    OpenaiReview.reviewSpec, OpenaiReview.reviewPlan, OpenaiReview.review.
  destruct a, provider; repeat astep.
Qed.

Lemma arch_reviewIterations (a : Artifact) (path : string)
    (provider : ReviewerProvider) (sid : nat) (rem : nat) :
  forall (it : N) (xs : list (nat * bool)),
    hoare (projected architect_run old xs)
      (reviewIterations env a path provider sid rem it)
      (fun _ w =>
         exists k, projected architect_run old
                     (xs ++ replicate k (sid, true)) w).
Proof.
  induction rem as [| rem IH]; intros it xs; cbn [reviewIterations].
  - apply hoare_ret. intros w Hw. exists 0%nat. simpl.
    rewrite app_nil_r. exact Hw.
  - eapply hoare_bind; [apply arch_reviewArtifact | intros r].
    repeat first
      [ eapply hoare_post;
          [apply IH
          | intros ? w [k Hk]; exists (S k); simpl;
            rewrite <- app_assoc in Hk; exact Hk]
      | pbranch
      | pleaf
      | eapply hoare_post;
          [pleaf
          | intros;
            first [ exists 0%nat; simpl; rewrite ?app_nil_r; eassumption
                  | exists 1%nat; simpl; eassumption ] ] ].
Qed.

Lemma arch_generateWithReviewLoop (a : Artifact) (feature : Feature)
    (n : nat) :
  hoare (fun w => projected architect_run old [] w /\ counter_is n w)
    (generateWithReviewLoop env a feature)
    (fun _ w =>
       projected architect_run old [] w
       \/ exists k, projected architect_run old
                      ((n, false) :: replicate k (n, true)) w).
Proof.
  unfold generateWithReviewLoop.
  eapply hoare_bind;
    [apply hoare_conj; [apply p_ensure_installed; pside
                       | apply c_ensure_installed] | intros installed].
  destruct installed; cbn [negb].
  2:{ apply hoare_ret. intros w [Hw _]. left. exact Hw. }
  eapply hoare_bind;
    [apply hoare_conj; [apply p_ensure_reviewer; pside
                       | apply c_ensure_reviewer] | intros configured].
  destruct configured; cbn [negb].
  2:{ apply hoare_ret. intros w [Hw _]. left. exact Hw. }
  destruct (checkPaths a feature) as [path | msg].
  2:{ eapply hoare_bind;
        [apply hoare_conj; [apply p_emit_none; pside | apply c_emit]
        | intros ?].
      apply hoare_ret. intros w [Hw _]. left. exact Hw. }
  eapply hoare_bind;
    [apply hoare_conj; [apply p_log; pside | apply c_log] | intros ?].
  eapply hoare_bind;
    [apply hoare_conj; [apply p_generate | apply c_generate]
    | intros sessionId].
  cbv beta. apply hoare_pure. intros ->.
  eapply hoare_bind;
    [eapply (p_run_some architect_run old env [] (generationPrompt a) n false
               (n, false)); destruct a; reflexivity
    | intros result].
  simpl app.
  destruct (cc_success result); cbn [negb].
  - eapply hoare_bind; [apply p_log; pside | intros ?].
    eapply hoare_bind; [apply arch_reviewIterations | intros ?].
    eapply hoare_bind; [apply hoare_ex; intros k; pleaf | intros ?].
    eapply hoare_bind; [apply hoare_ex; intros k; pleaf | intros ?].
    cbv beta.
    apply hoare_ret. intros w Hw. right. exact Hw.
  - eapply hoare_bind; [apply p_emit_none; pside | intros ?].
    eapply hoare_bind; [apply p_log; pside | intros ?].
    apply hoare_ret. intros w Hw. right. exists 0%nat. exact Hw.
Qed.

End Architect.

(** *** Bounds *)




Section Bounds.
Variables (env : Env) (old : list Event).




End Bounds.

(** *** The steps of a run *)

Section Steps.
Variables (env : Env) (old : list Event).

Lemma steps_reviewArtifact (xs : list Step) (a : Artifact) (path : string)
    (provider : ReviewerProvider) :
  hoare (projected step_of old xs) (reviewArtifact env a path provider)
    (fun r => projected step_of old (xs ++ [SReview r])).
Proof.
  unfold reviewArtifact, reviewSpec, reviewPlan,
    ClaudeReview.reviewSpecWithClaude, ClaudeReview.reviewPlanWithClaude,
    ClaudeReview.reviewWithClaude, ClaudeReview.parseClaudeReviewOutput,
    OpenaiReview.reviewSpec, OpenaiReview.reviewPlan, OpenaiReview.review.
  destruct a, provider;
    repeat first
      [ pbranch | pleaf | apply hoare_ret; intros ? ?; eassumption ].
Qed.

Ltac grammar :=
  facts;
  first
    [ solve [eapply ls_review_failed; eauto]
    | solve [eapply ls_passed; eauto]
    | solve [eapply ls_max; eauto]
    | solve [eapply ls_no_content; eauto]
    | solve [eapply ls_incorporation_failed; eauto; congruence]
    | solve [eapply ls_again; eauto; congruence] ].

Lemma steps_reviewIterations (a : Artifact) (path : string)
    (provider : ReviewerProvider) (sid : nat) (rem : nat) :
  forall (it : N) (xs : list Step),
    hoare (projected step_of old xs)
      (reviewIterations env a path provider sid rem it)
      (fun _ w =>
         exists ys,
           projected step_of old (xs ++ ys) w /\ loop_steps env a rem it ys).
Proof.
  induction rem as [| rem IH]; intros it xs; cbn [reviewIterations].
  - apply hoare_ret. intros w Hw. exists []. rewrite app_nil_r.
    split; [exact Hw | constructor].
  - eapply hoare_bind; [apply steps_reviewArtifact | intros r].
    repeat first
      [ eapply hoare_post;
          [apply IH
          | intros ? w (ys & Hys & Hsteps);
            rewrite <- !app_assoc in Hys; simpl in Hys;
            eexists; split; [exact Hys | grammar] ]
      | pbranch
      | pleaf
      | eapply hoare_post;
          [pleaf
          | intros ? w Hw;
            rewrite <- ?app_assoc in Hw; simpl in Hw;
            eexists; split; [exact Hw | grammar] ] ].
Qed.

Lemma steps_generateWithReviewLoop (a : Artifact) (feature : Feature) :
  hoare (projected step_of old [])
    (generateWithReviewLoop env a feature)
    (fun ok w =>
       exists ys, projected step_of old ys w /\ command_steps env a ok ys).
Proof.
  unfold generateWithReviewLoop. destruct a.
  all: repeat first
    [ eapply hoare_bind; [apply steps_reviewIterations | intros ?]
    | eapply hoare_bind; [pframe | intros ?]
    | apply hoare_ret; intros w Hw; facts;
      first
        [ exists []; split; [exact Hw | constructor]
        | eexists; split; [exact Hw | solve [constructor; assumption]]
        | destruct Hw as (ys & Hys & Hsteps);
          rewrite <- ?app_assoc in Hys; simpl in Hys;
          eexists; split;
            [exact Hys | solve [constructor; assumption]] ]
    | pbranch
    | pleaf ].
Qed.

End Steps.

Lemma loop_steps_projections (env : Env) (a : Artifact) (rem : nat) (it : N)
    (ys : list Step) :
  loop_steps env a rem it ys ->
  omap (fun s => match s with SGen r => Some r | _ => None end) ys = []
  /\ omap (fun s => match s with
                    | SStatus st src m => Some (st, src, m)
                    | _ => None
                    end) ys = [].
Proof. induction 1; simpl; auto. Qed.

Lemma command_steps_of_run (env : Env) (a : Artifact) (feature : Feature)
    (w : world) :
  command_steps env a (fst (generateWithReviewLoop env a feature w))
    (skeleton (new_events w (snd (generateWithReviewLoop env a feature w)))).
Proof.
  destruct (steps_generateWithReviewLoop env (trace w) a feature w
              (projected_start _ w)) as (ys & Hys & Hsteps).
  apply projected_end in Hys. unfold skeleton. rewrite Hys. exact Hsteps.
Qed.



(** *** The status file *)

Section StatusFileOfRun.
Variables (env : Env) (old : list Event) (f0 : StatusFile).


End StatusFileOfRun.



(** A generation command returns [true] exactly when its initial generation
    succeeded, whatever the reviews and incorporations after it did.  There
    is at most one generation run.  When the command returns [true] it made
    exactly one status write, to [draft] for a spec and to [plan-created]
    for a plan, and that write is its last step; when it returns [false] it
    made none. *)
Theorem generation_outcome (env : Env) (a : Artifact) (feature : Feature)
    (w : world) :
  let run := generateWithReviewLoop env a feature w in
  let evs := new_events w (snd run) in
  let final := (finalStatus a, system,
                [T (upper a); T " generation complete"]) in
  (fst run = true <-> Exists (fun g => cc_success g = true) (generations evs))
  /\ (length (generations evs) <= 1)%nat
  /\ status_writes evs = (if fst run then [final] else [])
  /\ (fst run = true ->
      last (skeleton evs) = Some (SStatus final.1.1 final.1.2 final.2)).
Proof.
  intros run evs final. subst run evs final.
  pose proof (command_steps_of_run env a feature w) as H.
  unfold generations, status_writes.
  destruct H as [| g Hg | g ys Hg Hloop]; simpl.
  - repeat split; auto; try discriminate.
    intros Hex. inversion Hex.
  - repeat split; auto; try discriminate.
    intros Hex. inversion Hex as [? ? Hgood | ? ? Hbad]; subst.
    + congruence.
    + inversion Hbad.
  - destruct (loop_steps_projections _ _ _ _ _ Hloop) as [Hgen Hst].
    rewrite !omap_app, Hgen, Hst. simpl.
    repeat split; auto.
    intros _. rewrite app_comm_cons, last_snoc. reflexivity.
Qed.

Lemma architect_runs_count (evs : list Event) :
  length (omap architect_run evs)
  = (length (generations evs) + length (incorporations evs))%nat.
Proof.
  induction evs as [| e evs IH]; [reflexivity |].
  unfold generations, incorporations, skeleton in *. simpl.
  destruct e as [p ? ? ? | | | | | | | | lvl ?]; simpl;
    try destruct p; try destruct lvl; simpl;
    first [ exact IH
          | f_equal; exact IH
          | rewrite Nat.add_succ_r; f_equal; exact IH ].
Qed.

(** The ARCHITECT works in one session.  In a run of a generation command
    the CLI runs of the ARCHITECT are, in order: none at all, or the
    generation, which starts a session under the identity the command has
    just created, followed by incorporations that all resume that session;
    and these runs are the generation and the incorporations of the run,
    nothing else. *)
Theorem architect_keeps_one_session (env : Env) (a : Artifact)
    (feature : Feature) (w : world) :
  let evs := new_events w (snd (generateWithReviewLoop env a feature w)) in
  (omap architect_run evs = []
   \/ exists k,
        omap architect_run evs
        = (sessionsCreated w, false) :: replicate k (sessionsCreated w, true))
  /\ length (omap architect_run evs)
     = (length (generations evs) + length (incorporations evs))%nat.
Proof.
  intros evs. subst evs. split; [| apply architect_runs_count].
  destruct (arch_generateWithReviewLoop env (trace w) a feature
              (sessionsCreated w) w) as [H | [k H]].
  - split; [apply projected_start | reflexivity].
  - left. apply projected_end in H. exact H.
  - right. exists k. apply projected_end in H. exact H.
Qed.

(** When the initial generation succeeded and at least one review iteration
    is allowed, a first review that fails or that finds no major issue ends
    the loop: the steps of the run are the generation, that one review, the
    warning that the review failed if it did, and the status write; nothing
    is incorporated, and the command returns [true]. *)
Theorem first_review_settles (env : Env) (a : Artifact) (feature : Feature)
    (w : world) :
  let run := generateWithReviewLoop env a feature w in
  let evs := new_events w (snd run) in
  Exists (fun g => cc_success g = true) (generations evs) ->
  (1 <= maxReviewIterations env)%nat ->
  Forall (fun r => rr_success r = false \/ rr_hasMajorIssues r = false)
    (reviews evs) ->
  fst run = true
  /\ incorporations evs = []
  /\ exists g r,
       skeleton evs
       = SGen g :: SReview r
         :: (if rr_success r then [] else [SWarn (review_failed_warning r)])
         ++ [SStatus (finalStatus a) system
               [T (upper a); T " generation complete"]].
Proof.
  intros run evs Hgen Hmax Hrev. subst run evs.
  pose proof (command_steps_of_run env a feature w) as H.
  unfold generations, reviews, incorporations in *.
  destruct H as [| g Hg | g ys Hg Hloop]; simpl in *.
  - inversion Hgen.
  - inversion Hgen as [? ? Hgood | ? ? Hbad]; subst;
      [congruence | inversion Hbad].
  - split; [reflexivity |].
    rewrite omap_app in Hrev. apply Forall_app in Hrev.
    destruct Hrev as [Hrev _].
    inversion Hloop as
      [it Hrem
      | rem it r Hs Hrem
      | rem it r Hs Hm Hrem
      | rem it r Hs Hm Hle Hrem
      | rem it r Hs Hm Hlt Hc Hrem
      | rem it r c Hs Hm Hlt Hc Hres Hrem
      | rem it r c rest Hs Hm Hlt Hc Hres Hrest Hrem]; subst;
      try lia;
      try (simpl in Hrev; inversion Hrev as [| ? ? [Hbad | Hbad] _];
           congruence).
    + split; [reflexivity |]. exists g, r. rewrite Hs. reflexivity.
    + split; [reflexivity |]. exists g, r. rewrite Hs. reflexivity.
Qed.

Lemma first_review_settles_witness :
  let run := generateWithReviewLoop env_always_minor art_spec demo_feature
               requested_world in
  fst run = true
  /\ incorporations (new_events requested_world (snd run)) = [].
Proof.
  intros run.
  destruct (first_review_settles env_always_minor art_spec demo_feature
              requested_world) as (Hok & Hinc & _).
  - vm_compute. repeat constructor.
  - vm_compute. lia.
  - vm_compute. constructor; [right; reflexivity | constructor].
  - auto.
Defined.

(** A generation command that fails one of its preflight checks (the Claude
    Code CLI is not installed, the review API has no key, a path of the
    feature is missing) returns [false] having shown one error message and
    done nothing else: no history entry, no session, no CLI run, no status
    write; the status file is untouched. *)
Theorem generation_preflight_failure (env : Env) (a : Artifact)
    (feature : Feature) (w : world) :
  claudeVersionOk env (trace w) = false
  \/ (reviewerProvider env = provider_openai
      /\ openaiApiKey env (trace w) = false)
  \/ (exists msg, checkPaths a feature = inr msg) ->
  exists m,
    generateWithReviewLoop env a feature w
    = (false, {| statusFile := statusFile w;
                 sessionsCreated := sessionsCreated w;
                 trace := trace w ++ [EvNotify error m] |}).
Proof.
  intros H.
  unfold generateWithReviewLoop, ensureReviewerConfigured,
    ClaudeReview.ensureClaudeReviewerConfigured,
    OpenaiReview.ensureOpenAIConfigured, ensureClaudeCodeInstalled,
    bind, ret, emit, ask.
  destruct (claudeVersionOk env (trace w)) eqn:Hcli; simpl;
    [| eexists; reflexivity].
  destruct (reviewerProvider env) eqn:Hprov; simpl.
  - destruct (openaiApiKey env (trace w)) eqn:Hkey; simpl;
      [| eexists; reflexivity].
    destruct H as [H | [[_ H] | [msg H]]]; try discriminate.
    rewrite H. simpl. eexists. reflexivity.
  - rewrite Hcli. simpl.
    destruct H as [H | [[H _] | [msg H]]]; try discriminate.
    rewrite H. simpl. eexists. reflexivity.
Qed.

Lemma generation_preflight_failure_witness :
  exists m,
    generateWithReviewLoop env_no_cli art_spec demo_feature requested_world
    = (false, {| statusFile := statusFile requested_world;
                 sessionsCreated := sessionsCreated requested_world;
                 trace := trace requested_world ++ [EvNotify error m] |}).
Proof.
  apply (generation_preflight_failure env_no_cli art_spec demo_feature
           requested_world).
  left. reflexivity.
Defined.

End ReviewLoopMore.
(* --------------------------------------------------------------------- *)
(** ** The build command of buildLoop.ts *)
(* --------------------------------------------------------------------- *)

Module BuildLoopMore.
Import FeatureModel Js PlanParser World ClaudeCode WorkflowStatus GitUtils.
Import CodeReview BuildLoop Spec Scenario RunFacts SessionFacts.
Import Observations Cases Frame ReviewLoopMore.

Ltac unfold_reviews :=
  unfold reviewsOfIteration, reviewCode, reviewCodeWithOpenAI,
    ClaudeReview.reviewCodeWithClaude, runCodeReview, logReview,
    ClaudeReview.parseClaudeReviewOutput.

Ltac unfold_preflight :=
  unfold ensureReviewerConfigured, ReviewLoop.ensureReviewerConfigured,
    ClaudeReview.ensureClaudeReviewerConfigured,
    OpenaiReview.ensureOpenAIConfigured, ensureClaudeCodeInstalled,
    isGitAvailable, parsePlanPhases.

(** *** Status writes *)

Lemma status_writes_eq (evs : list Event) :
  status_writes evs = omap status_write evs.
Proof.
  induction evs as [| e evs IH]; [reflexivity |].
  unfold status_writes, skeleton in *. simpl.
  destruct e as [p ? ? ? | | | | | | | | lvl ?]; simpl;
    try destruct p; try destruct lvl; simpl;
    first [exact IH | f_equal; exact IH].
Qed.

Section StatusWrites.
Variables (env : Env) (old : list Event).

Lemma sw_phaseReviewLoop (feature : Feature) (plan : string) (phase : Phase)
    (b r : nat) (rem : nat) :
  forall (it : N) (v : loop_vars) xs,
    hoare (projected status_write old xs)
      (phaseReviewLoop env feature plan phase b r rem it v)
      (fun _ => projected status_write old xs).
Proof.
  induction rem as [| rem IH]; intros it v xs; cbn [phaseReviewLoop].
  - apply hoare_ret_same.
  - unfold_reviews.
    repeat first [apply IH | pbranch | pleaf].
Qed.

Lemma sw_buildPhases (feature : Feature) (plan : string) (b r : nat)
    (phases : list Phase) :
  forall (isFirst : bool) xs,
    hoare (projected status_write old xs)
      (buildPhases env feature plan b r phases isFirst)
      (fun _ => projected status_write old xs).
Proof.
  induction phases as [| phase rest IH]; intros isFirst xs;
    cbn [buildPhases].
  - apply hoare_ret_same.
  - repeat first [apply IH | apply sw_phaseReviewLoop | pbranch | pleaf].
Qed.

Lemma sw_executeBuildPhase (feature : Feature) :
  hoare (projected status_write old []) (executeBuildPhase env feature)
    (fun ok w =>
       exists ys,
         projected status_write old ys w
         /\ if ok
            then exists n,
                   ys = [(building, system,
                          [T "Starting build with "; Num n; T " phase(s)"]);
                         (code_review, system,
                          [T "Build complete: "; Num n;
                           T " phase(s) implemented"])]
            else ys = []
                 \/ exists n,
                      ys = [(building, system,
                             [T "Starting build with "; Num n;
                              T " phase(s)"])]).
Proof.
  unfold executeBuildPhase, parsePlanPhases.
  repeat first
    [ apply sw_buildPhases
    | apply hoare_ret; intros w Hw; simpl in Hw;
      eexists; split; [exact Hw |]; simpl; solve [eauto]
    | pbranch
    | pleaf ].
Qed.

End StatusWrites.

(** The status writes of a build.  A build that returns [true] wrote the
    status twice: [building] before the first phase and [code-review] after
    the last.  A build that returns [false] wrote nothing (it gave up in its
    preflight checks) or [building] only (a run of the BUILDER failed): it
    never leaves the status at [code-review]. *)
Theorem build_status_writes (env : Env) (feature : Feature) (w : world) :
  let run := executeBuildPhase env feature w in
  let evs := new_events w (snd run) in
  if fst run
  then exists n,
         status_writes evs
         = [(building, system,
             [T "Starting build with "; Num n; T " phase(s)"]);
            (code_review, system,
             [T "Build complete: "; Num n; T " phase(s) implemented"])]
  else status_writes evs = []
       \/ exists n,
            status_writes evs
            = [(building, system,
                [T "Starting build with "; Num n; T " phase(s)"])].
Proof.
  intros run evs. subst run evs. rewrite status_writes_eq.
  destruct (sw_executeBuildPhase env (trace w) feature w
              (projected_start _ w)) as (ys & Hys & H).
  apply projected_end in Hys. rewrite Hys. exact H.
Qed.

(** *** The status file *)

Section StatusFileOfBuild.
Variables (env : Env) (old : list Event) (f0 : StatusFile).




End StatusFileOfBuild.




(** *** The runs of the BUILDER *)

Section BuilderResults.
Variables (env : Env) (old : list Event).

Ltac known :=
  facts;
  repeat match goal with
  | H : cc_success ?r = _, Hw : context [cc_success ?r] |- _ =>
      rewrite H in Hw
  end.

Lemma br_phaseReviewLoop (feature : Feature) (plan : string) (phase : Phase)
    (b r : nat) (rem : nat) :
  forall (it : N) (v : loop_vars) xs,
    hoare (projected builder_result old xs)
      (phaseReviewLoop env feature plan phase b r rem it v)
      (fun out w =>
         exists k,
           projected builder_result old
             (xs ++ replicate k true
                 ++ match fst out with ReturnFalse => [false] | _ => [] end)
             w).
Proof.
  induction rem as [| rem IH]; intros it v xs; cbn [phaseReviewLoop].
  - apply hoare_ret. intros w Hw. exists 0%nat. simpl.
    rewrite app_nil_r. exact Hw.
  - unfold_reviews.
    repeat first
      [ eapply hoare_post;
          [apply IH
          | intros ? w [k Hk]; simpl in Hk; known;
            exists (S k); rewrite <- !app_assoc in Hk; exact Hk ]
      | apply hoare_ret; intros w Hw; simpl in Hw; known;
        first [ exists 0%nat; simpl; rewrite ?app_nil_r; exact Hw
              | exists 0%nat; simpl; rewrite <- ?app_assoc in Hw; exact Hw ]
      | pbranch
      | pleaf ].
Qed.

Lemma br_buildPhases (feature : Feature) (plan : string) (b r : nat)
    (phases : list Phase) :
  forall (isFirst : bool) xs,
    hoare (projected builder_result old xs)
      (buildPhases env feature plan b r phases isFirst)
      (fun ok w =>
         exists k,
           projected builder_result old
             (xs ++ replicate k true ++ (if ok then [] else [false])) w).
Proof.
  induction phases as [| phase rest IH]; intros isFirst xs;
    cbn [buildPhases].
  - apply hoare_ret. intros w Hw. exists 0%nat. simpl.
    rewrite app_nil_r. exact Hw.
  - eapply hoare_bind; [pleaf | intros ?].
    eapply hoare_bind; [pleaf | intros result].
    destruct (negb (cc_success result)) eqn:Hres.
    + eapply hoare_bind; [pleaf | intros ?].
      eapply hoare_bind; [pleaf | intros ?].
      apply hoare_ret. intros w Hw. simpl in Hw. known.
      exists 0%nat. exact Hw.
    + eapply hoare_bind; [pleaf | intros ?].
      eapply hoare_bind; [apply br_phaseReviewLoop | intros out].
      cbv beta. apply hoare_ex'. intros k.
      destruct (fst out) eqn:Hout;
        try (eapply hoare_post;
               [apply IH
               | intros ok w [k2 Hk2]; facts;
                 exists (S (k + k2));
                 cbn [from_option builder_result] in Hk2;
                 rewrite Hres, app_nil_r, <- !app_assoc in Hk2;
                 simpl in Hk2;
                 rewrite replicate_S, replicate_add; simpl;
                 rewrite <- !app_assoc; exact Hk2 ]).
      apply hoare_ret. intros w Hw. facts.
      cbn [from_option builder_result] in Hw.
      rewrite Hres, <- !app_assoc in Hw. simpl in Hw.
      exists (S k). exact Hw.
Qed.

Lemma br_executeBuildPhase (feature : Feature) :
  hoare (projected builder_result old []) (executeBuildPhase env feature)
    (fun ok w =>
       (ok = false /\ projected builder_result old [] w)
       \/ exists k,
            projected builder_result old
              (replicate k true ++ (if ok then [] else [false])) w).
Proof.
  unfold executeBuildPhase, parsePlanPhases.
  repeat first
    [ eapply hoare_bind; [apply br_buildPhases | intros completed];
      cbv beta; apply hoare_ex'; intros k; simpl app;
      destruct completed; cbn [negb]
    | apply hoare_ret; intros w Hw;
      first [ left; split; [reflexivity | exact Hw]
            | right; eexists; exact Hw ]
    | pbranch
    | pleaf ].
Qed.

End BuilderResults.

(** A build stops at the first failure of the BUILDER.  In every build, all
    the CLI runs of the BUILDER succeeded except possibly the last one;
    when the build returns [true] none failed; when it returns [false],
    either no BUILDER run was made (the build gave up in its preflight
    checks) or the last one failed. *)
Theorem build_stops_at_builder_failure (env : Env) (feature : Feature)
    (w : world) :
  let run := executeBuildPhase env feature w in
  let evs := new_events w (snd run) in
  (fst run = false /\ omap builder_result evs = [])
  \/ exists k,
       omap builder_result evs
       = replicate k true ++ (if fst run then [] else [false]).
Proof.
  intros run evs. subst run evs.
  destruct (br_executeBuildPhase env (trace w) feature w
              (projected_start _ w)) as [[Hok H] | [k H]];
    apply projected_end in H.
  - left. auto.
  - right. exists k. exact H.
Qed.

(** *** Bounds of the review loop of a phase *)


Section PhaseBounds.
Variables (env : Env) (old : list Event).


End PhaseBounds.


(** *** Who reviews *)

Section Reviewers.
Variables (env : Env) (old : list Event).

Lemma who_phaseReviewLoop (feature : Feature) (plan : string)
    (phase : Phase) (b r : nat) (rem : nat) :
  forall (it : N) (v : loop_vars) xs,
    hoare (projected code_reviewer old xs)
      (phaseReviewLoop env feature plan phase b r rem it v)
      (fun _ w =>
         exists k,
           projected code_reviewer old
             (xs ++ concat (replicate k (reviewers_of (buildReviewMode env))))
             w).
Proof.
  destruct (buildReviewMode env) eqn:Hmode;
  (induction rem as [| rem IH]; intros it v xs; cbn [phaseReviewLoop];
   [ apply hoare_ret; intros w Hw; exists 0%nat; simpl;
     rewrite app_nil_r; exact Hw
   | unfold_reviews; rewrite ?Hmode;
     repeat first
       [ eapply hoare_post;
           [apply IH
           | intros ? w [k Hk]; exists (S k); simpl;
             rewrite <- ?app_assoc in Hk; simpl in Hk; exact Hk ]
       | apply hoare_ret; intros w Hw;
         first
           [ exists 0%nat; simpl; rewrite app_nil_r; exact Hw
           | exists 1%nat; simpl; rewrite <- ?app_assoc in Hw;
             simpl in Hw; exact Hw ]
       | pbranch
       | pleaf ] ]).
Qed.

Lemma who_buildPhases (feature : Feature) (plan : string) (b r : nat)
    (phases : list Phase) :
  forall (isFirst : bool) xs,
    hoare (projected code_reviewer old xs)
      (buildPhases env feature plan b r phases isFirst)
      (fun _ w =>
         exists k,
           projected code_reviewer old
             (xs ++ concat (replicate k (reviewers_of (buildReviewMode env))))
             w).
Proof.
  induction phases as [| phase rest IH]; intros isFirst xs;
    cbn [buildPhases].
  - apply hoare_ret. intros w Hw. exists 0%nat. simpl.
    rewrite app_nil_r. exact Hw.
  - repeat first
      [ eapply hoare_bind; [apply who_phaseReviewLoop | intros ?];
        cbv beta; apply hoare_ex'; intros k
      | eapply hoare_post;
          [apply IH
          | intros ? w [k2 Hk2]; exists (k + k2)%nat;
            rewrite replicate_add, concat_app, app_assoc; exact Hk2 ]
      | apply hoare_ret; intros w Hw;
        first [ exists 0%nat; simpl; rewrite app_nil_r; exact Hw
              | eexists; exact Hw ]
      | pbranch
      | pleaf ].
Qed.

Lemma who_executeBuildPhase (feature : Feature) :
  hoare (projected code_reviewer old []) (executeBuildPhase env feature)
    (fun _ w =>
       exists k,
         projected code_reviewer old
           (concat (replicate k (reviewers_of (buildReviewMode env)))) w).
Proof.
  unfold executeBuildPhase, parsePlanPhases.
  repeat first
    [ eapply hoare_bind; [apply who_buildPhases | intros ?];
      cbv beta; apply hoare_ex'; intros k; simpl app
    | apply hoare_ret; intros w Hw;
      first [ exists 0%nat; exact Hw | eexists; exact Hw ]
    | pbranch
    | pleaf ].
Qed.

End Reviewers.

(** The review mode decides who reviews the code.  In every build, the
    reviews of code are, per reviewed iteration and in this order: with
    mode ["openai-only"], one review by the primary reviewer and never a
    run of the Claude REVIEWER; with mode ["architect-only"], one run of
    the Claude REVIEWER and never a primary review; with mode ["both"], one
    primary review followed by one run of the Claude REVIEWER. *)
Theorem review_mode_decides_reviewers (env : Env) (feature : Feature)
    (w : world) :
  let evs := new_events w (snd (executeBuildPhase env feature w)) in
  exists k,
    omap code_reviewer evs
    = concat (replicate k (reviewers_of (buildReviewMode env))).
Proof.
  intros evs. subst evs.
  destruct (who_executeBuildPhase env (trace w) feature w
              (projected_start _ w)) as [k H].
  exists k. apply projected_end in H. exact H.
Qed.

(** *** The session of the BUILDER *)

Section BuilderSession.
Variables (env : Env) (old : list Event).

Lemma bs_phaseReviewLoop (feature : Feature) (plan : string)
    (phase : Phase) (b r : nat) (rem : nat) :
  forall (it : N) (v : loop_vars) xs,
    hoare (projected builder_run old xs)
      (phaseReviewLoop env feature plan phase b r rem it v)
      (fun _ w =>
         exists k,
           projected builder_run old
             (xs ++ replicate k (number phase, false, b, true)) w).
Proof.
  induction rem as [| rem IH]; intros it v xs; cbn [phaseReviewLoop].
  - apply hoare_ret. intros w Hw. exists 0%nat. simpl.
    rewrite app_nil_r. exact Hw.
  - unfold_reviews.
    repeat first
      [ eapply hoare_post;
          [apply IH
          | intros ? w [k Hk]; exists (S k); simpl;
            rewrite <- ?app_assoc in Hk; simpl in Hk; exact Hk ]
      | apply hoare_ret; intros w Hw;
        first
          [ exists 0%nat; simpl; rewrite app_nil_r; exact Hw
          | exists 1%nat; simpl; rewrite <- ?app_assoc in Hw;
            simpl in Hw; exact Hw ]
      | pbranch
      | pleaf ].
Qed.

Lemma bs_buildPhases (feature : Feature) (plan : string) (b r : nat)
    (phases : list Phase) :
  forall (isFirst : bool) xs,
    hoare (projected builder_run old xs)
      (buildPhases env feature plan b r phases isFirst)
      (fun _ w =>
         exists ys,
           projected builder_run old (xs ++ ys) w
           /\ builder_runs_of b phases ys).
Proof.
  induction phases as [| phase rest IH]; intros isFirst xs;
    cbn [buildPhases].
  - apply hoare_ret. intros w Hw. exists []. rewrite app_nil_r.
    split; [exact Hw | reflexivity].
  - repeat first
      [ eapply hoare_bind; [apply bs_phaseReviewLoop | intros ?];
        cbv beta; apply hoare_ex'; intros k
      | eapply hoare_post;
          [apply IH
          | intros ? w (ys & Hys & Hruns);
            rewrite <- !app_assoc in Hys; simpl in Hys;
            eexists; split; [exact Hys |];
            simpl; exists k, ys; split; [reflexivity | right; exact Hruns] ]
      | apply hoare_ret; intros w Hw;
        rewrite <- ?app_assoc in Hw; simpl in Hw;
        eexists; split; [exact Hw |]; simpl;
        first [ exists 0%nat, []; split; [reflexivity | left; reflexivity]
              | exists k, []; rewrite app_nil_r;
                split; [reflexivity | left; reflexivity] ]
      | pbranch
      | pleaf ].
Qed.

End BuilderSession.

(** The BUILDER runs of the loop over the phases of a build are, phase by
    phase in the order of the (sorted) plan: the build of the phase, which
    resumes the BUILDER session exactly when the number of the phase is
    greater than 1, whatever its position in the plan; then the
    incorporations of review feedback for that phase, which all resume the
    session.  The sequence ends with the last phase or earlier (after a
    failed run).  Every run uses the one BUILDER session identity. *)
Theorem builder_runs_follow_phase_numbers (env : Env) (feature : Feature)
    (plan : string) (b r : nat) (phases : list Phase) (isFirst : bool)
    (w : world) :
  let evs :=
    new_events w (snd (buildPhases env feature plan b r phases isFirst w)) in
  builder_runs_of b phases (omap builder_run evs)
  /\ Forall (builder_protocol b) (omap builder_run evs).
Proof.
  intros evs. subst evs.
  destruct (bs_buildPhases env (trace w) feature plan b r phases isFirst []
              w (projected_start _ w)) as (ys & Hys & Hruns).
  apply projected_end in Hys. rewrite Hys. split; [exact Hruns |].
  clear Hys. revert ys Hruns.
  induction phases as [| p ps IH]; intros ys Hruns; simpl in Hruns.
  - subst ys. constructor.
  - destruct Hruns as (k & rest & -> & Hrest).
    constructor; [split; reflexivity |].
    apply Forall_app. split.
    + apply Forall_replicate. split; reflexivity.
    + destruct Hrest as [-> | Hrest]; [constructor | apply IH, Hrest].
Qed.

(** *** Reviews that fail *)

Lemma reviewsOfIteration_failures (env : Env) (feature : Feature)
    (plan : string) (phase : Phase) (rsid : nat) (it : N) (v : loop_vars)
    (d : GitDiffResult) (w : world) :
  let out := fst (reviewsOfIteration env feature plan phase rsid it v d w) in
  let primary := out.1.1 in
  let claudeR := out.1.2 in
  (cr_success primary = false ->
   cr_reviewContent primary = []
   /\ cr_hasMinorIssues primary = false
   /\ (buildReviewMode env <> architect_only ->
       cr_hasMajorIssues primary = true))
  /\ (forall c, claudeR = Some c -> cr_success c = false ->
      cr_reviewContent c = [] /\ cr_hasMajorIssues c = true)
  /\ (buildReviewMode env = openai_only <-> claudeR = None).
Proof.
  unfold reviewsOfIteration, reviewCode, reviewCodeWithOpenAI,
    ClaudeReview.reviewCodeWithClaude, runCodeReview, logReview,
    ClaudeReview.parseClaudeReviewOutput, ClaudeReview.code_failed,
    ensureClaudeCodeInstalled, generateSessionId, runClaudeCodeWithProgress,
    logToFeatureHistory, bind, ret, emit, ask.
  destruct (statusFile w) eqn:Hsf;
  destruct (buildReviewMode env), (reviewerProvider env); simpl;
  repeat first
    [ rewrite Hsf
    | progress simpl
    | match goal with
      | |- context [if ?b then _ else _] => destruct b eqn:?
      | |- context [match ?o with Some _ => _ | None => _ end] =>
          destruct o eqn:?
      | |- context [let '(_, _) := ?x in _] => is_var x; destruct x
      end ];
  repeat split; intros;
  repeat match goal with
  | H : Some _ = Some _ |- _ => inversion H; subst; clear H
  end; simpl in *; try congruence; auto.
Qed.

(** A review of code that fails counts as one that found major issues and
    contributes nothing to the feedback.  For the reviews of one iteration
    of the review loop of a phase: if one of the reviews that were run
    failed, the iteration is classified as having major issues; and if no
    review succeeded, the feedback handed to the BUILDER is the empty
    text. *)
Theorem failed_reviews_count_as_major (env : Env) (feature : Feature)
    (plan : string) (phase : Phase) (rsid : nat) (it : N) (v : loop_vars)
    (d : GitDiffResult) (w : world) (primary : CodeReviewResult)
    (claudeR : option CodeReviewResult) (isFirst : bool) :
  fst (reviewsOfIteration env feature plan phase rsid it v d w)
  = (primary, claudeR, isFirst) ->
  (buildReviewMode env <> architect_only /\ cr_success primary = false)
  \/ (exists c, claudeR = Some c /\ cr_success c = false) ->
  hasAnyMajorIssues primary claudeR = true
  /\ hasOnlyMinorIssues primary claudeR = false
  /\ (cr_success primary = false ->
      (forall c, claudeR = Some c -> cr_success c = false) ->
      mergeReviewFeedback primary claudeR = []).
Proof.
  intros Hout Hfail.
  pose proof (reviewsOfIteration_failures env feature plan phase rsid it v d w)
    as H.
  cbv zeta in H. rewrite Hout in H. cbn [fst snd] in H.
  destruct H as (Hp & Hc & _).
  assert (Hmajor : hasAnyMajorIssues primary claudeR = true).
  { unfold hasAnyMajorIssues.
    destruct Hfail as [[Hmode Hs] | (c & -> & Hs)].
    - destruct (Hp Hs) as (_ & _ & Hm). rewrite (Hm Hmode). reflexivity.
    - destruct (Hc c eq_refl Hs) as [_ ->]. apply orb_true_r. }
  split; [exact Hmajor |]. split.
  - unfold hasOnlyMinorIssues. rewrite Hmajor. reflexivity.
  - intros Hs Hall. unfold mergeReviewFeedback. rewrite Hs.
    destruct claudeR as [c |]; [| reflexivity].
    rewrite (Hall c eq_refl). reflexivity.
Qed.

Lemma failed_reviews_count_as_major_witness :
  exists primary,
    fst (reviewsOfIteration env_api_down demo_feature demo_plan_path
           phase_one 1 1 fresh_vars staged_changes requested_world)
    = (primary, None, true)
    /\ hasAnyMajorIssues primary None = true.
Proof.
  eexists. split; [vm_compute; reflexivity |].
  eapply (failed_reviews_count_as_major env_api_down demo_feature
            demo_plan_path phase_one 1 1 fresh_vars staged_changes
            requested_world).
  - vm_compute. reflexivity.
  - left. split; [discriminate | reflexivity].
Defined.

(** *** Preflight *)

(** A build that fails one of its preflight checks (the Claude Code CLI is
    not installed; the review API has no key and the mode is not
    ["architect-only"]; git is not available; the feature has no plan path;
    the plan cannot be read) returns [false] having shown one error message
    and done nothing else: no status write, no history entry, no session,
    no CLI run; the status file is untouched. *)
Theorem build_preflight_failure (env : Env) (feature : Feature) (w : world) :
  claudeVersionOk env (trace w) = false
  \/ (buildReviewMode env <> architect_only
      /\ reviewerProvider env = provider_openai
      /\ openaiApiKey env (trace w) = false)
  \/ gitRevParseOk env (trace w) = false
  \/ truthy_opt (planPath feature) = false
  \/ (exists plan,
        planPath feature = Some plan /\ readFile env (trace w) plan = None) ->
  exists m,
    executeBuildPhase env feature w
    = (false, {| statusFile := statusFile w;
                 sessionsCreated := sessionsCreated w;
                 trace := trace w ++ [EvNotify error m] |}).
Proof.
  intros H.
  unfold executeBuildPhase. unfold_preflight.
  unfold bind, ret, emit, ask.
  destruct (claudeVersionOk env (trace w)) eqn:Hcli; simpl;
    [| eexists; reflexivity].
  destruct (buildReviewMode env) eqn:Hmode;
    destruct (reviewerProvider env) eqn:Hprov; simpl;
    rewrite ?Hcli; simpl;
    try (destruct (openaiApiKey env (trace w)) eqn:Hkey; simpl;
         [| eexists; reflexivity]);
    (destruct (gitRevParseOk env (trace w)) eqn:Hgit; simpl;
       [| eexists; reflexivity]);
    (destruct (planPath feature) as [plan |] eqn:Hplan; simpl;
       [| eexists; reflexivity]);
    (destruct (truthy plan) eqn:Htruthy; simpl; [| eexists; reflexivity]);
    (destruct (readFile env (trace w) plan) eqn:Hread; simpl;
       [| eexists; reflexivity]);
    exfalso;
    destruct H as [H | [(Hm & Hp & Hk) | [H | [H | (plan' & Hpl & Hr)]]]];
    try discriminate; simpl in *; try congruence.
Qed.

Lemma build_preflight_failure_witness :
  exists m,
    executeBuildPhase env_no_cli demo_feature requested_world
    = (false, {| statusFile := statusFile requested_world;
                 sessionsCreated := sessionsCreated requested_world;
                 trace := trace requested_world ++ [EvNotify error m] |}).
Proof.
  apply (build_preflight_failure env_no_cli demo_feature requested_world).
  left. reflexivity.
Defined.

End BuildLoopMore.
(* --------------------------------------------------------------------- *)
(** ** The verdict parsers: precedence of the fields *)
(* --------------------------------------------------------------------- *)

Module VerdictMore.
Import Js Verdict Spec RegexFacts VerdictWords.

(** The two parsers are copies of each other up to the branch for the
    legacy major marker: they return the same verdict for every text in
    which that marker does not occur, and for every text with an
    [**Action Required**] field. *)
Theorem parsers_agree_without_major_marker (text : list N) :
  ~ occurs re_status_major text \/ occurs re_action text ->
  parseReviewerVerdict text = parseVerdictBlock text.
Proof.
  intros H. unfold parseReviewerVerdict, parseVerdictBlock.
  destruct (exec re_action text) as [m |] eqn:Hexec; [reflexivity |].
  destruct H as [Hno | Hocc].
  - rewrite (test_false _ _ Hno).
    repeat match goal with
    | |- context [if ?b then _ else _] => destruct b
    end; reflexivity.
  - exfalso. unfold exec in Hexec.
    destruct (search_complete (length text) re_action text eq_refl Hocc)
      as [c Hc].
    congruence.
Qed.

Lemma parsers_agree_without_major_marker_witness :
  parseReviewerVerdict Scenario.prose_text
  = parseVerdictBlock Scenario.prose_text.
Proof.
  apply parsers_agree_without_major_marker. left.
  apply not_occurs_by_test; reflexivity.
Defined.

Lemma matches_lit_length (l m : list N) :
  matches (lit_chars l) m -> length m = length l.
Proof.
  revert m. induction l as [| a l IH]; simpl; intros m H.
  - inversion H. reflexivity.
  - inversion H as [| | | | | | | r1 r2 s1 s2 H1 H2 | | |]; subst.
    inversion H1; subst. simpl. f_equal. apply IH. exact H2.
Qed.

Lemma run_lit {R : Type} (n : nat) (l s : list N) (c : captures)
    (k : list N -> captures -> option R) :
  run n (lit_chars l) (l ++ s) c k = k s c.
Proof.
  induction l as [| a l IH]; simpl; [reflexivity |].
  unfold ci_eq. rewrite N.eqb_refl. exact IH.
Qed.

(** A greedy star stops at the first character outside its class when the
    rest of the pattern matches there. *)
Lemma star_longest {R : Type} (p : N -> bool) (ws : list N) (x : N)
    (rest : list N) (k : list N -> option R) (res : R) :
  Forall (fun y => p y = true) ws ->
  p x = false ->
  k (x :: rest) = Some res ->
  star p (ws ++ x :: rest) k = Some res.
Proof.
  intros Hall Hx Hk. induction Hall as [| y ws Hy _ IH]; simpl.
  - rewrite Hx. exact Hk.
  - rewrite Hy, IH. reflexivity.
Qed.

(** The search moves past a prefix in which no match begins. *)
Lemma search_skip (n : nat) (r : regex) (pre rest : list N) :
  (forall p1 p2, pre = p1 ++ p2 -> p2 <> [] ->
     run n r (p2 ++ rest) [] (fun _ c => Some c) = None) ->
  search n r (pre ++ rest) = search n r rest.
Proof.
  induction pre as [| x pre IH]; intros H; [reflexivity |].
  simpl. change (x :: pre ++ rest) with ((x :: pre) ++ rest).
  rewrite (H [] (x :: pre) eq_refl); [| discriminate].
  apply IH. intros p1 p2 -> Hne. apply (H (x :: p1) p2); auto.
Qed.

Lemma search_here (n : nat) (r : regex) (s : list N) (c : captures) :
  run n r s [] (fun _ c0 => Some c0) = Some c -> search n r s = Some c.
Proof. intros H. destruct s; unfold search; rewrite H; reflexivity. Qed.

Lemma no_match_before (n : nat) (pre tail : list N) :
  no_label_before pre ->
  forall p1 p2, pre = p1 ++ p2 -> p2 <> [] ->
    run n re_action (p2 ++ js action_label ++ tail) []
      (fun _ c => Some c) = None.
Proof.
  intros Hno p1 p2 -> Hne.
  destruct (run n re_action (p2 ++ js action_label ++ tail) []
              (fun _ c => Some c)) as [res |] eqn:Hrun; [| reflexivity].
  exfalso. apply Hno.
  apply run_sound in Hrun. destruct Hrun as (s1 & s2 & c' & Heq & Hm & _).
  unfold re_action in Hm.
  inversion Hm as [| | | | | | | r1 r2 m1 m2 H1 H2 | | |]; subst.
  pose proof (matches_lit_length _ _ H1) as Hlen.
  change (js action_label) with (js "**Action Required**" ++ [58]) in Heq.
  rewrite <- !app_assoc in Heq. rewrite (app_assoc p2) in Heq.
  apply app_eq_inv in Heq.
  destruct Heq as [(e & He & _) | (e & He & He')].
  - exists p1, m1, e. split; [rewrite <- app_assoc; f_equal; exact He | exact H1].
  - assert (e = []) as ->.
    { apply (f_equal length) in He.
      rewrite !length_app in He.
      change (length (js _)) with 20%nat in Hlen.
      change (length (js "**Action Required**")) with 19%nat in He.
      destruct p2; [congruence |]. simpl in He.
      destruct e; [reflexivity | simpl in He; lia]. }
    rewrite app_nil_r in He.
    exists p1, m1, []. split; [| exact H1].
    rewrite app_nil_r, <- app_assoc. f_equal. symmetry. exact He.
Qed.

Lemma upper_ascii_inv (x u : N) :
  upper_ascii x = u -> 65 <= u <= 90 ->
  is_space x = false /\ forall a, ci_eq a x = (upper_ascii a =? u).
Proof.
  intros <- Hu. split; [| reflexivity].
  assert (Hx : 65 <= x <= 122).
  { unfold upper_ascii in Hu.
    destruct ((97 <=? x) && (x <=? 122)) eqn:Hx; [| lia].
    apply andb_prop in Hx. destruct Hx as [H1 H2].
    apply N.leb_le in H1, H2. lia. }
  clear Hu. unfold is_space, mem. simpl.
  repeat match goal with
  | |- context [x =? ?k] =>
      let E := fresh in
      destruct (N.eqb_spec x k) as [E | E]; [lia | clear E]
  end.
  simpl. apply andb_false_iff. left. apply N.leb_gt. lia.
Qed.

(** The first [**Action Required**] field of a review decides the
    verdict of both parsers, whatever else the text holds: the word may be
    in any letter case and white space may precede it. *)
Theorem action_field_decides (pre ws word post : list N)
    (c : classification) :
  no_label_before pre ->
  Forall (fun x => is_space x = true) ws ->
  toUpperCase word = js (word_of c) ->
  let text := pre ++ js action_label ++ ws ++ word ++ post in
  classify (parseVerdictBlock text) = c
  /\ classify (parseReviewerVerdict text) = c.
Proof.
  intros Hno Hws Hword text.
  assert (Hexec : exec re_action text = Some [(1%nat, word)]).
  { unfold exec, text.
    rewrite search_skip by (apply no_match_before; exact Hno).
    assert (Hrun : run (length text) re_action
                     (js action_label ++ ws ++ word ++ post) []
                     (fun _ c0 => Some c0) = Some [(1%nat, word)]).
    { unfold re_action, lit.
      change (run ?n (Seq ?a ?b) ?s ?c0 ?k)
        with (run n a s c0 (fun s1 c1 => run n b s1 c1 k)).
      rewrite run_lit.
      change (run ?n (Seq (Star ?p) ?b) ?s ?c0 ?k)
        with (star p s (fun s' => run n b s' c0 k)).
      assert (Htake : forall w : list N,
                 take (length (w ++ post) - length post) (w ++ post) = w).
      { intros w. rewrite length_app, Nat.add_sub. apply take_app_length. }
      destruct c; unfold toUpperCase in Hword;
        set (u := js _) in Hword; vm_compute in u; subst u;
        destruct word as [| x1 [| x2 [| x3 [| x4 [| x5 [| x6 ?]]]]]];
        try discriminate Hword;
        injection Hword; clear Hword; intros;
        repeat match goal with
        | H : upper_ascii _ = _ |- _ =>
            apply upper_ascii_inv in H as [? ?]; [| lia]
        end;
        (apply star_longest; [exact Hws | assumption |]);
        cbn [run lit_chars js String.list_ascii_of_string map app];
        repeat match goal with
        | H : forall a, ci_eq a _ = _ |- _ => rewrite !H; clear H
        end;
        match goal with
        | |- context [take _ (?a :: ?b :: ?c :: ?d :: ?e :: post)] =>
            change (a :: b :: c :: d :: e :: post)
              with ([a; b; c; d; e] ++ post)
        | |- context [take _ (?a :: ?b :: ?c :: ?d :: post)] =>
            change (a :: b :: c :: d :: post) with ([a; b; c; d] ++ post)
        end;
        rewrite !Htake; reflexivity. }
    apply search_here. exact Hrun. }
  unfold parseVerdictBlock, parseReviewerVerdict. rewrite Hexec.
  unfold group1_is, classify. cbn [capture Nat.eqb hasMajorIssues hasMinorIssues].
  rewrite Hword. destruct c; vm_compute; auto.
Qed.

Lemma action_field_decides_witness :
  classify (parseVerdictBlock mixed_review) = MINOR
  /\ classify (parseReviewerVerdict mixed_review) = MINOR.
Proof.
  apply (action_field_decides mixed_review_pre [32; 10; 9] (js "minor")
           (js " (see notes)") MINOR).
  - apply not_occurs_by_test; reflexivity.
  - repeat constructor.
  - reflexivity.
Defined.

End VerdictMore.
(* --------------------------------------------------------------------- *)
(** ** The queries on a plan *)
(* --------------------------------------------------------------------- *)

Module PlanMore.
Import Js PlanParser PlanQueries Spec PlanFacts PlanWords.

Section Find.
Variable n : N.






End Find.

(** The phases before the sort carry the titles of the header lines, in
    the order of the lines. *)
Lemma scan_titles (lines : list (list N)) :
  map title
    (close_phase
       (fold_left scan_line lines
          {| phases := []; currentPhase := None; currentContent := [] |}))
  = map title (omap header lines).
Proof.
  destruct (layout_exists lines) as (pre & segs & -> & Hpre & Hsegs).
  destruct (scan_layout pre segs Hpre Hsegs) as (ps & Hps & ->).
  unfold layout. rewrite omap_app.
  assert (Hnil : omap header pre = []).
  { clear -Hpre. induction Hpre as [| l pre Hl _ IH]; simpl; [reflexivity |].
    rewrite Hl. exact IH. }
  rewrite Hnil. simpl. clear Hnil Hpre pre.
  revert Hsegs. induction Hps as [| sg p segs ps (h & Hh & ->) _ IH];
    intros Hsegs; [reflexivity |].
  inversion Hsegs as [| ? ? [_ Hbody] Hrest]; subst.
  destruct sg as [line body]. simpl in *.
  rewrite omap_app. simpl. rewrite Hh.
  assert (Hnil : omap header body = []).
  { clear -Hbody. induction Hbody as [| l body Hl _ IH]; simpl;
      [reflexivity |]. rewrite Hl. exact IH. }
  rewrite Hnil. simpl. f_equal. apply IH. exact Hrest.
Qed.


(** [getPhaseCount] is the number of header lines of the text: phases
    announced with the same number are counted once each. *)
Theorem getPhaseCount_counts_headers (text : list N) :
  getPhaseCount (Some text) = Some (length (headers text)).
Proof.
  unfold getPhaseCount, parsePlanPhases, parsePlanPhasesFromContent, headers.
  cbv zeta. f_equal.
  rewrite <- (Permutation_length (sort_phases_perm _)).
  rewrite <- (length_map title), scan_titles, length_map. reflexivity.
Qed.

End PlanMore.
(* --------------------------------------------------------------------- *)
(** ** The shape of the status graph *)
(* --------------------------------------------------------------------- *)

Module StatusGraphFacts.
Import FeatureModel StatusGraph.

Lemma move_step (a b c : FeatureStatus) :
  canTransition a b = true -> leads_to b c -> leads_to a c.
Proof. intros H Hbc. eapply rtc_l; [exact H | exact Hbc]. Qed.

Ltac walk :=
  lazymatch goal with
  | |- leads_to ?a ?a => apply rtc_refl
  | |- leads_to requested _ => apply (move_step _ draft); [reflexivity | walk]
  | |- leads_to draft _ =>
      apply (move_step _ spec_reviewed); [reflexivity | walk]
  | |- leads_to spec_reviewed _ =>
      apply (move_step _ plan_created); [reflexivity | walk]
  | |- leads_to plan_created _ =>
      apply (move_step _ plan_reviewed); [reflexivity | walk]
  | |- leads_to plan_reviewed _ =>
      apply (move_step _ ready_for_build); [reflexivity | walk]
  | |- leads_to ready_for_build _ =>
      apply (move_step _ building); [reflexivity | walk]
  | |- leads_to building _ =>
      apply (move_step _ code_review); [reflexivity | walk]
  | |- leads_to code_review _ =>
      apply (move_step _ testing); [reflexivity | walk]
  | |- leads_to testing _ =>
      apply (move_step _ implemented); [reflexivity | walk]
  end.

(** The table of allowed moves has no trap and no island: every status
    can be reached from [requested], and from every status the moves can
    be continued up to [implemented].  The only moves that do not go to the
    next status of the declaration are the two that return to [building],
    from [code_review] and from [testing]. *)
Theorem workflow_can_always_finish (s : FeatureStatus) :
  leads_to requested s
  /\ leads_to s implemented
  /\ forall t, canTransition s t = true ->
       rank t = S (rank s)
       \/ (t = building /\ (s = code_review \/ s = testing)).
Proof.
  split; [| split].
  - destruct s; walk.
  - destruct s; walk.
  - intros t Ht. destruct s, t; try discriminate Ht; auto.
Qed.

End StatusGraphFacts.
(* --------------------------------------------------------------------- *)
(** ** Strings: trimming, splitting and joining *)
(* --------------------------------------------------------------------- *)

Module JsFacts.
Import Js TextWords.

Lemma trimStart_app_stop (l r : list N) (c : N) :
  is_space c = false -> trimStart (l ++ c :: r) = trimStart l ++ c :: r.
Proof.
  intros Hc. induction l as [| x l IH]; simpl.
  - rewrite Hc. reflexivity.
  - destruct (is_space x); [exact IH | reflexivity].
Qed.

Lemma trimStart_idem (s : list N) : trimStart (trimStart s) = trimStart s.
Proof.
  induction s as [| x s IH]; simpl; [reflexivity |].
  destruct (is_space x) eqn:Hx; [exact IH |]. simpl. rewrite Hx. reflexivity.
Qed.

(** What [trimStart] returns is empty or begins with a character that is
    not white space. *)
Lemma trimStart_head (s : list N) :
  trimStart s = [] \/ exists c t, trimStart s = c :: t /\ is_space c = false.
Proof.
  induction s as [| x s IH]; simpl; [left; reflexivity |].
  destruct (is_space x) eqn:Hx; [exact IH |]. right. eauto.
Qed.

Lemma trimStart_fix (c : N) (t : list N) :
  is_space c = false -> trimStart (c :: t) = c :: t.
Proof. intros Hc. simpl. rewrite Hc. reflexivity. Qed.

Lemma trimEnd_cons (c : N) (t : list N) :
  is_space c = false -> trimEnd (c :: t) = c :: trimEnd t.
Proof.
  intros Hc. unfold trimEnd. simpl.
  change (rev t ++ [c]) with (rev t ++ c :: []).
  rewrite trimStart_app_stop by exact Hc.
  rewrite rev_app_distr. reflexivity.
Qed.

Lemma trimEnd_idem (s : list N) : trimEnd (trimEnd s) = trimEnd s.
Proof.
  unfold trimEnd. rewrite rev_involutive, trimStart_idem. reflexivity.
Qed.

(** [trim] is idempotent. *)
Lemma trim_idem (s : list N) : trim (trim s) = trim s.
Proof.
  unfold trim. destruct (trimStart_head s) as [-> | (c & t & -> & Hc)].
  - reflexivity.
  - rewrite trimEnd_cons by exact Hc. rewrite trimStart_fix by exact Hc.
    rewrite trimEnd_cons by exact Hc. rewrite trimEnd_idem. reflexivity.
Qed.

Lemma split_nl_nonempty (s : list N) : split_nl s <> [].
Proof.
  induction s as [| c s IH]; simpl; [discriminate |].
  destruct (c =? 10); [discriminate |].
  destruct (split_nl s); discriminate.
Qed.

Lemma split_nl_one_line (s : list N) : Forall one_line (split_nl s).
Proof.
  induction s as [| c s IH]; simpl.
  - repeat constructor. unfold one_line. apply not_elem_of_nil.
  - destruct (N.eqb_spec c 10) as [-> | Hc].
    + constructor; [| exact IH]. unfold one_line. apply not_elem_of_nil.
    + destruct (split_nl s) as [| l ls] eqn:E;
        [exfalso; exact (split_nl_nonempty s E) |].
      inversion IH; subst. constructor; [| assumption].
      unfold one_line in *. rewrite elem_of_cons.
      intros [Heq | H]; [apply Hc; symmetry; exact Heq | auto].
Qed.

(** A text without line feed is one line. *)
Lemma split_nl_line (l : list N) : one_line l -> split_nl l = [l].
Proof.
  unfold one_line. induction l as [| c l IH]; intros H; [reflexivity |].
  simpl. destruct (N.eqb_spec c 10) as [-> | Hc].
  - exfalso. apply H. apply elem_of_cons. left. reflexivity.
  - rewrite IH; [reflexivity |]. intros Hin. apply H. apply elem_of_cons.
    right. exact Hin.
Qed.

Lemma split_nl_app (l rest : list N) :
  one_line l -> split_nl (l ++ 10 :: rest) = l :: split_nl rest.
Proof.
  unfold one_line. induction l as [| c l IH]; intros H; simpl.
  - reflexivity.
  - destruct (N.eqb_spec c 10) as [-> | Hc].
    + exfalso. apply H. apply elem_of_cons. left. reflexivity.
    + rewrite IH; [reflexivity |]. intros Hin. apply H. apply elem_of_cons.
      right. exact Hin.
Qed.

(** Splitting undoes joining. *)
Lemma split_join (ls : list (list N)) :
  ls <> [] -> Forall one_line ls -> split_nl (join_nl ls) = ls.
Proof.
  intros Hne Hall. induction Hall as [| l ls Hl Hls IH]; [contradiction |].
  destruct ls as [| l' ls'].
  - simpl. apply split_nl_line. exact Hl.
  - change (join_nl (l :: l' :: ls')) with (l ++ 10 :: join_nl (l' :: ls')).
    rewrite split_nl_app by exact Hl. f_equal. apply IH. discriminate.
Qed.

Lemma join_nl_cons (l : list N) (ls : list (list N)) :
  ls <> [] -> join_nl (l :: ls) = l ++ 10 :: join_nl ls.
Proof. destruct ls; [contradiction | reflexivity]. Qed.

(** A last piece that begins with a line feed is two lines, the first one
    empty. *)
Lemma join_nl_snoc_nl (ls : list (list N)) (y : list N) :
  join_nl (ls ++ [10 :: y]) = join_nl (ls ++ [[]; y]).
Proof.
  induction ls as [| l ls IH]; [reflexivity |].
  change ((l :: ls) ++ ?x) with (l :: (ls ++ x)).
  rewrite !join_nl_cons by (destruct ls; discriminate).
  rewrite IH. reflexivity.
Qed.

End JsFacts.

(* --------------------------------------------------------------------- *)
(** ** The diff results and the summary of a diff *)
(* --------------------------------------------------------------------- *)

Module GitMore.
Import Js JsText World GitUtils GitDiffs TextWords JsFacts.

Lemma no_changes_consistent : consistent no_changes.
Proof.
  split; [| split].
  - simpl. split; [discriminate | congruence].
  - reflexivity.
  - constructor.
Qed.

Lemma diffResult_consistent (stdout filesOutput : list N) :
  consistent
    {| diff := trim stdout;
       filesChanged := filter (fun l => l <> []) (split_nl (trim filesOutput));
       hasChanges := negb (Nat.eqb (length (trim stdout)) 0) |}.
Proof.
  split; [| split]; simpl.
  - destruct (trim stdout); simpl; split; congruence.
  - apply trim_idem.
  - apply Forall_forall. intros f Hf. apply list_elem_of_filter in Hf.
    destruct Hf as [Hne Hin]. split; [exact Hne |].
    pose proof (split_nl_one_line (trim filesOutput)) as Hall.
    rewrite Forall_forall in Hall. apply Hall. exact Hin.
Qed.

(** Whatever the git commands print, and whichever of them fails, the
    result of each of the three diff functions is consistent: [hasChanges]
    is true exactly when [diff] is not the empty string, [diff] has no
    white space at either end, and [filesChanged] holds non-empty names
    without line breaks. *)
Theorem diff_results_consistent
    (exec : GitCommand -> option (list N))
    (query : GitQuery -> option (list N)) :
  consistent (stagedDiff exec)
  /\ consistent (getUnstagedDiff query)
  /\ consistent (getAllChanges query).
Proof.
  split; [| split].
  - unfold stagedDiff.
    destruct (exec git_add_all); [| apply no_changes_consistent].
    destruct (exec git_diff_staged); [| apply no_changes_consistent].
    destruct (exec git_diff_staged_names); [| apply no_changes_consistent].
    apply diffResult_consistent.
  - unfold getUnstagedDiff.
    destruct (query git_diff); [| apply no_changes_consistent].
    destruct (query git_diff_names); [| apply no_changes_consistent].
    apply diffResult_consistent.
  - unfold getAllChanges.
    destruct (query git_diff_head); [| apply no_changes_consistent].
    destruct (query git_diff_head_names); [| apply no_changes_consistent].
    apply diffResult_consistent.
Qed.

Lemma decimal_from_digits (fuel : nat) (n : N) (acc : list N) :
  Forall (fun d => 48 <= d <= 57) acc ->
  Forall (fun d => 48 <= d <= 57) (decimal_from fuel n acc).
Proof.
  revert n acc. induction fuel as [| fuel IH]; intros n acc Hacc; simpl;
    [exact Hacc |].
  assert (Hd : Forall (fun d => 48 <= d <= 57) ((48 + n mod 10) :: acc)).
  { constructor; [| exact Hacc].
    assert (Hm : n mod 10 < 10) by (apply N.mod_lt; discriminate).
    revert Hm. generalize (n mod 10). intros m Hm. lia. }
  destruct (n / 10 =? 0); [exact Hd | apply IH; exact Hd].
Qed.

Lemma decimal_one_line (n : N) : one_line (decimal n).
Proof.
  unfold one_line, decimal. intros Hin.
  pose proof (decimal_from_digits (S (N.to_nat (N.log2 n))) n []
                ltac:(constructor)) as Hall.
  rewrite Forall_forall in Hall. specialize (Hall _ Hin). lia.
Qed.

(** A diff with more than [maxLines] lines is cut to its first [maxLines]
    lines, followed by two more: an empty line and the note.  A diff that
    is one line too long thus gets a summary that is longer than the diff
    itself. *)
Theorem summarizeDiff_line_count (diff : list N) (maxLines : nat) :
  (maxLines < length (split_nl diff))%nat ->
  length (split_nl (summarizeDiff diff maxLines)) = (maxLines + 2)%nat
  /\ take maxLines (split_nl (summarizeDiff diff maxLines))
     = take maxLines (split_nl diff).
Proof.
  intros Hlong. unfold summarizeDiff. cbv zeta.
  destruct (Nat.leb_spec (length (split_nl diff)) maxLines) as [Hle | _];
    [lia |].
  change ([10] ++ ?y) with (10 :: y).
  rewrite join_nl_snoc_nl.
  rewrite split_join.
  - split.
    + rewrite length_app, length_take. simpl. lia.
    + rewrite take_app_length'; [reflexivity |]. rewrite length_take. lia.
  - destruct (take maxLines (split_nl diff)); discriminate.
  - apply Forall_app. split.
    + apply Forall_take. apply split_nl_one_line.
    + constructor; [unfold one_line; apply not_elem_of_nil |].
      constructor; [| constructor].
      unfold one_line. rewrite !elem_of_app.
      intros [H | [H | H]].
      * vm_compute in H. repeat (apply elem_of_cons in H as [H | H];
          [discriminate H |]). apply elem_of_nil in H. exact H.
      * exact (decimal_one_line _ H).
      * vm_compute in H. repeat (apply elem_of_cons in H as [H | H];
          [discriminate H |]). apply elem_of_nil in H. exact H.
Qed.

Lemma summarizeDiff_line_count_witness :
  length (split_nl (summarizeDiff three_line_diff 2)) = 4%nat
  /\ take 2 (split_nl (summarizeDiff three_line_diff 2))
     = take 2 (split_nl three_line_diff).
Proof. apply (summarizeDiff_line_count three_line_diff 2). simpl. lia. Defined.

End GitMore.
(* --------------------------------------------------------------------- *)
(** ** Strings: more on trimming and splitting *)
(* --------------------------------------------------------------------- *)

Module TextFacts.
Import Js JsText TextWords YamlWords JsFacts.

Lemma trimStart_suffix (s : list N) : exists p, s = p ++ trimStart s.
Proof.
  induction s as [| c s (p & IH)]; simpl; [exists []; reflexivity |].
  destruct (is_space c); [| exists []; reflexivity].
  exists (c :: p). simpl. f_equal. exact IH.
Qed.

Lemma trimStart_elem (x : N) (s : list N) : x ∈ trimStart s -> x ∈ s.
Proof.
  destruct (trimStart_suffix s) as (p & Hp). intros H. rewrite Hp.
  apply elem_of_app. right. exact H.
Qed.

Lemma elem_of_rev (x : N) (s : list N) : x ∈ rev s <-> x ∈ s.
Proof. rewrite !list_elem_of_In. symmetry. apply in_rev. Qed.

Lemma trimEnd_elem (x : N) (s : list N) : x ∈ trimEnd s -> x ∈ s.
Proof.
  unfold trimEnd. rewrite elem_of_rev. intros H.
  apply trimStart_elem in H. rewrite elem_of_rev in H. exact H.
Qed.

Lemma trim_elem (x : N) (s : list N) : x ∈ trim s -> x ∈ s.
Proof. unfold trim. intros H. apply trimStart_elem, trimEnd_elem, H. Qed.

Lemma trim_one_line (s : list N) : one_line s -> one_line (trim s).
Proof. unfold one_line. intros H Hin. apply H, trim_elem, Hin. Qed.

Lemma trimStart_head_ok (s : list N) : head_ok (trimStart s).
Proof.
  destruct (trimStart_head s) as [-> | (c & t & -> & Hc)]; simpl; auto.
Qed.

Lemma head_ok_trimStart (s : list N) : head_ok s -> trimStart s = s.
Proof. destruct s as [| c s]; simpl; [reflexivity |]. intros ->. reflexivity. Qed.

Lemma trimStart_app_nonempty (x y : list N) :
  trimStart x <> [] -> trimStart (x ++ y) = trimStart x ++ y.
Proof.
  induction x as [| a x IH]; simpl; [contradiction |].
  destruct (is_space a); [exact IH | reflexivity].
Qed.

Lemma trimEnd_app (a b : list N) :
  trimEnd b <> [] -> trimEnd (a ++ b) = a ++ trimEnd b.
Proof.
  unfold trimEnd. intros H. rewrite rev_app_distr.
  rewrite trimStart_app_nonempty.
  - rewrite rev_app_distr, rev_involutive. reflexivity.
  - intros Hnil. apply H. rewrite Hnil. reflexivity.
Qed.

Lemma trimEnd_snoc_space (s : list N) (c : N) :
  is_space c = true -> trimEnd (s ++ [c]) = trimEnd s.
Proof.
  intros Hc. unfold trimEnd. rewrite rev_app_distr. simpl. rewrite Hc.
  reflexivity.
Qed.

Lemma trimEnd_snoc_stop (s : list N) (c : N) :
  is_space c = false -> trimEnd (s ++ [c]) = s ++ [c].
Proof.
  intros Hc. unfold trimEnd. rewrite rev_app_distr. simpl. rewrite Hc.
  simpl. rewrite rev_involutive. reflexivity.
Qed.

Lemma trimEnd_head_ok (s : list N) : head_ok s -> head_ok (trimEnd s).
Proof.
  destruct s as [| c s]; simpl; [intros _; exact I |].
  intros Hc. rewrite trimEnd_cons by exact Hc. exact Hc.
Qed.

(** A trimmed text is empty or has a visible character at each end. *)
Lemma trimmed_ends (s : list N) :
  trimmed s ->
  s = [] \/ (head_ok s /\ exists s' c, s = s' ++ [c] /\ is_space c = false).
Proof.
  unfold trimmed, trim. intros H.
  assert (Hhead : head_ok s).
  { rewrite <- H. apply trimEnd_head_ok, trimStart_head_ok. }
  destruct s as [| a s]; [left; reflexivity |]. right.
  split; [exact Hhead |].
  assert (Hrev : head_ok (rev (a :: s))).
  { rewrite <- H at 1. unfold trimEnd. rewrite rev_involutive.
    apply trimStart_head_ok. }
  destruct (rev (a :: s)) as [| c r] eqn:Hr.
  - apply (f_equal (@rev N)) in Hr. rewrite rev_involutive in Hr.
    discriminate Hr.
  - exists (rev r), c. split; [| exact Hrev].
    apply (f_equal (@rev N)) in Hr. rewrite rev_involutive in Hr.
    exact Hr.
Qed.

Lemma head_ok_trimmed (s s' : list N) (c : N) :
  head_ok s -> s = s' ++ [c] -> is_space c = false -> trimmed s.
Proof.
  intros Hh -> Hc. unfold trimmed, trim.
  rewrite head_ok_trimStart by exact Hh. apply trimEnd_snoc_stop. exact Hc.
Qed.

(** *** Splitting on one character *)

Lemma split_on_nonempty (sep : N) (s : list N) : split_on sep s <> [].
Proof.
  induction s as [| c s IH]; simpl; [discriminate |].
  destruct (c =? sep); [discriminate |].
  destruct (split_on sep s); discriminate.
Qed.

Lemma split_on_app (sep : N) (k rest : list N) :
  sep ∉ k -> split_on sep (k ++ sep :: rest) = k :: split_on sep rest.
Proof.
  induction k as [| c k IH]; intros H; simpl.
  - rewrite N.eqb_refl. reflexivity.
  - destruct (N.eqb_spec c sep) as [-> | Hc].
    + exfalso. apply H. apply elem_of_cons. left. reflexivity.
    + rewrite IH; [reflexivity |]. intros Hin. apply H. apply elem_of_cons.
      right. exact Hin.
Qed.

Lemma join_on_cons (sep : N) (l : list N) (ls : list (list N)) :
  ls <> [] -> join_on sep (l :: ls) = l ++ sep :: join_on sep ls.
Proof. destruct ls; [contradiction | reflexivity]. Qed.

(** Joining undoes splitting. *)
Lemma join_split_on (sep : N) (s : list N) :
  join_on sep (split_on sep s) = s.
Proof.
  induction s as [| c s IH]; [reflexivity |]. simpl.
  destruct (N.eqb_spec c sep) as [-> | Hc].
  - rewrite join_on_cons by apply split_on_nonempty. rewrite IH. reflexivity.
  - destruct (split_on sep s) as [| l ls] eqn:E;
      [exfalso; exact (split_on_nonempty sep s E) |].
    destruct ls as [| l' ls].
    + simpl in *. rewrite IH. reflexivity.
    + change (join_on sep ((c :: l) :: l' :: ls))
        with (c :: (l ++ sep :: join_on sep (l' :: ls))).
      change (join_on sep (l :: l' :: ls))
        with (l ++ sep :: join_on sep (l' :: ls)) in IH.
      rewrite IH. reflexivity.
Qed.

(** The first piece holds no separator, and the text is the first piece,
    the separator and the rest joined. *)
Lemma split_on_first (sep : N) (s k : list N) (rest : list (list N)) :
  split_on sep s = k :: rest ->
  (sep ∉ k)
  /\ (rest = [] /\ s = k \/ rest <> [] /\ s = k ++ sep :: join_on sep rest).
Proof.
  revert k rest. induction s as [| c s IH]; intros k rest H; simpl in H.
  - injection H as <- <-. split; [apply not_elem_of_nil | left; auto].
  - destruct (N.eqb_spec c sep) as [-> | Hc].
    + injection H as <- <-. split; [apply not_elem_of_nil |].
      right. split; [apply split_on_nonempty |].
      rewrite join_split_on. reflexivity.
    + destruct (split_on sep s) as [| l ls] eqn:E;
        [exfalso; exact (split_on_nonempty sep s E) |].
      injection H as <- <-.
      destruct (IH l ls eq_refl) as (Hl & Hs). split.
      * rewrite elem_of_cons. intros [Heq | Hin]; [| exact (Hl Hin)].
        apply Hc. symmetry. exact Heq.
      * destruct Hs as [[-> ->] | [Hne ->]]; [left; auto | right; auto].
Qed.

(** *** Splitting into lines *)

Lemma split_lines_nonempty (s : list N) : split_lines s <> [].
Proof.
  destruct s as [| c s]; simpl; [discriminate |].
  destruct (c =? 10); [discriminate |].
  destruct s as [| d s].
  - simpl. discriminate.
  - destruct ((c =? 13) && (d =? 10)); [discriminate |].
    destruct (split_lines (d :: s)); discriminate.
Qed.

Lemma split_lines_lf (s : list N) :
  split_lines (10 :: s) = [] :: split_lines s.
Proof. reflexivity. Qed.

Lemma split_lines_crlf (s : list N) :
  split_lines (13 :: 10 :: s) = [] :: split_lines s.
Proof. reflexivity. Qed.

Lemma split_lines_keep (c : N) (s : list N) :
  c <> 10 ->
  (c = 13 -> head s <> Some 10) ->
  split_lines (c :: s)
  = match split_lines s with
    | l :: ls => (c :: l) :: ls
    | [] => [[c]]
    end.
Proof.
  intros Hc Hcr. simpl. destruct (N.eqb_spec c 10) as [| _]; [contradiction |].
  destruct s as [| d s]; [reflexivity |].
  destruct (N.eqb_spec c 13) as [-> | _]; [| reflexivity].
  destruct (N.eqb_spec d 10) as [-> | _]; [| reflexivity].
  exfalso. apply Hcr; reflexivity.
Qed.

(** No piece of [split_lines] holds a line feed. *)
Lemma split_lines_one_line (s : list N) : Forall one_line (split_lines s).
Proof.
  assert (H : forall n s, (length s <= n)%nat ->
                Forall one_line (split_lines s)).
  { clear s. induction n as [| n IH]; intros s Hn.
    - destruct s; [| simpl in Hn; lia]. repeat constructor.
      unfold one_line. apply not_elem_of_nil.
    - destruct s as [| c s].
      { repeat constructor. unfold one_line. apply not_elem_of_nil. }
      simpl in Hn.
      assert (Hnil : one_line []) by (unfold one_line; apply not_elem_of_nil).
      assert (Hkeep : c <> 10 ->
                Forall one_line
                  match split_lines s with
                  | l :: ls => (c :: l) :: ls
                  | [] => [[c]]
                  end).
      { intros Hc. pose proof (IH s ltac:(lia)) as Hs.
        destruct (split_lines s) as [| l ls].
        - repeat constructor. unfold one_line. rewrite elem_of_cons.
          intros [Heq | Hin]; [apply Hc; symmetry; exact Heq |].
          exact (Hnil Hin).
        - inversion Hs; subst. constructor; [| assumption].
          unfold one_line in *. rewrite elem_of_cons.
          intros [Heq | Hin]; [apply Hc; symmetry; exact Heq | auto]. }
      simpl. destruct (N.eqb_spec c 10) as [-> | Hc].
      + constructor; [exact Hnil | apply IH; lia].
      + destruct s as [| d s]; [exact (Hkeep Hc) |].
        destruct ((c =? 13) && (d =? 10)); [| exact (Hkeep Hc)].
        constructor; [exact Hnil |]. apply IH. simpl in Hn. lia. }
  apply (H (length s)). lia.
Qed.

(** A text without line feed is one line, a carriage return at its end
    included. *)
Lemma split_lines_line (l : list N) : one_line l -> split_lines l = [l].
Proof.
  unfold one_line. induction l as [| c l IH]; intros H; [reflexivity |].
  assert (Hc : c <> 10).
  { intros ->. apply H. apply elem_of_cons. left. reflexivity. }
  assert (Hl : 10 ∉ l).
  { intros Hin. apply H. apply elem_of_cons. right. exact Hin. }
  rewrite split_lines_keep; [rewrite (IH Hl); reflexivity | exact Hc |].
  intros _. destruct l as [| d l]; [discriminate |]. simpl.
  intros [= ->]. apply Hl. apply elem_of_cons. left. reflexivity.
Qed.

(** A line that does not end with a carriage return is split off as it
    is. *)
Lemma split_lines_app (l rest : list N) :
  one_line l -> last l <> Some 13 ->
  split_lines (l ++ 10 :: rest) = l :: split_lines rest.
Proof.
  unfold one_line. induction l as [| c l IH]; intros H Hlast;
    [reflexivity |].
  assert (Hc : c <> 10).
  { intros ->. apply H. apply elem_of_cons. left. reflexivity. }
  assert (Hl : 10 ∉ l).
  { intros Hin. apply H. apply elem_of_cons. right. exact Hin. }
  change ((c :: l) ++ 10 :: rest) with (c :: (l ++ 10 :: rest)).
  rewrite split_lines_keep.
  - rewrite IH; [reflexivity | exact Hl |].
    destruct l as [| d l]; [discriminate | exact Hlast].
  - exact Hc.
  - intros ->. destruct l as [| d l].
    + exfalso. apply Hlast. reflexivity.
    + simpl. intros [= ->]. apply Hl. apply elem_of_cons. left. reflexivity.
Qed.

(** Lines that hold no line feed and do not end with a carriage return
    are what [split_lines] gives back from their join. *)
Lemma split_lines_join (ls : list (list N)) :
  ls <> [] ->
  Forall (fun l => one_line l /\ last l <> Some 13) ls ->
  split_lines (join_nl ls) = ls.
Proof.
  intros Hne Hall. induction Hall as [| l ls [Hl Hlast] Hls IH];
    [contradiction |].
  destruct ls as [| l' ls'].
  - simpl. apply split_lines_line. exact Hl.
  - change (join_nl (l :: l' :: ls')) with (l ++ 10 :: join_nl (l' :: ls')).
    rewrite split_lines_app by assumption. f_equal. apply IH. discriminate.
Qed.

(** [join_nl] with the last piece apart. *)
Lemma join_nl_snoc (ls : list (list N)) (l : list N) :
  join_nl (ls ++ [l]) = concat (map (fun x => x ++ [10]) ls) ++ l.
Proof.
  induction ls as [| x ls IH]; [reflexivity |].
  change ((x :: ls) ++ [l]) with (x :: (ls ++ [l])).
  rewrite join_nl_cons by (destruct ls; discriminate).
  rewrite IH. simpl. rewrite <- !app_assoc. reflexivity.
Qed.

(** *** Searching *)

Lemma startsWith_app (p x : list N) : startsWith (p ++ x) p = true.
Proof.
  induction p as [| c p IH]; [destruct x; reflexivity |].
  simpl. rewrite N.eqb_refl. exact IH.
Qed.

Lemma index_from_skip (p l s : list N) (i : nat) :
  one_line l ->
  index_from (10 :: p) (l ++ s) i
  = index_from (10 :: p) s (i + length l)%nat.
Proof.
  unfold one_line. revert i. induction l as [| c l IH]; intros i H.
  - simpl length. rewrite Nat.add_0_r. reflexivity.
  - assert (Hc : c <> 10).
    { intros ->. apply H. apply elem_of_cons. left. reflexivity. }
    assert (Hl : 10 ∉ l).
    { intros Hin. apply H. apply elem_of_cons. right. exact Hin. }
    change ((c :: l) ++ s) with (c :: (l ++ s)).
    change (index_from (10 :: p) (c :: (l ++ s)) i)
      with (if (c =? 10) && startsWith (l ++ s) p then Some i
            else index_from (10 :: p) (l ++ s) (S i)).
    destruct (N.eqb_spec c 10) as [| _]; [contradiction |]. simpl andb.
    cbv iota. rewrite IH by exact Hl. simpl length. f_equal. lia.
Qed.

Lemma index_from_pass (p t : list N) (i : nat) :
  startsWith t p = false ->
  index_from (10 :: p) (10 :: t) i = index_from (10 :: p) t (S i).
Proof.
  intros H.
  change (index_from (10 :: p) (10 :: t) i)
    with (if (10 =? 10) && startsWith t p then Some i
          else index_from (10 :: p) t (S i)).
  rewrite H. reflexivity.
Qed.

Lemma index_from_here (p x : list N) (i : nat) :
  index_from (10 :: p) (10 :: p ++ x) i = Some i.
Proof.
  change (index_from (10 :: p) (10 :: p ++ x) i)
    with (if (10 =? 10) && startsWith (p ++ x) p then Some i
          else index_from (10 :: p) (p ++ x) (S i)).
  rewrite startsWith_app. reflexivity.
Qed.

(** A line that begins with a good key does not begin with the fence. *)
Lemma key_ok_no_fence (k z : list N) :
  key_ok k -> startsWith (k ++ 58 :: z) (js "---") = false.
Proof.
  intros [Hne Hk]. change (js "---") with [45; 45; 45] in *.
  destruct k as [| a [| b [| c k]]]; [contradiction | | |].
  - simpl. destruct (a =? 45); reflexivity.
  - simpl. destruct (a =? 45), (b =? 45); reflexivity.
  - simpl in *. destruct (a =? 45), (b =? 45), (c =? 45); simpl in *;
      try reflexivity; try discriminate Hk.
    destruct k; discriminate Hk.
Qed.

(** The closing fence is found right after the lines, when no line holds
    a line feed or begins with the fence. *)
Lemma index_from_fence (p : list N) (ls : list (list N)) (x : list N)
    (i : nat) :
  (forall z, startsWith (10 :: z) p = false) ->
  Forall (fun l => one_line l
                   /\ forall y, startsWith (l ++ 10 :: y) p = false) ls ->
  index_from (10 :: p) (10 :: join_nl ls ++ 10 :: p ++ x) i
  = Some (S i + length (join_nl ls))%nat.
Proof.
  intros Hp Hall. revert i.
  induction Hall as [| l ls [Hl Hf] Hls IH]; intros i.
  - change (10 :: join_nl [] ++ 10 :: p ++ x) with (10 :: 10 :: p ++ x).
    rewrite index_from_pass by apply Hp.
    rewrite index_from_here. simpl. f_equal. lia.
  - destruct ls as [| l' ls'].
    + simpl join_nl. rewrite index_from_pass by apply Hf.
      rewrite index_from_skip by exact Hl.
      rewrite index_from_here. reflexivity.
    + change (join_nl (l :: l' :: ls')) with (l ++ 10 :: join_nl (l' :: ls')).
      rewrite <- app_assoc.
      change ((10 :: join_nl (l' :: ls')) ++ 10 :: p ++ x)
        with (10 :: (join_nl (l' :: ls') ++ 10 :: p ++ x)).
      rewrite index_from_pass by apply Hf.
      rewrite index_from_skip by exact Hl.
      rewrite IH. f_equal. rewrite length_app. simpl length. lia.
Qed.

End TextFacts.

(* --------------------------------------------------------------------- *)
(** ** The frontmatter object *)
(* --------------------------------------------------------------------- *)

Module ObjectFacts.
Import Js JsText Yaml TextWords YamlWords.

Lemma get_None_keys (o : Frontmatter) (k : list N) :
  get o k = None <-> k ∉ map fst o.
Proof.
  induction o as [| [k' v'] o IH]; simpl.
  - split; [intros _; apply not_elem_of_nil | reflexivity].
  - rewrite not_elem_of_cons. destruct (bool_decide_reflect (k' = k)) as [-> | Hne].
    + split; [discriminate | intros [H _]; contradiction].
    + rewrite IH. split; [intros H; split; [congruence | exact H] | intros [_ H]; exact H].
Qed.

Lemma has_key_false (o : Frontmatter) (k : list N) :
  has_key o k = false <-> k ∉ map fst o.
Proof.
  unfold has_key. rewrite <- get_None_keys.
  destruct (get o k); split; congruence.
Qed.

Lemma keys_replace (k v : list N) (o : Frontmatter) :
  map fst (replace k v o) = map fst o.
Proof.
  induction o as [| [k' v'] o IH]; simpl; [reflexivity |].
  destruct (bool_decide_reflect (k' = k)) as [-> | Hne]; simpl;
    [reflexivity | rewrite IH; reflexivity].
Qed.

Lemma entries_replace (k v : list N) (o : Frontmatter) (e : list N * list N) :
  e ∈ replace k v o -> e = (k, v) \/ e ∈ o.
Proof.
  induction o as [| [k' v'] o IH]; simpl; [intros H; right; exact H |].
  destruct (bool_decide_reflect (k' = k)) as [-> | Hne];
    rewrite !elem_of_cons; intros [H | H]; auto.
  destruct (IH H); auto.
Qed.

Lemma insert_index_perm (i : N) (k v : list N) (o : Frontmatter) :
  Permutation (insert_index i k v o) ((k, v) :: o).
Proof.
  induction o as [| [k' v'] o IH]; simpl; [reflexivity |].
  destruct (array_index k') as [j |]; [| reflexivity].
  destruct (j <? i); [| reflexivity].
  rewrite IH. apply perm_swap.
Qed.

(** An assignment adds at most its own entry. *)
Lemma entries_set (k v : list N) (o : Frontmatter) (e : list N * list N) :
  e ∈ set k v o -> e = (k, v) \/ e ∈ o.
Proof.
  unfold set. destruct (bool_decide (k = js "__proto__")); [auto |].
  destruct (has_key o k); [apply entries_replace |].
  destruct (array_index k) as [i |].
  - rewrite insert_index_perm, elem_of_cons. auto.
  - rewrite elem_of_app, list_elem_of_singleton. tauto.
Qed.

Lemma get_replace (k v : list N) (o : Frontmatter) (k' : list N) :
  get (replace k v o) k'
  = if bool_decide (k = k') then (fun _ => v) <$> get o k else get o k'.
Proof.
  induction o as [| [k0 v0] o IH]; simpl.
  - destruct (bool_decide (k = k')); reflexivity.
  - destruct (bool_decide_reflect (k0 = k)) as [-> | Hne]; simpl.
    + destruct (bool_decide (k = k')); reflexivity.
    + rewrite IH.
      destruct (bool_decide_reflect (k = k')) as [Heq | Hne'];
        [| reflexivity].
      subst k'. rewrite bool_decide_false by exact Hne. reflexivity.
Qed.

Lemma get_insert_index (i : N) (k v : list N) (o : Frontmatter)
    (k' : list N) :
  get o k = None ->
  get (insert_index i k v o) k'
  = if bool_decide (k = k') then Some v else get o k'.
Proof.
  induction o as [| [k0 v0] o IH]; simpl; intros Hk.
  - reflexivity.
  - destruct (bool_decide_reflect (k0 = k)) as [-> | Hne]; [discriminate |].
    destruct (array_index k0) as [j |]; [| reflexivity].
    destruct (j <? i); [| reflexivity].
    simpl. rewrite (IH Hk).
    destruct (bool_decide_reflect (k = k')) as [Heq | Hne'].
    + subst k'. rewrite bool_decide_false by exact Hne. reflexivity.
    + reflexivity.
Qed.

Lemma get_snoc (k v : list N) (o : Frontmatter) (k' : list N) :
  get o k = None ->
  get (o ++ [(k, v)]) k'
  = if bool_decide (k = k') then Some v else get o k'.
Proof.
  induction o as [| [k0 v0] o IH]; simpl; intros Hk.
  - reflexivity.
  - destruct (bool_decide_reflect (k0 = k)) as [-> | Hne]; [discriminate |].
    rewrite (IH Hk).
    destruct (bool_decide_reflect (k = k')) as [Heq | Hne'].
    + subst k'. rewrite bool_decide_false by exact Hne. reflexivity.
    + reflexivity.
Qed.

(** Reading what was assigned, and reading another key. *)
Lemma get_set (k v : list N) (o : Frontmatter) (k' : list N) :
  k <> js "__proto__" ->
  get (set k v o) k' = if bool_decide (k = k') then Some v else get o k'.
Proof.
  intros Hp. unfold set. rewrite bool_decide_false by exact Hp.
  unfold has_key. destruct (get o k) as [v0 |] eqn:Hget.
  - rewrite get_replace, Hget. reflexivity.
  - destruct (array_index k) as [i |].
    + apply get_insert_index. exact Hget.
    + apply get_snoc. exact Hget.
Qed.

(** *** The order of the keys *)

Lemma array_index_decimal (k : list N) (i : N) :
  array_index k = Some i -> k = decimal i.
Proof.
  unfold array_index.
  destruct (forallb is_digit k && negb (bool_decide (k = []))); [| discriminate].
  cbv zeta.
  destruct (parseInt k <? 4294967295); [| discriminate]. simpl.
  destruct (bool_decide_reflect (decimal (parseInt k) = k)) as [H |];
    [| discriminate].
  intros [= <-]. symmetry. exact H.
Qed.

Lemma insert_index_keys (i : N) (k v : list N) (idx : list (list N)) :
  array_index k = Some i ->
  forall (o : Frontmatter) (strs : list (list N)),
    map fst o = idx ++ strs ->
    Forall (fun k => is_Some (array_index k)) idx ->
    StronglySorted key_lt idx ->
    Forall (fun k => array_index k = None) strs ->
    k ∉ idx ->
    exists idx',
      map fst (insert_index i k v o) = idx' ++ strs
      /\ Forall (fun k => is_Some (array_index k)) idx'
      /\ StronglySorted key_lt idx'
      /\ Permutation idx' (k :: idx).
Proof.
  intros Hk. induction idx as [| k1 idx IH];
    intros o strs Hkeys Hidx Hsorted Hstrs Hfresh.
  - exists [k]. simpl in Hkeys.
    assert (Hins : insert_index i k v o = (k, v) :: o).
    { destruct o as [| [k0 v0] o]; [reflexivity |]. simpl.
      destruct strs as [| s strs]; [discriminate |].
      injection Hkeys as -> _. inversion Hstrs as [| ? ? Hs _]; subst.
      rewrite Hs. reflexivity. }
    rewrite Hins. simpl. rewrite Hkeys.
    split; [reflexivity |]. split; [repeat constructor; eauto |].
    split; [repeat constructor | reflexivity].
  - destruct o as [| [k0 v0] o]; [discriminate |].
    simpl in Hkeys. injection Hkeys as -> Hkeys.
    inversion Hidx as [| ? ? [j Hj] Hidx']; subst.
    inversion Hsorted as [| ? ? Hsorted' Hlt]; subst.
    apply not_elem_of_cons in Hfresh. destruct Hfresh as [Hne Hfresh].
    simpl. rewrite Hj. destruct (N.ltb_spec j i) as [Hji | Hij].
    + destruct (IH o strs Hkeys Hidx' Hsorted' Hstrs Hfresh)
        as (idx' & Hk' & Hidx'' & Hsorted'' & Hperm).
      exists (k1 :: idx'). simpl. rewrite Hk'.
      split; [reflexivity |]. split; [constructor; eauto |].
      split.
      * constructor; [exact Hsorted'' |].
        rewrite Hperm. constructor; [| exact Hlt].
        exists j, i. auto.
      * rewrite Hperm. apply perm_swap.
    + exists (k :: k1 :: idx). simpl. rewrite Hkeys.
      split; [reflexivity |]. split; [repeat constructor; eauto |].
      split; [| reflexivity].
      assert (Hlt' : i < j).
      { destruct (N.eq_dec i j) as [-> |]; [| lia].
        exfalso. apply Hne.
        rewrite (array_index_decimal _ _ Hk), (array_index_decimal _ _ Hj).
        reflexivity. }
      constructor; [constructor; assumption |].
      constructor; [exists i, j; auto |].
      eapply Forall_impl; [exact Hlt |].
      intros k2 (j1 & j2 & Hj1 & Hj2 & Hlt2). exists i, j2.
      rewrite Hj in Hj1. injection Hj1 as <-.
      split; [exact Hk |]. split; [exact Hj2 | lia].
Qed.

(** An assignment keeps the keys in the order of [Object.entries]. *)
Lemma set_canonical (k v : list N) (o : Frontmatter) :
  canonical o -> canonical (set k v o).
Proof.
  intros Hc. unfold set.
  destruct (bool_decide_reflect (k = js "__proto__")) as [| Hp]; [exact Hc |].
  destruct (has_key o k) eqn:Hhas.
  - unfold canonical. rewrite keys_replace. exact Hc.
  - apply has_key_false in Hhas.
    destruct Hc as (Hnd & Hproto & idx & strs & Hkeys & Hidx & Hsorted & Hstrs).
    destruct (array_index k) as [i |] eqn:Hk.
    + assert (Hfresh : k ∉ idx).
      { intros Hin. apply Hhas. rewrite Hkeys. apply elem_of_app. auto. }
      destruct (insert_index_keys i k v idx Hk o strs Hkeys Hidx Hsorted
                  Hstrs Hfresh) as (idx' & Hk' & Hidx' & Hsorted' & Hperm).
      assert (Hall : Permutation (map fst (insert_index i k v o))
                       (k :: map fst o)).
      { rewrite insert_index_perm. reflexivity. }
      split; [rewrite Hall; constructor; assumption |].
      split.
      * rewrite Hall, not_elem_of_cons. split; [congruence | exact Hproto].
      * exists idx', strs. auto.
    + unfold canonical. rewrite map_app. simpl.
      split.
      * apply NoDup_app. split; [exact Hnd |].
        split; [| repeat constructor; apply not_elem_of_nil].
        intros x Hx Hx'. apply list_elem_of_singleton in Hx'. subst x.
        exact (Hhas Hx).
      * split.
        -- rewrite elem_of_app, list_elem_of_singleton.
           intros [H | H]; [exact (Hproto H) | congruence].
        -- exists idx, (strs ++ [k]). rewrite Hkeys, <- app_assoc.
           split; [reflexivity |]. split; [exact Hidx |].
           split; [exact Hsorted |].
           apply Forall_app. split; [exact Hstrs | repeat constructor; exact Hk].
Qed.

Lemma canonical_nil : canonical [].
Proof.
  split; [constructor |]. split; [apply not_elem_of_nil |].
  exists [], []. repeat split; constructor.
Qed.

Lemma insert_index_end (i : N) (k v : list N) (o : Frontmatter) :
  Forall (fun e => key_lt (fst e) k) o ->
  array_index k = Some i ->
  insert_index i k v o = o ++ [(k, v)].
Proof.
  intros Hall Hk. induction Hall as [| [k0 v0] o Hlt _ IH]; [reflexivity |].
  simpl in *. destruct Hlt as (j & i' & Hj & Hi' & Hlt).
  rewrite Hk in Hi'. injection Hi' as <-. rewrite Hj.
  destruct (N.ltb_spec j i) as [_ | Hge]; [| lia].
  rewrite IH. reflexivity.
Qed.

(** Creating the entries of an object anew, in the order in which
    [Object.entries] lists them, gives the object back. *)
Lemma set_entries_again (l2 : Frontmatter) :
  forall l1 : Frontmatter,
    canonical (l1 ++ l2) ->
    fold_left (fun o e => set (fst e) (snd e) o) l2 l1 = l1 ++ l2.
Proof.
  induction l2 as [| [k v] l2 IH]; intros l1 Hc; simpl.
  - rewrite app_nil_r. reflexivity.
  - assert (Hset : set k v l1 = l1 ++ [(k, v)]).
    { destruct Hc as (Hnd & Hproto & idx & strs & Hkeys & Hidx & Hsorted
                      & Hstrs).
      rewrite map_app in Hnd, Hproto, Hkeys. simpl in Hnd, Hproto, Hkeys.
      unfold set.
      rewrite bool_decide_false.
      2:{ intros ->. apply Hproto. apply elem_of_app. right.
          apply elem_of_cons. left. reflexivity. }
      assert (Hfresh : k ∉ map fst l1).
      { apply NoDup_app in Hnd. destruct Hnd as (_ & Hdis & _).
        intros Hin. apply (Hdis k Hin). apply elem_of_cons. left.
        reflexivity. }
      rewrite (proj2 (has_key_false l1 k) Hfresh).
      destruct (array_index k) as [i |] eqn:Hk; [| reflexivity].
      apply insert_index_end; [| exact Hk].
      symmetry in Hkeys. apply app_eq_inv in Hkeys.
      destruct Hkeys as [(m & Hidx_eq & Hrest) | (m & Hl1 & Hstrs_eq)].
      - destruct m as [| k' m].
        + simpl in Hrest. subst strs.
          inversion Hstrs as [| ? ? Hnone _]; subst. congruence.
        + simpl in Hrest. injection Hrest as <- Hrest. subst idx.
          assert (Hall : Forall (fun k0 => key_lt k0 k) (map fst l1)).
          { clear -Hsorted. induction (map fst l1) as [| a l IHl];
              [constructor |].
            simpl in Hsorted. inversion Hsorted as [| ? ? Hs Ha]; subst.
            constructor; [| apply IHl; exact Hs].
            rewrite Forall_app in Ha. destruct Ha as [_ Ha].
            inversion Ha; subst. assumption. }
          rewrite Forall_forall in Hall. apply Forall_forall.
          intros e He. apply Hall.
          apply (list_elem_of_fmap_2 fst l1 e He).
      - exfalso. rewrite Forall_forall in Hstrs.
        assert (Hin : k ∈ strs).
        { rewrite Hstrs_eq. apply elem_of_app. right. apply elem_of_cons.
          left. reflexivity. }
        rewrite (Hstrs k Hin) in Hk. discriminate. }
    rewrite Hset. rewrite IH; [rewrite <- app_assoc; reflexivity |].
    rewrite <- app_assoc. exact Hc.
Qed.

End ObjectFacts.

(* --------------------------------------------------------------------- *)
(** ** Reading a status file and writing it back *)
(* --------------------------------------------------------------------- *)

Module YamlFacts.
Import Js JsText Yaml StatusText TextWords YamlWords JsFacts TextFacts
  ObjectFacts.

(** *** What the parser guarantees *)

Lemma parse_line_inv (o : Frontmatter) (line : list N) :
  one_line line ->
  canonical o /\ Forall clean_entry o ->
  canonical (parse_line o line) /\ Forall clean_entry (parse_line o line).
Proof.
  intros Hline [Hc Hclean]. unfold parse_line.
  destruct (split_on 58 line) as [| k rest] eqn:Hsplit; [auto |].
  destruct (bool_decide (k = []) || bool_decide (rest = [])) eqn:Hskip;
    [auto |].
  apply orb_false_elim in Hskip. destruct Hskip as [_ Hrest].
  apply bool_decide_eq_false in Hrest.
  destruct (split_on_first 58 line k rest Hsplit) as (Hk & [[-> _] | [_ Hs]]);
    [contradiction |].
  split; [apply set_canonical; exact Hc |].
  apply Forall_forall. intros e He. apply entries_set in He.
  destruct He as [-> | He]; [| rewrite Forall_forall in Hclean; auto].
  assert (Hk10 : one_line k).
  { unfold one_line in *. intros Hin. apply Hline. rewrite Hs.
    apply elem_of_app. left. exact Hin. }
  assert (Hv10 : one_line (join_on 58 rest)).
  { unfold one_line in *. intros Hin. apply Hline. rewrite Hs.
    apply elem_of_app. right. apply elem_of_cons. right. exact Hin. }
  unfold clean_entry. simpl. repeat split.
  - apply trim_idem.
  - apply trim_one_line. exact Hk10.
  - intros Hin. apply Hk. apply trim_elem. exact Hin.
  - apply trim_idem.
  - apply trim_one_line. exact Hv10.
Qed.

Lemma parse_lines_inv (lines : list (list N)) (o : Frontmatter) :
  Forall one_line lines ->
  canonical o /\ Forall clean_entry o ->
  canonical (fold_left parse_line lines o)
  /\ Forall clean_entry (fold_left parse_line lines o).
Proof.
  intros Hall. revert o. induction Hall as [| l lines Hl _ IH]; intros o Ho;
    simpl; [exact Ho |].
  apply IH. apply parse_line_inv; assumption.
Qed.

(** Whatever the text, the frontmatter read from it lists its keys in the
    order of an object, and its keys and values are trimmed single
    lines. *)
Lemma parseFrontmatter_inv (content : list N) :
  canonical (fst (parseFrontmatter content))
  /\ Forall clean_entry (fst (parseFrontmatter content)).
Proof.
  unfold parseFrontmatter.
  destruct (negb (startsWith content (js "---")));
    [split; [apply canonical_nil | constructor] |].
  destruct (indexOf content (10 :: js "---") 3) as [end_ |];
    [| split; [apply canonical_nil | constructor]].
  cbv zeta. simpl fst. apply parse_lines_inv.
  - apply split_lines_one_line.
  - split; [apply canonical_nil | constructor].
Qed.

(** *** The lines that are written *)

Lemma trim_space_front (v : list N) : trimmed v -> trim (32 :: v) = v.
Proof. intros H. exact H. Qed.

Lemma parse_line_entry (o : Frontmatter) (e : list N * list N) :
  clean_entry e -> fst e <> [] ->
  parse_line o (entry_line e) = set (fst e) (snd e) o.
Proof.
  destruct e as [k v]. unfold clean_entry, entry_line. cbn [fst snd].
  intros (Hk & _ & Hcolon & Hv & _) Hne. unfold parse_line.
  change (k ++ js ": " ++ v) with (k ++ 58 :: 32 :: v).
  rewrite split_on_app by exact Hcolon.
  rewrite bool_decide_false by exact Hne.
  rewrite bool_decide_false by apply split_on_nonempty.
  simpl orb. cbv iota. rewrite join_split_on.
  rewrite (trim_space_front v Hv). rewrite Hk. reflexivity.
Qed.

Lemma parse_line_bare (o : Frontmatter) (k : list N) :
  trimmed k -> 58 ∉ k -> k <> [] ->
  parse_line o (k ++ [58]) = set k [] o.
Proof.
  intros Hk Hcolon Hne. unfold parse_line.
  rewrite split_on_app by exact Hcolon.
  rewrite bool_decide_false by exact Hne. simpl. rewrite Hk. reflexivity.
Qed.

Lemma parse_lines_entries (fm : Frontmatter) (o : Frontmatter) :
  Forall (fun e => clean_entry e /\ key_ok (fst e)) fm ->
  fold_left parse_line (map entry_line fm) o
  = fold_left (fun o e => set (fst e) (snd e) o) fm o.
Proof.
  intros Hall. revert o.
  induction Hall as [| e fm [Hclean [Hne _]] _ IH]; intros o; simpl;
    [reflexivity |].
  rewrite parse_line_entry by assumption. apply IH.
Qed.

Lemma entry_line_one_line (e : list N * list N) :
  clean_entry e -> one_line (entry_line e).
Proof.
  intros (_ & Hk & _ & _ & Hv). unfold one_line, entry_line in *.
  change (js ": ") with [58; 32].
  rewrite !elem_of_app, !elem_of_cons, elem_of_nil.
  intros [H | [[H | [H | H]] | H]]; auto; discriminate H.
Qed.

Lemma entry_line_last (e : list N * list N) :
  clean_entry e -> last (entry_line e) <> Some 13.
Proof.
  intros (_ & _ & _ & Hv & _). unfold entry_line.
  change (js ": ") with [58; 32].
  destruct (trimmed_ends _ Hv) as [-> | (_ & v' & c & -> & Hc)].
  - rewrite app_nil_r. change [58; 32] with ([58] ++ [32]).
    rewrite app_assoc, last_snoc. discriminate.
  - rewrite !app_assoc, last_snoc. intros [= ->]. discriminate Hc.
Qed.

Lemma entry_line_no_fence (e : list N * list N) (y : list N) :
  key_ok (fst e) -> startsWith (entry_line e ++ 10 :: y) (js "---") = false.
Proof.
  intros Hk. unfold entry_line. change (js ": ") with [58; 32].
  rewrite <- !app_assoc. apply key_ok_no_fence. exact Hk.
Qed.

(** The last line after [trim]: as it is, or without the space that
    follows the colon when the value is empty.  Either way it is read as
    the same entry. *)
Lemma entry_line_trimEnd (e : list N * list N) :
  clean_entry e -> fst e <> [] ->
  trimEnd (entry_line e) <> []
  /\ one_line (trimEnd (entry_line e))
  /\ last (trimEnd (entry_line e)) <> Some 13
  /\ forall o, parse_line o (trimEnd (entry_line e)) = set (fst e) (snd e) o.
Proof.
  intros Hclean Hne.
  pose proof Hclean as (Hk & Hk10 & Hcolon & Hv & Hv10).
  destruct (trimmed_ends _ Hv) as [Hnil | (_ & v' & c & Hsnoc & Hc)].
  - assert (Hline : trimEnd (entry_line e) = fst e ++ [58]).
    { unfold entry_line. rewrite Hnil, app_nil_r.
      change (js ": ") with ([58] ++ [32]). rewrite app_assoc.
      rewrite trimEnd_snoc_space by reflexivity.
      apply trimEnd_snoc_stop. reflexivity. }
    rewrite Hline. split; [destruct (fst e); discriminate |].
    split.
    + unfold one_line in *. rewrite elem_of_app, list_elem_of_singleton.
      intros [H | H]; [exact (Hk10 H) | discriminate H].
    + split; [rewrite last_snoc; discriminate |].
      intros o. rewrite parse_line_bare by assumption.
      rewrite Hnil. reflexivity.
  - assert (Hline : trimEnd (entry_line e) = entry_line e).
    { unfold entry_line. rewrite Hsnoc, !app_assoc.
      apply trimEnd_snoc_stop. exact Hc. }
    rewrite Hline. split.
    + unfold entry_line. destruct (fst e); [contradiction | discriminate].
    + split; [apply entry_line_one_line; exact Hclean |].
      split; [apply entry_line_last; exact Hclean |].
      intros o. apply parse_line_entry; assumption.
Qed.

Lemma head_ok_app (k z : list N) : k <> [] -> head_ok k -> head_ok (k ++ z).
Proof. destruct k; [contradiction | intros _ H; exact H]. Qed.

(** The lines between the fences, trimmed as the parser trims them, are
    read back as the entries they were written from. *)
Lemma parse_written_lines (fm : Frontmatter) :
  canonical fm ->
  Forall (fun e => clean_entry e /\ key_ok (fst e)) fm ->
  fold_left parse_line
    (split_lines (trim (10 :: join_nl (map entry_line fm)))) []
  = fm.
Proof.
  intros Hc Hall.
  induction fm as [| e fm1 _] using rev_ind.
  - reflexivity.
  - rewrite Forall_app in Hall. destruct Hall as [Hall1 Hlast].
    inversion Hlast as [| ? ? [Hclean [Hne Hfence]] _]; subst.
    destruct (entry_line_trimEnd e Hclean Hne)
      as (Hnonempty & Hone & Hcr & Hparse).
    rewrite map_app. simpl map.
    assert (Hhead : head_ok (join_nl (map entry_line fm1 ++ [entry_line e]))).
    { assert (Hentry : forall e', clean_entry e' -> fst e' <> [] ->
                forall z, head_ok (entry_line e' ++ z)).
      { intros e' (Hk' & _) Hne' z. unfold entry_line.
        rewrite <- app_assoc. apply head_ok_app; [exact Hne' |].
        destruct (trimmed_ends _ Hk') as [Hnil | [Hh _]];
          [contradiction | exact Hh]. }
      destruct fm1 as [| e1 fm1].
      - simpl. rewrite <- (app_nil_r (entry_line e)).
        apply Hentry; assumption.
      - inversion Hall1 as [| ? ? [Hclean1 [Hne1 _]] _]; subst.
        simpl map.
        change ((entry_line e1 :: map entry_line fm1) ++ [entry_line e])
          with (entry_line e1 :: (map entry_line fm1 ++ [entry_line e])).
        rewrite join_nl_cons by (destruct (map entry_line fm1); discriminate).
        apply Hentry; assumption. }
    unfold trim.
    change (trimStart (10 :: ?s)) with (trimStart s).
    rewrite head_ok_trimStart by exact Hhead.
    rewrite join_nl_snoc, trimEnd_app by exact Hnonempty.
    rewrite <- join_nl_snoc.
    rewrite split_lines_join.
    + rewrite fold_left_app. simpl.
      rewrite parse_lines_entries by exact Hall1.
      rewrite Hparse.
      rewrite (set_entries_again fm1 []).
      * simpl.
        pose proof (set_entries_again [e] fm1 Hc) as Hset. simpl in Hset.
        exact Hset.
      * simpl. destruct Hc as (Hnd & Hproto & idx & strs & Hkeys & Hidx
                               & Hsorted & Hstrs).
        unfold canonical, canonical_keys.
        rewrite map_app in Hnd, Hproto, Hkeys. simpl in *.
        split; [apply NoDup_app in Hnd; tauto |].
        split; [intros Hin; apply Hproto; apply elem_of_app; auto |].
        symmetry in Hkeys. apply app_eq_inv in Hkeys.
        destruct Hkeys as [(m & Hidx_eq & Hrest) | (m & Hl1 & Hstrs_eq)].
        -- exists (map fst fm1), []. rewrite app_nil_r.
           split; [reflexivity |]. subst idx.
           rewrite Forall_app in Hidx. split; [tauto |].
           split; [| constructor].
           clear -Hsorted. induction (map fst fm1) as [| a l IHl];
             [constructor |].
           simpl in Hsorted. inversion Hsorted as [| ? ? Hs Ha]; subst.
           constructor; [apply IHl; exact Hs |].
           rewrite Forall_app in Ha. tauto.
        -- exists idx, m. split; [exact Hl1 |]. split; [exact Hidx |].
           split; [exact Hsorted |]. subst strs.
           rewrite Forall_app in Hstrs. tauto.
    + destruct (map entry_line fm1); discriminate.
    + apply Forall_app. split.
      * apply Forall_forall. intros l Hl.
        apply list_elem_of_fmap_1 in Hl. destruct Hl as (e' & -> & He').
        rewrite Forall_forall in Hall1. destruct (Hall1 e' He') as [Hc' _].
        split; [apply entry_line_one_line | apply entry_line_last]; exact Hc'.
      * constructor; [| constructor]. split; assumption.
Qed.

(** What is written between the fences is read back as it was, and the
    body that is read back is what follows the closing fence. *)
Lemma parse_updatedYaml (fm : Frontmatter) (rest : list N) :
  canonical fm ->
  Forall (fun e => clean_entry e /\ key_ok (fst e)) fm ->
  parseFrontmatter (updatedYaml fm ++ rest) = (fm, 10 :: rest).
Proof.
  intros Hc Hall. unfold parseFrontmatter, updatedYaml.
  fold (entry_line). set (L := join_nl (map entry_line fm)).
  set (fence := js "---").
  assert (Hcontent :
    (fence ++ [10] ++ L ++ [10] ++ fence ++ [10]) ++ rest
    = fence ++ (10 :: L ++ 10 :: fence ++ 10 :: rest)).
  { rewrite <- !app_assoc. reflexivity. }
  rewrite Hcontent. rewrite startsWith_app. simpl negb. cbv iota.
  unfold indexOf.
  change (drop 3 (fence ++ ?x)) with x.
  unfold L at 1. rewrite index_from_fence.
  - fold L. cbv zeta. f_equal.
    + unfold slice.
      change (drop 3 (fence ++ ?x)) with x.
      replace (4 + length L - 3)%nat with (S (length L)) by lia.
      change (take (S (length L)) (10 :: L ++ 10 :: fence ++ 10 :: rest))
        with (10 :: take (length L) (L ++ 10 :: fence ++ 10 :: rest)).
      rewrite take_app_length. unfold L.
      apply parse_written_lines; assumption.
    + assert (Hsplit :
        fence ++ 10 :: L ++ 10 :: fence ++ 10 :: rest
        = (fence ++ 10 :: L ++ 10 :: fence) ++ 10 :: rest).
      { rewrite <- !app_assoc. simpl. rewrite <- !app_assoc. reflexivity. }
      rewrite Hsplit. apply drop_app_length'.
      rewrite !length_app. simpl length. rewrite !length_app. simpl length.
      change (length fence) with 3%nat. lia.
  - intros z. reflexivity.
  - apply Forall_forall. intros l Hl.
    apply list_elem_of_fmap_1 in Hl. destruct Hl as (e & -> & He).
    rewrite Forall_forall in Hall. destruct (Hall e He) as [Hclean Hkey].
    split; [apply entry_line_one_line; exact Hclean |].
    intros y. apply entry_line_no_fence. exact Hkey.
Qed.

End YamlFacts.

(* --------------------------------------------------------------------- *)
(** ** The status file as text *)
(* --------------------------------------------------------------------- *)

Module StatusTextFacts.
Import Js JsText Yaml StatusText TextWords YamlWords JsFacts TextFacts
  ObjectFacts YamlFacts.

Lemma status_key_ok : key_ok (js "status").
Proof. split; [discriminate | reflexivity]. Qed.

Lemma status_not_proto : js "status" <> js "__proto__".
Proof. discriminate. Qed.

(** The frontmatter that [updateFeatureStatus] writes and returns. *)
Lemma updated_frontmatter_good (content newStatus : list N) :
  trimmed newStatus -> one_line newStatus ->
  Forall key_ok (map fst (fst (parseFrontmatter content))) ->
  let fm := set (js "status") newStatus (fst (parseFrontmatter content)) in
  canonical fm /\ Forall (fun e => clean_entry e /\ key_ok (fst e)) fm.
Proof.
  intros Htrim Hline Hkeys fm.
  destruct (parseFrontmatter_inv content) as [Hc Hclean].
  split; [apply set_canonical; exact Hc |].
  apply Forall_forall. intros e He. apply entries_set in He.
  destruct He as [-> | He].
  - split; [| exact status_key_ok].
    unfold clean_entry. simpl.
    repeat split; try assumption; try reflexivity.
    + unfold one_line. vm_compute. intros H.
      repeat (apply elem_of_cons in H as [H | H]; [discriminate H |]).
      apply elem_of_nil in H. exact H.
    + vm_compute. intros H.
      repeat (apply elem_of_cons in H as [H | H]; [discriminate H |]).
      apply elem_of_nil in H. exact H.
  - rewrite Forall_forall in Hclean. rewrite Forall_forall in Hkeys.
    split; [auto |].
    apply Hkeys. apply (list_elem_of_fmap_2 fst _ e He).
Qed.

(** The status file survives the round trip through its text.  When no
    key of the frontmatter is empty or begins with [---], and the new
    status is a trimmed single line, the text that [updateFeatureStatus]
    writes is parsed back into exactly the frontmatter it returns: [status]
    holds the new status and every other key what it held before. *)
Theorem status_text_round_trip
    (content newStatus now source message : list N) :
  trimmed newStatus -> one_line newStatus ->
  Forall key_ok (map fst (fst (parseFrontmatter content))) ->
  let written := fst (updateFeatureStatus content newStatus now source message) in
  let returned := snd (updateFeatureStatus content newStatus now source message) in
  fst (parseFrontmatter written) = returned
  /\ get returned (js "status") = Some newStatus
  /\ forall k, k <> js "status" ->
       get returned k = get (fst (parseFrontmatter content)) k.
Proof.
  intros Htrim Hline Hkeys written returned.
  destruct (updated_frontmatter_good content newStatus Htrim Hline Hkeys)
    as [Hc Hgood].
  unfold written, returned, updateFeatureStatus.
  destruct (parseFrontmatter content) as [fm body]. cbn [fst snd] in *.
  split; [| split].
  - rewrite parse_updatedYaml by assumption. reflexivity.
  - rewrite get_set by exact status_not_proto.
    rewrite bool_decide_true by reflexivity. reflexivity.
  - intros k Hk. rewrite get_set by exact status_not_proto.
    rewrite bool_decide_false by congruence. reflexivity.
Qed.

Lemma sample_keys_ok :
  Forall key_ok (map fst (fst (parseFrontmatter sample_status_file))).
Proof.
  vm_compute. repeat (constructor; [split; [discriminate | reflexivity] |]).
  constructor.
Qed.

Lemma status_text_round_trip_witness :
  let written :=
    fst (updateFeatureStatus sample_status_file (js "building") stamp_1
           (js "user") (js "Marked as building")) in
  let returned :=
    snd (updateFeatureStatus sample_status_file (js "building") stamp_1
           (js "user") (js "Marked as building")) in
  fst (parseFrontmatter written) = returned
  /\ get returned (js "status") = Some (js "building")
  /\ forall k, k <> js "status" ->
       get returned k = get (fst (parseFrontmatter sample_status_file)) k.
Proof.
  apply (status_text_round_trip sample_status_file (js "building") stamp_1
           (js "user") (js "Marked as building")).
  - reflexivity.
  - unfold one_line. vm_compute. intros H.
    repeat (apply elem_of_cons in H as [H | H]; [discriminate H |]).
    apply elem_of_nil in H. exact H.
  - exact sample_keys_ok.
Defined.

Lemma updatedBody_kept (line body : list N) :
  updatedBody line body = line ++ kept_body body.
Proof. reflexivity. Qed.

Lemma endsWith_nl_app (a b : list N) :
  endsWith_nl b = true -> endsWith_nl (a ++ b) = true.
Proof.
  unfold endsWith_nl. rewrite last_app.
  destruct (last b); [auto | discriminate].
Qed.

(** What is kept of a body is empty or closed by a line feed. *)
Lemma kept_body_closed (body : list N) :
  kept_body body = [] \/ endsWith_nl (kept_body body) = true.
Proof.
  unfold kept_body. cbv zeta.
  destruct (bool_decide (trimStart body = [])); [left; reflexivity |].
  right. destruct (endsWith_nl (trimStart body)) eqn:Hend.
  - rewrite app_nil_r. exact Hend.
  - unfold endsWith_nl. rewrite last_snoc. reflexivity.
Qed.

Lemma kept_body_visible (c : N) (s : list N) :
  is_space c = false ->
  kept_body ([10; 10] ++ c :: s)
  = (c :: s) ++ (if endsWith_nl (c :: s) then [] else [10]).
Proof.
  intros Hc. unfold kept_body. cbv zeta.
  change (trimStart ([10; 10] ++ ?x)) with (trimStart x).
  rewrite trimStart_fix by exact Hc.
  rewrite bool_decide_false by discriminate. reflexivity.
Qed.

(** A body that was written under a history line is kept as it is by the
    next write. *)
Lemma kept_body_written (now source message body : list N) :
  starts_visible now ->
  kept_body ([10; 10] ++ historyLine now source message ++ kept_body body)
  = historyLine now source message ++ kept_body body.
Proof.
  intros (c & t & -> & Hc).
  assert (Hend : endsWith_nl (historyLine (c :: t) source message
                              ++ kept_body body) = true).
  { destruct (kept_body_closed body) as [Hnil | Hclosed].
    - rewrite Hnil, app_nil_r. unfold historyLine, endsWith_nl.
      rewrite !app_assoc, last_snoc. reflexivity.
    - apply endsWith_nl_app. exact Hclosed. }
  revert Hend. generalize (kept_body body). intros K Hend.
  change (historyLine (c :: t) source message ++ K)
    with (c :: (t ++ js "  [" ++ source ++ js "]  " ++ message ++ [10]) ++ K)
    in *.
  rewrite kept_body_visible by exact Hc.
  rewrite Hend, app_nil_r. reflexivity.
Qed.

(** History lines pile up newest first and nothing is lost: after
    [updateFeatureStatus] and then [logToFeatureHistory] on the text it
    wrote, the file holds the frontmatter of the update, and its body is
    the second line, the first line, and the old body without the white
    space in front. *)
Theorem history_newest_first
    (content newStatus now1 source1 message1 now2 source2 message2 : list N) :
  trimmed newStatus -> one_line newStatus ->
  Forall key_ok (map fst (fst (parseFrontmatter content))) ->
  starts_visible now1 ->
  let first := updateFeatureStatus content newStatus now1 source1 message1 in
  let second := logToFeatureHistory (fst first) now2 source2 message2 in
  parseFrontmatter second
  = (snd first,
     [10; 10] ++ historyLine now2 source2 message2
     ++ historyLine now1 source1 message1
     ++ kept_body (snd (parseFrontmatter content))).
Proof.
  intros Htrim Hline Hkeys Hnow first second.
  destruct (updated_frontmatter_good content newStatus Htrim Hline Hkeys)
    as [Hc Hgood].
  unfold second, first, logToFeatureHistory, updateFeatureStatus.
  destruct (parseFrontmatter content) as [fm body]. cbn [fst snd] in *.
  rewrite parse_updatedYaml by assumption.
  rewrite parse_updatedYaml by assumption.
  rewrite !updatedBody_kept.
  change (kept_body (10 :: [10] ++ ?x)) with (kept_body ([10; 10] ++ x)).
  rewrite kept_body_written by exact Hnow. reflexivity.
Qed.

Lemma history_newest_first_witness :
  let first :=
    updateFeatureStatus sample_status_file (js "building") stamp_1
      (js "user") (js "Marked as building") in
  let second :=
    logToFeatureHistory (fst first) stamp_2 (js "claude") (js "Build started") in
  parseFrontmatter second
  = (snd first,
     [10; 10] ++ historyLine stamp_2 (js "claude") (js "Build started")
     ++ historyLine stamp_1 (js "user") (js "Marked as building")
     ++ kept_body (snd (parseFrontmatter sample_status_file))).
Proof.
  apply (history_newest_first sample_status_file (js "building") stamp_1
           (js "user") (js "Marked as building") stamp_2 (js "claude")
           (js "Build started")).
  - reflexivity.
  - unfold one_line. vm_compute. intros H.
    repeat (apply elem_of_cons in H as [H | H]; [discriminate H |]).
    apply elem_of_nil in H. exact H.
  - exact sample_keys_ok.
  - eexists _, _. split; reflexivity.
Defined.

(** *** [updateFrontmatter] *)

Lemma define_set (k v : list N) (o : Frontmatter) :
  k <> js "__proto__" -> define k v o = set k v o.
Proof.
  intros Hk. unfold define, set. rewrite bool_decide_false by exact Hk.
  reflexivity.
Qed.

Lemma copy_entries (fm : Frontmatter) :
  canonical fm ->
  fold_left (fun o e => define (fst e) (snd e) o) fm [] = fm.
Proof.
  intros Hc. rewrite <- (set_entries_again fm []) at 2 by exact Hc.
  destruct Hc as (_ & Hproto & _).
  assert (Hall : Forall (fun e => fst e <> js "__proto__") fm).
  { apply Forall_forall. intros e He Heq. apply Hproto. rewrite <- Heq.
    apply (list_elem_of_fmap_2 fst _ e He). }
  clear Hproto. generalize (@nil (list N * list N)).
  induction Hall as [| e fm He _ IH]; intros o; simpl; [reflexivity |].
  rewrite define_set by exact He. apply IH.
Qed.

Lemma merge_good (updates : Frontmatter) :
  Forall update_ok updates ->
  forall o : Frontmatter,
    canonical o ->
    Forall (fun e => clean_entry e /\ key_ok (fst e)) o ->
    let merged := fold_left (fun o e => define (fst e) (snd e) o) updates o in
    canonical merged
    /\ Forall (fun e => clean_entry e /\ key_ok (fst e)) merged
    /\ forall k, get merged k
                 = match get (rev updates) k with
                   | Some v => Some v
                   | None => get o k
                   end.
Proof.
  induction 1 as [| [k v] updates (Hclean & Hkey & Hproto) _ IH];
    intros o Hc Hgood; simpl.
  - split; [exact Hc |]. split; [exact Hgood | reflexivity].
  - cbn [fst snd] in *. rewrite define_set by exact Hproto.
    assert (Hgood' : Forall (fun e => clean_entry e /\ key_ok (fst e))
                       (set k v o)).
    { apply Forall_forall. intros e He. apply entries_set in He.
      destruct He as [-> | He]; [auto |].
      rewrite Forall_forall in Hgood. auto. }
    destruct (IH (set k v o) (set_canonical k v o Hc) Hgood')
      as (Hc' & Hg' & Hget).
    split; [exact Hc' |]. split; [exact Hg' |].
    intros k'. rewrite Hget.
    assert (Hsnoc : forall (l : Frontmatter),
              get (l ++ [(k, v)]) k'
              = match get l k' with
                | Some x => Some x
                | None => if bool_decide (k = k') then Some v else None
                end).
    { induction l as [| [k0 v0] l IHl]; simpl; [reflexivity |].
      destruct (bool_decide (k0 = k')); [reflexivity | exact IHl]. }
    rewrite Hsnoc. destruct (get (rev updates) k'); [reflexivity |].
    destruct (bool_decide_reflect (k = k')) as [-> | Hne].
    + rewrite get_set by exact Hproto.
      rewrite bool_decide_true by reflexivity. reflexivity.
    + rewrite get_set by exact Hproto.
      rewrite bool_decide_false by exact Hne. reflexivity.
Qed.

Lemma get_Some_elem (l : Frontmatter) (k v : list N) :
  NoDup (map fst l) -> get l k = Some v <-> (k, v) ∈ l.
Proof.
  induction l as [| [k0 v0] l IH]; simpl; intros Hnd.
  - split; [discriminate | intros H; apply elem_of_nil in H; contradiction].
  - apply NoDup_cons in Hnd. destruct Hnd as [Hfresh Hnd].
    rewrite elem_of_cons.
    destruct (bool_decide_reflect (k0 = k)) as [-> | Hne].
    + split; [intros [= ->]; left; reflexivity |].
      intros [[= ->] | Hin]; [reflexivity |].
      exfalso. apply Hfresh. apply (list_elem_of_fmap_2 fst _ _ Hin).
    + rewrite (IH Hnd). split; [auto |].
      intros [[= <- _] | Hin]; [contradiction | exact Hin].
Qed.

Lemma get_rev (l : Frontmatter) (k : list N) :
  NoDup (map fst l) -> get (rev l) k = get l k.
Proof.
  intros Hnd.
  assert (Hperm : Permutation (rev l) l).
  { symmetry. apply Permutation_rev. }
  assert (Hnd' : NoDup (map fst (rev l))).
  { rewrite Hperm. exact Hnd. }
  destruct (get l k) as [v |] eqn:Hget.
  - apply get_Some_elem; [exact Hnd' |]. rewrite Hperm.
    apply get_Some_elem; assumption.
  - apply get_None_keys. rewrite Hperm. apply get_None_keys. exact Hget.
Qed.

(** [updateFrontmatter] can be read back.  When the keys of the old
    frontmatter and the updates are fit to be written, the text it returns
    parses into the merged frontmatter: a key holds its update if there is
    one and its old value otherwise.  The body that is read back is the old
    body without leading white space, with one more line feed at its end:
    every call adds one. *)
Theorem updateFrontmatter_read_back (content : list N)
    (updates : Frontmatter) :
  Forall key_ok (map fst (fst (parseFrontmatter content))) ->
  NoDup (map fst updates) ->
  Forall update_ok updates ->
  let old := parseFrontmatter content in
  let new := parseFrontmatter (updateFrontmatter content updates) in
  fst new = merge (fst old) updates
  /\ (forall k, get (fst new) k
                = match get updates k with
                  | Some v => Some v
                  | None => get (fst old) k
                  end)
  /\ snd new = [10] ++ trimStart (snd old) ++ [10].
Proof.
  intros Hkeys Hnd Hupd old new.
  destruct (parseFrontmatter_inv content) as [Hc Hclean].
  assert (Hgood : Forall (fun e => clean_entry e /\ key_ok (fst e))
                    (fst (parseFrontmatter content))).
  { rewrite Forall_forall in Hclean. rewrite Forall_forall in Hkeys.
    apply Forall_forall. intros e He. split; [auto |].
    apply Hkeys. apply (list_elem_of_fmap_2 fst _ e He). }
  unfold new, old, updateFrontmatter.
  destruct (parseFrontmatter content) as [fm body]. cbn [fst snd] in *.
  unfold merge. rewrite copy_entries by exact Hc.
  destruct (merge_good updates Hupd fm Hc Hgood) as (Hc' & Hgood' & Hget).
  cbv zeta in Hc', Hgood', Hget |- *.
  set (merged := fold_left (fun o e => define (fst e) (snd e) o) updates fm)
    in *.
  assert (Hwritten :
    js "---" ++ [10]
    ++ join_nl (map (fun e => fst e ++ js ": " ++ snd e) merged)
    ++ [10] ++ js "---" ++ [10] ++ trimStart body ++ [10]
    = updatedYaml merged ++ trimStart body ++ [10]).
  { unfold updatedYaml. rewrite <- !app_assoc. reflexivity. }
  rewrite Hwritten, parse_updatedYaml by assumption. cbn [fst snd].
  split; [reflexivity |]. split; [| reflexivity].
  intros k. rewrite Hget, get_rev by exact Hnd. reflexivity.
Qed.

Lemma updateFrontmatter_read_back_witness :
  let old := parseFrontmatter sample_status_file in
  let new :=
    parseFrontmatter (updateFrontmatter sample_status_file sample_updates) in
  fst new = merge (fst old) sample_updates
  /\ (forall k, get (fst new) k
                = match get sample_updates k with
                  | Some v => Some v
                  | None => get (fst old) k
                  end)
  /\ snd new = [10] ++ trimStart (snd old) ++ [10].
Proof.
  apply (updateFrontmatter_read_back sample_status_file sample_updates).
  - exact sample_keys_ok.
  - unfold sample_updates. cbn [map fst].
    repeat (constructor;
            [rewrite ?not_elem_of_cons, ?elem_of_nil;
             repeat split; try discriminate; tauto |]).
    constructor.
  - unfold sample_updates.
    repeat (constructor;
            [split;
             [unfold clean_entry; cbn [fst snd];
              repeat split; try reflexivity;
              intros H; vm_compute in H;
              repeat (apply elem_of_cons in H as [H | H];
                      [discriminate H |]);
              apply elem_of_nil in H; exact H
             | split; [split; [discriminate | reflexivity]
                      | discriminate]] |]).
    constructor.
Defined.

End StatusTextFacts.
(* --------------------------------------------------------------------- *)
(** ** Features as files: what is created and updated is what is loaded *)
(* --------------------------------------------------------------------- *)

Module FeatureFilesFacts.
Import Js JsText Yaml StatusText FeatureFiles TextWords YamlWords
  FeatureWords JsFacts TextFacts ObjectFacts YamlFacts StatusTextFacts.

Lemma statusContent_shape (id name now : list N) :
  statusContent id name now
  = updatedYaml (created_entries id name now)
    ++ [10] ++ now ++ js "  [system]  Created feature" ++ [10].
Proof.
  unfold statusContent, updatedYaml, created_entries.
  cbn [map fst snd join_nl].
  repeat first [rewrite <- app_assoc | rewrite <- app_comm_cons].
  reflexivity.
Qed.

Lemma id_char_visible (c : N) :
  is_id_char c = true -> is_space c = false /\ c <> 10 /\ c <> 58.
Proof.
  unfold is_id_char. intros H.
  assert (Hc : 97 <= c <= 122 \/ 48 <= c <= 57 \/ c = 45).
  { apply orb_prop in H. destruct H as [H | H].
    - apply orb_prop in H. destruct H as [H | H];
        apply andb_prop in H; destruct H as [H1 H2];
        apply N.leb_le in H1, H2; lia.
    - apply N.eqb_eq in H. lia. }
  clear H. split; [| lia].
  unfold is_space, mem. simpl.
  repeat match goal with
  | |- context [c =? ?k] =>
      let E := fresh in
      destruct (N.eqb_spec c k) as [E | E]; [lia | clear E]
  end.
  simpl. apply andb_false_iff. left. apply N.leb_gt. lia.
Qed.

(** An accepted feature ID fits on its line as it is. *)
Lemma valid_id_plain (id : list N) :
  validateInput id = None -> id <> [] /\ plain id.
Proof.
  unfold validateInput. destruct id as [| c s]; [discriminate |].
  destruct (forallb is_id_char (c :: s)) eqn:Hall; [| discriminate].
  intros _. split; [discriminate |].
  rewrite forallb_forall in Hall.
  assert (Hchars : forall x, x ∈ c :: s -> is_space x = false /\ x <> 10).
  { intros x Hx. apply list_elem_of_In in Hx.
    destruct (id_char_visible x (Hall x Hx)) as (? & ? & _). auto. }
  split.
  - destruct (exists_last (l := c :: s) ltac:(discriminate))
      as (s' & z & Hs).
    eapply head_ok_trimmed; [| exact Hs |].
    + simpl. apply Hchars. apply elem_of_cons. left. reflexivity.
    + apply Hchars. rewrite Hs. apply elem_of_app. right.
      apply elem_of_cons. left. reflexivity.
  - intros Hin. destruct (Hchars 10 Hin) as [_ Hne]. apply Hne. reflexivity.
Qed.

Lemma literal_one_line (s : list N) :
  forallb (fun c => negb (c =? 10)) s = true -> one_line s.
Proof.
  intros H Hin. rewrite forallb_forall in H.
  apply list_elem_of_In in Hin. specialize (H 10 Hin). discriminate H.
Qed.

Lemma literal_no_colon (s : list N) :
  forallb (fun c => negb (c =? 58)) s = true -> 58 ∉ s.
Proof.
  intros H Hin. rewrite forallb_forall in H.
  apply list_elem_of_In in Hin. specialize (H 58 Hin). discriminate H.
Qed.

Lemma created_entries_good (id name now : list N) :
  plain id -> plain name -> plain now ->
  canonical (created_entries id name now)
  /\ Forall (fun e => clean_entry e /\ key_ok (fst e))
       (created_entries id name now).
Proof.
  intros [Hid Hid1] [Hname Hname1] [Hnow Hnow1]. split.
  - unfold canonical, created_entries. cbn [map fst].
    split.
    + repeat (constructor;
              [rewrite ?not_elem_of_cons, ?elem_of_nil;
               repeat split; try discriminate; tauto |]).
      constructor.
    + split.
      * rewrite !not_elem_of_cons. repeat split; try discriminate.
        apply not_elem_of_nil.
      * exists [], [js "id"; js "name"; js "status"; js "created_at"].
        split; [reflexivity |]. split; [constructor |].
        split; [constructor |].
        repeat (constructor; [reflexivity |]). constructor.
  - unfold created_entries.
    repeat (constructor;
            [split;
             [unfold clean_entry; cbn [fst snd];
              repeat split; try assumption; try reflexivity;
              try (apply literal_one_line; reflexivity);
              try (apply literal_no_colon; reflexivity)
             | split; [discriminate | reflexivity]] |]).
    constructor.
Qed.

(** The status file of a new feature is read back as the entries it was
    written from. *)
Lemma created_parses (id name now : list N) :
  validateInput id = None -> plain name -> plain now ->
  fst (parseFrontmatter (statusContent id name now))
  = created_entries id name now.
Proof.
  intros Hvalid Hname Hnow.
  destruct (valid_id_plain id Hvalid) as [_ Hid].
  destruct (created_entries_good id name now Hid Hname Hnow) as [Hc Hgood].
  rewrite statusContent_shape, parse_updatedYaml by assumption.
  reflexivity.
Qed.

Lemma statusContent_not_empty (id name now : list N) :
  exists c s, statusContent id name now = c :: s.
Proof. unfold statusContent. eexists _, _. reflexivity. Qed.

(** What [createNewFeature] writes is what [loadFeatures] reads: for an
    ID that the input box accepts, a display name and a time stamp that
    are trimmed single lines, the status file of the new feature loads as
    the feature that [createNewFeature] returned, whatever the file is
    called. *)
Theorem created_feature_loads_back (baseName id name now : list N) :
  validateInput id = None ->
  name <> [] -> plain name -> plain now ->
  loadFeature baseName (Some (statusContent id name now))
  = Some (createdMeta id name).
Proof.
  intros Hvalid Hne Hname Hnow.
  destruct (valid_id_plain id Hvalid) as [Hid_ne _].
  unfold loadFeature.
  destruct (statusContent_not_empty id name now) as (c & s & Hcs).
  rewrite Hcs, <- Hcs.
  rewrite created_parses by assumption.
  unfold createdMeta.
  assert (Hget_id : get (created_entries id name now) (js "id") = Some id)
    by reflexivity.
  assert (Hget_name :
    get (created_entries id name now) (js "name") = Some name)
    by reflexivity.
  assert (Hget_status :
    get (created_entries id name now) (js "status") = Some (js "requested"))
    by reflexivity.
  assert (Hget_owner :
    get (created_entries id name now) (js "owner") = None)
    by reflexivity.
  rewrite Hget_id, Hget_name, Hget_status, Hget_owner.
  destruct id; [contradiction |]. destruct name; [contradiction |].
  reflexivity.
Qed.

Lemma created_feature_loads_back_witness :
  loadFeature (js "dark-mode.status.md")
    (Some (statusContent (js "dark-mode") (js "Dark Mode: the switch")
             stamp_1))
  = Some (createdMeta (js "dark-mode") (js "Dark Mode: the switch")).
Proof.
  apply created_feature_loads_back.
  - reflexivity.
  - discriminate.
  - split; [reflexivity | apply literal_one_line; reflexivity].
  - split; [reflexivity | apply literal_one_line; reflexivity].
Defined.

(** *** The suggested display name *)

Lemma capitalize_chars (s : list N) :
  forall after_word : bool,
    Forall2 (fun c c' => c' = c \/ (is_word c = true /\ c' = upper_ascii c))
      s (capitalize after_word s).
Proof.
  induction s as [| c s IH]; intros after_word; simpl; [constructor |].
  constructor; [| apply IH].
  destruct (is_word c && negb after_word) eqn:H; [| left; reflexivity].
  apply andb_prop in H. right. tauto.
Qed.

(** A character of the suggested name that comes from a character of the
    ID other than the hyphen can be seen and is no line feed. *)
Lemma name_char_visible (c c' : N) :
  is_id_char c = true -> c <> 45 ->
  c' = c \/ (is_word c = true /\ c' = upper_ascii c) ->
  is_space c' = false /\ c' <> 10.
Proof.
  unfold is_id_char. intros H Hne Hc'.
  assert (Hc : 97 <= c <= 122 \/ 48 <= c <= 57).
  { apply orb_prop in H. destruct H as [H | H].
    - apply orb_prop in H. destruct H as [H | H];
        apply andb_prop in H; destruct H as [H1 H2];
        apply N.leb_le in H1, H2; lia.
    - apply N.eqb_eq in H. contradiction. }
  clear H.
  assert (Hrange : 48 <= c' <= 122).
  { destruct Hc' as [-> | [_ ->]]; [lia |]. unfold upper_ascii.
    destruct ((97 <=? c) && (c <=? 122)) eqn:Hlow; [| lia].
    apply andb_prop in Hlow. destruct Hlow as [H1 H2].
    apply N.leb_le in H1, H2. lia. }
  split; [| lia].
  unfold is_space, mem. simpl.
  repeat match goal with
  | |- context [c' =? ?k] =>
      let E := fresh in
      destruct (N.eqb_spec c' k) as [E | E]; [lia | clear E]
  end.
  simpl. apply andb_false_iff. left. apply N.leb_gt. lia.
Qed.

Lemma defaultName_chars (id : list N) :
  Forall2 (fun c c' =>
             (c = 45 /\ c' = 32)
             \/ (c <> 45 /\ (c' = c \/ (is_word c = true
                                         /\ c' = upper_ascii c))))
    id (defaultName id).
Proof.
  unfold defaultName.
  pose proof (capitalize_chars (map (fun c => if c =? 45 then 32 else c) id)
                false) as H.
  apply Forall2_fmap_l in H. eapply Forall2_impl; [exact H |].
  intros c c' Hc. unfold compose in Hc. cbv beta in Hc.
  destruct (N.eqb_spec c 45) as [-> | Hne].
  - left. split; [reflexivity |].
    destruct Hc as [-> | [Hw _]]; [reflexivity | discriminate Hw].
  - right. auto.
Qed.

(** The name that the input box suggests for an accepted ID is fit to be
    written when the ID neither begins nor ends with a hyphen. *)
Lemma defaultName_plain (id : list N) :
  validateInput id = None ->
  head id <> Some 45 -> last id <> Some 45 ->
  defaultName id <> [] /\ plain (defaultName id).
Proof.
  intros Hvalid Hhead Hlast.
  assert (Hid : id <> [] /\ forall c, c ∈ id -> is_id_char c = true).
  { unfold validateInput in Hvalid. destruct id as [| c s]; [discriminate |].
    destruct (forallb is_id_char (c :: s)) eqn:Hall; [| discriminate].
    split; [discriminate |]. rewrite forallb_forall in Hall.
    intros x Hx. apply Hall. apply list_elem_of_In. exact Hx. }
  destruct Hid as [Hne Hchars].
  pose proof (defaultName_chars id) as Hall.
  destruct (exists_last Hne) as (init & z & Hsnoc).
  assert (Hz : z <> 45).
  { intros ->. apply Hlast. rewrite Hsnoc. apply last_snoc. }
  rewrite Hsnoc in Hall. apply Forall2_app_inv_l in Hall.
  destruct Hall as (init' & last' & Hinit & Hz' & Hname).
  apply Forall2_cons_inv_l in Hz'. destruct Hz' as (z' & l' & Hzz & Hnil & ->).
  apply Forall2_nil_inv_l in Hnil. subst l'. rewrite <- Hsnoc in Hname.
  destruct Hzz as [[Heq _] | [_ Hzz]]; [contradiction |].
  assert (Hzid : is_id_char z = true).
  { apply Hchars. rewrite Hsnoc. apply elem_of_app. right.
    apply elem_of_cons. left. reflexivity. }
  destruct (name_char_visible z z' Hzid Hz Hzz) as [Hzs _].
  split; [rewrite Hname; destruct init'; discriminate |].
  split.
  - eapply head_ok_trimmed; [| exact Hname | exact Hzs].
    destruct id as [| c s]; [contradiction |].
    pose proof (defaultName_chars (c :: s)) as Hall.
    apply Forall2_cons_inv_l in Hall.
    destruct Hall as (c' & l' & Hc & _ & Heq).
    assert (Hc45 : c <> 45).
    { intros ->. apply Hhead. reflexivity. }
    destruct Hc as [[Heq' _] | [_ Hc]]; [contradiction |].
    rewrite Heq. simpl.
    apply (name_char_visible c c');
      [apply Hchars; apply elem_of_cons; left; reflexivity | exact Hc45
      | exact Hc].
  - unfold one_line. intros Hin.
    pose proof (defaultName_chars id) as Hall'.
    apply list_elem_of_lookup in Hin. destruct Hin as [i Hi].
    destruct (Forall2_lookup_r _ _ _ i 10 Hall' Hi) as (c & Hc & Hrel).
    destruct Hrel as [[_ Heq] | [Hne' Hrel]]; [discriminate Heq |].
    assert (Hcid : is_id_char c = true).
    { apply Hchars. apply list_elem_of_lookup. eauto. }
    destruct (name_char_visible c 10 Hcid Hne' Hrel) as [_ H10].
    apply H10. reflexivity.
Qed.

(** Accepting the suggested display name is safe: for an accepted ID that
    neither begins nor ends with a hyphen, the status file written with the
    suggested name loads as the feature that [createNewFeature]
    returned. *)
Theorem suggested_name_loads_back (baseName id now : list N) :
  validateInput id = None ->
  head id <> Some 45 -> last id <> Some 45 ->
  plain now ->
  loadFeature baseName (Some (statusContent id (defaultName id) now))
  = Some (createdMeta id (defaultName id)).
Proof.
  intros Hvalid Hhead Hlast Hnow.
  destruct (defaultName_plain id Hvalid Hhead Hlast) as [Hne Hplain].
  destruct (valid_id_plain id Hvalid) as [Hid_ne _].
  revert Hne Hplain. generalize (defaultName id). intros name Hne Hplain.
  unfold loadFeature.
  destruct (statusContent_not_empty id name now) as (c & s & Hcs).
  rewrite Hcs, <- Hcs.
  rewrite created_parses by assumption.
  unfold createdMeta, created_entries. cbn [fst].
  destruct id as [| c0 id0]; [contradiction |].
  destruct name as [| c1 name1]; [contradiction |].
  reflexivity.
Qed.

Lemma suggested_name_loads_back_witness :
  loadFeature (js "user-auth.status.md")
    (Some (statusContent (js "user-auth") (defaultName (js "user-auth"))
             stamp_1))
  = Some (createdMeta (js "user-auth") (js "User Auth")).
Proof.
  apply (suggested_name_loads_back (js "user-auth.status.md")
           (js "user-auth") stamp_1).
  - reflexivity.
  - discriminate.
  - discriminate.
  - split; [reflexivity | apply literal_one_line; reflexivity].
Defined.

(** An update of the status changes what [loadFeatures] reports of the
    feature in its status and in nothing else.  When no key of the
    frontmatter is empty or begins with [---], and the new status is a
    trimmed single line that is not empty, the file that
    [updateFeatureStatus] writes loads as the feature loaded before, with
    the new status. *)
Theorem update_shows_in_loaded_feature
    (baseName content newStatus now source message : list N)
    (m : LoadedMeta) :
  newStatus <> [] -> plain newStatus ->
  Forall key_ok (map fst (fst (parseFrontmatter content))) ->
  loadFeature baseName (Some content) = Some m ->
  loadFeature baseName
    (Some (fst (updateFeatureStatus content newStatus now source message)))
  = Some (with_status m newStatus).
Proof.
  intros Hne [Htrim Hline] Hkeys Hload.
  destruct (updated_frontmatter_good content newStatus Htrim Hline Hkeys)
    as [Hc Hgood].
  unfold loadFeature in Hload. destruct content as [| c0 s0]; [discriminate |].
  injection Hload as <-. unfold with_status. cbn [id name status owner].
  unfold updateFeatureStatus in *.
  destruct (parseFrontmatter (c0 :: s0)) as [fm body]. cbn [fst snd] in *.
  unfold loadFeature.
  assert (Hwritten : exists c s,
    updatedYaml (set (js "status") newStatus fm) ++
    [10] ++ updatedBody (historyLine now source message) body = c :: s).
  { unfold updatedYaml. eexists _, _. reflexivity. }
  destruct Hwritten as (c & s & Hcs). rewrite Hcs, <- Hcs.
  rewrite parse_updatedYaml by assumption. cbn [fst].
  rewrite !get_set by exact status_not_proto.
  rewrite (bool_decide_true (js "status" = js "status")) by reflexivity.
  rewrite (bool_decide_false (js "status" = js "id")) by discriminate.
  rewrite (bool_decide_false (js "status" = js "name")) by discriminate.
  rewrite (bool_decide_false (js "status" = js "owner")) by discriminate.
  destruct newStatus; [contradiction |]. reflexivity.
Qed.

Lemma update_shows_in_loaded_feature_witness :
  loadFeature (js "demo.status.md")
    (Some (fst (updateFeatureStatus sample_status_file (js "building")
                  stamp_1 (js "user") (js "Marked as building"))))
  = Some (with_status
            {| id := js "demo"; name := js "Demo: the feature";
               status := js "draft"; owner := None |}
            (js "building")).
Proof.
  apply update_shows_in_loaded_feature.
  - discriminate.
  - split; [reflexivity | apply literal_one_line; reflexivity].
  - exact sample_keys_ok.
  - reflexivity.
Defined.

End FeatureFilesFacts.
(* --------------------------------------------------------------------- *)
(** ** Templates *)
(* --------------------------------------------------------------------- *)

Module TemplateFacts.
Import Js JsText Config FeatureFiles TemplateWords TextFacts.

Lemma getSubstitution_verbatim (matched before after v : list N) :
  36 ∉ v -> getSubstitution matched before after v = v.
Proof.
  induction v as [| c v IH]; intros H; [reflexivity |].
  apply not_elem_of_cons in H. destruct H as [Hc Hv]. simpl.
  destruct (N.eqb_spec c 36) as [-> | _]; [contradiction |].
  rewrite (IH Hv). reflexivity.
Qed.

Section Replace.
Variables (key value : list N).
Hypothesis key_identifier : identifier key.
Hypothesis value_verbatim : verbatim value.

Let pat : list N := [123] ++ key ++ [125].

(** Text without an opening brace is passed over. *)
Lemma replace_text (s t before_rev : list N) :
  brace_free s ->
  replace_from pat value 0 before_rev (s ++ t)
  = s ++ replace_from pat value 0 (rev s ++ before_rev) t.
Proof.
  unfold brace_free. revert before_rev.
  induction s as [| c s IH]; intros before_rev H; [reflexivity |].
  apply not_elem_of_cons in H. destruct H as [Hc Hs]. simpl.
  destruct (N.eqb_spec c 123) as [-> | _]; [contradiction |]. simpl.
  rewrite (IH _ Hs). rewrite <- app_assoc. reflexivity.
Qed.

(** The characters of a match are skipped. *)
Lemma replace_skip (x t before_rev : list N) :
  replace_from pat value (length x) before_rev (x ++ t)
  = replace_from pat value 0 (rev x ++ before_rev) t.
Proof.
  revert before_rev. induction x as [| c x IH]; intros before_rev;
    [reflexivity |].
  simpl. rewrite IH. rewrite <- app_assoc. reflexivity.
Qed.

Lemma word_not_brace (c : N) : is_word c = true -> c <> 123 /\ c <> 125.
Proof.
  unfold is_word. intros H.
  repeat match type of H with
  | (_ || _) = true => apply orb_prop in H; destruct H as [H | H]
  | (_ && _) = true =>
      let H1 := fresh in let H2 := fresh in
      apply andb_prop in H; destruct H as [H1 H2];
      apply N.leb_le in H1, H2
  | (_ =? _) = true => apply N.eqb_eq in H
  end; lia.
Qed.

Lemma identifier_brace_free (k : list N) :
  identifier k -> brace_free (k ++ [125]).
Proof.
  unfold identifier, brace_free. intros H.
  rewrite forallb_forall in H. rewrite elem_of_app, list_elem_of_singleton.
  intros [Hin | Heq]; [| discriminate Heq].
  apply list_elem_of_In in Hin. destruct (word_not_brace _ (H _ Hin)).
  congruence.
Qed.

Lemma startsWith_cons (c p : N) (s pat' : list N) :
  startsWith (c :: s) (p :: pat') = (c =? p) && startsWith s pat'.
Proof. reflexivity. Qed.

(** Two placeholders begin alike only if they have the same key. *)
Lemma startsWith_slot (k' t : list N) :
  identifier k' ->
  startsWith (k' ++ 125 :: t) (key ++ [125]) = true -> k' = key.
Proof.
  unfold identifier in *. revert k' key_identifier.
  clear value_verbatim pat. unfold identifier.
  induction key as [| a k IH]; intros k' Hk Hk' H.
  - destruct k' as [| b k']; [reflexivity |].
    cbn [forallb] in Hk'. apply andb_prop in Hk'. destruct Hk' as [Hb _].
    cbn [app] in H. rewrite startsWith_cons in H.
    apply andb_prop in H. destruct H as [H _]. apply N.eqb_eq in H.
    destruct (word_not_brace _ Hb). congruence.
  - cbn [forallb] in Hk. apply andb_prop in Hk. destruct Hk as [Ha Hk].
    destruct k' as [| b k']; cbn [app] in H; rewrite startsWith_cons in H.
    + apply andb_prop in H. destruct H as [H _]. apply N.eqb_eq in H.
      destruct (word_not_brace _ Ha). congruence.
    + apply andb_prop in H. destruct H as [Hab H]. apply N.eqb_eq in Hab.
      cbn [forallb] in Hk'. apply andb_prop in Hk'. destruct Hk' as [_ Hk'].
      subst b. f_equal. apply IH; assumption.
Qed.

Lemma replace_from_unfold (b : list N) (c : N) (s : list N) :
  replace_from pat value 0 b (c :: s)
  = if startsWith (c :: s) pat
    then getSubstitution pat (rev b) (drop (length pat) (c :: s)) value
         ++ replace_from pat value (length pat - 1) (c :: b) s
    else c :: replace_from pat value 0 (c :: b) s.
Proof. reflexivity. Qed.

(** A placeholder of the key is replaced by the value. *)
Lemma replace_match (t b : list N) :
  exists b',
    replace_from pat value 0 b (pat ++ t)
    = value ++ replace_from pat value 0 b' t.
Proof.
  eexists.
  assert (Hshape : pat ++ t = 123 :: ((key ++ [125]) ++ t)) by reflexivity.
  rewrite Hshape, replace_from_unfold, <- Hshape, startsWith_app.
  rewrite getSubstitution_verbatim by apply value_verbatim.
  replace (length pat - 1)%nat with (length (key ++ [125]))
    by (unfold pat; simpl; lia).
  rewrite replace_skip. reflexivity.
Qed.

(** A placeholder of another key is passed over. *)
Lemma replace_other (k t b : list N) :
  identifier k -> key <> k ->
  exists b',
    replace_from pat value 0 b (([123] ++ k ++ [125]) ++ t)
    = ([123] ++ k ++ [125]) ++ replace_from pat value 0 b' t.
Proof.
  intros Hk Hne. eexists.
  assert (Hshape : ([123] ++ k ++ [125]) ++ t = 123 :: ((k ++ [125]) ++ t))
    by reflexivity.
  rewrite Hshape, replace_from_unfold.
  assert (Hno : startsWith (123 :: (k ++ [125]) ++ t) pat = false).
  { destruct (startsWith _ pat) eqn:Hsw; [| reflexivity].
    exfalso. apply Hne. symmetry.
    unfold pat in Hsw. cbn [app] in Hsw. rewrite startsWith_cons in Hsw.
    apply andb_prop in Hsw. destruct Hsw as [_ Hsw].
    rewrite <- app_assoc in Hsw.
    apply (startsWith_slot k _ Hk Hsw). }
  rewrite Hno.
  rewrite replace_text by (apply identifier_brace_free; exact Hk).
  reflexivity.
Qed.

(** One pass of [replace] fills the placeholders of its key and leaves
    the rest of a well-formed template as it is. *)
Lemma replace_pieces (ps : list piece) :
  Forall well_formed_piece ps ->
  forall before_rev,
    replace_from pat value 0 before_rev (render ps)
    = render (map (fun p => match p with
                            | Slot k =>
                                if bool_decide (key = k) then Text value
                                else Slot k
                            | Text s => Text s
                            end) ps).
Proof.
  induction 1 as [| p ps Hp _ IH]; intros before_rev; [reflexivity |].
  unfold render in *. cbn [map concat].
  destruct p as [s | k]; cbn [well_formed_piece] in Hp.
  - cbn [piece_text]. rewrite replace_text by exact Hp. rewrite IH.
    reflexivity.
  - destruct (bool_decide_reflect (key = k)) as [<- | Hne].
    + cbn [piece_text]. fold pat.
      destruct (replace_match (concat (map piece_text ps)) before_rev)
        as (b' & ->).
      rewrite IH. reflexivity.
    + cbn [piece_text].
      destruct (replace_other k (concat (map piece_text ps)) before_rev
                  Hp Hne) as (b' & ->).
      rewrite IH. reflexivity.
Qed.

End Replace.

Lemma filled_pieces_well_formed (key value : list N) (ps : list piece) :
  verbatim value ->
  Forall well_formed_piece ps ->
  Forall well_formed_piece
    (map (fun p => match p with
                   | Slot k =>
                       if bool_decide (key = k) then Text value else Slot k
                   | Text s => Text s
                   end) ps).
Proof.
  intros [Hv _] Hall. apply Forall_forall. intros p Hp.
  apply list_elem_of_fmap_1 in Hp. destruct Hp as (q & -> & Hq).
  rewrite Forall_forall in Hall. specialize (Hall q Hq).
  destruct q as [s | k]; [exact Hall |].
  destruct (bool_decide (key = k)); [exact Hv | exact Hall].
Qed.

(** For a template made of text without opening braces and of
    placeholders, keys that are identifiers and values without opening
    brace and dollar sign, [applyTemplate] is plain substitution: every
    placeholder with a value is replaced by it, a placeholder without one
    stays, the text in between is untouched. *)
Theorem applyTemplate_fills_slots (ps : list piece)
    (substitutions : list (list N * list N)) :
  Forall well_formed_piece ps ->
  Forall (fun e => identifier (fst e) /\ verbatim (snd e)) substitutions ->
  applyTemplate (render ps) substitutions = fill substitutions ps.
Proof.
  intros Hps Hsubs. unfold applyTemplate. revert ps Hps.
  induction Hsubs as [| [k v] subs [Hk Hv] _ IH]; intros ps Hps.
  - reflexivity.
  - simpl fold_left. cbn [fst snd] in *. unfold replaceAll.
    rewrite (replace_pieces k v Hk Hv ps Hps).
    rewrite IH by (apply filled_pieces_well_formed; assumption).
    unfold fill. rewrite map_map. f_equal. apply map_ext_in.
    intros [s | key] Hin; [reflexivity |]. simpl.
    destruct (bool_decide (k = key)); reflexivity.
Qed.

Lemma applyTemplate_fills_slots_witness :
  applyTemplate (render sample_template) sample_substitutions
  = fill sample_substitutions sample_template.
Proof.
  apply applyTemplate_fills_slots.
  - unfold sample_template.
    repeat (constructor;
            [first [ reflexivity
                   | unfold well_formed_piece, brace_free; intros H;
                     vm_compute in H;
                     repeat (apply elem_of_cons in H as [H | H];
                             [discriminate H |]);
                     apply elem_of_nil in H; exact H ] |]).
    constructor.
  - unfold sample_substitutions.
    repeat (constructor;
            [split; [reflexivity |];
             split; intros H; vm_compute in H;
             repeat (apply elem_of_cons in H as [H | H];
                     [discriminate H |]);
             apply elem_of_nil in H; exact H |]).
    constructor.
Defined.

End TemplateFacts.
(* --------------------------------------------------------------------- *)
(** ** The diff that reaches the primary reviewer *)
(* --------------------------------------------------------------------- *)

Module ReviewInputs.
Import FeatureModel Js PlanParser World ClaudeCode WorkflowStatus GitUtils
  OpenaiReview CodeReview BuildLoop Spec Scenario RunFacts SessionFacts.
Import Observations ReviewErrors Frame JsFacts.

Section Guard.
Variables (env : Env) (old : list Event).
Hypothesis openai : reviewerProvider env = provider_openai.









End Guard.



End ReviewInputs.
